(** * D8 methods of richdem: flow accumulation, upslope tracing, SPI/CTI

    A shallow embedding of [include/richdem/methods/d8_methods.hpp] and the
    properties its specification states about it. *)

From Stdlib Require Import ZArith Lia Bool String.
From Stdlib Require Import Floats.SpecFloat.
From stdpp Require Import prelude.

Local Open Scope Z_scope.

(** ** Grid cells *)

(** [GridCell] of [richdem/common/grid_cell.hpp]: a pair of [int]
    coordinates.  Coordinates stay between [-1] and the raster's width or
    height in every computation below, so they are plain integers. *)
Record GridCell : Type := mkGridCell { cell_x : Z; cell_y : Z }.

#[global] Instance GridCell_eq_dec : EqDecision GridCell.
Proof. solve_decision. Defined.

(** ** Rasters *)

Module Array2D.

  (** Modelled from the spec: [richdem/common/Array2D.hpp] is not among the
      sources, so the raster follows sections 3 and 4.1 of the specification:
      a width, a height, the cells in row-major order and a [noData]
      sentinel.  Geotransform and projection play no role below. *)
Record t (T : Type) : Type := mk {
    width  : Z;
    height : Z;
    data   : list T;
    noData : T
  }.
Arguments mk {T} _ _ _ _.
Arguments width {T} _.
Arguments height {T} _.
Arguments data {T} _.
Arguments noData {T} _.

Section ops.
Context {T : Type}.

    (** Modelled from the spec: [size() = W*H]. *)
Definition size (a : t T) : Z := width a * height a.

    (** Modelled from the spec: [inGrid(x,y)] is true iff
        [0 <= x < W] and [0 <= y < H]. *)
Definition inGrid (a : t T) (x y : Z) : bool :=
      (0 <=? x) && (x <? width a) && (0 <=? y) && (y <? height a).

Definition xyToI (a : t T) (x y : Z) : nat := Z.to_nat (y * width a + x).

    (** Modelled from the spec: [get(x,y)] and [set(x,y,v)] are unchecked;
        callers must ensure [inGrid].  Outside the grid the model reads the
        sentinel and writes nothing or a neighbouring row; no statement
        below relies on it. *)
Definition get (a : t T) (x y : Z) : T :=
      default (noData a) (data a !! xyToI a x y).

Definition set (a : t T) (x y : Z) (v : T) : t T :=
      mk (width a) (height a) (<[xyToI a x y := v]> (data a)) (noData a).

    (** Modelled from the spec: [isNoData(x,y)] equals [get(x,y) == nodata]. *)
Definition isNoData `{EqDecision T} (a : t T) (x y : Z) : bool :=
      bool_decide (get a x y = noData a).

    (** Modelled from the spec: [setNoData(v)]. *)
Definition setNoData (a : t T) (v : T) : t T :=
      mk (width a) (height a) (data a) v.

    (** Modelled from the spec: [setAll(v)] overwrites every cell. *)
Definition setAll (a : t T) (v : T) : t T :=
      mk (width a) (height a) (replicate (length (data a)) v) (noData a).

    (** Modelled from the spec: [resize(template, fill)] allocates [W*H]
        elements equal to [fill] and adopts the template's shape. *)
Definition resize {U : Type} (a : t T) (other : t U) (fill : T) : t T :=
      mk (width other) (height other)
         (replicate (Z.to_nat (width other * height other)) fill) (noData a).

    (** Modelled from the spec: the constructor from a template raster,
        [Array2D<T>(other, val)].  Its sentinel is never read below. *)
Definition from_template {U : Type} (other : t U) (val : T) : t T :=
      mk (width other) (height other)
         (replicate (Z.to_nat (width other * height other)) val) val.

    (** Modelled from the spec: [countVal(v)] is the count of cells equal
        to [v]. *)
Definition countval `{EqDecision T} (a : t T) (v : T) : Z :=
      Z.of_nat (length (filter (λ e, e = v) (data a))).

    (** Representation invariant of a raster: non-negative shape and one
        stored element per cell. *)
Definition ok (a : t T) : Prop :=
      0 <= width a ∧ 0 <= height a ∧
      length (data a) = Z.to_nat (width a * height a).

Definition same_shape {U : Type} (a : t T) (b : t U) : Prop :=
      width a = width b ∧ height a = height b.
End ops.

  (** The cells of a [W]x[H] raster, row by row: the order of
      [for y ... for x ...]. *)
Definition cells_of (w h : Z) : list GridCell :=
    y ← seqZ 0 h; x ← seqZ 0 w; [mkGridCell x y].

Definition cells {T} (a : t T) : list GridCell :=
    cells_of (width a) (height a).

Definition getc {T} (a : t T) (c : GridCell) : T :=
    get a (cell_x c) (cell_y c).
Definition setc {T} (a : t T) (c : GridCell) (v : T) : t T :=
    set a (cell_x c) (cell_y c) v.
Definition inGridc {T} (a : t T) (c : GridCell) : bool :=
    inGrid a (cell_x c) (cell_y c).

End Array2D.

(** ** Machine integers *)

(** Conversion of an integer result to a signed [w]-bit type, as the
    platform's two's-complement narrowing does. *)
Definition wrap_signed (w : Z) (z : Z) : Z :=
  (z + 2 ^ (w - 1)) mod 2 ^ w - 2 ^ (w - 1).

Definition wrap_int8 : Z → Z := wrap_signed 8.
Definition wrap_int32 : Z → Z := wrap_signed 32.

(** ** Sums over lists of cells *)

Definition Zsum {A : Type} (f : A → Z) (l : list A) : Z :=
  foldr (λ x s, f x + s) 0 l.

(** Indicator of a boolean test. *)
Definition ind (b : bool) : Z := if b then 1 else 0.

(** ** D8 flow accumulation *)

(** The state of the drain loop of [d8_flow_accum]: the two rasters it
    updates, the [sources] queue, and the cells dequeued so far in order
    (the source keeps only their number, [ccount]). *)
Record drain_state : Type := mkDrain {
  ds_area       : Array2D.t Z;
  ds_dependency : Array2D.t Z;
  ds_sources    : list GridCell;
  ds_visited    : list GridCell
}.

(** What [d8_flow_accum] leaves behind: the [area] raster handed back to the
    caller, the final dependency raster, the cells processed and the number
    written to the log as [loops]. *)
Record flow_accum_result : Type := mkFlowAccum {
  fa_area       : Array2D.t Z;
  fa_dependency : Array2D.t Z;
  fa_visited    : list GridCell;
  fa_loops      : Z
}.

(** The first loop of [d8_flow_accum] is a [#pragma omp parallel for] over
    the rows, and its [++dependency(nx,ny)] reads and then writes a cell of
    row [y-1], [y] or [y+1] without [atomic].  The loop is therefore taken
    apart into the memory operations of each row, which run in order, while
    the operations of different rows interleave. *)
Inductive row_op : Type :=
| SetNoData (c : GridCell)   (* area(x,y) = area.noData() *)
| LoadDep (n : GridCell)     (* the read of ++dependency(nx,ny) *)
| StoreDep (n : GridCell).   (* its write *)

(** A row in progress: the operations it still has to make and the value
    it last read. *)
Record row_thread : Type := mkThread {
  th_ops : list row_op;
  th_reg : Z
}.

(** The state of the first loop: the two rasters and the rows. *)
Record phase_state : Type := mkPhase {
  ps_area       : Array2D.t Z;
  ps_dependency : Array2D.t Z;
  ps_rows       : list row_thread
}.

Section flow_accum.

  (** The direction constants of [richdem/common/constants.hpp] are not
      among the sources; the numbering is left open, as in section 3 of the
      specification.  [dx n] and [dy n] are the table lookups [dx[n]] and
      [dy[n]]. *)
Variable NO_FLOW : Z.
Variables dx dy : Z → Z.

  (** The element type [U] of the area raster is a template parameter:
      [castU] is the conversion of an integer result into [U]. *)
Variable castU : Z → Z.

Implicit Types (flowdirs area dependency : Array2D.t Z) (c n : GridCell).

  (** *** Phase 1: the dependency raster and the sentinel cells *)

  (** The memory operations of the loop body of lines 76-94 at the cell
      [c]. *)
Definition cell_ops flowdirs (c : GridCell) : list row_op :=
    let x := cell_x c in
    let y := cell_y c in
    if Array2D.isNoData flowdirs x y then [SetNoData c]
    else
      let n := Array2D.get flowdirs x y in
      if n =? NO_FLOW then []
      else
        let nx := x + dx n in
        let ny := y + dy n in
        if negb (Array2D.inGrid flowdirs nx ny) then []
        else [LoadDep (mkGridCell nx ny); StoreDep (mkGridCell nx ny)].

  (** The inner loop [for(int x=0;x<flowdirs.width();x++)] of row [y]. *)
Definition row_ops flowdirs (y : Z) : list row_op :=
    x ← seqZ 0 (Array2D.width flowdirs); cell_ops flowdirs (mkGridCell x y).

  (** Row [y] makes its next operation, if it has one left. *)
Definition phase_step (st : phase_state) (y : nat) : phase_state :=
    match ps_rows st !! y with
    | Some th =>
        match th_ops th with
        | [] => st
        | SetNoData c :: ops =>
            mkPhase (Array2D.setc (ps_area st) c (Array2D.noData (ps_area st)))
                    (ps_dependency st)
                    (<[y := mkThread ops (th_reg th)]> (ps_rows st))
        | LoadDep n :: ops =>
            mkPhase (ps_area st) (ps_dependency st)
                    (<[y := mkThread ops (Array2D.getc (ps_dependency st) n)]>
                       (ps_rows st))
        | StoreDep n :: ops =>
            mkPhase (ps_area st)
                    (Array2D.setc (ps_dependency st) n (wrap_int8 (th_reg th + 1)))
                    (<[y := mkThread ops (th_reg th)]> (ps_rows st))
        end
    | None => st
    end.

  (** The rows one after another, each to its end: a row makes at most two
      operations per cell. *)
Definition rows_in_turn flowdirs : list nat :=
    y ← seq 0 (Z.to_nat (Array2D.height flowdirs));
    replicate (2 * Z.to_nat (Array2D.width flowdirs)) y.

  (** Lines 64-96.  [sched] names, operation by operation, the row that
      moves next; the loop ends when every row is done, so the rows that
      [sched] leaves unfinished are then run to their end.  The empty
      schedule is the execution by one thread. *)
Definition dependency_phase (sched : list nat) flowdirs (area : Array2D.t Z)
      : Array2D.t Z * Array2D.t Z :=
    let dependency := Array2D.from_template flowdirs (wrap_int8 0) in
    let area := Array2D.resize area flowdirs (castU 0) in
    let area := Array2D.setNoData area (castU (-1)) in
    let rows :=
      (λ y, mkThread (row_ops flowdirs y) 0) <$> seqZ 0 (Array2D.height flowdirs) in
    let st :=
      foldl phase_step (mkPhase area dependency rows)
            (sched ++ rows_in_turn flowdirs) in
    (ps_area st, ps_dependency st).

  (** The loop body run without interruption: what a row does at the cell
      [c] while no other row is in between its read and its write. *)
Definition dependency_body flowdirs
      (st : Array2D.t Z * Array2D.t Z) (c : GridCell)
      : Array2D.t Z * Array2D.t Z :=
    let '(area, dependency) := st in
    let x := cell_x c in
    let y := cell_y c in
    if Array2D.isNoData flowdirs x y then
      (Array2D.set area x y (Array2D.noData area), dependency)
    else
      let n := Array2D.get flowdirs x y in
      if n =? NO_FLOW then (area, dependency)
      else
        let nx := x + dx n in
        let ny := y + dy n in
        if negb (Array2D.inGrid flowdirs nx ny) then (area, dependency)
        else
          (area,
           Array2D.set dependency nx ny
             (wrap_int8 (Array2D.get dependency nx ny + 1))).

  (** *** Phase 2: locating the source cells (lines 100-103) *)

Definition sources_body flowdirs dependency
      (sources : list GridCell) (c : GridCell) : list GridCell :=
    let x := cell_x c in
    let y := cell_y c in
    if (Array2D.get dependency x y =? 0) && negb (Array2D.isNoData flowdirs x y)
    then sources ++ [c] else sources.

Definition sources_phase flowdirs dependency : list GridCell :=
    foldl (sources_body flowdirs dependency) [] (Array2D.cells flowdirs).

  (** *** Phase 3: the drain loop (lines 108-135) *)

  (** One iteration on the dequeued cell [c]: the updated rasters and the
      cell it pushes, if any. *)
Definition drain_body flowdirs (c : GridCell) area dependency
      : Array2D.t Z * Array2D.t Z * option GridCell :=
    let area :=
      Array2D.set area (cell_x c) (cell_y c)
        (castU (Array2D.get area (cell_x c) (cell_y c) + 1)) in
    let n := Array2D.get flowdirs (cell_x c) (cell_y c) in
    if n =? NO_FLOW then (area, dependency, None)
    else
      let nx := cell_x c + dx n in
      let ny := cell_y c + dy n in
      if negb (Array2D.inGrid flowdirs nx ny) then (area, dependency, None)
      else if Array2D.isNoData flowdirs nx ny then (area, dependency, None)
      else
        let area :=
          Array2D.set area nx ny
            (castU (Array2D.get area nx ny
                    + Array2D.get area (cell_x c) (cell_y c))) in
        let dependency :=
          Array2D.set dependency nx ny
            (wrap_int8 (Array2D.get dependency nx ny - 1)) in
        if Array2D.get dependency nx ny =? 0
        then (area, dependency, Some (mkGridCell nx ny))
        else (area, dependency, None).

  (** [std::queue]: [front]/[pop] take the head, [emplace] appends. *)
Definition drain_step flowdirs (st : drain_state) : option drain_state :=
    match ds_sources st with
    | [] => None
    | c :: rest =>
        let '(area, dependency, pushed) :=
          drain_body flowdirs c (ds_area st) (ds_dependency st) in
        Some (mkDrain area dependency (rest ++ option_list pushed)
                      (ds_visited st ++ [c]))
    end.

  (** The [while(sources.size()>0)] loop; [None] only when the fuel runs
      out before the queue is empty. *)
Fixpoint drain_loop (fuel : nat) flowdirs (st : drain_state)
      : option drain_state :=
    match drain_step flowdirs st with
    | None => Some st
    | Some st' =>
        match fuel with
        | O => None
        | S fuel' => drain_loop fuel' flowdirs st'
        end
    end.

  (** *** The loop count of lines 139-142

      [for(int i=-1;i>=-8;i--) loops+=dependency.countval(-1);] *)
Definition count_loops dependency : Z :=
    foldl (λ loops (i : Z), wrap_int32 (loops + Array2D.countval dependency (-1)))
          0 [-1; -2; -3; -4; -5; -6; -7; -8].

  (** *** The whole function

      The fuel of the drain loop is the number of cells of the raster;
      [drain_run] shows it is enough. *)
Definition drain_init (sched : list nat) flowdirs (area : Array2D.t Z)
      : drain_state :=
    let '(area, dependency) := dependency_phase sched flowdirs area in
    mkDrain area dependency (sources_phase flowdirs dependency) [].

Definition d8_flow_accum (sched : list nat) flowdirs (area : Array2D.t Z)
      : option flow_accum_result :=
    st ← drain_loop (length (Array2D.cells flowdirs)) flowdirs
                    (drain_init sched flowdirs area);
    Some (mkFlowAccum (ds_area st) (ds_dependency st) (ds_visited st)
                      (count_loops (ds_dependency st))).

End flow_accum.

(** ** The flow graph of a direction raster *)

Section flow_graph.

Variable NO_FLOW : Z.
Variables dx dy : Z → Z.

Implicit Types (fd : Array2D.t Z) (c n : GridCell).

(** A data cell: inside the grid and not the sentinel. *)
Definition is_data fd c : bool :=
  Array2D.inGridc fd c && negb (Array2D.isNoData fd (cell_x c) (cell_y c)).

(** The neighbour a cell's direction points at. *)
Definition target fd c : GridCell :=
  let n := Array2D.getc fd c in
  mkGridCell (cell_x c + dx n) (cell_y c + dy n).

(** The edge of the flow graph that leaves [c]: the data cell that receives
    the area of the data cell [c] in the drain loop, if there is one. *)
Definition flow_to fd c : option GridCell :=
  if negb (is_data fd c) then None
  else if Array2D.getc fd c =? NO_FLOW then None
  else if negb (Array2D.inGridc fd (target fd c)) then None
  else if negb (is_data fd (target fd c)) then None
  else Some (target fd c).

(** [c] counts in the dependency value of the in-grid cell [n]. *)
Definition feeds fd c n : bool :=
  is_data fd c && negb (Array2D.getc fd c =? NO_FLOW)
  && bool_decide (target fd c = n).

(** The number of cells that count in the dependency value of [n]. *)
Definition indegree fd n : Z :=
  Zsum (λ c, ind (feeds fd c n)) (Array2D.cells fd).

(** The cell reached from [c] after [k] steps of the flow. *)
Fixpoint walk fd (k : nat) c : option GridCell :=
  match k with
  | O => Some c
  | S k' => flow_to fd c ≫= walk fd k'
  end.

(** The flow graph is acyclic: no flow path returns to its start. *)
Definition acyclic fd : Prop :=
  ∀ c k, Array2D.inGridc fd c = true → (0 < k)%nat → walk fd k c ≠ Some c.

(** Every flow path ends within as many steps as there are cells: the
    executable form of [acyclic]. *)
Definition acyclicb fd : bool :=
  forallb (λ c, bool_decide (walk fd (length (Array2D.cells fd)) c = None))
          (Array2D.cells fd).

(** [c] lies on the flow path that starts at [c'], looking at most [fuel]
    steps ahead. *)
Fixpoint path_hits fd (fuel : nat) (c' c : GridCell) : bool :=
  bool_decide (c' = c) ||
  match fuel with
  | O => false
  | S fuel' =>
      match flow_to fd c' with
      | Some n => path_hits fd fuel' n c
      | None => false
      end
  end.

Definition on_flow_path fd (c' c : GridCell) : bool :=
  path_hits fd (length (Array2D.cells fd)) c' c.

(** The number of data cells whose flow path includes [c]. *)
Definition upslope_count fd c : Z :=
  Z.of_nat (length (filter (λ c', is_data fd c' = true ∧ on_flow_path fd c' c = true)
                           (Array2D.cells fd))).

(** A sink: a data cell with direction [NO_FLOW], or whose downstream step
    leaves the grid, or whose downstream cell is nodata. *)
Definition is_sink fd c : bool :=
  is_data fd c &&
  ((Array2D.getc fd c =? NO_FLOW)
   || negb (Array2D.inGridc fd (target fd c))
   || Array2D.isNoData fd (cell_x (target fd c)) (cell_y (target fd c))).

Definition num_data_cells fd : Z :=
  Z.of_nat (length (filter (λ c, is_data fd c = true) (Array2D.cells fd))).

(** A direction raster: a well-formed raster whose values are the sentinel,
    [NO_FLOW] or one of the directions 1..8. *)
Definition direction_ok fd (v : Z) : Prop :=
  v = Array2D.noData fd ∨ v = NO_FLOW ∨ 1 <= v <= 8.

Definition flowdirs_ok fd : Prop :=
  Array2D.ok fd ∧ Forall (direction_ok fd) (Array2D.data fd).

End flow_graph.

(** The area type [U] represents the sentinel -1 and every cell count of
    the raster exactly. *)
Definition U_exact (castU : Z → Z) (fd : Array2D.t Z) : Prop :=
  ∀ z, -1 <= z <= Array2D.size fd → castU z = z.

(** ** Worklist disciplines *)

(** The container that holds the cells ready to be processed: how the next
    cell is taken out and how a cell is put in. *)
Record worklist : Type := mkWorklist {
  wl_pop  : list GridCell → option (GridCell * list GridCell);
  wl_push : list GridCell → GridCell → list GridCell
}.

Definition pop_head (l : list GridCell) : option (GridCell * list GridCell) :=
  match l with
  | [] => None
  | c :: rest => Some (c, rest)
  end.

(** [std::queue]. *)
Definition fifo : worklist := mkWorklist pop_head (λ l c, l ++ [c]).

(** [std::stack]. *)
Definition lifo : worklist := mkWorklist pop_head (λ l c, c :: l).

Fixpoint insert_by (key : GridCell → Z) (c : GridCell) (l : list GridCell)
    : list GridCell :=
  match l with
  | [] => [c]
  | d :: l' => if key c <=? key d then c :: l else d :: insert_by key c l'
  end.

(** A priority queue ordered by [key], smallest first. *)
Definition priority (key : GridCell → Z) : worklist :=
  mkWorklist pop_head (λ l c, insert_by key c l).

(** A discipline neither loses nor invents cells. *)
Definition worklist_ok (w : worklist) : Prop :=
  (∀ l c rest, wl_pop w l = Some (c, rest) → l ≡ₚ c :: rest) ∧
  (∀ l, wl_pop w l = None → l = []) ∧
  (∀ l c, wl_push w l c ≡ₚ c :: l).

Section flow_accum_with.

Variable NO_FLOW : Z.
Variables dx dy : Z → Z.
Variable castU : Z → Z.
Variable w : worklist.

Implicit Types (flowdirs area dependency : Array2D.t Z) (c n : GridCell).

(** [d8_flow_accum] with its [std::queue] replaced by the worklist [w]. *)
Definition sources_body_with flowdirs dependency
    (sources : list GridCell) (c : GridCell) : list GridCell :=
  let x := cell_x c in
  let y := cell_y c in
  if (Array2D.get dependency x y =? 0) && negb (Array2D.isNoData flowdirs x y)
  then wl_push w sources c else sources.

Definition sources_phase_with flowdirs dependency : list GridCell :=
  foldl (sources_body_with flowdirs dependency) [] (Array2D.cells flowdirs).

Definition drain_step_with flowdirs (st : drain_state) : option drain_state :=
  match wl_pop w (ds_sources st) with
  | None => None
  | Some (c, rest) =>
      let '(area, dependency, pushed) :=
        drain_body NO_FLOW dx dy castU flowdirs c (ds_area st) (ds_dependency st) in
      Some (mkDrain area dependency
                    (match pushed with
                     | Some n => wl_push w rest n
                     | None => rest
                     end)
                    (ds_visited st ++ [c]))
  end.

Fixpoint drain_loop_with (fuel : nat) flowdirs (st : drain_state)
    : option drain_state :=
  match drain_step_with flowdirs st with
  | None => Some st
  | Some st' =>
      match fuel with
      | O => None
      | S fuel' => drain_loop_with fuel' flowdirs st'
      end
  end.

Definition drain_init_with (sched : list nat) flowdirs (area : Array2D.t Z)
    : drain_state :=
  let '(area, dependency) :=
    dependency_phase NO_FLOW dx dy castU sched flowdirs area in
  mkDrain area dependency (sources_phase_with flowdirs dependency) [].

Definition d8_flow_accum_with (sched : list nat) flowdirs (area : Array2D.t Z)
    : option flow_accum_result :=
  st ← drain_loop_with (length (Array2D.cells flowdirs)) flowdirs
                       (drain_init_with sched flowdirs area);
  Some (mkFlowAccum (ds_area st) (ds_dependency st) (ds_visited st)
                    (count_loops (ds_dependency st))).

End flow_accum_with.

(** ** The first loop under a schedule *)

(** Under [sched] the first loop has lost no increment: every cell of the
    dependency raster holds the number of cells that flow into it.  The
    dependency raster does not depend on the area raster or on its element
    type ([dependency_phase_snd]), which are taken here as the direction
    raster and the integers. *)
Definition lossless (NO_FLOW : Z) (dx dy : Z → Z) (sched : list nat)
    (fd : Array2D.t Z) : bool :=
  forallb
    (λ n, Array2D.getc (snd (dependency_phase NO_FLOW dx dy id sched fd fd)) n
          =? indegree NO_FLOW dx dy fd n)
    (Array2D.cells fd).

(** The operations that write the dependency cell [n], and the ones that
    write the area cell [c]. *)
Definition is_store (n : GridCell) (op : row_op) : bool :=
  match op with
  | StoreDep m => bool_decide (m = n)
  | _ => false
  end.

Definition is_mark (c : GridCell) (op : row_op) : bool :=
  match op with
  | SetNoData m => bool_decide (m = c)
  | _ => false
  end.

(** How many operations that pass the test [f] the rows have left. *)
Definition pending (f : row_op → bool) (rows : list row_thread) : Z :=
  Zsum (λ th, Zsum (λ op, ind (f op)) (th_ops th)) rows.

(** What a row has left pairs every write of a dependency cell with the
    read before it. *)
Fixpoint paired (ops : list row_op) : Prop :=
  match ops with
  | [] => True
  | SetNoData _ :: ops => paired ops
  | LoadDep n :: StoreDep m :: ops => n = m ∧ paired ops
  | _ => False
  end.

Section phase_invariants.

Variable NO_FLOW : Z.
Variables dx dy : Z → Z.
Variable castU : Z → Z.
Variable fd : Array2D.t Z.

Definition op_ok (op : row_op) : Prop :=
  match op with
  | SetNoData c => Array2D.inGridc fd c = true ∧ is_data fd c = false
  | LoadDep n | StoreDep n => Array2D.inGridc fd n = true
  end.

(** A row between the read and the write of an increment holds a value
    that other rows may have overtaken, but that is not above the number of
    writes made so far. *)
Definition row_ok (rows : list row_thread) (th : row_thread) : Prop :=
  Forall op_ok (th_ops th) ∧
  match th_ops th with
  | StoreDep n :: ops =>
      paired ops ∧ 0 <= th_reg th ∧
      th_reg th + pending (is_store n) rows <= indegree NO_FLOW dx dy fd n
  | ops => paired ops
  end.

(** What holds of the first loop at every point of every interleaving: a
    dependency cell holds at least 1 once a write has reached it and never
    more than the writes made; a cell of the area raster is written only by
    its own row. *)
Record phase_inv (st : phase_state) : Prop := mkPhaseInv {
  pi_area_ok    : Array2D.ok (ps_area st);
  pi_area_shape : Array2D.same_shape (ps_area st) fd;
  pi_sentinel   : Array2D.noData (ps_area st) = castU (-1);
  pi_dep_ok     : Array2D.ok (ps_dependency st);
  pi_dep_shape  : Array2D.same_shape (ps_dependency st) fd;
  pi_data       : ∀ c, is_data fd c = true →
      Array2D.getc (ps_area st) c = castU 0;
  pi_nodata     : ∀ c, Array2D.inGridc fd c = true → is_data fd c = false →
      Array2D.getc (ps_area st) c = castU (-1) ∨
      (Array2D.getc (ps_area st) c = castU 0 ∧
       1 <= pending (is_mark c) (ps_rows st));
  pi_dep        : ∀ n, Array2D.inGridc fd n = true →
      0 <= Array2D.getc (ps_dependency st) n ∧
      Array2D.getc (ps_dependency st) n + pending (is_store n) (ps_rows st)
      <= indegree NO_FLOW dx dy fd n;
  pi_dep_pos    : ∀ n, Array2D.inGridc fd n = true →
      pending (is_store n) (ps_rows st) < indegree NO_FLOW dx dy fd n →
      1 <= Array2D.getc (ps_dependency st) n;
  pi_rows       : ∀ y th, ps_rows st !! y = Some th → row_ok (ps_rows st) th
}.

(** The operations row [y] has left. *)
Definition ops_left (st : phase_state) (y : nat) : nat :=
  match ps_rows st !! y with
  | Some th => length (th_ops th)
  | None => O
  end.

End phase_invariants.

(** ** Invariants of the drain loop *)

Section drain_invariants.

Variable NO_FLOW : Z.
Variables dx dy : Z → Z.

Implicit Types (fd : Array2D.t Z) (st : drain_state) (c n : GridCell).

(** The dependency raster counts, for every data cell, the cells that feed
    it and have not been processed; the cells with count zero are the ones
    processed or waiting; a processed cell comes after the cells that flow
    into it. *)
Record dep_inv fd st : Prop := mkDepInv {
  di_ok    : Array2D.ok (ds_dependency st);
  di_shape : Array2D.same_shape (ds_dependency st) fd;
  di_nodup : NoDup (ds_visited st ++ ds_sources st);
  di_data  : ∀ c, c ∈ ds_visited st ++ ds_sources st → is_data fd c = true;
  di_count : ∀ n, is_data fd n = true →
      Array2D.getc (ds_dependency st) n =
      Zsum (λ c, ind (feeds NO_FLOW dx dy fd c n
                      && negb (bool_decide (c ∈ ds_visited st))))
           (Array2D.cells fd);
  di_zero  : ∀ c, is_data fd c = true →
      (c ∈ ds_visited st ++ ds_sources st ↔
       Array2D.getc (ds_dependency st) c = 0);
  di_order : ∀ i p q, ds_visited st !! i = Some p →
      flow_to NO_FLOW dx dy fd q = Some p →
      ∃ j, (j < i)%nat ∧ ds_visited st !! j = Some q;
  di_range : ∀ n, Array2D.inGridc fd n = true →
      0 <= Array2D.getc (ds_dependency st) n <= 8
}.

(** The same for whatever the first loop has left in the dependency raster,
    [dep0], lost increments included: the dependency value of a data cell
    is its first value less the processed cells that flow into it; the
    cells at or below zero are the ones processed or waiting; and a
    processed cell comes after as many of its feeders as its first value. *)
Record push_inv fd (dep0 : Array2D.t Z) st : Prop := mkPushInv {
  pu_ok    : Array2D.ok (ds_dependency st);
  pu_shape : Array2D.same_shape (ds_dependency st) fd;
  pu_nodup : NoDup (ds_visited st ++ ds_sources st);
  pu_data  : ∀ c, c ∈ ds_visited st ++ ds_sources st → is_data fd c = true;
  pu_first : ∀ n, is_data fd n = true →
      0 <= Array2D.getc dep0 n <= indegree NO_FLOW dx dy fd n;
  pu_count : ∀ n, is_data fd n = true →
      Array2D.getc (ds_dependency st) n =
      Array2D.getc dep0 n
      - Zsum (λ c, ind (feeds NO_FLOW dx dy fd c n
                        && bool_decide (c ∈ ds_visited st)))
             (Array2D.cells fd);
  pu_zero  : ∀ c, is_data fd c = true →
      (c ∈ ds_visited st ++ ds_sources st ↔
       Array2D.getc (ds_dependency st) c <= 0);
  pu_hist  : ∀ i c, ds_visited st !! i = Some c →
      Array2D.getc dep0 c <=
      Zsum (λ p, ind (feeds NO_FLOW dx dy fd p c
                      && bool_decide (p ∈ take i (ds_visited st))))
           (Array2D.cells fd)
}.

(** What a cell holds towards the total of [area_inv]: an unprocessed data
    cell its area and itself, a processed sink its area, any other cell
    nothing. *)
Definition mass_term fd st c : Z :=
  if is_data fd c then
    if bool_decide (c ∈ ds_visited st) then
      match flow_to NO_FLOW dx dy fd c with
      | None => Array2D.getc (ds_area st) c
      | Some _ => 0
      end
    else Array2D.getc (ds_area st) c + 1
  else 0.

(** What a cell has passed on to [c] so far. *)
Definition inflow_term fd st c p : Z :=
  if bool_decide (flow_to NO_FLOW dx dy fd p = Some c)
     && bool_decide (p ∈ ds_visited st)
  then Array2D.getc (ds_area st) p else 0.

Record area_inv fd st : Prop := mkAreaInv {
  ai_ok     : Array2D.ok (ds_area st);
  ai_shape  : Array2D.same_shape (ds_area st) fd;
  ai_sentinel : Array2D.noData (ds_area st) = -1;
  ai_nodata : ∀ c, Array2D.inGridc fd c = true → is_data fd c = false →
      Array2D.getc (ds_area st) c = -1;
  ai_nonneg : ∀ c, is_data fd c = true → 0 <= Array2D.getc (ds_area st) c;
  ai_mass   : Zsum (mass_term fd st) (Array2D.cells fd) = num_data_cells fd;
  ai_rec    : ∀ c, is_data fd c = true →
      Array2D.getc (ds_area st) c =
      ind (bool_decide (c ∈ ds_visited st))
      + Zsum (inflow_term fd st c) (Array2D.cells fd)
}.

End drain_invariants.

(** What the drain loop never touches: the shape and the sentinel of the
    area raster, and the cells that are not data cells. *)
Definition frame_inv (castU : Z → Z) (fd : Array2D.t Z) (st : drain_state) : Prop :=
  Array2D.ok (ds_area st) ∧ Array2D.same_shape (ds_area st) fd ∧
  Array2D.noData (ds_area st) = castU (-1) ∧
  ∀ c, Array2D.inGridc fd c = true → is_data fd c = false →
       Array2D.getc (ds_area st) c = castU (-1).

Section drain_runs.

Variable NO_FLOW : Z.
Variables dx dy : Z → Z.
Variable castU : Z → Z.

(** The state after exactly [k] iterations of the drain loop, if it runs
    that long. *)
Fixpoint drain_steps (k : nat) (flowdirs : Array2D.t Z) (st : drain_state)
    : option drain_state :=
  match k with
  | O => Some st
  | S k' =>
      match drain_step NO_FLOW dx dy castU flowdirs st with
      | Some st' => drain_steps k' flowdirs st'
      | None => None
      end
  end.

End drain_runs.

(** The number of data cells whose dependency value is positive. *)
Definition positive_dependency_cells (fd dependency : Array2D.t Z) : Z :=
  Z.of_nat (length (filter (λ c, is_data fd c = true ∧ 0 < Array2D.getc dependency c)
                           (Array2D.cells fd))).

(** The 1x5 chain [3,3,3,3,NO_FLOW] of section 8 of the specification, for
    any value of [NO_FLOW] and of the sentinel. *)
Definition chain_raster (NO_FLOW nodata : Z) : Array2D.t Z :=
  Array2D.mk 5 1 [3; 3; 3; 3; NO_FLOW] nodata.

(** ** How a call ends *)

(** A call with an out-parameter returns, or throws [std::runtime_error]
    with a message, or makes an access outside a raster, which [Array2D]
    does not check: what the source does then is not defined.  [out] is
    the value of the out-parameter when the call ends. *)
Inductive outcome (A : Type) : Type :=
| Returned (out : A)
| Threw (out : A) (msg : string)
| Undefined.
Arguments Returned {A} _.
Arguments Threw {A} _ _.
Arguments Undefined {A}.

(** ** SPI and CTI *)

Section spi_cti.

(** The element types of the three rasters are template parameters.  The
    values written to [result] are floating-point logarithms; the
    expressions
    [log((fa/cellArea) * (slope+0.001))] and [log((fa/cellArea) / (slope+0.001))]
    are taken as the functions [spi_value] and [cti_value] of the two cell
    values, and [V_of_Z] is the conversion of an integer literal to [V].
    [eqT] and [eqU] are [operator==] of [T] and of [U]: on a floating-point
    raster the comparison of IEEE 754, under which a NaN differs from
    itself and the two zeros are equal. *)
Context {T U V : Type}.
Variable eqT : T → T → bool.
Variable eqU : U → U → bool.
Variable spi_value : T → U → V.
Variable cti_value : T → U → V.
Variable V_of_Z : Z → V.

(** The cells in the order of [for x ... for y ...]. *)
Definition cells_by_column (w h : Z) : list GridCell :=
  x ← seqZ 0 w; y ← seqZ 0 h; [mkGridCell x y].

Definition index_body (value : T → U → V)
    (flow_accumulation : Array2D.t T) (riserun_slope : Array2D.t U)
    (result : Array2D.t V) (c : GridCell) : Array2D.t V :=
  let x := cell_x c in
  let y := cell_y c in
  if eqT (Array2D.get flow_accumulation x y) (Array2D.noData flow_accumulation)
     || eqU (Array2D.get riserun_slope x y) (Array2D.noData riserun_slope)
  then Array2D.set result x y (Array2D.noData result)
  else Array2D.set result x y
         (value (Array2D.get flow_accumulation x y) (Array2D.get riserun_slope x y)).

Definition TA_SPI (flow_accumulation : Array2D.t T) (riserun_slope : Array2D.t U)
    (result : Array2D.t V) : outcome (Array2D.t V) :=
  if negb (bool_decide (Array2D.width flow_accumulation = Array2D.width riserun_slope))
     || negb (bool_decide (Array2D.height flow_accumulation = Array2D.height riserun_slope))
  then Threw result
         "Couldn't calculate SPI! The input matricies were of unequal dimensions!"%string
  else
    let result := Array2D.resize result flow_accumulation (V_of_Z 0) in
    let result := Array2D.setNoData result (V_of_Z (-1)) in
    Returned
      (foldl (index_body spi_value flow_accumulation riserun_slope) result
             (cells_by_column (Array2D.width flow_accumulation)
                              (Array2D.height flow_accumulation))).

Definition TA_CTI (flow_accumulation : Array2D.t T) (riserun_slope : Array2D.t U)
    (result : Array2D.t V) : outcome (Array2D.t V) :=
  if negb (bool_decide (Array2D.width flow_accumulation = Array2D.width riserun_slope))
     || negb (bool_decide (Array2D.height flow_accumulation = Array2D.height riserun_slope))
  then Threw result
         "Couldn't calculate CTI! The input matricies were of unequal dimensions!"%string
  else
    let result := Array2D.resize result flow_accumulation (V_of_Z 0) in
    let result := Array2D.setNoData result (V_of_Z (-1)) in
    Returned
      (foldl (index_body cti_value flow_accumulation riserun_slope) result
             (cells_by_column (Array2D.width flow_accumulation)
                              (Array2D.height flow_accumulation))).

(** What the specification asks of such a call: it fails exactly on
    unequal shapes, a failure leaves [result] as it was, and a success
    gives [result] the shape of the flow accumulation and the sentinel -1. *)
Definition index_contract (flow_accumulation : Array2D.t T)
    (riserun_slope : Array2D.t U) (result : Array2D.t V)
    (call : outcome (Array2D.t V)) : Prop :=
  match call with
  | Threw out msg =>
      (Array2D.width flow_accumulation ≠ Array2D.width riserun_slope ∨
       Array2D.height flow_accumulation ≠ Array2D.height riserun_slope) ∧
      out = result ∧ msg ≠ EmptyString
  | Returned out =>
      Array2D.width flow_accumulation = Array2D.width riserun_slope ∧
      Array2D.height flow_accumulation = Array2D.height riserun_slope ∧
      Array2D.same_shape out flow_accumulation ∧
      Array2D.noData out = V_of_Z (-1)
  | Undefined => False
  end.

End spi_cti.

(** ** Single-precision numbers *)

(** [float] is IEEE 754 binary32: the operations are those of the
    Standard Library's [SpecFloat] at precision 24 and exponent bound 128,
    rounding to nearest even. *)
Definition float32 : Type := spec_float.

Definition f32_of_int (z : Z) : float32 := binary_normalize 24 128 z 0 false.
Definition f32_add : float32 → float32 → float32 := SFadd 24 128.
Definition f32_sub : float32 → float32 → float32 := SFsub 24 128.
Definition f32_div : float32 → float32 → float32 := SFdiv 24 128.

(** Promotion of a [float] to [double], which is exact. *)
Definition f64_of_f32 (x : float32) : spec_float :=
  match x with
  | S754_finite s m e => binary_normalize 53 1024 (cond_Zopp s (Zpos m)) e false
  | _ => x
  end.

(** The [double] literal [0.5]. *)
Definition f64_half : spec_float := binary_normalize 53 1024 1 (-1) false.

(** ** D8 upslope cells *)

(** The state of the line-drawing loop of [d8_upslope_cells]. *)
Record line_state : Type := mkLine {
  ln_cells     : Array2D.t Z;
  ln_expansion : list GridCell;
  ln_y         : Z;
  ln_error     : float32
}.

(** A write through [operator()]: defined only inside the grid. *)
Definition write_cell (a : Array2D.t Z) (x y v : Z) : option (Array2D.t Z) :=
  if Array2D.inGrid a x y then Some (Array2D.set a x y v) else None.

Section upslope_cells.

Variable NO_FLOW : Z.
Variables dx dy d8_inverse : Z → Z.
Variable FLOWDIR_NO_DATA : Z.

(** One iteration of [for(int x=x0;x<=x1;x++)] (lines 206-216); [None]
    when it writes outside the grid. *)
Definition line_body (deltay : Z) (deltaerr : float32) (st : line_state) (x : Z)
    : option line_state :=
  let y := ln_y st in
  let expansion := ln_expansion st ++ [mkGridCell x y] in
  upslope_cells ← write_cell (ln_cells st) x y 2;
  let error := f32_add (ln_error st) deltaerr in
  if SFleb f64_half (f64_of_f32 error) then
    let expansion := expansion ++ [mkGridCell (x + 1) y] in
    upslope_cells ← write_cell upslope_cells (x + 1) y 2;
    Some (mkLine upslope_cells expansion (y + Z.sgn deltay)
                 (f32_sub error (f32_of_int 1)))
  else Some (mkLine upslope_cells expansion y error).

(** Lines 190-216: the endpoints are put in order of [x] and the line is
    marched from [x0] to [x1]. *)
Definition line_phase (x0 y0 x1 y1 : Z) (upslope_cells : Array2D.t Z)
    : option line_state :=
  let '(x0, y0, x1, y1) :=
    if x1 <? x0 then (x1, y1, x0, y0) else (x0, y0, x1, y1) in
  let deltax := wrap_int32 (x1 - x0) in
  let deltay := wrap_int32 (y1 - y0) in
  let deltaerr := f32_div (f32_of_int deltay) (f32_of_int deltax) in
  let deltaerr :=
    if SFltb deltaerr (f32_of_int 0) then SFopp deltaerr else deltaerr in
  foldl (λ st x, st ≫= λ s, line_body deltay deltaerr s x)
        (Some (mkLine upslope_cells [] y0 (f32_of_int 0)))
        (seqZ x0 (x1 - x0 + 1)).

(** The test of neighbour [n] of the dequeued cell [c] (lines 226-236). *)
Definition expand_body (flowdirs : Array2D.t Z) (c : GridCell)
    (st : Array2D.t Z * list GridCell) (n : Z)
    : Array2D.t Z * list GridCell :=
  let '(upslope_cells, expansion) := st in
  let nx := cell_x c + dx n in
  let ny := cell_y c + dy n in
  if negb (Array2D.inGrid flowdirs nx ny) then st
  else if Array2D.get flowdirs nx ny =? NO_FLOW then st
  else if Array2D.get flowdirs nx ny =? Array2D.noData flowdirs then st
  else if (Array2D.get upslope_cells nx ny =? Array2D.noData upslope_cells)
          && (n =? d8_inverse (Array2D.get flowdirs nx ny))
  then (Array2D.set upslope_cells nx ny 1, expansion ++ [mkGridCell nx ny])
  else st.

(** One iteration of [while(expansion.size()>0)]. *)
Definition expand_step (flowdirs : Array2D.t Z)
    (st : Array2D.t Z * list GridCell)
    : option (Array2D.t Z * list GridCell) :=
  match snd st with
  | [] => None
  | c :: rest => Some (foldl (expand_body flowdirs c) (fst st, rest) (seqZ 1 8))
  end.

(** The loop; [None] only when the fuel runs out first. *)
Fixpoint expand_loop (fuel : nat) (flowdirs : Array2D.t Z)
    (st : Array2D.t Z * list GridCell)
    : option (Array2D.t Z * list GridCell) :=
  match expand_step flowdirs st with
  | None => Some st
  | Some st' =>
      match fuel with
      | O => None
      | S fuel' => expand_loop fuel' flowdirs st'
      end
  end.

(** Lines 182-184. *)
Definition upslope_init (flowdirs upslope_cells : Array2D.t Z) : Array2D.t Z :=
  let upslope_cells := Array2D.resize upslope_cells flowdirs 0 in
  let upslope_cells := Array2D.setAll upslope_cells FLOWDIR_NO_DATA in
  Array2D.setNoData upslope_cells FLOWDIR_NO_DATA.

(** The whole function.  [None] stands for a loop that outlives its fuel,
    one iteration per line cell and per raster cell;
    [expand_loop_terminates] shows that this does not happen. *)
Definition d8_upslope_cells (x0 y0 x1 y1 : Z)
    (flowdirs upslope_cells : Array2D.t Z)
    : option (outcome (Array2D.t Z)) :=
  let upslope_cells := upslope_init flowdirs upslope_cells in
  match line_phase x0 y0 x1 y1 upslope_cells with
  | None => Some Undefined
  | Some ln =>
      st ← expand_loop (length (ln_expansion ln) + length (Array2D.cells flowdirs))
                       flowdirs (ln_cells ln, ln_expansion ln);
      Some (Returned (fst st))
  end.

End upslope_cells.

(** The number of cells of the output that still hold the sentinel: with
    the length of the queue, the measure of the traversal. *)
Definition nodata_count (a : Array2D.t Z) : Z :=
  Zsum (λ c, ind (Array2D.getc a c =? Array2D.noData a)) (Array2D.cells a).

(** The output raster has the shape of the directions and the sentinel
    [FLOWDIR_NO_DATA]. *)
Definition upslope_shape (FLOWDIR_NO_DATA : Z) (flowdirs a : Array2D.t Z) : Prop :=
  Array2D.ok a ∧ Array2D.same_shape a flowdirs ∧
  Array2D.noData a = FLOWDIR_NO_DATA.

(** Every cell of the output holds the sentinel or one of the two marks. *)
Definition marks_ok (FLOWDIR_NO_DATA : Z) (a : Array2D.t Z) : Prop :=
  ∀ c, Array2D.inGridc a c = true →
       Array2D.getc a c = FLOWDIR_NO_DATA ∨ Array2D.getc a c = 1 ∨
       Array2D.getc a c = 2.

(** ** Terrain attributes *)

(** [double] is IEEE 754 binary64: [SpecFloat] at precision 53 and
    exponent bound 1024. *)
Definition f64_of_int (z : Z) : spec_float := binary_normalize 53 1024 z 0 false.
Definition f64_add : spec_float → spec_float → spec_float := SFadd 53 1024.
Definition f64_sub : spec_float → spec_float → spec_float := SFsub 53 1024.
Definition f64_mul : spec_float → spec_float → spec_float := SFmul 53 1024.
Definition f64_div : spec_float → spec_float → spec_float := SFdiv 53 1024.

(** [M_PI] of [<cmath>]: the double nearest to pi, 0x1.921fb54442d18p+1. *)
Definition M_PI : spec_float := S754_finite false 0x1921fb54442d18 (-51).

(** The class [TA_Setup_Vars]. *)
Record TA_Setup_Vars : Type := mkSetup {
  tsv_a : spec_float; tsv_b : spec_float; tsv_c : spec_float;
  tsv_d : spec_float; tsv_e : spec_float; tsv_f : spec_float;
  tsv_g : spec_float; tsv_h : spec_float; tsv_i : spec_float
}.

(** A number that is neither an infinity nor a NaN. *)
Definition SFis_finite (x : spec_float) : bool :=
  match x with
  | S754_zero _ | S754_finite _ _ _ => true
  | _ => false
  end.

(** A positive number that is not an infinity. *)
Definition SFis_positive (x : spec_float) : bool :=
  match x with
  | S754_finite false _ _ => true
  | _ => false
  end.

Section terrain.

(** [atan2] of [<cmath>]. *)
Variable atan2 : spec_float → spec_float → spec_float.

(** Modelled from the spec: the cell dimensions [getCellLengthX()] and
    [getCellLengthY()] of the elevation raster. *)
Variables cellLengthX cellLengthY : spec_float.

(** The elevation raster holds its values as doubles; the conversion of a
    narrower element type to [double] is exact. *)
Implicit Types (elevations : Array2D.t spec_float).

(** One line of [TerrainSetup]: the neighbour's elevation if it is in the
    grid and is not the sentinel, the centre's otherwise. *)
Definition neighbour_or elevations (x y : Z) (centre : spec_float) : spec_float :=
  if Array2D.inGrid elevations x y
     && negb (SFeqb (Array2D.get elevations x y) (Array2D.noData elevations))
  then Array2D.get elevations x y else centre.

Definition TerrainSetup elevations (x y : Z) (zscale : float32) : TA_Setup_Vars :=
  let e := Array2D.get elevations x y in
  let z := f64_of_f32 zscale in
  mkSetup
    (f64_mul (neighbour_or elevations (x - 1) (y - 1) e) z)
    (f64_mul (neighbour_or elevations x (y - 1) e) z)
    (f64_mul (neighbour_or elevations (x + 1) (y - 1) e) z)
    (f64_mul (neighbour_or elevations (x - 1) y e) z)
    (f64_mul e z)
    (f64_mul (neighbour_or elevations (x + 1) y e) z)
    (f64_mul (neighbour_or elevations (x - 1) (y + 1) e) z)
    (f64_mul (neighbour_or elevations x (y + 1) e) z)
    (f64_mul (neighbour_or elevations (x + 1) (y + 1) e) z).

(** The fitted gradients of Horn (1981), as lines 468-469 compute them. *)
Definition horn_dzdx (tsv : TA_Setup_Vars) : spec_float :=
  f64_div
    (f64_div
       (f64_sub
          (f64_add (f64_add (tsv_c tsv) (f64_mul (f64_of_int 2) (tsv_f tsv))) (tsv_i tsv))
          (f64_add (f64_add (tsv_a tsv) (f64_mul (f64_of_int 2) (tsv_d tsv))) (tsv_g tsv)))
       (f64_of_int 8))
    cellLengthX.

Definition horn_dzdy (tsv : TA_Setup_Vars) : spec_float :=
  f64_div
    (f64_div
       (f64_sub
          (f64_add (f64_add (tsv_g tsv) (f64_mul (f64_of_int 2) (tsv_h tsv))) (tsv_i tsv))
          (f64_add (f64_add (tsv_a tsv) (f64_mul (f64_of_int 2) (tsv_b tsv))) (tsv_c tsv)))
       (f64_of_int 8))
    cellLengthY.

Definition Terrain_Aspect elevations (x y : Z) (zscale : float32) : spec_float :=
  let tsv := TerrainSetup elevations x y zscale in
  let dzdx := horn_dzdx tsv in
  let dzdy := horn_dzdy tsv in
  let the_aspect :=
    f64_mul (f64_div (f64_of_int 180) M_PI) (atan2 dzdy (SFopp dzdx)) in
  if SFltb the_aspect (f64_of_int 0) then f64_sub (f64_of_int 90) the_aspect
  else if SFltb (f64_of_int 90) the_aspect
  then f64_add (f64_sub (f64_of_int 360) the_aspect) (f64_of_int 90)
  else f64_sub (f64_of_int 90) the_aspect.

(** The neighbourhood of a cell is perfectly flat: after the replacement
    of the missing neighbours all nine elevations are the same number. *)
Definition flat_neighbourhood elevations (x y : Z) (zscale : float32) : Prop :=
  ∃ v, TerrainSetup elevations x y zscale = mkSetup v v v v v v v v v ∧
       SFis_finite (f64_add (f64_add v (f64_mul (f64_of_int 2) v)) v) = true.

End terrain.

(** ** Cells upstream of a loop *)

(** No cell whose flow path reaches [c] lies on a loop of the flow graph:
    the cells for which this holds are the ones the drain loop of
    [d8_flow_accum] gets to. *)
Definition upstream_acyclic (NO_FLOW : Z) (dx dy : Z → Z) (fd : Array2D.t Z)
    (c : GridCell) : Prop :=
  ∀ m j k, walk NO_FLOW dx dy fd j m = Some c → (0 < k)%nat →
           walk NO_FLOW dx dy fd k m ≠ Some m.

(** What the processed cells have passed on to [c]: the upslope counts of
    the processed cells that flow into [c]. *)
Definition processed_inflow (NO_FLOW : Z) (dx dy : Z → Z) (fd : Array2D.t Z)
    (visited : list GridCell) (c : GridCell) : Z :=
  Zsum (λ p, if bool_decide (flow_to NO_FLOW dx dy fd p = Some c)
                && bool_decide (p ∈ visited)
             then upslope_count NO_FLOW dx dy fd p else 0)
       (Array2D.cells fd).

(** ** Slopes, curvatures and the raster-wide terrain functions *)

Definition f64_sqrt : spec_float → spec_float := SFsqrt 53 1024.

(** Conversion of a [double] to [float]: rounding to nearest, ties to
    even; zeros, infinities and NaN are kept. *)
Definition f32_of_f64 (x : spec_float) : float32 :=
  match x with
  | S754_finite s m e => binary_normalize 24 128 (cond_Zopp s (Zpos m)) e s
  | _ => x
  end.

(** Modelled from the spec: [isNoData(x,y)] equals [get(x,y) == nodata],
    here with the equality of doubles. *)
Definition SF_isNoData (a : Array2D.t spec_float) (x y : Z) : bool :=
  SFeqb (Array2D.get a x y) (Array2D.noData a).

(** The class [TA_Setup_Curves_Vars]. *)
Record TA_Setup_Curves_Vars : Type := mkCurves {
  tscv_L : spec_float; tscv_D : spec_float; tscv_E : spec_float;
  tscv_F : spec_float; tscv_G : spec_float; tscv_H : spec_float
}.

Section terrain_attributes.

(** [std::atan] and [atan2] of [<cmath>]. *)
Variable atan : spec_float → spec_float.
Variable atan2 : spec_float → spec_float → spec_float.

(** Modelled from the spec: the cell dimensions [getCellLengthX()] and
    [getCellLengthY()] of the elevation raster. *)
Variables cellLengthX cellLengthY : spec_float.

Implicit Types (elevations : Array2D.t spec_float).

(** Lines 440-458, in the manner of Zevenbergen and Thorne 1987. *)
Definition TerrainCurvatureSetup elevations (x y : Z) (zscale : float32)
    : TA_Setup_Curves_Vars :=
  let tsv := TerrainSetup elevations x y zscale in
  let L := cellLengthX in
  mkCurves L
    (f64_div (f64_div
       (f64_sub (f64_div (f64_add (tsv_d tsv) (tsv_f tsv)) (f64_of_int 2)) (tsv_e tsv))
       L) L)
    (f64_div (f64_div
       (f64_sub (f64_div (f64_add (tsv_b tsv) (tsv_h tsv)) (f64_of_int 2)) (tsv_e tsv))
       L) L)
    (f64_div (f64_div (f64_div
       (f64_sub (f64_add (f64_add (SFopp (tsv_a tsv)) (tsv_c tsv)) (tsv_g tsv))
                (tsv_i tsv))
       (f64_of_int 4)) L) L)
    (f64_div (f64_div (f64_add (SFopp (tsv_d tsv)) (tsv_f tsv)) (f64_of_int 2)) L)
    (f64_div (f64_div (f64_sub (tsv_b tsv) (tsv_h tsv)) (f64_of_int 2)) L).

(** Lines 481-492. *)
Definition Terrain_Slope_RiseRun elevations (x y : Z) (zscale : float32)
    : spec_float :=
  let tsv := TerrainSetup elevations x y zscale in
  let dzdx := horn_dzdx cellLengthX tsv in
  let dzdy := horn_dzdy cellLengthY tsv in
  f64_sqrt (f64_add (f64_mul dzdx dzdx) (f64_mul dzdy dzdy)).

(** Lines 494-499: [-2*(D+E)*100]. *)
Definition Terrain_Curvature elevations (x y : Z) (zscale : float32)
    : spec_float :=
  let tscv := TerrainCurvatureSetup elevations x y zscale in
  f64_mul (f64_mul (f64_of_int (-2)) (f64_add (tscv_D tscv) (tscv_E tscv)))
          (f64_of_int 100).

(** Lines 501-509. *)
Definition Terrain_Planform_Curvature elevations (x y : Z) (zscale : float32)
    : spec_float :=
  let p := TerrainCurvatureSetup elevations x y zscale in
  if SFeqb (tscv_G p) (f64_of_int 0) && SFeqb (tscv_H p) (f64_of_int 0)
  then f64_of_int 0
  else
    f64_mul
      (f64_div
         (f64_mul (f64_of_int (-2))
            (f64_sub
               (f64_add (f64_mul (f64_mul (tscv_D p) (tscv_H p)) (tscv_H p))
                        (f64_mul (f64_mul (tscv_E p) (tscv_G p)) (tscv_G p)))
               (f64_mul (f64_mul (tscv_F p) (tscv_G p)) (tscv_H p))))
         (f64_add (f64_mul (tscv_G p) (tscv_G p)) (f64_mul (tscv_H p) (tscv_H p))))
      (f64_of_int 100).

(** Lines 511-519. *)
Definition Terrain_Profile_Curvature elevations (x y : Z) (zscale : float32)
    : spec_float :=
  let p := TerrainCurvatureSetup elevations x y zscale in
  if SFeqb (tscv_G p) (f64_of_int 0) && SFeqb (tscv_H p) (f64_of_int 0)
  then f64_of_int 0
  else
    f64_mul
      (f64_div
         (f64_mul (f64_of_int 2)
            (f64_add
               (f64_add (f64_mul (f64_mul (tscv_D p) (tscv_G p)) (tscv_G p))
                        (f64_mul (f64_mul (tscv_E p) (tscv_H p)) (tscv_H p)))
               (f64_mul (f64_mul (tscv_F p) (tscv_G p)) (tscv_H p))))
         (f64_add (f64_mul (tscv_G p) (tscv_G p)) (f64_mul (tscv_H p) (tscv_H p))))
      (f64_of_int 100).

(** Lines 521-534. *)
Definition Terrain_Slope_Percent elevations (x y : Z) (zscale : float32)
    : spec_float :=
  f64_mul (Terrain_Slope_RiseRun elevations x y zscale) (f64_of_int 100).

Definition Terrain_Slope_Radian elevations (x y : Z) (zscale : float32)
    : spec_float :=
  atan (Terrain_Slope_RiseRun elevations x y zscale).

Definition Terrain_Slope_Degree elevations (x y : Z) (zscale : float32)
    : spec_float :=
  f64_div (f64_mul (atan (Terrain_Slope_RiseRun elevations x y zscale))
                   (f64_of_int 180))
          M_PI.

(** *** [TerrainProcessor] (lines 569-588)

    The attribute function [func] is a template parameter.  The warning
    about unequal cell dimensions only goes to the log.  The rows are
    independent of each other, so the OpenMP loop is run row by row. *)
Definition processor_body
    (func : Array2D.t spec_float → Z → Z → float32 → spec_float)
    elevations (zscale : float32)
    (output : Array2D.t float32) (c : GridCell) : Array2D.t float32 :=
  let x := cell_x c in
  let y := cell_y c in
  if SF_isNoData elevations x y
  then Array2D.set output x y (Array2D.noData output)
  else Array2D.set output x y (f32_of_f64 (func elevations x y zscale)).

Definition TerrainProcessor
    (func : Array2D.t spec_float → Z → Z → float32 → spec_float)
    elevations (zscale : float32) (output : Array2D.t float32)
    : Array2D.t float32 :=
  let output := Array2D.resize output elevations (f32_of_int 0) in
  foldl (processor_body func elevations zscale) output (Array2D.cells elevations).

(** *** The raster-wide functions (lines 603-767) *)

Definition TA_slope_riserun elevations (slopes : Array2D.t float32)
    (zscale : float32) : Array2D.t float32 :=
  TerrainProcessor Terrain_Slope_RiseRun elevations zscale slopes.

Definition TA_slope_percentage elevations (slopes : Array2D.t float32)
    (zscale : float32) : Array2D.t float32 :=
  TerrainProcessor Terrain_Slope_Percent elevations zscale slopes.

Definition TA_slope_degrees elevations (slopes : Array2D.t float32)
    (zscale : float32) : Array2D.t float32 :=
  TerrainProcessor Terrain_Slope_Degree elevations zscale slopes.

Definition TA_slope_radians elevations (slopes : Array2D.t float32)
    (zscale : float32) : Array2D.t float32 :=
  TerrainProcessor Terrain_Slope_Radian elevations zscale slopes.

Definition TA_aspect elevations (aspects : Array2D.t float32)
    (zscale : float32) : Array2D.t float32 :=
  TerrainProcessor (Terrain_Aspect atan2 cellLengthX cellLengthY)
                   elevations zscale aspects.

Definition TA_curvature elevations (curvatures : Array2D.t float32)
    (zscale : float32) : Array2D.t float32 :=
  TerrainProcessor Terrain_Curvature elevations zscale curvatures.

Definition TA_planform_curvature elevations
    (planform_curvatures : Array2D.t float32) (zscale : float32)
    : Array2D.t float32 :=
  TerrainProcessor Terrain_Planform_Curvature elevations zscale planform_curvatures.

Definition TA_profile_curvature elevations
    (profile_curvatures : Array2D.t float32) (zscale : float32)
    : Array2D.t float32 :=
  TerrainProcessor Terrain_Profile_Curvature elevations zscale profile_curvatures.

End terrain_attributes.

(** Every cell of the raster is a data cell with a perfectly flat
    neighbourhood. *)
Definition flat_raster (elevations : Array2D.t spec_float) (zscale : float32)
    : Prop :=
  ∀ c, Array2D.inGridc elevations c = true →
       SF_isNoData elevations (cell_x c) (cell_y c) = false ∧
       flat_neighbourhood elevations (cell_x c) (cell_y c) zscale.

(** A number that is not negative: NaN, or a zero, a finite number or an
    infinity whose sign bit is clear. *)
Definition SFnot_negative (x : spec_float) : bool :=
  match x with
  | S754_nan => true
  | S754_zero s | S754_infinity s | S754_finite s _ _ => negb s
  end.

(** What [TA_SPI] and [TA_CTI] leave in a cell of [result], whose sentinel
    is [nd]; [eqT] and [eqU] are [operator==] of the element types. *)
Definition index_cell {T U V : Type} (eqT : T → T → bool) (eqU : U → U → bool)
    (value : T → U → V) (fa : Array2D.t T) (rs : Array2D.t U)
    (nd : V) (c : GridCell) : V :=
  if eqT (Array2D.getc fa c) (Array2D.noData fa)
     || eqU (Array2D.getc rs c) (Array2D.noData rs)
  then nd else value (Array2D.getc fa c) (Array2D.getc rs c).

(** What [TerrainProcessor] leaves in a cell of [output], whose sentinel is
    [nd]. *)
Definition processor_cell
    (func : Array2D.t spec_float → Z → Z → float32 → spec_float)
    (elevations : Array2D.t spec_float) (zscale : float32)
    (nd : float32) (c : GridCell) : float32 :=
  if SF_isNoData elevations (cell_x c) (cell_y c) then nd
  else f32_of_f64 (func elevations (cell_x c) (cell_y c) zscale).

(** ** What the upslope traversal looks for *)

(** The table [d8_inverse] gives every direction the direction of the
    opposite step. *)
Definition d8_inverse_ok (dx dy d8_inverse : Z → Z) : Prop :=
  ∀ d, 1 <= d <= 8 →
       1 <= d8_inverse d <= 8 ∧
       dx (d8_inverse d) = - dx d ∧ dy (d8_inverse d) = - dy d.

Section drainage.

Variable NO_FLOW : Z.
Variables dx dy : Z → Z.

(** The cell that the data cell [c] drains into, whatever that cell holds. *)
Definition downstream (fd : Array2D.t Z) (c : GridCell) : option GridCell :=
  if is_data fd c && negb (Array2D.getc fd c =? NO_FLOW)
  then Some (target dx dy fd c) else None.

(** The cell reached from [c] after [k] steps downstream. *)
Fixpoint trace (fd : Array2D.t Z) (k : nat) (c : GridCell) : option GridCell :=
  match k with
  | O => Some c
  | S k' => downstream fd c ≫= trace fd k'
  end.

(** [c] drains, in one step or more, into a cell of [line]. *)
Definition drains_into (fd : Array2D.t Z) (line : list GridCell) (c : GridCell)
    : Prop :=
  ∃ k m, trace fd (S k) c = Some m ∧ m ∈ line.

End drainage.

(** The cells of row [y] from column [x0] to column [x1], in either
    order of the two. *)
Definition row_segment (x0 x1 y : Z) : list GridCell :=
  (λ x, mkGridCell x y) <$> seqZ (Z.min x0 x1) (Z.max x0 x1 - Z.min x0 x1 + 1).

Section upslope_invariants.

Variable NO_FLOW : Z.
Variables dx dy : Z → Z.
Variable ND : Z.
Variable fd : Array2D.t Z.

(** The line march of [d8_upslope_cells]: the cells enqueued so far are
    in the grid and are the cells marked 2. *)
Definition line_inv (up : Array2D.t Z) (exp : list GridCell) : Prop :=
  upslope_shape ND fd up ∧
  (∀ c, c ∈ exp → Array2D.inGridc fd c = true) ∧
  (∀ c, Array2D.inGridc fd c = true →
        Array2D.getc up c = if bool_decide (c ∈ exp) then 2 else ND).

(** The traversal of [d8_upslope_cells] from the line [L]: [P] holds of
    the cells that still wait to be expanded.  The cells of the line hold
    2, the other marked cells hold 1 and drain into the line, and a marked
    cell that does not wait has all the cells that flow into it marked. *)
Record search_inv (L : list GridCell) (up : Array2D.t Z) (P : GridCell → Prop)
    : Prop := mkSearchInv {
  si_shape   : upslope_shape ND fd up;
  si_line    : ∀ c, c ∈ L → Array2D.getc up c = 2;
  si_values  : ∀ c, Array2D.inGridc fd c = true → c ∉ L →
                    Array2D.getc up c = 1 ∨ Array2D.getc up c = ND;
  si_sound   : ∀ c, Array2D.inGridc fd c = true → Array2D.getc up c = 1 →
                    drains_into NO_FLOW dx dy fd L c;
  si_pending : ∀ c, P c → Array2D.inGridc fd c = true ∧ Array2D.getc up c ≠ ND;
  si_closed  : ∀ c, Array2D.inGridc fd c = true → Array2D.getc up c ≠ ND →
                    P c ∨ ∀ n, feeds NO_FLOW dx dy fd n c = true →
                               Array2D.getc up n ≠ ND
}.

End upslope_invariants.

Arguments si_shape {_ _ _ _ _ _ _ _} _.
Arguments si_line {_ _ _ _ _ _ _ _} _.
Arguments si_values {_ _ _ _ _ _ _ _} _.
Arguments si_sound {_ _ _ _ _ _ _ _} _.
Arguments si_pending {_ _ _ _ _ _ _ _} _.
Arguments si_closed {_ _ _ _ _ _ _ _} _.

(** An error term of the line march that never reaches 0.5: a zero or a
    NaN. *)
Definition calm (e : float32) : bool :=
  match e with
  | S754_zero _ | S754_nan => true
  | _ => false
  end.

(** ** The sign of an integer *)

(** [sgn] (lines 30-33) at the type [int]:
    [(T(0) < val) - (val < T(0))]. *)
Definition sgn (val : Z) : Z := ind (0 <? val) - ind (val <? 0).

(** The cell at [(x,y)] is missing from the elevations: outside the grid
    or holding the sentinel. *)
Definition SF_missing (elevations : Array2D.t spec_float) (x y : Z) : bool :=
  negb (Array2D.inGrid elevations x y) || SF_isNoData elevations x y.

(** All eight neighbours of [(x,y)] are missing. *)
Definition isolated_cell (elevations : Array2D.t spec_float) (x y : Z) : bool :=
  forallb (λ d : Z * Z, SF_missing elevations (x + fst d) (y + snd d))
          [(-1, -1); (0, -1); (1, -1); (-1, 0); (1, 0); (-1, 1); (0, 1); (1, 1)].

(** *** A concrete numbering and example rasters *)

Module Example.

  (** Modelled from the spec: [richdem/common/constants.hpp] is not among
      the sources.  This is one numbering that meets section 3 of the
      specification (eight neighbour offsets, each with its inverse) and in
      which direction 3 is the east step (+1,0) of the scenarios of
      section 8: directions run clockwise from north. *)
Definition NO_FLOW : Z := 0.
Definition FLOWDIR_NO_DATA : Z := 255.

Definition dx (n : Z) : Z :=
    nth (Z.to_nat n) [0; 0; 1; 1; 1; 0; -1; -1; -1] 0.
Definition dy (n : Z) : Z :=
    nth (Z.to_nat n) [0; -1; -1; 0; 1; 1; 1; 0; -1] 0.
Definition d8_inverse (n : Z) : Z :=
    nth (Z.to_nat n) [0; 5; 6; 7; 8; 1; 2; 3; 4] 0.

  (** The 1x5 chain [3,3,3,3,NO_FLOW]. *)
Definition chain : Array2D.t Z :=
    Array2D.mk 5 1 [3; 3; 3; 3; NO_FLOW] FLOWDIR_NO_DATA.

  (** Two cells that flow into each other. *)
Definition cycle2 : Array2D.t Z :=
    Array2D.mk 2 1 [3; 7] FLOWDIR_NO_DATA.

  (** Two rows that meet in one cell: (1,0) flows south-east and (1,1)
      east into (2,1), which flows north into (2,0); (0,1) flows east and
      the other two cells do not flow. *)
Definition confluence : Array2D.t Z :=
    Array2D.mk 3 2 [0; 4; 0;
                    3; 3; 1] FLOWDIR_NO_DATA.

  (** Two threads on [confluence], one per row: row 0 reads
      [dependency(2,1)]; row 1 increments [dependency(1,1)] and reads
      [dependency(2,1)]; row 0 writes; row 1 writes the same value and goes
      on to its end. *)
Definition overtaken : list nat := [0; 1; 1; 1; 0]%nat.

  (** A loop with a tributary from the row below: (0,0) and (0,1) flow
      into each other, (1,1) flows west into (0,1), and (1,0) does not
      flow. *)
Definition pond : Array2D.t Z :=
    Array2D.mk 2 2 [5; 0;
                    1; 7] FLOWDIR_NO_DATA.

  (** An area raster as a caller might pass it in: empty. *)
Definition empty_area : Array2D.t Z := Array2D.mk 0 0 [] 0.

(** A 10x10 raster in which every cell flows east. *)
Definition east10 : Array2D.t Z :=
  Array2D.mk 10 10 (replicate 100 3) FLOWDIR_NO_DATA.

(** What the trace of the segment x=5, y=0..9 over [east10] should give
    according to section 8 of the specification: column 5 marked 2,
    columns 0..4 marked 1, columns 6..9 left at the sentinel. *)
Definition east10_expected : Array2D.t Z :=
  Array2D.mk 10 10
    (mjoin (replicate 10 [1; 1; 1; 1; 1; 2; FLOWDIR_NO_DATA; FLOWDIR_NO_DATA;
                          FLOWDIR_NO_DATA; FLOWDIR_NO_DATA]))
    FLOWDIR_NO_DATA.

(** What the source gives: the cells (5,0) and (6,0) marked 2, the cells
    west of them in row 0 marked 1, everything else left at the sentinel. *)
Definition east10_traced : Array2D.t Z :=
  Array2D.mk 10 10
    ([1; 1; 1; 1; 1; 2; 2] ++ replicate 93 FLOWDIR_NO_DATA)
    FLOWDIR_NO_DATA.

(** Modelled from ISO C, Annex F.10.1.4: the values of [atan2] when its
    first argument is a zero, the only ones a flat surface asks for:
    [atan2(+-0, -0)] and [atan2(+-0, x)] for [x < 0] are [+-pi],
    [atan2(+-0, +0)] and [atan2(+-0, x)] for [x > 0] are [+-0].  Other
    arguments are not modelled and give NaN. *)
Definition atan2_of_zero (y x : spec_float) : spec_float :=
  match y with
  | S754_zero sy =>
      match x with
      | S754_zero true | S754_finite true _ _ | S754_infinity true =>
          if sy then SFopp M_PI else M_PI
      | S754_zero false | S754_finite false _ _ | S754_infinity false =>
          S754_zero sy
      | S754_nan => S754_nan
      end
  | _ => S754_nan
  end.

(** A 3x3 elevation raster at the constant height 5, with sentinel -9999. *)
Definition plateau : Array2D.t spec_float :=
  Array2D.mk 3 3 (replicate 9 (f64_of_int 5)) (f64_of_int (-9999)).

(** A row of four cells with a loop in the middle: the two outer cells
    flow into the two inner ones, which flow into each other. *)
Definition loop4 : Array2D.t Z :=
  Array2D.mk 4 1 [3; 3; 7; 7] FLOWDIR_NO_DATA.

(** Modelled from ISO C, Annex F.10.1.3: [atan(+-0)] is [+-0].  Other
    arguments are not modelled and give NaN. *)
Definition atan_of_zero (x : spec_float) : spec_float :=
  match x with
  | S754_zero s => S754_zero s
  | _ => S754_nan
  end.

(** A 1x1 elevation raster at the height 7, with sentinel -9999. *)
Definition single_cell : Array2D.t spec_float :=
  Array2D.mk 1 1 [binary_normalize 53 1024 7 0 false]
             (binary_normalize 53 1024 (-9999) 0 false).

End Example.

(** * Proofs *)

(** The sections below abbreviate the functions of the model at the
    section's parameters; these tactics unfold the functions themselves. *)
Ltac unfold_target_in H := unfold target in H.
Ltac unfold_dependency_body := unfold dependency_body.
Ltac unfold_drain_body := unfold drain_body.
Ltac unfold_drain_step_with := unfold drain_step_with.
Ltac unfold_flow_to := unfold flow_to.
Ltac unfold_mass_term := unfold mass_term.
Ltac unfold_inflow_term := unfold inflow_term.
Ltac unfold_upslope_count := unfold upslope_count.
Ltac unfold_expand_body := unfold expand_body.
Ltac unfold_on_flow_path := unfold on_flow_path.
Ltac unfold_feeds := unfold feeds.
Ltac unfold_downstream := unfold downstream.
Ltac unfold_num_data_cells := unfold num_data_cells.
Ltac unfold_cell_ops := unfold cell_ops.
Ltac unfold_row_ops := unfold row_ops.
Ltac unfold_indegree := unfold indegree.
Ltac destruct_drain_body :=
  match goal with
  | |- context [drain_body ?a ?b ?c ?d ?e ?f ?g ?h] =>
      destruct (drain_body a b c d e f g h) as [[? ?] ?]
  end.

(** *** Basic facts about rasters *)

Section array2d_facts.
Context {T : Type}.
Implicit Types (a : Array2D.t T) (c : GridCell).

Lemma inGrid_spec a x y :
    Array2D.inGrid a x y = true ↔
    0 <= x < Array2D.width a ∧ 0 <= y < Array2D.height a.
Proof. unfold Array2D.inGrid. rewrite !andb_true_iff. lia. Qed.

Lemma inGridc_spec a c :
    Array2D.inGridc a c = true ↔
    0 <= cell_x c < Array2D.width a ∧ 0 <= cell_y c < Array2D.height a.
Proof. apply inGrid_spec. Qed.

Lemma elem_of_cells_of w h c :
    c ∈ Array2D.cells_of w h ↔ 0 <= cell_x c < w ∧ 0 <= cell_y c < h.
Proof.
    unfold Array2D.cells_of. rewrite list_elem_of_bind. split.
    - intros (y & Hx & Hy). apply list_elem_of_bind in Hx as (x & Hc & Hx).
      apply list_elem_of_singleton in Hc as ->.
      apply elem_of_seqZ in Hx, Hy. simpl. lia.
    - intros [Hx Hy]. exists (cell_y c). split; [|apply elem_of_seqZ; lia].
      apply list_elem_of_bind. exists (cell_x c).
      split; [|apply elem_of_seqZ; lia].
      destruct c. simpl. apply list_elem_of_singleton. reflexivity.
Qed.

Lemma elem_of_cells a c :
    c ∈ Array2D.cells a ↔ Array2D.inGridc a c = true.
Proof. unfold Array2D.cells. rewrite elem_of_cells_of, inGridc_spec. tauto. Qed.

Lemma NoDup_cells_of w h : NoDup (Array2D.cells_of w h).
Proof.
    unfold Array2D.cells_of. apply NoDup_bind.
    - intros y1 y2 c _ _ H1 H2.
      apply list_elem_of_bind in H1 as (x1 & Hc1 & _).
      apply list_elem_of_bind in H2 as (x2 & Hc2 & _).
      apply list_elem_of_singleton in Hc1, Hc2. subst c. congruence.
    - intros y _. apply NoDup_bind.
      + intros x1 x2 c _ _ H1 H2.
        apply list_elem_of_singleton in H1, H2. subst c. congruence.
      + intros x _. apply NoDup_singleton.
      + apply NoDup_seqZ.
    - apply NoDup_seqZ.
Qed.

Lemma NoDup_cells a : NoDup (Array2D.cells a).
Proof. apply NoDup_cells_of. Qed.

Lemma xyToI_lt a x y :
    Array2D.ok a → Array2D.inGrid a x y = true →
    (Array2D.xyToI a x y < length (Array2D.data a))%nat.
Proof.
    intros (Hw & Hh & Hlen) Hin. apply inGrid_spec in Hin.
    rewrite Hlen. unfold Array2D.xyToI. apply Z2Nat.inj_lt; nia.
Qed.

Lemma xyToI_inj a x y x' y' :
    Array2D.inGrid a x y = true → Array2D.inGrid a x' y' = true →
    Array2D.xyToI a x y = Array2D.xyToI a x' y' → x = x' ∧ y = y'.
Proof.
    intros Hin Hin' Heq. apply inGrid_spec in Hin, Hin'.
    unfold Array2D.xyToI in Heq. apply Z2Nat.inj in Heq; [|nia..].
    assert (y = y') by (destruct (Z.lt_trichotomy y y') as [?|[?|?]]; nia).
    subst y'. lia.
Qed.

Lemma getc_setc_eq a c v :
    Array2D.ok a → Array2D.inGridc a c = true →
    Array2D.getc (Array2D.setc a c v) c = v.
Proof.
    intros Hok Hin. unfold Array2D.getc, Array2D.setc, Array2D.get. simpl.
    change (Array2D.xyToI (Array2D.set a (cell_x c) (cell_y c) v))
      with (Array2D.xyToI a).
    rewrite list_lookup_insert_eq; [reflexivity|].
    apply xyToI_lt; assumption.
Qed.

Lemma getc_setc_ne a c c' v :
    Array2D.inGridc a c = true → Array2D.inGridc a c' = true → c ≠ c' →
    Array2D.getc (Array2D.setc a c v) c' = Array2D.getc a c'.
Proof.
    intros Hin Hin' Hne. unfold Array2D.getc, Array2D.setc, Array2D.get. simpl.
    change (Array2D.xyToI (Array2D.set a (cell_x c) (cell_y c) v))
      with (Array2D.xyToI a).
    rewrite list_lookup_insert_ne; [reflexivity|].
    intros Heq. apply xyToI_inj in Heq as [Hx Hy]; [|assumption..].
    apply Hne. destruct c, c'. simpl in *. congruence.
Qed.

Lemma ok_setc a c v : Array2D.ok a → Array2D.ok (Array2D.setc a c v).
Proof.
    intros (Hw & Hh & Hlen). unfold Array2D.ok, Array2D.setc. simpl.
    rewrite length_insert. auto.
Qed.

Lemma inGridc_setc a c v c' :
    Array2D.inGridc (Array2D.setc a c v) c' = Array2D.inGridc a c'.
Proof. reflexivity. Qed.

Lemma noData_setc a c v :
    Array2D.noData (Array2D.setc a c v) = Array2D.noData a.
Proof. reflexivity. Qed.

Lemma cells_setc a c v :
    Array2D.cells (Array2D.setc a c v) = Array2D.cells a.
Proof. reflexivity. Qed.

Lemma length_data_setc a c v :
    length (Array2D.data (Array2D.setc a c v)) = length (Array2D.data a).
Proof. unfold Array2D.setc. simpl. apply length_insert. Qed.

  (** A raster is determined by its shape, its sentinel and its cells. *)
Lemma array2d_ext a b :
    Array2D.ok a → Array2D.ok b →
    Array2D.width a = Array2D.width b →
    Array2D.height a = Array2D.height b →
    Array2D.noData a = Array2D.noData b →
    (∀ c, Array2D.inGridc a c = true → Array2D.getc a c = Array2D.getc b c) →
    a = b.
Proof.
    intros (Hwa & Hha & Hla) (Hwb & Hhb & Hlb) Hw Hh Hn Hget.
    destruct a as [wa ha da na], b as [wb hb db nb]. simpl in *. subst wb hb nb.
    f_equal. apply list_eq_same_length with (length da); [congruence|reflexivity|].
    intros i x y Hi Hx Hy.
    destruct (decide (wa = 0)) as [->|Hw0].
    { rewrite Z.mul_0_l in Hla. simpl in Hla. lia. }
    pose (c := mkGridCell (Z.of_nat i mod wa) (Z.of_nat i / wa)).
    assert (Hidx : Array2D.xyToI (Array2D.mk wa ha da na) (cell_x c) (cell_y c) = i).
    { unfold Array2D.xyToI. simpl.
      rewrite (Z.mul_comm _ wa), <- Z.div_mod by assumption. apply Nat2Z.id. }
    assert (Hin : Array2D.inGridc (Array2D.mk wa ha da na) c = true).
    { apply inGridc_spec. simpl.
      assert (0 <= Z.of_nat i mod wa < wa) by (apply Z.mod_pos_bound; lia).
      assert (Z.of_nat i < wa * ha) by lia.
      split; [lia|]. split; [apply Z.div_pos; lia|].
      apply Z.div_lt_upper_bound; lia. }
    specialize (Hget c Hin). unfold Array2D.getc, Array2D.get in Hget.
    change (Array2D.xyToI (Array2D.mk wa ha db na)) with
      (Array2D.xyToI (Array2D.mk wa ha da na)) in Hget.
    rewrite Hidx in Hget. simpl in Hget. rewrite Hx, Hy in Hget.
    simpl in Hget. congruence.
Qed.
End array2d_facts.


(** *** Machine integers *)

Lemma wrap_signed_id w z :
  0 < w → - 2 ^ (w - 1) <= z < 2 ^ (w - 1) → wrap_signed w z = z.
Proof.
  intros Hw Hz. unfold wrap_signed.
  assert (2 ^ w = 2 * 2 ^ (w - 1)) as ->.
  { replace w with (Z.succ (w - 1)) at 1 by lia. apply Z.pow_succ_r. lia. }
  rewrite Z.mod_small; lia.
Qed.

Lemma wrap_int8_id z : -128 <= z <= 127 → wrap_int8 z = z.
Proof. intros Hz. apply wrap_signed_id; [lia|]. change (2 ^ (8 - 1)) with 128. lia. Qed.

Lemma wrap_int32_id z : -2147483648 <= z <= 2147483647 → wrap_int32 z = z.
Proof.
  intros Hz. apply wrap_signed_id; [lia|].
  change (2 ^ (32 - 1)) with 2147483648. lia.
Qed.

(** *** Sums over lists *)

Section zsum.
Context {A : Type}.
Implicit Types (f g : A → Z) (l k : list A).

Lemma Zsum_cons f x l : Zsum f (x :: l) = f x + Zsum f l.
Proof. reflexivity. Qed.

Lemma Zsum_app f l k : Zsum f (l ++ k) = Zsum f l + Zsum f k.
Proof. induction l as [|x l IH]; simpl; [reflexivity|]. rewrite IH. lia. Qed.

Lemma Zsum_ext f g l : (∀ x, x ∈ l → f x = g x) → Zsum f l = Zsum g l.
Proof.
  induction l as [|x l IH]; intros H; simpl; [reflexivity|].
  rewrite (H x), IH; [reflexivity| |left].
  intros y Hy. apply H. right. exact Hy.
Qed.

Lemma Zsum_zero f l : (∀ x, x ∈ l → f x = 0) → Zsum f l = 0.
Proof.
  intros H. rewrite (Zsum_ext f (λ _, 0)) by exact H.
  clear H. induction l; simpl; lia.
Qed.

Lemma Zsum_le f g l : (∀ x, x ∈ l → f x <= g x) → Zsum f l <= Zsum g l.
Proof.
  induction l as [|x l IH]; intros H; simpl; [lia|].
  assert (f x <= g x) by (apply H; left).
  assert (Zsum f l <= Zsum g l) by (apply IH; intros y Hy; apply H; right; exact Hy).
  lia.
Qed.

Lemma Zsum_nonneg f l : (∀ x, x ∈ l → 0 <= f x) → 0 <= Zsum f l.
Proof.
  intros H. rewrite <- (Zsum_zero (λ _, 0) l) by reflexivity.
  apply Zsum_le. exact H.
Qed.

Lemma Zsum_plus f g l : Zsum (λ x, f x + g x) l = Zsum f l + Zsum g l.
Proof. induction l as [|x l IH]; simpl; [reflexivity|]. rewrite IH. lia. Qed.

(** Two functions that differ at one point of a duplicate-free list. *)
Lemma Zsum_point f g l c :
  NoDup l → c ∈ l → (∀ x, x ∈ l → x ≠ c → g x = f x) →
  Zsum g l = Zsum f l + (g c - f c).
Proof.
  induction l as [|x l IH]; intros Hnd Hc Hext; [inv Hc|].
  apply NoDup_cons in Hnd as [Hx Hnd]. simpl.
  apply elem_of_cons in Hc as [->|Hc].
  - rewrite (Zsum_ext g f l); [lia|].
    intros y Hy. apply Hext; [right; exact Hy|]. intros ->. contradiction.
  - assert (x ≠ c) as Hne by (intros ->; contradiction).
    rewrite (Hext x) by (first [left | exact Hne]).
    rewrite IH; [lia|exact Hnd|exact Hc|].
    intros y Hy. apply Hext. right. exact Hy.
Qed.

Lemma Zsum_if (b : bool) f l :
  (if b then Zsum f l else 0) = Zsum (λ x, if b then f x else 0) l.
Proof. destruct b; [reflexivity|]. symmetry. apply Zsum_zero. reflexivity. Qed.

Lemma Zsum_filter (P : A → Prop) `{∀ x, Decision (P x)} l :
  Zsum (λ x, ind (bool_decide (P x))) l = Z.of_nat (length (filter P l)).
Proof.
  induction l as [|x l IH]; [reflexivity|].
  rewrite Zsum_cons, IH, filter_cons.
  destruct (decide (P x)) as [Hp|Hp].
  - rewrite bool_decide_eq_true_2 by exact Hp. simpl. lia.
  - rewrite bool_decide_eq_false_2 by exact Hp. simpl. lia.
Qed.

(** An indicator that holds at one point of a duplicate-free list. *)
Lemma Zsum_ind_one (b : A → bool) l c :
  NoDup l → c ∈ l → b c = true → (∀ x, x ∈ l → x ≠ c → b x = false) →
  Zsum (λ x, ind (b x)) l = 1.
Proof.
  intros Hnd Hc Hb Hext.
  rewrite (Zsum_point (λ _, 0) (λ x, ind (b x)) l c Hnd Hc).
  - rewrite Zsum_zero by reflexivity. rewrite Hb. reflexivity.
  - intros x Hx Hne. rewrite Hext by assumption. reflexivity.
Qed.
End zsum.

Lemma Zsum_swap {A B : Type} (h : A → B → Z) (l : list A) (m : list B) :
  Zsum (λ x, Zsum (h x) m) l = Zsum (λ y, Zsum (λ x, h x y) l) m.
Proof.
  induction l as [|x l IH]; simpl.
  - symmetry. apply Zsum_zero. reflexivity.
  - rewrite IH, <- Zsum_plus. reflexivity.
Qed.

Lemma Zsum_term_le {A : Type} (f : A → Z) (l : list A) (c : A) :
  (∀ x, x ∈ l → 0 <= f x) → c ∈ l → f c <= Zsum f l.
Proof.
  induction l as [|x l IH]; intros Hpos Hc; [inv Hc|].
  rewrite Zsum_cons.
  assert (0 <= f x) by (apply Hpos; left).
  assert (0 <= Zsum f l).
  { apply Zsum_nonneg. intros y Hy. apply Hpos. right. exact Hy. }
  apply elem_of_cons in Hc as [->|Hc]; [lia|].
  assert (f c <= Zsum f l); [|lia].
  apply IH; [|exact Hc]. intros y Hy. apply Hpos. right. exact Hy.
Qed.

Lemma Zsum_insert {A : Type} (g : A → Z) (l : list A) (i : nat) (x x' : A) :
  l !! i = Some x → Zsum g (<[i := x']> l) = Zsum g l - g x + g x'.
Proof.
  revert i. induction l as [|a l IH]; intros [|i] Hi; try discriminate.
  - injection Hi as ->. change (<[0%nat := x']> (x :: l)) with (x' :: l).
    rewrite !Zsum_cons. lia.
  - change (<[S i := x']> (a :: l)) with (a :: <[i := x']> l).
    rewrite !Zsum_cons, (IH i Hi). lia.
Qed.

Lemma Zsum_bind {A B : Type} (f : B → Z) (g : A → list B) (l : list A) :
  Zsum f (l ≫= g) = Zsum (λ x, Zsum f (g x)) l.
Proof.
  induction l as [|a l IH]; [reflexivity|].
  rewrite bind_cons, Zsum_app, Zsum_cons, IH. reflexivity.
Qed.

Lemma Zsum_fmap {A B : Type} (f : B → Z) (g : A → B) (l : list A) :
  Zsum f (g <$> l) = Zsum (λ x, f (g x)) l.
Proof.
  induction l as [|a l IH]; [reflexivity|].
  rewrite fmap_cons, !Zsum_cons, IH. reflexivity.
Qed.

(** *** The flow graph *)

Section flow_graph_facts.

Variable NO_FLOW : Z.
Variables dx dy : Z → Z.
Variable fd : Array2D.t Z.

Local Abbreviation flow_to := (flow_to NO_FLOW dx dy fd).
Local Abbreviation feeds := (feeds NO_FLOW dx dy fd).
Local Abbreviation walk := (walk NO_FLOW dx dy fd).
Local Abbreviation target := (target dx dy fd).

Implicit Types (c n p q : GridCell).

Lemma is_data_inGrid c : is_data fd c = true → Array2D.inGridc fd c = true.
Proof. unfold is_data. intros H. apply andb_true_iff in H as [H _]. exact H. Qed.

Lemma is_data_cells c : is_data fd c = true → c ∈ Array2D.cells fd.
Proof. intros H. apply elem_of_cells, is_data_inGrid, H. Qed.

Lemma flow_to_Some c n :
  flow_to c = Some n ↔
  is_data fd c = true ∧ Array2D.getc fd c ≠ NO_FLOW ∧ target c = n ∧
  is_data fd n = true.
Proof.
  unfold flow_to.
  destruct (is_data fd c) eqn:Hc; simpl; [|split; [discriminate|intros [? _]; discriminate]].
  destruct (Z.eqb_spec (Array2D.getc fd c) NO_FLOW) as [Hn|Hn].
  { split; [discriminate|]. intros (_ & H & _). contradiction. }
  destruct (is_data fd (target c)) eqn:Ht; simpl.
  - rewrite (is_data_inGrid _ Ht). simpl. split.
    + intros [= <-]. auto.
    + intros (_ & _ & <- & _). reflexivity.
  - rewrite Tauto.if_same. split; [discriminate|].
    intros (_ & _ & <- & H). congruence.
Qed.

Lemma flow_to_data c n :
  flow_to c = Some n → is_data fd c = true ∧ is_data fd n = true.
Proof. intros H. apply flow_to_Some in H. tauto. Qed.

Lemma feeds_flow_to c n :
  is_data fd n = true → (feeds c n = true ↔ flow_to c = Some n).
Proof.
  intros Hn. rewrite flow_to_Some. unfold feeds.
  rewrite !andb_true_iff, negb_true_iff, bool_decide_eq_true, Z.eqb_neq.
  tauto.
Qed.

Lemma feeds_flow_to_b c n :
  is_data fd n = true → feeds c n = bool_decide (flow_to c = Some n).
Proof.
  intros Hn. apply eq_true_iff_eq.
  rewrite bool_decide_eq_true. apply feeds_flow_to, Hn.
Qed.

(** *** Paths *)

Lemma walk_add j k c : walk (j + k) c = walk j c ≫= walk k.
Proof.
  revert c. induction j as [|j IH]; intros c; simpl; [reflexivity|].
  destruct (flow_to c) as [n|]; simpl; [apply IH|reflexivity].
Qed.

Lemma walk_S_r k c : walk (S k) c = walk k c ≫= flow_to.
Proof.
  replace (S k) with (k + 1)%nat by lia. rewrite walk_add.
  destruct (walk k c) as [n|]; simpl; [|reflexivity].
  destruct (flow_to n); reflexivity.
Qed.

Lemma walk_None_mono j k c : (j <= k)%nat → walk j c = None → walk k c = None.
Proof.
  intros Hjk Hj. replace k with (j + (k - j))%nat by lia.
  rewrite walk_add, Hj. reflexivity.
Qed.

Lemma walk_Some_prefix j k c n :
  (j <= k)%nat → walk k c = Some n → ∃ m, walk j c = Some m.
Proof.
  intros Hjk Hk. destruct (walk j c) as [m|] eqn:Hj; [eauto|].
  rewrite (walk_None_mono j k c Hjk Hj) in Hk. discriminate.
Qed.

Lemma walk_data_end k c n :
  is_data fd c = true → walk k c = Some n → is_data fd n = true.
Proof.
  revert c. induction k as [|k IH]; intros c Hc; simpl.
  - intros [= <-]. exact Hc.
  - destruct (flow_to c) as [m|] eqn:Hm; simpl; [|discriminate].
    apply IH. apply flow_to_data in Hm. tauto.
Qed.

Lemma walk_data_start k c n :
  (0 < k)%nat → walk k c = Some n → is_data fd c = true.
Proof.
  destruct k as [|k]; [lia|]. intros _. simpl.
  destruct (flow_to c) as [m|] eqn:Hm; simpl; [|discriminate].
  intros _. apply flow_to_data in Hm. tauto.
Qed.

(** A cycle keeps every walk from its start alive. *)
Lemma walk_cycle k c m :
  walk k c = Some c → walk (m * k) c = Some c.
Proof.
  intros Hk. induction m as [|m IH]; [reflexivity|].
  simpl. rewrite walk_add, Hk. exact IH.
Qed.

Lemma path_hits_spec fuel c' c :
  path_hits NO_FLOW dx dy fd fuel c' c = true ↔
  ∃ k, (k <= fuel)%nat ∧ walk k c' = Some c.
Proof.
  revert c'. induction fuel as [|fuel IH]; intros c'; simpl.
  - rewrite orb_false_r, bool_decide_eq_true. split.
    + intros ->. exists 0%nat. split; [lia|reflexivity].
    + intros (k & Hk & Hw). assert (k = 0%nat) as -> by lia.
      simpl in Hw. congruence.
  - rewrite orb_true_iff, bool_decide_eq_true. split.
    + intros [->|H].
      * exists 0%nat. split; [lia|reflexivity].
      * destruct (flow_to c') as [n|] eqn:Hn; [|discriminate].
        apply IH in H as (k & Hk & Hw). exists (S k). split; [lia|].
        simpl. rewrite Hn. exact Hw.
    + intros (k & Hk & Hw). destruct k as [|k].
      * left. simpl in Hw. congruence.
      * right. simpl in Hw. destruct (flow_to c') as [n|]; [|discriminate].
        apply IH. exists k. split; [lia|exact Hw].
Qed.

(** *** Acyclic rasters: walks are short *)

Lemma walk_no_repeat i j c m :
  acyclic NO_FLOW dx dy fd → is_data fd c = true → (i < j)%nat →
  walk i c = Some m → walk j c = Some m → False.
Proof.
  intros Hac Hc Hij Hi Hj.
  replace j with (i + (j - i))%nat in Hj by lia.
  rewrite walk_add, Hi in Hj. simpl in Hj.
  apply (Hac m (j - i)%nat); [|lia|exact Hj].
  apply is_data_inGrid. exact (walk_data_end i c m Hc Hi).
Qed.

Lemma walk_bound k c n :
  acyclic NO_FLOW dx dy fd → is_data fd c = true →
  walk k c = Some n → (k < length (Array2D.cells fd))%nat.
Proof.
  intros Hac Hc Hk.
  pose (f := λ j : nat, default c (walk j c)).
  assert (Hf : ∀ j, (j <= k)%nat → walk j c = Some (f j)).
  { intros j Hj. destruct (walk_Some_prefix j k c n Hj Hk) as [m Hm].
    unfold f. rewrite Hm. reflexivity. }
  assert (Hnd : NoDup (f <$> seq 0 (S k))).
  { apply NoDup_fmap_2_strong; [|apply NoDup_seq].
    intros i j Hi Hj Heq.
    apply elem_of_seq in Hi, Hj.
    destruct (Nat.lt_trichotomy i j) as [Hlt|[Heq'|Hlt]]; [|exact Heq'|]; exfalso.
    - apply (walk_no_repeat i j c (f i) Hac Hc Hlt); [apply Hf; lia|].
      rewrite Heq. apply Hf. lia.
    - apply (walk_no_repeat j i c (f j) Hac Hc Hlt); [apply Hf; lia|].
      rewrite <- Heq. apply Hf. lia. }
  assert (Hsub : ∀ x, x ∈ f <$> seq 0 (S k) → x ∈ Array2D.cells fd).
  { intros x Hx. apply list_elem_of_fmap in Hx as (j & -> & Hj).
    apply elem_of_seq in Hj. apply is_data_cells.
    apply (walk_data_end j c _ Hc). apply Hf. lia. }
  pose proof (submseteq_length _ _ (NoDup_submseteq _ _ Hnd Hsub)) as Hlen.
  rewrite length_fmap, length_seq in Hlen. lia.
Qed.

Lemma acyclicb_sound :
  acyclicb NO_FLOW dx dy fd = true → acyclic NO_FLOW dx dy fd.
Proof.
  unfold acyclicb. intros Hb c k Hc Hk Hw.
  rewrite forallb_forall in Hb.
  assert (Hin : In c (Array2D.cells fd)).
  { apply list_elem_of_In, elem_of_cells, Hc. }
  specialize (Hb c Hin). apply bool_decide_eq_true in Hb.
  pose proof (walk_cycle k c (length (Array2D.cells fd)) Hw) as Hcyc.
  rewrite (walk_None_mono (length (Array2D.cells fd)) _ c) in Hcyc;
    [discriminate|nia|exact Hb].
Qed.

Lemma on_flow_path_iff c' c :
  acyclic NO_FLOW dx dy fd → is_data fd c' = true →
  on_flow_path NO_FLOW dx dy fd c' c = true ↔ ∃ k, walk k c' = Some c.
Proof.
  intros Hac Hc'. unfold on_flow_path. rewrite path_hits_spec. split.
  - intros (k & _ & Hk). eauto.
  - intros (k & Hk). exists k. split; [|exact Hk].
    pose proof (walk_bound k c' c Hac Hc' Hk). lia.
Qed.

(** A cell reaches [c] either because it is [c] or through exactly one of
    the cells that flow into [c]. *)
Lemma on_flow_path_step c' c :
  acyclic NO_FLOW dx dy fd → is_data fd c' = true → is_data fd c = true →
  ind (on_flow_path NO_FLOW dx dy fd c' c) =
  ind (bool_decide (c' = c))
  + Zsum (λ p, ind (bool_decide (flow_to p = Some c)
                    && on_flow_path NO_FLOW dx dy fd c' p))
         (Array2D.cells fd).
Proof.
  intros Hac Hc' Hc.
  assert (Hvia : ∀ p j, flow_to p = Some c → walk j c' = Some p →
                        walk (S j) c' = Some c).
  { intros p j Hp Hj. rewrite walk_S_r, Hj. exact Hp. }
  destruct (decide (c' = c)) as [->|Hne].
  - rewrite bool_decide_eq_true_2 by reflexivity.
    assert (on_flow_path NO_FLOW dx dy fd c c = true) as ->.
    { apply on_flow_path_iff; [assumption..|]. exists 0%nat. reflexivity. }
    rewrite Zsum_zero; [reflexivity|].
    intros p _. destruct (bool_decide (flow_to p = Some c)) eqn:Hp; [|reflexivity].
    destruct (on_flow_path NO_FLOW dx dy fd c p) eqn:Hr; [|reflexivity].
    exfalso. apply bool_decide_eq_true in Hp.
    apply on_flow_path_iff in Hr as (j & Hj); [|assumption..].
    apply (Hac c (S j)); [apply is_data_inGrid; assumption|lia|].
    exact (Hvia p j Hp Hj).
  - rewrite (bool_decide_eq_false_2 _ Hne).
    destruct (on_flow_path NO_FLOW dx dy fd c' c) eqn:Hr.
    + apply on_flow_path_iff in Hr as (k & Hk); [|assumption..].
      destruct k as [|k]; [simpl in Hk; congruence|].
      pose proof Hk as Hk'. rewrite walk_S_r in Hk'.
      destruct (walk k c') as [p0|] eqn:Hp0; [|discriminate]. simpl in Hk'.
      symmetry. change (ind true) with (0 + 1). f_equal.
      apply (Zsum_ind_one _ _ p0); [apply NoDup_cells| | |].
      * apply is_data_cells. apply flow_to_data in Hk'. tauto.
      * rewrite bool_decide_eq_true_2 by exact Hk'. simpl.
        apply on_flow_path_iff; [assumption..|]. eauto.
      * intros p _ Hpne.
        destruct (bool_decide (flow_to p = Some c)) eqn:Hp; [|reflexivity].
        destruct (on_flow_path NO_FLOW dx dy fd c' p) eqn:Hrp; [|reflexivity].
        exfalso. apply bool_decide_eq_true in Hp.
        apply on_flow_path_iff in Hrp as (j & Hj); [|assumption..].
        pose proof (Hvia p j Hp Hj) as Hj'.
        destruct (Nat.lt_trichotomy j k) as [Hlt|[->|Hlt]].
        -- apply (walk_no_repeat (S j) (S k) c' c Hac Hc'); [lia|assumption..].
        -- congruence.
        -- apply (walk_no_repeat (S k) (S j) c' c Hac Hc'); [lia|assumption..].
    + rewrite Zsum_zero; [reflexivity|].
      intros p _. destruct (bool_decide (flow_to p = Some c)) eqn:Hp; [|reflexivity].
      destruct (on_flow_path NO_FLOW dx dy fd c' p) eqn:Hrp; [|reflexivity].
      exfalso. apply bool_decide_eq_true in Hp.
      apply on_flow_path_iff in Hrp as (j & Hj); [|assumption..].
      assert (on_flow_path NO_FLOW dx dy fd c' c = true); [|congruence].
      apply on_flow_path_iff; [assumption..|]. exists (S j). exact (Hvia p j Hp Hj).
Qed.

End flow_graph_facts.

(** *** Direction rasters *)

Section direction_facts.

Variable NO_FLOW : Z.
Variables dx dy : Z → Z.
Variable fd : Array2D.t Z.
Hypothesis Hfd : flowdirs_ok NO_FLOW fd.

Local Abbreviation flow_to := (flow_to NO_FLOW dx dy fd).
Local Abbreviation feeds := (feeds NO_FLOW dx dy fd).
Local Abbreviation target := (target dx dy fd).

Implicit Types (c n p q : GridCell).

Lemma flowdirs_ok_ok : Array2D.ok fd.
Proof. exact (proj1 Hfd). Qed.

Lemma direction_of_cell c :
  Array2D.inGridc fd c = true → direction_ok NO_FLOW fd (Array2D.getc fd c).
Proof.
  intros Hc. destruct Hfd as [Hok Hall].
  pose proof (xyToI_lt fd _ _ Hok Hc) as Hlt.
  apply lookup_lt_is_Some_2 in Hlt as [v Hv].
  unfold Array2D.getc, Array2D.get. rewrite Hv. simpl.
  rewrite Forall_forall in Hall. apply Hall.
  apply list_elem_of_lookup. eauto.
Qed.

Lemma feeds_direction c n :
  feeds c n = true → 1 <= Array2D.getc fd c <= 8.
Proof.
  unfold feeds, is_data, Array2D.isNoData.
  rewrite !andb_true_iff, !negb_true_iff, bool_decide_eq_false, Z.eqb_neq.
  intros [[[Hin Hnd] Hnf] _].
  destruct (direction_of_cell c Hin) as [H|[H|H]]; [|contradiction|exact H].
  exfalso. apply Hnd. exact H.
Qed.

Lemma feeds_inj c1 c2 n :
  feeds c1 n = true → feeds c2 n = true →
  Array2D.getc fd c1 = Array2D.getc fd c2 → c1 = c2.
Proof.
  unfold feeds. rewrite !andb_true_iff, !bool_decide_eq_true.
  intros [_ H1] [_ H2] Heq. unfold_target_in H1. unfold_target_in H2.
  rewrite Heq in H1. rewrite <- H2 in H1. injection H1 as Hx Hy.
  destruct c1, c2. simpl in *. f_equal; lia.
Qed.

Lemma indegree_filter n (keep : GridCell → bool) :
  Zsum (λ c, ind (feeds c n && keep c)) (Array2D.cells fd) =
  Z.of_nat (length (filter (λ c, feeds c n && keep c = true) (Array2D.cells fd))).
Proof.
  rewrite <- Zsum_filter. apply Zsum_ext. intros c _.
  destruct (feeds c n && keep c); reflexivity.
Qed.

(** At most eight cells flow into a cell: one per direction. *)
Lemma indegree_bound n (keep : GridCell → bool) :
  0 <= Zsum (λ c, ind (feeds c n && keep c)) (Array2D.cells fd) <= 8.
Proof.
  rewrite indegree_filter. split; [lia|].
  set (S := filter _ _).
  assert (Hin : ∀ c, c ∈ S → feeds c n = true).
  { intros c Hc. apply list_elem_of_filter in Hc as [Hc _].
    apply andb_true_iff in Hc as [Hc _]. exact Hc. }
  assert (Hnd : NoDup (Array2D.getc fd <$> S)).
  { apply NoDup_fmap_2_strong.
    - intros c1 c2 H1 H2. apply feeds_inj with n; auto.
    - apply NoDup_filter, NoDup_cells. }
  assert (Hsub : ∀ v, v ∈ Array2D.getc fd <$> S → v ∈ seqZ 1 8).
  { intros v Hv. apply list_elem_of_fmap in Hv as (c & -> & Hc).
    apply elem_of_seqZ. pose proof (feeds_direction c n (Hin c Hc)). lia. }
  pose proof (submseteq_length _ _ (NoDup_submseteq _ _ Hnd Hsub)) as Hlen.
  rewrite length_fmap, length_seqZ in Hlen. lia.
Qed.

End direction_facts.

(** *** Freshly allocated rasters *)

Lemma get_replicate {T : Type} (w h : Z) (v nd : T) c :
  0 <= w → 0 <= h →
  Array2D.inGridc (Array2D.mk w h (replicate (Z.to_nat (w * h)) v) nd) c = true →
  Array2D.getc (Array2D.mk w h (replicate (Z.to_nat (w * h)) v) nd) c = v.
Proof.
  intros Hw Hh Hc. set (a := Array2D.mk _ _ _ _).
  assert (Hok : Array2D.ok a).
  { unfold Array2D.ok, a. simpl. rewrite length_replicate. auto. }
  pose proof (xyToI_lt a _ _ Hok Hc) as Hlt.
  unfold Array2D.getc, Array2D.get.
  unfold a in Hlt |- *. simpl in Hlt |- *. rewrite length_replicate in Hlt.
  rewrite lookup_replicate_2 by exact Hlt. reflexivity.
Qed.

Lemma inGridc_same_shape {T U : Type} (a : Array2D.t T) (b : Array2D.t U) c :
  Array2D.same_shape a b → Array2D.inGridc a c = Array2D.inGridc b c.
Proof.
  intros [Hw Hh]. unfold Array2D.inGridc, Array2D.inGrid. rewrite Hw, Hh.
  reflexivity.
Qed.

Lemma same_shape_setc {T U : Type} (a : Array2D.t T) (b : Array2D.t U) c v :
  Array2D.same_shape a b → Array2D.same_shape (Array2D.setc a c v) b.
Proof. intros H. exact H. Qed.

(** *** Phase 1 of the flow accumulation *)

Section dependency_phase_facts.

Variable NO_FLOW : Z.
Variables dx dy : Z → Z.
Variable castU : Z → Z.
Variable fd : Array2D.t Z.
Hypothesis Hfd : flowdirs_ok NO_FLOW fd.

Local Abbreviation feeds := (feeds NO_FLOW dx dy fd).
Local Abbreviation target := (target dx dy fd).
Local Abbreviation dependency_body := (dependency_body NO_FLOW dx dy fd).

Implicit Types (c n p q : GridCell) (area dep : Array2D.t Z).

Lemma dependency_body_eq c area dep :
  Array2D.inGridc fd c = true →
  dependency_body (area, dep) c =
  if is_data fd c then
    if negb (Array2D.getc fd c =? NO_FLOW) && Array2D.inGridc fd (target c)
    then (area, Array2D.setc dep (target c)
                  (wrap_int8 (Array2D.getc dep (target c) + 1)))
    else (area, dep)
  else (Array2D.setc area c (Array2D.noData area), dep).
Proof.
  intros Hc. unfold_dependency_body. unfold is_data. rewrite Hc. simpl.
  destruct (Array2D.isNoData fd (cell_x c) (cell_y c)); simpl; [reflexivity|].
  change (Array2D.get fd (cell_x c) (cell_y c)) with (Array2D.getc fd c).
  destruct (Array2D.getc fd c =? NO_FLOW); simpl; [reflexivity|].
  change (Array2D.inGrid fd (cell_x c + dx (Array2D.getc fd c))
            (cell_y c + dy (Array2D.getc fd c)))
    with (Array2D.inGridc fd (target c)).
  destruct (Array2D.inGridc fd (target c)); reflexivity.
Qed.

Lemma feeds_cases c n :
  feeds c n =
  is_data fd c && negb (Array2D.getc fd c =? NO_FLOW)
  && bool_decide (target c = n).
Proof. reflexivity. Qed.

Lemma dependency_fold l : ∀ area dep,
  (∀ c, c ∈ l → Array2D.inGridc fd c = true) →
  Array2D.ok area → Array2D.same_shape area fd →
  Array2D.ok dep → Array2D.same_shape dep fd →
  (∀ n, Array2D.inGridc fd n = true →
        0 <= Array2D.getc dep n ∧
        Array2D.getc dep n + Zsum (λ c, ind (feeds c n)) l <= 8) →
  ∃ area' dep',
    foldl dependency_body (area, dep) l = (area', dep') ∧
    Array2D.ok area' ∧ Array2D.same_shape area' fd ∧
    Array2D.noData area' = Array2D.noData area ∧
    Array2D.ok dep' ∧ Array2D.same_shape dep' fd ∧
    (∀ n, Array2D.inGridc fd n = true →
          Array2D.getc dep' n =
          Array2D.getc dep n + Zsum (λ c, ind (feeds c n)) l) ∧
    (∀ c, Array2D.inGridc fd c = true →
          Array2D.getc area' c =
          if bool_decide (c ∈ l) && negb (is_data fd c)
          then Array2D.noData area else Array2D.getc area c).
Proof.
  induction l as [|c l IH]; intros area dep Hl Hoka Hsa Hokd Hsd Hb.
  { exists area, dep. simpl. split_and!; try assumption; try reflexivity.
    intros n _. lia. }
  assert (Hc : Array2D.inGridc fd c = true) by (apply Hl; left).
  assert (Hl' : ∀ c', c' ∈ l → Array2D.inGridc fd c' = true).
  { intros c' Hc'. apply Hl. right. exact Hc'. }
  change (foldl dependency_body (area, dep) (c :: l))
    with (foldl dependency_body (dependency_body (area, dep) c) l).
  rewrite dependency_body_eq by exact Hc.
  destruct (is_data fd c) eqn:Hdc.
  - destruct (negb (Array2D.getc fd c =? NO_FLOW)
              && Array2D.inGridc fd (target c)) eqn:Hgo.
    + apply andb_true_iff in Hgo as [Hnf Hit].
      assert (Hitd : Array2D.inGridc dep (target c) = true).
      { rewrite (inGridc_same_shape dep fd _ Hsd). exact Hit. }
      assert (Hfeed : ∀ n, feeds c n = bool_decide (target c = n)).
      { intros n. rewrite feeds_cases, Hdc, Hnf. reflexivity. }
      assert (Hstep : ∀ n, Array2D.inGridc fd n = true →
                Array2D.getc (Array2D.setc dep (target c)
                   (wrap_int8 (Array2D.getc dep (target c) + 1))) n
                = Array2D.getc dep n + ind (feeds c n)).
      { intros n Hn. rewrite Hfeed.
        destruct (decide (target c = n)) as [<-|Hne].
        - rewrite getc_setc_eq by assumption.
          rewrite bool_decide_eq_true_2 by reflexivity.
          destruct (Hb _ Hit) as [H0 H8]. rewrite Zsum_cons in H8.
          rewrite Hfeed, bool_decide_eq_true_2 in H8 by reflexivity.
          pose proof (indegree_bound NO_FLOW dx dy fd Hfd (target c) (λ _, true)) as Hi.
          assert (0 <= Zsum (λ c0, ind (feeds c0 (target c))) l).
          { apply Zsum_nonneg. intros x _. destruct (feeds x (target c)); simpl; lia. }
          change (ind true) with 1 in *. apply wrap_int8_id. lia.
        - rewrite getc_setc_ne; [|assumption| |assumption].
          + rewrite bool_decide_eq_false_2 by exact Hne. simpl. lia.
          + rewrite (inGridc_same_shape dep fd _ Hsd). exact Hn. }
      destruct (IH area (Array2D.setc dep (target c)
                   (wrap_int8 (Array2D.getc dep (target c) + 1))))
        as (area' & dep' & Hfold & Hoka' & Hsa' & Hnd' & Hokd' & Hsd' & Hdep' & Harea');
        try assumption.
      { apply ok_setc. exact Hokd. }
      { intros n Hn. rewrite Hstep by exact Hn.
        destruct (Hb n Hn) as [H0 H8]. rewrite Zsum_cons in H8.
        split; [destruct (feeds c n); simpl; lia|lia]. }
      exists area', dep'. split_and!; try assumption.
      * intros n Hn. rewrite Hdep', Hstep, Zsum_cons by exact Hn. lia.
      * intros c' Hc'. rewrite Harea' by exact Hc'.
        destruct (decide (c' = c)) as [->|Hne].
        -- rewrite Hdc. rewrite !andb_false_r. reflexivity.
        -- rewrite (bool_decide_ext (c' ∈ c :: l) (c' ∈ l)); [reflexivity|].
           rewrite elem_of_cons. tauto.
    + destruct (IH area dep)
        as (area' & dep' & Hfold & Hoka' & Hsa' & Hnd' & Hokd' & Hsd' & Hdep' & Harea');
        try assumption.
      { intros n Hn. destruct (Hb n Hn) as [H0 H8]. rewrite Zsum_cons in H8.
        split; [exact H0|]. destruct (feeds c n); simpl in H8; lia. }
      assert (Hfeed : ∀ n, Array2D.inGridc fd n = true → feeds c n = false).
      { intros n Hn. rewrite feeds_cases, Hdc. simpl.
        apply andb_false_iff in Hgo as [->|Hgo]; [reflexivity|].
        rewrite bool_decide_eq_false_2; [apply andb_false_r|].
        intros Heq. rewrite Heq in Hgo. congruence. }
      exists area', dep'. split_and!; try assumption.
      * intros n Hn. rewrite Hdep', Zsum_cons, Hfeed by exact Hn. simpl. lia.
      * intros c' Hc'. rewrite Harea' by exact Hc'.
        destruct (decide (c' = c)) as [->|Hne].
        -- rewrite Hdc. rewrite !andb_false_r. reflexivity.
        -- rewrite (bool_decide_ext (c' ∈ c :: l) (c' ∈ l)); [reflexivity|].
           rewrite elem_of_cons. tauto.
  - assert (Hca : Array2D.inGridc area c = true).
    { rewrite (inGridc_same_shape area fd _ Hsa). exact Hc. }
    assert (Hfeed : ∀ n, feeds c n = false).
    { intros n. rewrite feeds_cases, Hdc. reflexivity. }
    destruct (IH (Array2D.setc area c (Array2D.noData area)) dep)
      as (area' & dep' & Hfold & Hoka' & Hsa' & Hnd' & Hokd' & Hsd' & Hdep' & Harea');
      try assumption.
    { apply ok_setc. exact Hoka. }
    { intros n Hn. destruct (Hb n Hn) as [H0 H8]. rewrite Zsum_cons, Hfeed in H8.
      split; [exact H0|]. simpl in H8. lia. }
    exists area', dep'. split_and!; try assumption.
    * intros n Hn. rewrite Hdep', Zsum_cons, Hfeed by exact Hn. simpl. lia.
    * intros c' Hc'. rewrite Harea' by exact Hc'. rewrite noData_setc.
      destruct (decide (c' = c)) as [->|Hne].
      -- rewrite Hdc. rewrite (bool_decide_eq_true_2 (c ∈ c :: l)) by left. simpl.
         rewrite getc_setc_eq by assumption.
         destruct (bool_decide (c ∈ l)); reflexivity.
      -- rewrite getc_setc_ne; [|assumption| |congruence].
         ++ rewrite (bool_decide_ext (c' ∈ c :: l) (c' ∈ l)); [reflexivity|].
            rewrite elem_of_cons. tauto.
         ++ rewrite (inGridc_same_shape area fd _ Hsa). exact Hc'.
Qed.

Lemma indegree_plain n :
  Zsum (λ c, ind (feeds c n)) (Array2D.cells fd) =
  Zsum (λ c, ind (feeds c n && true)) (Array2D.cells fd).
Proof. apply Zsum_ext. intros c _. rewrite andb_true_r. reflexivity. Qed.

(** *** The first loop, one memory operation at a time *)

Local Abbreviation phase_inv := (phase_inv NO_FLOW dx dy castU fd).
Local Abbreviation row_ok := (row_ok NO_FLOW dx dy fd).
Local Abbreviation indegree := (indegree NO_FLOW dx dy fd).
Local Abbreviation cell_ops := (cell_ops NO_FLOW dx dy fd).
Local Abbreviation row_ops := (row_ops NO_FLOW dx dy fd).

Lemma cell_ops_eq c :
  Array2D.inGridc fd c = true →
  cell_ops c =
  if is_data fd c then
    if negb (Array2D.getc fd c =? NO_FLOW) && Array2D.inGridc fd (target c)
    then [LoadDep (target c); StoreDep (target c)]
    else []
  else [SetNoData c].
Proof.
  intros Hc. unfold_cell_ops. unfold is_data. rewrite Hc. simpl.
  destruct (Array2D.isNoData fd (cell_x c) (cell_y c)); simpl; [reflexivity|].
  change (Array2D.get fd (cell_x c) (cell_y c)) with (Array2D.getc fd c).
  destruct (Array2D.getc fd c =? NO_FLOW); simpl; [reflexivity|].
  change (Array2D.inGrid fd (cell_x c + dx (Array2D.getc fd c))
            (cell_y c + dy (Array2D.getc fd c)))
    with (Array2D.inGridc fd (target c)).
  destruct (Array2D.inGridc fd (target c)); reflexivity.
Qed.

Lemma cell_ops_stores c n :
  Array2D.inGridc fd c = true → Array2D.inGridc fd n = true →
  Zsum (λ op, ind (is_store n op)) (cell_ops c) = ind (feeds c n).
Proof.
  intros Hc Hn. rewrite cell_ops_eq, feeds_cases by exact Hc.
  destruct (is_data fd c); [|reflexivity]. simpl.
  destruct (Array2D.getc fd c =? NO_FLOW); [reflexivity|]. simpl.
  destruct (Array2D.inGridc fd (target c)) eqn:Ht.
  - cbn [Zsum foldr is_store ind]. lia.
  - rewrite bool_decide_eq_false_2; [reflexivity|]. congruence.
Qed.

Lemma cell_ops_marks c c' :
  Array2D.inGridc fd c = true →
  Zsum (λ op, ind (is_mark c' op)) (cell_ops c) =
  ind (negb (is_data fd c) && bool_decide (c = c')).
Proof.
  intros Hc. rewrite cell_ops_eq by exact Hc.
  destruct (is_data fd c); simpl.
  - destruct (negb _ && _); reflexivity.
  - lia.
Qed.

Lemma cell_ops_ok c :
  Array2D.inGridc fd c = true → Forall (op_ok fd) (cell_ops c).
Proof.
  intros Hc. rewrite cell_ops_eq by exact Hc.
  destruct (is_data fd c) eqn:Hd.
  - destruct (negb _ && Array2D.inGridc fd (target c)) eqn:Hgo; [|constructor].
    apply andb_true_iff in Hgo as [_ Ht].
    repeat constructor; exact Ht.
  - repeat constructor; assumption.
Qed.

Lemma cell_ops_paired c ops :
  Array2D.inGridc fd c = true → paired ops → paired (cell_ops c ++ ops).
Proof.
  intros Hc Hp. rewrite cell_ops_eq by exact Hc.
  destruct (is_data fd c); [|exact Hp].
  destruct (negb _ && _); [|exact Hp]. simpl. auto.
Qed.

Lemma cell_ops_length c : (length (cell_ops c) <= 2)%nat.
Proof.
  unfold_cell_ops. destruct (Array2D.isNoData _ _ _); simpl; [lia|].
  destruct (_ =? _); simpl; [lia|]. destruct (negb _); simpl; lia.
Qed.

Lemma row_ops_ok xs y :
  (∀ x, x ∈ xs → Array2D.inGridc fd (mkGridCell x y) = true) →
  Forall (op_ok fd) (xs ≫= λ x, cell_ops (mkGridCell x y)) ∧
  paired (xs ≫= λ x, cell_ops (mkGridCell x y)) ∧
  (length (xs ≫= λ x, cell_ops (mkGridCell x y)) <= 2 * length xs)%nat.
Proof.
  induction xs as [|x xs IH]; intros Hxs.
  - split; [constructor|]. split; [exact I|]. simpl. lia.
  - destruct IH as (Hok & Hp & Hlen).
    { intros x' Hx'. apply Hxs. right. exact Hx'. }
    assert (Hx : Array2D.inGridc fd (mkGridCell x y) = true) by (apply Hxs; left).
    rewrite bind_cons. split_and!.
    + apply Forall_app. split; [apply cell_ops_ok, Hx|exact Hok].
    + apply cell_ops_paired; assumption.
    + rewrite length_app. pose proof (cell_ops_length (mkGridCell x y)).
      simpl. lia.
Qed.

Lemma paired_head ops :
  paired ops →
  match ops with
  | StoreDep _ :: _ => False
  | _ => True
  end.
Proof. destruct ops as [|[]]; simpl; auto. Qed.

Lemma indegree_le n : 0 <= indegree n <= 8.
Proof.
  unfold_indegree. rewrite indegree_plain.
  apply (indegree_bound NO_FLOW dx dy fd Hfd n (λ _, true)).
Qed.

(** **** Counting the operations left *)

Lemma pending_insert f rows y th th' :
  rows !! y = Some th →
  pending f (<[y := th']> rows) =
  pending f rows - Zsum (λ op, ind (f op)) (th_ops th)
  + Zsum (λ op, ind (f op)) (th_ops th').
Proof. intros Hy. unfold pending. exact (Zsum_insert _ _ _ _ _ Hy). Qed.

Lemma ops_sum_nonneg f (ops : list row_op) : 0 <= Zsum (λ op, ind (f op)) ops.
Proof. apply Zsum_nonneg. intros op _. destruct (f op); simpl; lia. Qed.

Lemma pending_nonneg f rows : 0 <= pending f rows.
Proof. apply Zsum_nonneg. intros th _. apply ops_sum_nonneg. Qed.

Lemma pending_row f rows y th :
  rows !! y = Some th → Zsum (λ op, ind (f op)) (th_ops th) <= pending f rows.
Proof.
  intros Hy. unfold pending.
  apply (Zsum_term_le (λ th, Zsum (λ op, ind (f op)) (th_ops th))).
  - intros th' _. apply ops_sum_nonneg.
  - apply list_elem_of_lookup. eauto.
Qed.

Lemma pending_init f :
  pending f ((λ y, mkThread (row_ops y) 0) <$> seqZ 0 (Array2D.height fd)) =
  Zsum (λ c, Zsum (λ op, ind (f op)) (cell_ops c)) (Array2D.cells fd).
Proof.
  unfold pending, Array2D.cells, Array2D.cells_of.
  rewrite Zsum_fmap, Zsum_bind. apply Zsum_ext. intros y _. simpl.
  unfold_row_ops. rewrite !Zsum_bind. apply Zsum_ext. intros x _.
  simpl. lia.
Qed.

(** **** One operation keeps the invariant *)

Lemma row_ok_mono rows rows' th :
  (∀ n, pending (is_store n) rows' <= pending (is_store n) rows) →
  row_ok rows th → row_ok rows' th.
Proof.
  intros Hle [Hok Hrow]. split; [exact Hok|].
  destruct (th_ops th) as [|[c|n|n] ops]; try exact Hrow.
  destruct Hrow as (Hp & H0 & Hreg). specialize (Hle n). split_and!; [assumption..|lia].
Qed.

Lemma row_ok_tail rows ops reg :
  Forall (op_ok fd) ops → paired ops → row_ok rows (mkThread ops reg).
Proof.
  intros Hok Hp. split; [exact Hok|]. simpl.
  pose proof (paired_head ops Hp). destruct ops as [|[]]; tauto.
Qed.

Lemma phase_inv_step st y : phase_inv st → phase_inv (phase_step st y).
Proof.
  intros Hinv. unfold phase_step.
  destruct (ps_rows st !! y) as [[ops reg]|] eqn:Hy; [|exact Hinv].
  destruct ops as [|op ops]; [exact Hinv|]. simpl.
  destruct (pi_rows _ _ _ _ _ _ Hinv y _ Hy) as [Hok Hrow]. simpl in Hok, Hrow.
  apply Forall_cons in Hok as [Hop Hok].
  pose proof (pi_area_ok _ _ _ _ _ _ Hinv) as Haok.
  pose proof (pi_area_shape _ _ _ _ _ _ Hinv) as Hash.
  pose proof (pi_dep_ok _ _ _ _ _ _ Hinv) as Hdok.
  pose proof (pi_dep_shape _ _ _ _ _ _ Hinv) as Hdsh.
  assert (Hpend : ∀ f reg',
    pending f (<[y := mkThread ops reg']> (ps_rows st)) =
    pending f (ps_rows st) - ind (f op)).
  { intros f reg'. rewrite (pending_insert f _ y _ _ Hy). cbn [th_ops].
    rewrite Zsum_cons. lia. }
  assert (Hrows : ∀ reg' y' th',
    (∀ n, pending (is_store n) (<[y := mkThread ops reg']> (ps_rows st))
          <= pending (is_store n) (ps_rows st)) →
    row_ok (<[y := mkThread ops reg']> (ps_rows st)) (mkThread ops reg') →
    <[y := mkThread ops reg']> (ps_rows st) !! y' = Some th' →
    row_ok (<[y := mkThread ops reg']> (ps_rows st)) th').
  { intros reg' y' th' Hle Hnew Hy'.
    destruct (decide (y = y')) as [<-|Hne].
    - rewrite list_lookup_insert_eq in Hy' by (apply lookup_lt_Some in Hy; exact Hy).
      injection Hy' as <-. exact Hnew.
    - rewrite list_lookup_insert_ne in Hy' by exact Hne.
      apply (row_ok_mono (ps_rows st)); [exact Hle|].
      exact (pi_rows _ _ _ _ _ _ Hinv y' th' Hy'). }
  destruct op as [c|n|n]; simpl in Hop.
  - (* area(x,y) = area.noData() *)
    destruct Hop as [Hc Hcd].
    assert (Hcin : Array2D.inGridc (ps_area st) c = true).
    { rewrite (inGridc_same_shape _ fd c Hash). exact Hc. }
    constructor; simpl.
    + apply ok_setc, Haok.
    + exact Hash.
    + exact (pi_sentinel _ _ _ _ _ _ Hinv).
    + exact Hdok.
    + exact Hdsh.
    + intros c' Hd'. rewrite getc_setc_ne.
      * exact (pi_data _ _ _ _ _ _ Hinv c' Hd').
      * exact Hcin.
      * rewrite (inGridc_same_shape _ fd c' Hash). apply is_data_inGrid, Hd'.
      * congruence.
    + intros c' Hc' Hd'. destruct (decide (c = c')) as [<-|Hne].
      * left. rewrite getc_setc_eq by assumption.
        exact (pi_sentinel _ _ _ _ _ _ Hinv).
      * rewrite getc_setc_ne;
          [|exact Hcin|rewrite (inGridc_same_shape _ fd c' Hash); exact Hc'|exact Hne].
        rewrite Hpend. simpl. rewrite (bool_decide_eq_false_2 _ Hne). simpl.
        rewrite Z.sub_0_r. exact (pi_nodata _ _ _ _ _ _ Hinv c' Hc' Hd').
    + intros n Hn. rewrite Hpend. simpl. rewrite Z.sub_0_r.
      exact (pi_dep _ _ _ _ _ _ Hinv n Hn).
    + intros n Hn. rewrite Hpend. simpl. rewrite Z.sub_0_r.
      exact (pi_dep_pos _ _ _ _ _ _ Hinv n Hn).
    + intros y' th'. apply Hrows.
      * intros n. rewrite Hpend. simpl. lia.
      * apply row_ok_tail; assumption.
  - (* the read of ++dependency(nx,ny) *)
    destruct ops as [|[|m|m] ops]; simpl in Hrow; try contradiction.
    destruct Hrow as [<- Hp].
    destruct (pi_dep _ _ _ _ _ _ Hinv n Hop) as [H0 Hle].
    constructor; simpl; try (destruct Hinv; assumption).
    + intros c' Hc' Hd'. rewrite Hpend. simpl. rewrite Z.sub_0_r.
      exact (pi_nodata _ _ _ _ _ _ Hinv c' Hc' Hd').
    + intros m Hm. rewrite Hpend. simpl. rewrite Z.sub_0_r.
      exact (pi_dep _ _ _ _ _ _ Hinv m Hm).
    + intros m Hm. rewrite Hpend. simpl. rewrite Z.sub_0_r.
      exact (pi_dep_pos _ _ _ _ _ _ Hinv m Hm).
    + intros y' th'. apply Hrows.
      * intros m. rewrite Hpend. simpl. lia.
      * split; [exact Hok|]. simpl. split; [exact Hp|]. split; [exact H0|].
        rewrite Hpend. simpl. lia.
  - (* its write *)
    destruct Hrow as (Hp & H0 & Hreg).
    assert (H1 : 1 <= pending (is_store n) (ps_rows st)).
    { pose proof (pending_row (is_store n) _ y _ Hy) as Hle. cbn [th_ops] in Hle.
      rewrite Zsum_cons in Hle. cbn [is_store] in Hle.
      rewrite bool_decide_eq_true_2 in Hle by reflexivity.
      pose proof (ops_sum_nonneg (is_store n) ops). change (ind true) with 1 in Hle.
      lia. }
    pose proof (indegree_le n) as H8.
    assert (Hnin : Array2D.inGridc (ps_dependency st) n = true).
    { rewrite (inGridc_same_shape _ fd n Hdsh). exact Hop. }
    rewrite wrap_int8_id by lia.
    assert (Hst : ∀ m, pending (is_store m) (<[y := mkThread ops reg]> (ps_rows st))
                       = pending (is_store m) (ps_rows st)
                         - ind (bool_decide (n = m))).
    { intros m. rewrite Hpend. reflexivity. }
    constructor; simpl; try (destruct Hinv; assumption).
    + apply ok_setc, Hdok.
    + intros c' Hc' Hd'. rewrite Hpend. simpl. rewrite Z.sub_0_r.
      exact (pi_nodata _ _ _ _ _ _ Hinv c' Hc' Hd').
    + intros m Hm. rewrite Hst. destruct (decide (n = m)) as [<-|Hne].
      * rewrite getc_setc_eq by assumption.
        rewrite bool_decide_eq_true_2 by reflexivity. simpl. lia.
      * rewrite getc_setc_ne;
          [|exact Hnin|rewrite (inGridc_same_shape _ fd m Hdsh); exact Hm|exact Hne].
        rewrite bool_decide_eq_false_2 by exact Hne. simpl. rewrite Z.sub_0_r.
        exact (pi_dep _ _ _ _ _ _ Hinv m Hm).
    + intros m Hm. rewrite Hst. destruct (decide (n = m)) as [<-|Hne].
      * rewrite getc_setc_eq by assumption. lia.
      * rewrite getc_setc_ne;
          [|exact Hnin|rewrite (inGridc_same_shape _ fd m Hdsh); exact Hm|exact Hne].
        rewrite bool_decide_eq_false_2 by exact Hne. simpl. rewrite Z.sub_0_r.
        exact (pi_dep_pos _ _ _ _ _ _ Hinv m Hm).
    + intros y' th'. apply Hrows.
      * intros m. rewrite Hst. destruct (bool_decide (n = m)); simpl; lia.
      * apply row_ok_tail; assumption.
Qed.

Lemma phase_inv_steps l : ∀ st, phase_inv st → phase_inv (foldl phase_step st l).
Proof.
  induction l as [|y l IH]; intros st Hinv; [exact Hinv|].
  simpl. apply IH, phase_inv_step, Hinv.
Qed.

(** **** The start *)

Lemma phase_inv_init area0 :
  phase_inv
    (mkPhase (Array2D.setNoData (Array2D.resize area0 fd (castU 0)) (castU (-1)))
             (Array2D.from_template fd (wrap_int8 0))
             ((λ y, mkThread (row_ops y) 0) <$> seqZ 0 (Array2D.height fd))).
Proof.
  destruct (flowdirs_ok_ok NO_FLOW fd Hfd) as (Hw & Hh & Hlen).
  set (a0 := Array2D.setNoData _ _). set (d0 := Array2D.from_template _ _).
  set (rows0 := _ <$> _).
  assert (Hoka : Array2D.ok a0).
  { unfold Array2D.ok, a0. simpl. rewrite length_replicate. auto. }
  assert (Hokd : Array2D.ok d0).
  { unfold Array2D.ok, d0. simpl. rewrite length_replicate. auto. }
  assert (Hd0 : ∀ n, Array2D.inGridc fd n = true → Array2D.getc d0 n = 0).
  { intros n Hn. unfold d0, Array2D.from_template.
    rewrite get_replicate; [reflexivity|assumption..]. }
  assert (Ha0 : ∀ c, Array2D.inGridc fd c = true → Array2D.getc a0 c = castU 0).
  { intros c Hc. unfold a0, Array2D.setNoData, Array2D.resize. simpl.
    rewrite get_replicate; [reflexivity|assumption..]. }
  assert (Hstores : ∀ n, Array2D.inGridc fd n = true →
                         pending (is_store n) rows0 = indegree n).
  { intros n Hn. unfold rows0. rewrite pending_init. unfold_indegree.
    apply Zsum_ext. intros c Hc. apply cell_ops_stores; [|exact Hn].
    apply elem_of_cells, Hc. }
  constructor; simpl; try assumption.
  - split; reflexivity.
  - reflexivity.
  - split; reflexivity.
  - intros c Hc. apply Ha0, is_data_inGrid, Hc.
  - intros c Hc Hd. right. split; [apply Ha0, Hc|].
    unfold rows0. rewrite pending_init.
    pose proof (Zsum_term_le
      (λ c', Zsum (λ op, ind (is_mark c op)) (cell_ops c')) (Array2D.cells fd) c)
      as Hle.
    simpl in Hle. rewrite (cell_ops_marks c c Hc), Hd in Hle.
    rewrite bool_decide_eq_true_2 in Hle by reflexivity.
    apply Hle.
    + intros x _. apply ops_sum_nonneg.
    + apply elem_of_cells, Hc.
  - intros n Hn. rewrite (Hd0 n Hn), (Hstores n Hn). pose proof (indegree_le n). lia.
  - intros n Hn. rewrite (Hstores n Hn). lia.
  - intros y th Hy. unfold rows0 in Hy. rewrite list_lookup_fmap in Hy.
    destruct (seqZ 0 (Array2D.height fd) !! y) as [yz|] eqn:Hyz; [|discriminate].
    injection Hy as <-. apply list_elem_of_lookup_2 in Hyz.
    apply elem_of_seqZ in Hyz.
    destruct (row_ops_ok (seqZ 0 (Array2D.width fd)) yz) as (Hok & Hp & _).
    { intros x Hx. apply elem_of_seqZ in Hx. apply inGridc_spec. simpl. lia. }
    apply row_ok_tail; assumption.
Qed.

(** **** The end: every row is done *)

Lemma phase_step_rows_length st y :
  length (ps_rows (phase_step st y)) = length (ps_rows st).
Proof.
  unfold phase_step. destruct (ps_rows st !! y) as [[ops reg]|]; [|reflexivity].
  destruct ops as [|[] ops]; simpl; rewrite ?length_insert; reflexivity.
Qed.

Lemma phase_steps_rows_length l : ∀ st,
  length (ps_rows (foldl phase_step st l)) = length (ps_rows st).
Proof.
  induction l as [|y l IH]; intros st; [reflexivity|].
  simpl. rewrite IH. apply phase_step_rows_length.
Qed.

Lemma ops_left_step st y y' :
  ops_left (phase_step st y') y =
  if decide (y = y') then pred (ops_left st y) else ops_left st y.
Proof.
  unfold ops_left, phase_step.
  destruct (ps_rows st !! y') as [[ops reg]|] eqn:Hy'.
  - pose proof (lookup_lt_Some _ _ _ Hy') as Hlt. cbn [th_ops th_reg].
    destruct ops as [|op ops].
    + destruct (decide (y = y')) as [->|Hne]; [|reflexivity].
      rewrite Hy'. reflexivity.
    + destruct (decide (y = y')) as [->|Hne].
      * rewrite Hy'. destruct op; cbn [ps_rows th_ops length];
          rewrite list_lookup_insert_eq by exact Hlt; reflexivity.
      * destruct op; cbn [ps_rows]; rewrite list_lookup_insert_ne by congruence;
          reflexivity.
  - destruct (decide (y = y')) as [->|Hne]; [|reflexivity].
    rewrite Hy'. reflexivity.
Qed.

Lemma ops_left_mono l y : ∀ st,
  (ops_left (foldl phase_step st l) y <= ops_left st y)%nat.
Proof.
  induction l as [|y' l IH]; intros st; [reflexivity|].
  simpl. etrans; [apply IH|]. rewrite ops_left_step.
  destruct (decide (y = y')); lia.
Qed.

Lemma ops_left_replicate k y : ∀ st,
  ops_left (foldl phase_step st (replicate k y)) y = (ops_left st y - k)%nat.
Proof.
  induction k as [|k IH]; intros st; simpl; [lia|].
  rewrite IH, ops_left_step, decide_True by reflexivity. lia.
Qed.

Lemma ops_left_turns k ys : ∀ st,
  (∀ y, y ∈ ys → (ops_left st y <= k)%nat) →
  ∀ y, y ∈ ys → ops_left (foldl phase_step st (ys ≫= replicate k)) y = O.
Proof.
  induction ys as [|y0 ys IH]; intros st Hk y Hy; [inv Hy|].
  rewrite bind_cons, foldl_app.
  set (st1 := foldl phase_step st (replicate k y0)).
  assert (H0 : ops_left st1 y0 = O).
  { unfold st1. rewrite ops_left_replicate.
    assert (ops_left st y0 <= k)%nat by (apply Hk; left). lia. }
  destruct (decide (y ∈ ys)) as [Hin|Hout].
  - apply IH; [|exact Hin]. intros y' Hy'.
    etrans; [apply ops_left_mono|]. apply Hk. right. exact Hy'.
  - apply elem_of_cons in Hy as [->|Hy]; [|contradiction].
    pose proof (ops_left_mono (ys ≫= replicate k) y0 st1). lia.
Qed.

Lemma phase_done sched st th :
  length (ps_rows st) = Z.to_nat (Array2D.height fd) →
  (∀ y, (ops_left st y <= 2 * Z.to_nat (Array2D.width fd))%nat) →
  th ∈ ps_rows (foldl phase_step st (sched ++ rows_in_turn fd)) →
  th_ops th = [].
Proof.
  intros Hlen Hk Hth. apply list_elem_of_lookup in Hth as [y Hy].
  pose proof (lookup_lt_Some _ _ _ Hy) as Hlt.
  rewrite phase_steps_rows_length, Hlen in Hlt.
  rewrite foldl_app in Hy.
  assert (Hz : ops_left (foldl phase_step (foldl phase_step st sched)
                           (rows_in_turn fd)) y = O).
  { apply (ops_left_turns (2 * Z.to_nat (Array2D.width fd))
             (seq 0 (Z.to_nat (Array2D.height fd)))).
    - intros y' _. etrans; [apply ops_left_mono|]. apply Hk.
    - apply elem_of_seq. lia. }
  unfold ops_left in Hz. rewrite Hy in Hz.
  apply nil_length_inv, Hz.
Qed.

Lemma pending_done f rows :
  (∀ th, th ∈ rows → th_ops th = []) → pending f rows = 0.
Proof.
  intros Hdone. apply Zsum_zero. intros th Hth. rewrite (Hdone th Hth).
  reflexivity.
Qed.

(** **** What every interleaving leaves behind *)

(** After phase 1, whatever the schedule, the area raster is 0 on data
    cells and the sentinel elsewhere, and a dependency cell holds at most
    the number of its feeders, and at least 1 if it has any. *)
Lemma dependency_phase_any sched area0 :
  ∃ area dep,
    dependency_phase NO_FLOW dx dy castU sched fd area0 = (area, dep) ∧
    Array2D.ok area ∧ Array2D.same_shape area fd ∧
    Array2D.noData area = castU (-1) ∧
    Array2D.ok dep ∧ Array2D.same_shape dep fd ∧
    (∀ n, Array2D.inGridc fd n = true →
          0 <= Array2D.getc dep n <= indegree n ∧
          (1 <= indegree n → 1 <= Array2D.getc dep n)) ∧
    (∀ c, Array2D.inGridc fd c = true →
          Array2D.getc area c = if is_data fd c then castU 0 else castU (-1)).
Proof.
  destruct (flowdirs_ok_ok NO_FLOW fd Hfd) as (Hw & Hh & Hlen).
  unfold dependency_phase.
  set (st0 := mkPhase _ _ _).
  pose proof (phase_inv_steps (sched ++ rows_in_turn fd) st0
                (phase_inv_init area0)) as Hinv.
  assert (Hdone : ∀ f, pending f
            (ps_rows (foldl phase_step st0 (sched ++ rows_in_turn fd))) = 0).
  { intros f. apply pending_done. intros th. apply phase_done.
    - unfold st0. simpl. rewrite length_fmap, length_seqZ. reflexivity.
    - intros y. unfold ops_left, st0. simpl. rewrite list_lookup_fmap.
      destruct (seqZ 0 (Array2D.height fd) !! y) as [yz|] eqn:Hyz; simpl; [|lia].
      apply list_elem_of_lookup_2, elem_of_seqZ in Hyz.
      destruct (row_ops_ok (seqZ 0 (Array2D.width fd)) yz) as (_ & _ & Hl).
      { intros x Hx. apply elem_of_seqZ in Hx. apply inGridc_spec. simpl. lia. }
      rewrite length_seqZ in Hl. exact Hl. }
  eexists _, _. split; [reflexivity|].
  split; [exact (pi_area_ok _ _ _ _ _ _ Hinv)|].
  split; [exact (pi_area_shape _ _ _ _ _ _ Hinv)|].
  split; [exact (pi_sentinel _ _ _ _ _ _ Hinv)|].
  split; [exact (pi_dep_ok _ _ _ _ _ _ Hinv)|].
  split; [exact (pi_dep_shape _ _ _ _ _ _ Hinv)|]. split.
  - intros n Hn.
    pose proof (pi_dep _ _ _ _ _ _ Hinv n Hn) as Hd.
    pose proof (pi_dep_pos _ _ _ _ _ _ Hinv n Hn) as Hp.
    rewrite Hdone in Hd, Hp. split; lia.
  - intros c Hc. destruct (is_data fd c) eqn:Hd.
    + exact (pi_data _ _ _ _ _ _ Hinv c Hd).
    + destruct (pi_nodata _ _ _ _ _ _ Hinv c Hc Hd) as [H|[_ H]]; [exact H|].
      rewrite Hdone in H. lia.
Qed.

(** **** The dependency raster does not depend on the area raster *)

Lemma phase_steps_dependency l : ∀ st st',
  ps_dependency st = ps_dependency st' → ps_rows st = ps_rows st' →
  ps_dependency (foldl phase_step st l) = ps_dependency (foldl phase_step st' l).
Proof.
  induction l as [|y l IH]; intros st st' Hd Hr; [exact Hd|].
  simpl. apply IH; unfold phase_step; rewrite <- Hr;
    (destruct (ps_rows st !! y) as [[ops reg]|]; [|assumption]);
    (destruct ops as [|[] ops]; cbn [th_ops th_reg ps_dependency ps_rows];
     congruence).
Qed.

Lemma dependency_phase_snd (castU' : Z → Z) sched area area' :
  snd (dependency_phase NO_FLOW dx dy castU sched fd area) =
  snd (dependency_phase NO_FLOW dx dy castU' sched fd area').
Proof.
  unfold dependency_phase. simpl. apply phase_steps_dependency; reflexivity.
Qed.

(** **** One thread *)

Lemma run_idle k st y reg :
  ps_rows st !! y = Some (mkThread [] reg) →
  foldl phase_step st (replicate k y) = st.
Proof.
  intros Hy. induction k as [|k IH]; [reflexivity|]. simpl.
  assert (phase_step st y = st) as ->; [|exact IH].
  unfold phase_step. rewrite Hy. reflexivity.
Qed.

Lemma phase_state_eta st y th :
  ps_rows st !! y = Some th →
  st = mkPhase (ps_area st) (ps_dependency st) (<[y := th]> (ps_rows st)).
Proof.
  intros Hy. rewrite (list_insert_id _ _ _ Hy). destruct st. reflexivity.
Qed.

(** A row that is not interrupted at the cell [c] does what the loop body
    says. *)
Lemma run_cell st y c ops reg :
  Array2D.inGridc fd c = true →
  ps_rows st !! y = Some (mkThread (cell_ops c ++ ops) reg) →
  ∃ reg',
    foldl phase_step st (replicate (length (cell_ops c)) y) =
    mkPhase (fst (dependency_body (ps_area st, ps_dependency st) c))
            (snd (dependency_body (ps_area st, ps_dependency st) c))
            (<[y := mkThread ops reg']> (ps_rows st)).
Proof.
  intros Hc. rewrite dependency_body_eq, cell_ops_eq by exact Hc. intros Hy.
  pose proof (lookup_lt_Some _ _ _ Hy) as Hlt.
  destruct (is_data fd c).
  - destruct (negb _ && _).
    + exists (Array2D.getc (ps_dependency st) (target c)).
      cbn [length replicate foldl fst snd].
      unfold phase_step at 2. rewrite Hy. cbn [th_ops th_reg app].
      unfold phase_step. cbn [ps_rows ps_area ps_dependency].
      rewrite list_lookup_insert_eq by exact Hlt. cbn [th_ops th_reg].
      rewrite list_insert_insert_eq. reflexivity.
    + exists reg. simpl. exact (phase_state_eta st y _ Hy).
  - exists reg. cbn [length replicate foldl fst snd].
    unfold phase_step. rewrite Hy. reflexivity.
Qed.

Lemma run_row xs yz : ∀ st y ops reg,
  (∀ x, x ∈ xs → Array2D.inGridc fd (mkGridCell x yz) = true) →
  ps_rows st !! y =
    Some (mkThread ((xs ≫= λ x, cell_ops (mkGridCell x yz)) ++ ops) reg) →
  ∃ reg',
    foldl phase_step st
      (replicate (length (xs ≫= λ x, cell_ops (mkGridCell x yz))) y) =
    mkPhase
      (fst (foldl dependency_body (ps_area st, ps_dependency st)
                  ((λ x, mkGridCell x yz) <$> xs)))
      (snd (foldl dependency_body (ps_area st, ps_dependency st)
                  ((λ x, mkGridCell x yz) <$> xs)))
      (<[y := mkThread ops reg']> (ps_rows st)).
Proof.
  induction xs as [|x xs IH]; intros st y ops reg Hxs Hy.
  - exists reg. simpl. exact (phase_state_eta st y _ Hy).
  - rewrite bind_cons, <- app_assoc in Hy.
    pose proof (lookup_lt_Some _ _ _ Hy) as Hlt.
    destruct (run_cell st y (mkGridCell x yz)
                ((xs ≫= λ x, cell_ops (mkGridCell x yz)) ++ ops) reg)
      as [reg1 Hrun1]; [apply Hxs; left|exact Hy|].
    rewrite bind_cons, length_app, replicate_add, foldl_app, Hrun1.
    set (r := dependency_body (ps_area st, ps_dependency st) (mkGridCell x yz)).
    destruct (IH (mkPhase (fst r) (snd r)
                    (<[y := mkThread ((xs ≫= λ x, cell_ops (mkGridCell x yz)) ++ ops)
                                     reg1]> (ps_rows st))) y ops reg1)
      as [reg' Hrun].
    { intros x' Hx'. apply Hxs. right. exact Hx'. }
    { simpl. apply list_lookup_insert_eq, Hlt. }
    exists reg'. rewrite Hrun. cbn [ps_area ps_dependency ps_rows].
    rewrite list_insert_insert_eq, fmap_cons. cbn [foldl].
    fold r. destruct r. reflexivity.
Qed.

Lemma run_rows ys : ∀ st,
  NoDup ys →
  (∀ y, y ∈ ys →
        Z.of_nat y < Array2D.height fd ∧
        ps_rows st !! y = Some (mkThread (row_ops (Z.of_nat y)) 0)) →
  (ps_area (foldl phase_step st
              (ys ≫= replicate (2 * Z.to_nat (Array2D.width fd)))),
   ps_dependency (foldl phase_step st
              (ys ≫= replicate (2 * Z.to_nat (Array2D.width fd))))) =
  foldl dependency_body (ps_area st, ps_dependency st)
        (ys ≫= λ y, (λ x, mkGridCell x (Z.of_nat y)) <$> seqZ 0 (Array2D.width fd)).
Proof.
  induction ys as [|y ys IH]; intros st Hnd Hys; [reflexivity|].
  apply NoDup_cons in Hnd as [Hy Hnd].
  destruct (Hys y) as [Hlt Hrow]; [left|].
  assert (Hin : ∀ x, x ∈ seqZ 0 (Array2D.width fd) →
                     Array2D.inGridc fd (mkGridCell x (Z.of_nat y)) = true).
  { intros x Hx. apply elem_of_seqZ in Hx. apply inGridc_spec. simpl. lia. }
  destruct (row_ops_ok (seqZ 0 (Array2D.width fd)) (Z.of_nat y) Hin)
    as (_ & _ & Hlen).
  rewrite length_seqZ in Hlen.
  destruct (run_row (seqZ 0 (Array2D.width fd)) (Z.of_nat y) st y [] 0 Hin)
    as [reg' Hrun].
  { rewrite app_nil_r. exact Hrow. }
  set (len := length (seqZ 0 (Array2D.width fd)
                      ≫= λ x, cell_ops (mkGridCell x (Z.of_nat y)))) in *.
  assert (Hblock : foldl phase_step st
                     (replicate (2 * Z.to_nat (Array2D.width fd)) y)
                   = foldl phase_step st (replicate len y)).
  { replace (2 * Z.to_nat (Array2D.width fd))%nat
      with (len + (2 * Z.to_nat (Array2D.width fd) - len))%nat by lia.
    rewrite replicate_add, foldl_app, Hrun.
    apply (run_idle _ _ y reg'). simpl.
    apply list_lookup_insert_eq. apply lookup_lt_Some in Hrow. exact Hrow. }
  rewrite !bind_cons, !foldl_app, Hblock, Hrun.
  rewrite IH; [|exact Hnd|].
  - cbn [ps_area ps_dependency]. rewrite <- surjective_pairing. reflexivity.
  - intros y' Hy'. destruct (Hys y') as [Hlt' Hrow']; [right; exact Hy'|].
    split; [exact Hlt'|]. simpl.
    rewrite list_lookup_insert_ne; [exact Hrow'|]. intros ->. contradiction.
Qed.

Lemma cells_by_row :
  Array2D.cells fd =
  seq 0 (Z.to_nat (Array2D.height fd))
  ≫= λ y, (λ x, mkGridCell x (Z.of_nat y)) <$> seqZ 0 (Array2D.width fd).
Proof.
  assert (Hrow : ∀ (yz : Z) (k : list Z),
            k ≫= (λ x, [mkGridCell x yz]) = (λ x, mkGridCell x yz) <$> k).
  { intros yz k. induction k as [|x k IHk]; [reflexivity|].
    rewrite bind_cons, fmap_cons, IHk. reflexivity. }
  unfold Array2D.cells, Array2D.cells_of. unfold seqZ at 2.
  induction (seq 0 (Z.to_nat (Array2D.height fd))) as [|y l IH]; [reflexivity|].
  rewrite fmap_cons, !bind_cons, IH. f_equal. rewrite Z.add_0_r. apply Hrow.
Qed.

(** With the empty schedule the loop is the row-by-row, cell-by-cell
    execution of its body. *)
Lemma dependency_phase_serial area0 :
  dependency_phase NO_FLOW dx dy castU [] fd area0 =
  foldl dependency_body
        (Array2D.setNoData (Array2D.resize area0 fd (castU 0)) (castU (-1)),
         Array2D.from_template fd (wrap_int8 0))
        (Array2D.cells fd).
Proof.
  unfold dependency_phase. rewrite app_nil_l, cells_by_row.
  unfold rows_in_turn.
  apply (run_rows (seq 0 (Z.to_nat (Array2D.height fd)))
           (mkPhase _ _ _)).
  - apply NoDup_seq.
  - intros y Hy. apply elem_of_seq in Hy. split; [lia|]. simpl.
    rewrite list_lookup_fmap, lookup_seqZ_lt by lia. reflexivity.
Qed.

(** After phase 1 under a schedule that loses no increment, the dependency
    raster holds every cell's number of feeders, and the area raster is 0
    on data cells and the sentinel elsewhere. *)
Lemma dependency_phase_spec sched area0 :
  lossless NO_FLOW dx dy sched fd = true →
  ∃ area dep,
    dependency_phase NO_FLOW dx dy castU sched fd area0 = (area, dep) ∧
    Array2D.ok area ∧ Array2D.same_shape area fd ∧
    Array2D.noData area = castU (-1) ∧
    Array2D.ok dep ∧ Array2D.same_shape dep fd ∧
    (∀ n, Array2D.inGridc fd n = true →
          Array2D.getc dep n = Zsum (λ c, ind (feeds c n)) (Array2D.cells fd)) ∧
    (∀ c, Array2D.inGridc fd c = true →
          Array2D.getc area c = if is_data fd c then castU 0 else castU (-1)).
Proof.
  intros Hll.
  destruct (dependency_phase_any sched area0)
    as (area & dep & Heq & Hoka & Hsa & Hnd & Hokd & Hsd & _ & Harea).
  exists area, dep. split_and!; try assumption.
  intros n Hn. unfold lossless in Hll.
  rewrite forallb_forall in Hll. specialize (Hll n).
  rewrite <- (dependency_phase_snd id sched area0 fd), Heq in Hll.
  apply Z.eqb_eq, Hll. apply list_elem_of_In, elem_of_cells, Hn.
Qed.

(** Phase 2 puts in the worklist the data cells that nothing flows into. *)
Lemma sources_fold (w : worklist) dep l : ∀ acc,
  worklist_ok w → (∀ c, c ∈ l → Array2D.inGridc fd c = true) →
  foldl (sources_body_with w fd dep) acc l ≡ₚ
  filter (λ c, Array2D.getc dep c = 0 ∧ is_data fd c = true) l ++ acc.
Proof.
  induction l as [|c l IH]; intros acc Hw Hl; [reflexivity|].
  assert (Hc : Array2D.inGridc fd c = true) by (apply Hl; left).
  simpl foldl. rewrite IH; [|exact Hw|intros c' Hc'; apply Hl; right; exact Hc'].
  assert (Hd : is_data fd c = negb (Array2D.isNoData fd (cell_x c) (cell_y c))).
  { unfold is_data. rewrite Hc. reflexivity. }
  unfold sources_body_with.
  change (Array2D.get dep (cell_x c) (cell_y c)) with (Array2D.getc dep c).
  rewrite filter_cons.
  destruct (Z.eqb_spec (Array2D.getc dep c) 0) as [H0|H0];
    destruct (Array2D.isNoData fd (cell_x c) (cell_y c)); simpl in *.
  - rewrite decide_False by (intros [_ ?]; congruence). reflexivity.
  - rewrite decide_True by (split; [exact H0|exact Hd]).
    destruct Hw as (_ & _ & Hpush). rewrite Hpush.
    symmetry. apply Permutation_middle.
  - rewrite decide_False by (intros [? _]; contradiction). reflexivity.
  - rewrite decide_False by (intros [? _]; contradiction). reflexivity.
Qed.

Lemma sources_phase_perm (w : worklist) dep :
  worklist_ok w →
  sources_phase_with w fd dep ≡ₚ
  filter (λ c, Array2D.getc dep c = 0 ∧ is_data fd c = true) (Array2D.cells fd).
Proof.
  intros Hw. unfold sources_phase_with. rewrite sources_fold.
  - rewrite app_nil_r. reflexivity.
  - exact Hw.
  - intros c. apply elem_of_cells.
Qed.

End dependency_phase_facts.

(** One thread loses no increment. *)
Lemma serial_lossless NO_FLOW dx dy fd :
  flowdirs_ok NO_FLOW fd → lossless NO_FLOW dx dy [] fd = true.
Proof.
  intros Hfd. unfold lossless. apply forallb_forall. intros n Hn.
  apply list_elem_of_In, elem_of_cells in Hn. apply Z.eqb_eq.
  rewrite dependency_phase_serial.
  destruct (flowdirs_ok_ok NO_FLOW fd Hfd) as (Hw & Hh & Hlen).
  set (a0 := Array2D.setNoData _ _). set (d0 := Array2D.from_template _ _).
  assert (Hd0 : ∀ m, Array2D.inGridc fd m = true → Array2D.getc d0 m = 0).
  { intros m Hm. unfold d0, Array2D.from_template.
    rewrite get_replicate; [reflexivity|assumption..]. }
  destruct (dependency_fold NO_FLOW dx dy id fd Hfd (Array2D.cells fd) a0 d0)
    as (area & dep & Hfold & _ & _ & _ & _ & _ & Hdep & _).
  - intros c. apply elem_of_cells.
  - unfold Array2D.ok, a0. simpl. rewrite length_replicate. auto.
  - split; reflexivity.
  - unfold Array2D.ok, d0. simpl. rewrite length_replicate. auto.
  - split; reflexivity.
  - intros m Hm. rewrite Hd0 by exact Hm. rewrite indegree_plain.
    pose proof (indegree_bound NO_FLOW dx dy fd Hfd m (λ _, true)).
    simpl in *. lia.
  - rewrite Hfold. simpl. rewrite Hdep, Hd0 by exact Hn. unfold indegree. lia.
Qed.

(** Neither does any schedule when no cell has two feeders. *)
Lemma single_feeder_lossless NO_FLOW dx dy sched fd :
  flowdirs_ok NO_FLOW fd →
  (∀ n, Array2D.inGridc fd n = true → indegree NO_FLOW dx dy fd n <= 1) →
  lossless NO_FLOW dx dy sched fd = true.
Proof.
  intros Hfd H1. unfold lossless. apply forallb_forall. intros n Hn.
  apply list_elem_of_In, elem_of_cells in Hn. apply Z.eqb_eq.
  destruct (dependency_phase_any NO_FLOW dx dy id fd Hfd sched fd)
    as (area & dep & Heq & _ & _ & _ & _ & _ & Hdep & _).
  rewrite Heq. simpl. destruct (Hdep n Hn) as [Hb Hpos]. specialize (H1 n Hn).
  lia.
Qed.

Lemma phase_steps_dep_noData l : ∀ st,
  Array2D.noData (ps_dependency (foldl phase_step st l)) =
  Array2D.noData (ps_dependency st).
Proof.
  induction l as [|y l IH]; intros st; [reflexivity|].
  simpl. rewrite IH. unfold phase_step.
  destruct (ps_rows st !! y) as [[ops reg]|]; [|reflexivity].
  destruct ops as [|[] ops]; reflexivity.
Qed.

(** All the schedules that lose no increment leave the same two rasters. *)
Lemma lossless_phase NO_FLOW dx dy castU sched fd area0 :
  flowdirs_ok NO_FLOW fd → lossless NO_FLOW dx dy sched fd = true →
  dependency_phase NO_FLOW dx dy castU sched fd area0 =
  dependency_phase NO_FLOW dx dy castU [] fd area0.
Proof.
  intros Hfd Hll.
  assert (Hnd : ∀ s, Array2D.noData
                       (snd (dependency_phase NO_FLOW dx dy castU s fd area0))
                     = wrap_int8 0).
  { intros s. unfold dependency_phase. simpl. apply phase_steps_dep_noData. }
  pose proof (Hnd sched) as Hn1. pose proof (Hnd []) as Hn2.
  destruct (dependency_phase_spec NO_FLOW dx dy castU fd Hfd sched area0 Hll)
    as (a1 & d1 & E1 & Hoka1 & [Hwa1 Hha1] & Hnda1 & Hokd1 & [Hwd1 Hhd1] & Hdep1 & Ha1).
  destruct (dependency_phase_spec NO_FLOW dx dy castU fd Hfd [] area0
              (serial_lossless NO_FLOW dx dy fd Hfd))
    as (a2 & d2 & E2 & Hoka2 & [Hwa2 Hha2] & Hnda2 & Hokd2 & [Hwd2 Hhd2] & Hdep2 & Ha2).
  rewrite E1 in Hn1 |- *. rewrite E2 in Hn2 |- *. simpl in Hn1, Hn2. f_equal.
  - apply array2d_ext; try assumption; try congruence.
    intros c Hc.
    rewrite (inGridc_same_shape a1 fd c (conj Hwa1 Hha1)) in Hc.
    rewrite Ha1, Ha2 by exact Hc. reflexivity.
  - apply array2d_ext; try assumption; try congruence.
    intros c Hc.
    rewrite (inGridc_same_shape d1 fd c (conj Hwd1 Hhd1)) in Hc.
    rewrite Hdep1, Hdep2 by exact Hc. reflexivity.
Qed.

Lemma lossless_run NO_FLOW dx dy castU w sched fd area0 :
  flowdirs_ok NO_FLOW fd → lossless NO_FLOW dx dy sched fd = true →
  d8_flow_accum_with NO_FLOW dx dy castU w sched fd area0 =
  d8_flow_accum_with NO_FLOW dx dy castU w [] fd area0.
Proof.
  intros Hfd Hll. unfold d8_flow_accum_with, drain_init_with.
  rewrite (lossless_phase NO_FLOW dx dy castU sched fd area0 Hfd Hll).
  reflexivity.
Qed.

Lemma bool_decide_snoc (P : list GridCell) (c x : GridCell) :
  bool_decide (x ∈ P ++ [c]) = bool_decide (x ∈ P) || bool_decide (x = c).
Proof.
  apply eq_true_iff_eq.
  rewrite orb_true_iff, !bool_decide_eq_true, elem_of_app, list_elem_of_singleton.
  tauto.
Qed.

Lemma if_triple {A B C : Type} (b : bool) (x : A) (y : B) (z1 z2 : C) :
  (if b then (x, y, z1) else (x, y, z2)) = (x, y, if b then z1 else z2).
Proof. destruct b; reflexivity. Qed.

(** *** The drain loop: the dependency raster *)

Section drain_facts.

Variable NO_FLOW : Z.
Variables dx dy : Z → Z.
Variable castU : Z → Z.
Variable w : worklist.
Variable fd : Array2D.t Z.
Hypothesis Hfd : flowdirs_ok NO_FLOW fd.
Hypothesis Hw : worklist_ok w.
Variable sched : list nat.
Hypothesis Hll : lossless NO_FLOW dx dy sched fd = true.

Local Abbreviation flow_to := (flow_to NO_FLOW dx dy fd).
Local Abbreviation feeds := (feeds NO_FLOW dx dy fd).
Local Abbreviation target := (target dx dy fd).
Local Abbreviation drain_body := (drain_body NO_FLOW dx dy castU fd).
Local Abbreviation drain_step_with := (drain_step_with NO_FLOW dx dy castU w fd).
Local Abbreviation dep_inv := (dep_inv NO_FLOW dx dy fd).

Implicit Types (c n p q : GridCell) (area dep : Array2D.t Z) (st : drain_state).

(** The loop body in terms of the flow graph. *)
Lemma drain_body_eq c area dep :
  is_data fd c = true →
  drain_body c area dep =
  let area1 := Array2D.setc area c (castU (Array2D.getc area c + 1)) in
  match flow_to c with
  | None => (area1, dep, None)
  | Some n =>
      let dep2 := Array2D.setc dep n (wrap_int8 (Array2D.getc dep n - 1)) in
      (Array2D.setc area1 n (castU (Array2D.getc area1 n + Array2D.getc area1 c)),
       dep2,
       if Array2D.getc dep2 n =? 0 then Some n else None)
  end.
Proof.
  intros Hc. unfold_drain_body. unfold_flow_to. rewrite Hc. simpl.
  change (Array2D.get fd (cell_x c) (cell_y c)) with (Array2D.getc fd c).
  destruct (Array2D.getc fd c =? NO_FLOW); [reflexivity|].
  change (Array2D.inGrid fd (cell_x c + dx (Array2D.getc fd c))
            (cell_y c + dy (Array2D.getc fd c)))
    with (Array2D.inGridc fd (target c)).
  unfold is_data at 1.
  destruct (Array2D.inGridc fd (target c)) eqn:Hin; simpl; [|reflexivity].
  change (Array2D.isNoData fd (cell_x c + dx (Array2D.getc fd c))
            (cell_y c + dy (Array2D.getc fd c)))
    with (Array2D.isNoData fd (cell_x (target c)) (cell_y (target c))).
  destruct (Array2D.isNoData fd (cell_x (target c)) (cell_y (target c)));
    simpl; [reflexivity|].
  exact (if_triple _ _ _ _ _).
Qed.

Lemma drain_step_with_eq st st' :
  (∀ c, c ∈ ds_sources st → is_data fd c = true) →
  drain_step_with st = Some st' →
  ∃ c rest,
    ds_sources st ≡ₚ c :: rest ∧
    let area1 := Array2D.setc (ds_area st) c
                   (castU (Array2D.getc (ds_area st) c + 1)) in
    st' =
    match flow_to c with
    | None => mkDrain area1 (ds_dependency st) rest (ds_visited st ++ [c])
    | Some n =>
        let dep2 := Array2D.setc (ds_dependency st) n
                      (wrap_int8 (Array2D.getc (ds_dependency st) n - 1)) in
        mkDrain
          (Array2D.setc area1 n
             (castU (Array2D.getc area1 n + Array2D.getc area1 c)))
          dep2
          (if Array2D.getc dep2 n =? 0 then wl_push w rest n else rest)
          (ds_visited st ++ [c])
    end.
Proof.
  intros Hdata. unfold_drain_step_with.
  destruct (wl_pop w (ds_sources st)) as [[c rest]|] eqn:Hpop; [|discriminate].
  destruct Hw as (Hperm & _ & _). apply Hperm in Hpop.
  assert (Hc : is_data fd c = true).
  { apply Hdata. rewrite Hpop. left. }
  rewrite (drain_body_eq c _ _ Hc). simpl.
  intros Heq. exists c, rest. split; [exact Hpop|].
  destruct (flow_to c) as [n|]; [|congruence].
  destruct (Array2D.getc _ n =? 0); congruence.
Qed.

Section dep_step.

Variable st : drain_state.
Hypothesis Hinv : dep_inv st.

Local Abbreviation P := (ds_visited st).
Local Abbreviation Q := (ds_sources st).
Local Abbreviation dep := (ds_dependency st).

Lemma dep_term_nonneg (V : list GridCell) n x :
  0 <= ind (feeds x n && negb (bool_decide (x ∈ V))).
Proof. destruct (feeds x n && negb (bool_decide (x ∈ V))); simpl; lia. Qed.

(** The cells that flow into a processed or waiting cell are processed. *)
Lemma feeders_visited c q :
  c ∈ P ++ Q → flow_to q = Some c → q ∈ P.
Proof.
  intros Hc Hq.
  destruct (flow_to_data _ _ _ _ _ _ Hq) as [Hqd Hcd].
  pose proof (proj1 (di_zero _ _ _ _ _ Hinv c Hcd) Hc) as H0.
  rewrite (di_count _ _ _ _ _ Hinv c Hcd) in H0.
  pose proof (Zsum_term_le
    (λ x, ind (feeds x c && negb (bool_decide (x ∈ P)))) _ q
    (λ x _, dep_term_nonneg P c x) (is_data_cells _ _ Hqd)) as Hle.
  simpl in Hle. rewrite H0 in Hle.
  destruct (decide (q ∈ P)) as [Hin|Hout]; [exact Hin|exfalso].
  rewrite (proj2 (feeds_flow_to _ _ _ _ q c Hcd) Hq) in Hle.
  rewrite (bool_decide_eq_false_2 _ Hout) in Hle. simpl in Hle. lia.
Qed.

(** A cell whose feeder is not processed has a positive dependency. *)
Lemma dependency_pos c n :
  c ∉ P → flow_to c = Some n → 1 <= Array2D.getc dep n.
Proof.
  intros Hc Hn.
  destruct (flow_to_data _ _ _ _ _ _ Hn) as [Hcd Hnd].
  rewrite (di_count _ _ _ _ _ Hinv n Hnd).
  pose proof (Zsum_term_le
    (λ x, ind (feeds x n && negb (bool_decide (x ∈ P)))) _ c
    (λ x _, dep_term_nonneg P n x) (is_data_cells _ _ Hcd)) as Hle.
  simpl in Hle.
  rewrite (proj2 (feeds_flow_to _ _ _ _ c n Hnd) Hn) in Hle.
  rewrite (bool_decide_eq_false_2 _ Hc) in Hle. exact Hle.
Qed.

(** Processing [c] removes it from the feeders still counted. *)
Lemma dep_count_snoc c m :
  is_data fd c = true → c ∉ P → is_data fd m = true →
  Zsum (λ x, ind (feeds x m && negb (bool_decide (x ∈ P ++ [c]))))
       (Array2D.cells fd)
  = Array2D.getc dep m - ind (bool_decide (flow_to c = Some m)).
Proof.
  intros Hcd Hc Hm.
  rewrite (di_count _ _ _ _ _ Hinv m Hm).
  rewrite (Zsum_point
    (λ x, ind (feeds x m && negb (bool_decide (x ∈ P))))
    (λ x, ind (feeds x m && negb (bool_decide (x ∈ P ++ [c])))) _ c
    (NoDup_cells fd) (is_data_cells _ _ Hcd)).
  - rewrite bool_decide_snoc, (bool_decide_eq_false_2 _ Hc).
    rewrite (bool_decide_eq_true_2 (c = c)) by reflexivity.
    rewrite <- (feeds_flow_to_b _ _ _ _ c m Hm).
    destruct (feeds c m); simpl; lia.
  - intros x _ Hne. rewrite bool_decide_snoc.
    rewrite (bool_decide_eq_false_2 (x = c)) by exact Hne.
    rewrite orb_false_r. reflexivity.
Qed.

Lemma dep_order_snoc c i p q :
  c ∈ Q → (P ++ [c]) !! i = Some p → flow_to q = Some p →
  ∃ j, (j < i)%nat ∧ (P ++ [c]) !! j = Some q.
Proof.
  intros Hc Hi Hq.
  destruct (decide (i < length P)%nat) as [Hlt|Hge].
  - rewrite lookup_app_l in Hi by exact Hlt.
    destruct (di_order _ _ _ _ _ Hinv i p q Hi Hq) as (j & Hj & Hjq).
    exists j. split; [exact Hj|]. rewrite lookup_app_l by lia. exact Hjq.
  - rewrite lookup_app_r in Hi by lia.
    apply list_lookup_singleton_Some in Hi as [Hi <-].
    assert (Hin : q ∈ P).
    { apply (feeders_visited c q); [|exact Hq].
      apply elem_of_app. right. exact Hc. }
    apply list_elem_of_lookup in Hin as [j Hj].
    exists j. pose proof (lookup_lt_Some _ _ _ Hj). split; [lia|].
    rewrite lookup_app_l by lia. exact Hj.
Qed.

Lemma dep_inv_step st' : drain_step_with st = Some st' → dep_inv st'.
Proof.
  intros Hstep.
  apply drain_step_with_eq in Hstep as (c & rest & Hperm & Hst').
  2:{ intros x Hx. apply (di_data _ _ _ _ _ Hinv). apply elem_of_app. right. exact Hx. }
  assert (HcQ : c ∈ Q) by (rewrite Hperm; left).
  assert (Hcd : is_data fd c = true).
  { apply (di_data _ _ _ _ _ Hinv). apply elem_of_app. right. exact HcQ. }
  assert (Hmv : (P ++ [c]) ++ rest ≡ₚ P ++ Q).
  { rewrite Hperm, <- app_assoc. reflexivity. }
  pose proof (di_nodup _ _ _ _ _ Hinv) as Hnd.
  assert (Hnd' : NoDup ((P ++ [c]) ++ rest)) by (rewrite Hmv; exact Hnd).
  assert (HcP : c ∉ P).
  { intros Hin. apply NoDup_app in Hnd as (_ & Hdisj & _). exact (Hdisj c Hin HcQ). }
  assert (Hdep0 : Array2D.getc dep c = 0).
  { apply (di_zero _ _ _ _ _ Hinv c Hcd). apply elem_of_app. right. exact HcQ. }
  pose proof (di_ok _ _ _ _ _ Hinv) as Hok.
  pose proof (di_shape _ _ _ _ _ Hinv) as Hsh.
  destruct (flow_to c) as [n|] eqn:Hflow; simpl in Hst'; subst st'.
  - destruct (flow_to_data _ _ _ _ _ _ Hflow) as [_ Hnd0].
    pose proof (dependency_pos c n HcP Hflow) as Hpos.
    pose proof (di_range _ _ _ _ _ Hinv n (is_data_inGrid _ _ Hnd0)) as Hrng.
    assert (Hnin : Array2D.inGridc dep n = true).
    { rewrite (inGridc_same_shape dep fd n Hsh). apply is_data_inGrid, Hnd0. }
    assert (HnPQ : n ∉ P ++ Q).
    { intros Hin. apply (di_zero _ _ _ _ _ Hinv n Hnd0) in Hin. lia. }
    assert (Hwrap : wrap_int8 (Array2D.getc dep n - 1) = Array2D.getc dep n - 1).
    { apply wrap_int8_id. lia. }
    rewrite Hwrap. rewrite (getc_setc_eq dep n) by assumption.
    assert (Hget : ∀ m, Array2D.inGridc fd m = true →
              Array2D.getc (Array2D.setc dep n (Array2D.getc dep n - 1)) m
              = Array2D.getc dep m - ind (bool_decide (flow_to c = Some m))).
    { intros m Hm. destruct (decide (n = m)) as [<-|Hne].
      - rewrite getc_setc_eq by assumption.
        rewrite bool_decide_eq_true_2 by exact Hflow. reflexivity.
      - rewrite getc_setc_ne; [|assumption| |exact Hne].
        + rewrite bool_decide_eq_false_2 by congruence. simpl. lia.
        + rewrite (inGridc_same_shape dep fd m Hsh). exact Hm. }
    assert (Hsrc : ∀ x, x ∈ (if Array2D.getc dep n - 1 =? 0
                             then wl_push w rest n else rest) ↔
                        x ∈ rest ∨ (x = n ∧ Array2D.getc dep n - 1 = 0)).
    { intros x. destruct (Z.eqb_spec (Array2D.getc dep n - 1) 0) as [Hz|Hz].
      - destruct Hw as (_ & _ & Hpush). rewrite Hpush, elem_of_cons. tauto.
      - tauto. }
    constructor; simpl.
    + apply ok_setc. exact Hok.
    + exact Hsh.
    + destruct (Z.eqb_spec (Array2D.getc dep n - 1) 0) as [Hz|Hz]; [|exact Hnd'].
      destruct Hw as (_ & _ & Hpush). rewrite Hpush.
      rewrite <- (Permutation_middle (P ++ [c]) rest n). apply NoDup_cons.
      split; [|exact Hnd']. rewrite Hmv. exact HnPQ.
    + intros x Hx. apply elem_of_app in Hx as [Hx|Hx].
      * apply (di_data _ _ _ _ _ Hinv). rewrite <- Hmv.
        apply elem_of_app. left. exact Hx.
      * apply Hsrc in Hx as [Hx|[-> _]]; [|exact Hnd0].
        apply (di_data _ _ _ _ _ Hinv). rewrite <- Hmv.
        apply elem_of_app. right. exact Hx.
    + intros m Hm. rewrite (Hget m (is_data_inGrid _ _ Hm)).
      symmetry. apply dep_count_snoc; assumption.
    + intros x Hx. rewrite (Hget x (is_data_inGrid _ _ Hx)).
      rewrite elem_of_app, Hsrc.
      assert (Hold : x ∈ P ++ [c] ∨ x ∈ rest ↔ Array2D.getc dep x = 0).
      { rewrite <- (di_zero _ _ _ _ _ Hinv x Hx), <- Hmv.
        symmetry. apply elem_of_app. }
      destruct (decide (n = x)) as [<-|Hne].
      * rewrite bool_decide_eq_true_2 by exact Hflow. change (ind true) with 1.
        assert (Hno : ¬ (n ∈ P ++ [c] ∨ n ∈ rest)) by (rewrite Hold; lia).
        split.
        -- intros [H|[H|[_ H]]]; [tauto|tauto|lia].
        -- intros H. right. right. split; [reflexivity|lia].
      * rewrite bool_decide_eq_false_2 by congruence. change (ind false) with 0.
        rewrite Z.sub_0_r, <- Hold. split; [|tauto].
        intros [H|[H|[H _]]]; [tauto|tauto|congruence].
    + intros i p q. apply dep_order_snoc. exact HcQ.
    + intros m Hm. rewrite (Hget m Hm).
      pose proof (di_range _ _ _ _ _ Hinv m Hm).
      destruct (decide (n = m)) as [<-|Hne].
      * rewrite bool_decide_eq_true_2 by exact Hflow. change (ind true) with 1. lia.
      * rewrite bool_decide_eq_false_2 by congruence. change (ind false) with 0. lia.
  - constructor; simpl.
    + exact Hok.
    + exact Hsh.
    + exact Hnd'.
    + intros x Hx. apply (di_data _ _ _ _ _ Hinv). rewrite <- Hmv. exact Hx.
    + intros m Hm. rewrite dep_count_snoc by assumption.
      rewrite bool_decide_eq_false_2 by (rewrite Hflow; discriminate). simpl. lia.
    + intros x Hx. rewrite Hmv. apply (di_zero _ _ _ _ _ Hinv x Hx).
    + intros i p q. apply dep_order_snoc. exact HcQ.
    + exact (di_range _ _ _ _ _ Hinv).
Qed.

End dep_step.

Lemma dep_inv_init area0 :
  dep_inv (drain_init_with NO_FLOW dx dy castU w sched fd area0).
Proof.
  unfold drain_init_with.
  destruct (dependency_phase_spec NO_FLOW dx dy castU fd Hfd sched area0 Hll)
    as (area & dep & Heq & Hoka & Hsa & Hnda & Hokd & Hsd & Hdep & Harea).
  rewrite Heq.
  pose proof (sources_phase_perm fd w dep Hw) as Hsrc.
  constructor; simpl.
  - exact Hokd.
  - exact Hsd.
  - rewrite Hsrc. apply NoDup_filter, NoDup_cells.
  - intros c. rewrite Hsrc, list_elem_of_filter. tauto.
  - intros n Hn. rewrite (Hdep n (is_data_inGrid _ _ Hn)).
    apply Zsum_ext. intros c _. rewrite andb_true_r. reflexivity.
  - intros c Hc. rewrite Hsrc, list_elem_of_filter.
    pose proof (is_data_cells _ _ Hc). tauto.
  - intros i p q Hi. rewrite lookup_nil in Hi. discriminate.
  - intros n Hn. rewrite (Hdep n Hn), (indegree_plain NO_FLOW dx dy fd).
    apply (indegree_bound NO_FLOW dx dy fd Hfd n (λ _, true)).
Qed.

Lemma visited_length st :
  dep_inv st → (length (ds_visited st) <= length (Array2D.cells fd))%nat.
Proof.
  intros Hinv. apply submseteq_length, NoDup_submseteq.
  - pose proof (di_nodup _ _ _ _ _ Hinv) as Hnd.
    apply NoDup_app in Hnd. tauto.
  - intros c Hc. apply is_data_cells, (di_data _ _ _ _ _ Hinv).
    apply elem_of_app. left. exact Hc.
Qed.

Lemma drain_step_with_visited st st' :
  drain_step_with st = Some st' →
  ∃ c, c ∈ ds_sources st ∧ ds_visited st' = ds_visited st ++ [c].
Proof.
  unfold_drain_step_with.
  destruct (wl_pop w (ds_sources st)) as [[c rest]|] eqn:Hpop; [|discriminate].
  destruct_drain_body.
  intros [= <-]. exists c. split; [|reflexivity].
  destruct Hw as (Hperm & _ & _). rewrite (Hperm _ _ _ Hpop). left.
Qed.

Lemma drain_step_with_None st :
  drain_step_with st = None → ds_sources st = [].
Proof.
  unfold_drain_step_with.
  destruct (wl_pop w (ds_sources st)) as [[c rest]|] eqn:Hpop.
  - destruct_drain_body.
    discriminate.
  - intros _. destruct Hw as (_ & Hnone & _). apply Hnone, Hpop.
Qed.

(** The loop ends with an empty worklist before the fuel runs out, and any
    property that the steps preserve holds at the end. *)
Lemma drain_loop_with_ind (I : drain_state → Prop) :
  (∀ st st', dep_inv st → I st → drain_step_with st = Some st' → I st') →
  ∀ fuel st,
    dep_inv st → I st →
    (length (Array2D.cells fd) <= fuel + length (ds_visited st))%nat →
    ∃ st', drain_loop_with NO_FLOW dx dy castU w fuel fd st = Some st' ∧
           dep_inv st' ∧ I st' ∧ ds_sources st' = [].
Proof.
  intros Hpres fuel. induction fuel as [|fuel IH]; intros st Hinv HI Hfuel.
  - simpl. destruct (drain_step_with st) as [st'|] eqn:Hstep.
    + exfalso. pose proof (dep_inv_step st Hinv st' Hstep) as Hinv'.
      apply visited_length in Hinv'.
      apply drain_step_with_visited in Hstep as (c & _ & Hv).
      rewrite Hv, length_app in Hinv'. simpl in Hinv'. lia.
    + exists st. split_and!; auto using drain_step_with_None.
  - simpl. destruct (drain_step_with st) as [st'|] eqn:Hstep.
    + apply IH.
      * exact (dep_inv_step st Hinv st' Hstep).
      * exact (Hpres st st' Hinv HI Hstep).
      * apply drain_step_with_visited in Hstep as (c & _ & ->).
        rewrite length_app. simpl. lia.
    + exists st. split_and!; auto using drain_step_with_None.
Qed.

End drain_facts.

(** *** Counting cells *)

Lemma length_bind_const {A B : Type} (f : A → list B) (l : list A) (k : nat) :
  (∀ x, length (f x) = k) → length (l ≫= f) = (length l * k)%nat.
Proof.
  intros Hf. induction l as [|x l IH]; [reflexivity|].
  rewrite bind_cons, length_app, Hf, IH. simpl. lia.
Qed.

Lemma length_cells_of w h :
  0 <= w → 0 <= h → length (Array2D.cells_of w h) = Z.to_nat (w * h).
Proof.
  intros Hw Hh. unfold Array2D.cells_of.
  rewrite (length_bind_const _ _ (Z.to_nat w)).
  - rewrite length_seqZ. rewrite Z2Nat.inj_mul by lia. lia.
  - intros y. rewrite (length_bind_const _ _ 1%nat) by reflexivity.
    rewrite length_seqZ. lia.
Qed.

Lemma length_cells {T : Type} (a : Array2D.t T) :
  Array2D.ok a → Z.of_nat (length (Array2D.cells a)) = Array2D.size a.
Proof.
  intros (Hw & Hh & _). unfold Array2D.cells, Array2D.size.
  rewrite length_cells_of by assumption. apply Z2Nat.id. nia.
Qed.

Lemma num_data_cells_le fd :
  Array2D.ok fd → 0 <= num_data_cells fd <= Array2D.size fd.
Proof.
  intros Hok. unfold num_data_cells. rewrite <- (length_cells fd Hok).
  pose proof (length_filter (λ c, is_data fd c = true) (Array2D.cells fd)). lia.
Qed.

Lemma Zsum_point2 {A : Type} `{EqDecision A} (f g : A → Z) (l : list A) (c n : A) :
  NoDup l → c ∈ l → n ∈ l → c ≠ n →
  (∀ x, x ∈ l → x ≠ c → x ≠ n → g x = f x) →
  Zsum g l = Zsum f l + (g c - f c) + (g n - f n).
Proof.
  intros Hnd Hc Hn Hne Hext.
  pose (h := λ x, if decide (x = c) then g c else f x).
  rewrite (Zsum_point h g l n Hnd Hn).
  - rewrite (Zsum_point f h l c Hnd Hc).
    + unfold h. rewrite decide_True by reflexivity.
      rewrite decide_False by congruence. lia.
    + intros x _ Hx. unfold h. rewrite decide_False by exact Hx. reflexivity.
  - intros x Hx Hxn. unfold h. destruct (decide (x = c)) as [->|Hxc]; [reflexivity|].
    apply Hext; assumption.
Qed.

Lemma Zsum_two_terms_le {A : Type} `{EqDecision A} (f : A → Z) (l : list A) (c n : A) :
  NoDup l → c ∈ l → n ∈ l → c ≠ n → (∀ x, x ∈ l → 0 <= f x) →
  f c + f n <= Zsum f l.
Proof.
  intros Hnd Hc Hn Hne Hpos.
  pose (h := λ x, if decide (x = c) then 0 else f x).
  rewrite (Zsum_point h f l c Hnd Hc).
  - assert (h n <= Zsum h l).
    { apply Zsum_term_le; [|exact Hn]. intros x Hx. unfold h.
      destruct (decide (x = c)); [lia|apply Hpos, Hx]. }
    unfold h in H at 1. rewrite decide_False in H by congruence.
    unfold h at 2. rewrite decide_True by reflexivity. lia.
  - intros x _ Hx. unfold h. rewrite decide_False by exact Hx. reflexivity.
Qed.

(** *** The drain loop: the area raster *)

Section area_facts.

Variable NO_FLOW : Z.
Variables dx dy : Z → Z.
Variable castU : Z → Z.
Variable w : worklist.
Variable fd : Array2D.t Z.
Hypothesis Hfd : flowdirs_ok NO_FLOW fd.
Hypothesis Hw : worklist_ok w.
Hypothesis HU : U_exact castU fd.
Variable sched : list nat.
Hypothesis Hll : lossless NO_FLOW dx dy sched fd = true.

Local Abbreviation flow_to := (flow_to NO_FLOW dx dy fd).
Local Abbreviation feeds := (feeds NO_FLOW dx dy fd).
Local Abbreviation drain_step_with := (drain_step_with NO_FLOW dx dy castU w fd).
Local Abbreviation dep_inv := (dep_inv NO_FLOW dx dy fd).
Local Abbreviation area_inv := (area_inv NO_FLOW dx dy fd).
Local Abbreviation mass_term := (mass_term NO_FLOW dx dy fd).
Local Abbreviation inflow_term := (inflow_term NO_FLOW dx dy fd).

Implicit Types (c n p q m : GridCell) (st : drain_state).

Lemma size_nonneg : 0 <= Array2D.size fd.
Proof. destruct Hfd as [(Hw' & Hh & _) _]. unfold Array2D.size. nia. Qed.

Lemma area_inv_init area0 :
  area_inv (drain_init_with NO_FLOW dx dy castU w sched fd area0).
Proof.
  unfold drain_init_with.
  destruct (dependency_phase_spec NO_FLOW dx dy castU fd Hfd sched area0 Hll)
    as (area & dep & Heq & Hoka & Hsa & Hnda & Hokd & Hsd & Hdep & Harea).
  rewrite Heq. pose proof size_nonneg as Hsz.
  assert (Hm1 : castU (-1) = -1) by (apply HU; lia).
  assert (H0 : castU 0 = 0) by (apply HU; lia).
  constructor; simpl.
  - exact Hoka.
  - exact Hsa.
  - congruence.
  - intros c Hc Hd. rewrite (Harea c Hc), Hd. exact Hm1.
  - intros c Hd. rewrite (Harea c (is_data_inGrid _ _ Hd)), Hd. lia.
  - unfold num_data_cells. rewrite <- Zsum_filter. apply Zsum_ext.
    intros c Hc. apply elem_of_cells in Hc.
    unfold_mass_term. simpl.
    destruct (is_data fd c) eqn:Hd.
    + rewrite (Harea c Hc), Hd, H0. reflexivity.
    + reflexivity.
  - intros c Hd. rewrite (Harea c (is_data_inGrid _ _ Hd)), Hd, H0.
    rewrite Zsum_zero; [reflexivity|].
    intros p _. unfold_inflow_term. simpl.
    rewrite andb_false_r. reflexivity.
Qed.

Lemma mass_term_nonneg st c : area_inv st → 0 <= mass_term st c.
Proof.
  intros Hinv. unfold_mass_term.
  destruct (is_data fd c) eqn:Hd; [|lia].
  pose proof (ai_nonneg _ _ _ _ _ Hinv c Hd).
  destruct (bool_decide _); [|lia]. destruct (flow_to c); lia.
Qed.

Lemma mass_term_unvisited st c :
  is_data fd c = true → c ∉ ds_visited st →
  mass_term st c = Array2D.getc (ds_area st) c + 1.
Proof.
  intros Hd Hc. unfold_mass_term.
  rewrite Hd, (bool_decide_eq_false_2 _ Hc). reflexivity.
Qed.

(** What one iteration does to the area raster, cell by cell. *)
Lemma area_step_values st st' :
  dep_inv st → area_inv st → drain_step_with st = Some st' →
  ∃ c, c ∈ ds_sources st ∧ (c ∉ ds_visited st) ∧ is_data fd c = true ∧
       ds_visited st' = ds_visited st ++ [c] ∧
       (∀ n, flow_to c = Some n → (n ∉ ds_visited st) ∧ n ≠ c) ∧
       Array2D.ok (ds_area st') ∧ Array2D.same_shape (ds_area st') fd ∧
       Array2D.noData (ds_area st') = -1 ∧
       ∀ m, Array2D.inGridc fd m = true →
            Array2D.getc (ds_area st') m =
            Array2D.getc (ds_area st) m + ind (bool_decide (m = c))
            + (if bool_decide (flow_to c = Some m)
               then Array2D.getc (ds_area st) c + 1 else 0).
Proof.
  intros Hdep Hinv Hstep.
  apply (drain_step_with_eq NO_FLOW dx dy castU w fd Hw) in Hstep
    as (c & rest & Hperm & Hst').
  2:{ intros x Hx. apply (di_data _ _ _ _ _ Hdep). apply elem_of_app. right. exact Hx. }
  assert (HcQ : c ∈ ds_sources st) by (rewrite Hperm; left).
  assert (Hcd : is_data fd c = true).
  { apply (di_data _ _ _ _ _ Hdep). apply elem_of_app. right. exact HcQ. }
  assert (HcP : c ∉ ds_visited st).
  { intros Hin. pose proof (di_nodup _ _ _ _ _ Hdep) as Hnd.
    apply NoDup_app in Hnd as (_ & Hdisj & _). exact (Hdisj c Hin HcQ). }
  assert (Hflow : ∀ n, flow_to c = Some n → (n ∉ ds_visited st) ∧ n ≠ c).
  { intros n Hn.
    pose proof (dependency_pos NO_FLOW dx dy fd st Hdep c n HcP Hn) as Hpos.
    destruct (flow_to_data _ _ _ _ _ _ Hn) as [_ Hnd].
    assert (Hno : n ∉ ds_visited st ++ ds_sources st).
    { intros Hin. apply (di_zero _ _ _ _ _ Hdep n Hnd) in Hin. lia. }
    split.
    - intros Hin. apply Hno, elem_of_app. left. exact Hin.
    - intros ->. apply Hno, elem_of_app. right. exact HcQ. }
  pose proof (ai_ok _ _ _ _ _ Hinv) as Hok.
  pose proof (ai_shape _ _ _ _ _ Hinv) as Hsh.
  pose proof (ai_nonneg _ _ _ _ _ Hinv) as Hnn.
  pose proof (num_data_cells_le fd (proj1 Hfd)) as Hnum.
  pose proof (ai_mass _ _ _ _ _ Hinv) as Hmass.
  assert (Hcin : Array2D.inGridc (ds_area st) c = true).
  { rewrite (inGridc_same_shape _ fd c Hsh). apply is_data_inGrid, Hcd. }
  assert (Hc1 : castU (Array2D.getc (ds_area st) c + 1)
                = Array2D.getc (ds_area st) c + 1).
  { apply HU. pose proof (Hnn c Hcd).
    pose proof (Zsum_term_le (mass_term st) _ c
      (λ x _, mass_term_nonneg st x Hinv) (is_data_cells _ _ Hcd)) as Hle.
    rewrite (mass_term_unvisited st c Hcd HcP) in Hle. lia. }
  exists c. split; [exact HcQ|]. split; [exact HcP|]. split; [exact Hcd|].
  simpl in Hst'. rewrite Hc1 in Hst'.
  destruct (flow_to c) as [n|] eqn:Hn; subst st'; simpl.
  - destruct (Hflow n eq_refl) as [HnP Hne].
    destruct (flow_to_data _ _ _ _ _ _ Hn) as [_ Hnd].
    assert (Hnin : Array2D.inGridc (ds_area st) n = true).
    { rewrite (inGridc_same_shape _ fd n Hsh). apply is_data_inGrid, Hnd. }
    rewrite (getc_setc_eq (ds_area st) c) by assumption.
    rewrite (getc_setc_ne (ds_area st) c n) by first [assumption | congruence].
    assert (Hn1 : castU (Array2D.getc (ds_area st) n
                         + (Array2D.getc (ds_area st) c + 1))
                  = Array2D.getc (ds_area st) n
                    + (Array2D.getc (ds_area st) c + 1)).
    { apply HU. pose proof (Hnn c Hcd). pose proof (Hnn n Hnd).
      pose proof (Zsum_two_terms_le (mass_term st) _ c n
        (NoDup_cells fd) (is_data_cells _ _ Hcd) (is_data_cells _ _ Hnd)
        (not_eq_sym Hne) (λ x _, mass_term_nonneg st x Hinv)) as Hle.
      rewrite (mass_term_unvisited st c Hcd HcP) in Hle.
      rewrite (mass_term_unvisited st n Hnd HnP) in Hle. lia. }
    rewrite Hn1.
    split; [reflexivity|]. split; [auto|].
    split; [apply ok_setc, ok_setc, Hok|]. split; [exact Hsh|].
    split; [exact (ai_sentinel _ _ _ _ _ Hinv)|].
    intros m Hm.
    assert (Hmin : Array2D.inGridc (ds_area st) m = true).
    { rewrite (inGridc_same_shape _ fd m Hsh). exact Hm. }
    destruct (decide (m = n)) as [->|Hmn].
    + rewrite getc_setc_eq; [|apply ok_setc, Hok|exact Hnin].
      rewrite (bool_decide_eq_false_2 (n = c)) by exact Hne.
      rewrite bool_decide_eq_true_2 by reflexivity. simpl. lia.
    + rewrite getc_setc_ne; [|exact Hnin|exact Hmin|congruence].
      rewrite (bool_decide_eq_false_2 (Some n = Some m)) by congruence.
      destruct (decide (m = c)) as [->|Hmc].
      * rewrite getc_setc_eq by assumption.
        rewrite bool_decide_eq_true_2 by reflexivity. simpl. lia.
      * rewrite getc_setc_ne by first [assumption | congruence].
        rewrite bool_decide_eq_false_2 by exact Hmc. simpl. lia.
  - split; [reflexivity|]. split; [intros n; discriminate|].
    split; [apply ok_setc, Hok|]. split; [exact Hsh|].
    split; [exact (ai_sentinel _ _ _ _ _ Hinv)|].
    intros m Hm.
    assert (Hmin : Array2D.inGridc (ds_area st) m = true).
    { rewrite (inGridc_same_shape _ fd m Hsh). exact Hm. }
    destruct (decide (m = c)) as [->|Hmc].
    + rewrite getc_setc_eq by assumption.
      rewrite bool_decide_eq_true_2 by reflexivity. simpl. lia.
    + rewrite getc_setc_ne by first [assumption | congruence].
      rewrite bool_decide_eq_false_2 by exact Hmc. simpl. lia.
Qed.

Lemma area_inv_step st st' :
  dep_inv st → area_inv st → drain_step_with st = Some st' → area_inv st'.
Proof.
  intros Hdep Hinv Hstep.
  destruct (area_step_values st st' Hdep Hinv Hstep)
    as (c & HcQ & HcP & Hcd & Hvis & Hflow & Hok' & Hsh' & Hnd' & Hval).
  pose proof (ai_nonneg _ _ _ _ _ Hinv) as Hnn.
  assert (Hmem : ∀ x, bool_decide (x ∈ ds_visited st')
                      = bool_decide (x ∈ ds_visited st) || bool_decide (x = c)).
  { intros x. rewrite Hvis. apply bool_decide_snoc. }
  assert (Hkeep : ∀ x, x ∈ ds_visited st →
            Array2D.getc (ds_area st') x = Array2D.getc (ds_area st) x).
  { intros x Hx.
    assert (Hxd : is_data fd x = true).
    { apply (di_data _ _ _ _ _ Hdep). apply elem_of_app. left. exact Hx. }
    rewrite (Hval x (is_data_inGrid _ _ Hxd)).
    rewrite (bool_decide_eq_false_2 (x = c)) by (intros ->; contradiction).
    rewrite bool_decide_eq_false_2; [simpl; lia|].
    intros Hf. destruct (Hflow x Hf) as [Hno _]. contradiction. }
  constructor.
  - exact Hok'.
  - exact Hsh'.
  - exact Hnd'.
  - intros m Hm Hd. rewrite (Hval m Hm), (ai_nodata _ _ _ _ _ Hinv m Hm Hd).
    rewrite (bool_decide_eq_false_2 (m = c)) by congruence.
    rewrite bool_decide_eq_false_2; [reflexivity|].
    intros Hf. apply flow_to_data in Hf. destruct Hf. congruence.
  - intros m Hd. rewrite (Hval m (is_data_inGrid _ _ Hd)).
    pose proof (Hnn m Hd). pose proof (Hnn c Hcd).
    destruct (bool_decide (m = c)); destruct (bool_decide (flow_to c = Some m));
      simpl; lia.
  - rewrite <- (ai_mass _ _ _ _ _ Hinv).
    assert (Hout : ∀ x, x ≠ c → flow_to c ≠ Some x →
                        mass_term st' x = mass_term st x).
    { intros x Hxc Hxn. unfold_mass_term.
      destruct (is_data fd x) eqn:Hxd; [|reflexivity].
      rewrite Hmem, (bool_decide_eq_false_2 (x = c)) by exact Hxc.
      rewrite orb_false_r, (Hval x (is_data_inGrid _ _ Hxd)).
      rewrite (bool_decide_eq_false_2 (x = c)) by exact Hxc.
      rewrite (bool_decide_eq_false_2 (flow_to c = Some x)) by exact Hxn.
      simpl. rewrite !Z.add_0_r. reflexivity. }
    assert (Hatc : mass_term st' c =
                   match flow_to c with
                   | None => Array2D.getc (ds_area st) c + 1
                   | Some _ => 0
                   end).
    { unfold_mass_term. rewrite Hcd, Hmem.
      rewrite (bool_decide_eq_true_2 (c = c)) by reflexivity. rewrite orb_true_r.
      destruct (flow_to c) as [n|] eqn:Hn; [reflexivity|].
      rewrite (Hval c (is_data_inGrid _ _ Hcd)).
      rewrite bool_decide_eq_true_2 by reflexivity.
      rewrite bool_decide_eq_false_2 by discriminate.
      simpl. lia. }
    destruct (flow_to c) as [n|] eqn:Hn.
    + destruct (Hflow n eq_refl) as [HnP Hne].
      destruct (flow_to_data _ _ _ _ _ _ Hn) as [_ Hnd].
      rewrite (Zsum_point2 (mass_term st) (mass_term st') _ c n
                 (NoDup_cells fd) (is_data_cells _ _ Hcd)
                 (is_data_cells _ _ Hnd) (not_eq_sym Hne)).
      * rewrite Hatc, (mass_term_unvisited st c Hcd HcP).
        rewrite (mass_term_unvisited st n Hnd HnP).
        rewrite (mass_term_unvisited st' n Hnd).
        -- rewrite (Hval n (is_data_inGrid _ _ Hnd)).
           rewrite (bool_decide_eq_false_2 (n = c)) by exact Hne.
           rewrite bool_decide_eq_true_2 by reflexivity. simpl. lia.
        -- rewrite Hvis, elem_of_app, list_elem_of_singleton. tauto.
      * intros x _ Hxc Hxn. apply Hout; [exact Hxc|]. congruence.
    + apply Zsum_ext. intros x _. destruct (decide (x = c)) as [->|Hxc].
      * rewrite Hatc. symmetry. apply mass_term_unvisited; assumption.
      * apply Hout; [exact Hxc|]. discriminate.
  - intros m Hd. rewrite (Hval m (is_data_inGrid _ _ Hd)).
    rewrite (ai_rec _ _ _ _ _ Hinv m Hd), Hmem.
    assert (HmP : bool_decide (m = c) = true → bool_decide (m ∈ ds_visited st) = false).
    { intros Heq. apply bool_decide_eq_true in Heq as ->.
      apply bool_decide_eq_false_2, HcP. }
    rewrite (Zsum_point (inflow_term st m) (inflow_term st' m) _ c
               (NoDup_cells fd) (is_data_cells _ _ Hcd)).
    + assert (inflow_term st m c = 0) as ->.
      { unfold_inflow_term.
        rewrite (bool_decide_eq_false_2 (c ∈ ds_visited st)) by exact HcP.
        rewrite andb_false_r. reflexivity. }
      assert (inflow_term st' m c =
              if bool_decide (flow_to c = Some m)
              then Array2D.getc (ds_area st) c + 1 else 0) as ->.
      { unfold_inflow_term. rewrite Hmem.
        rewrite (bool_decide_eq_true_2 (c = c)) by reflexivity.
        rewrite orb_true_r, andb_true_r.
        destruct (bool_decide (flow_to c = Some m)) eqn:Hf; [|reflexivity].
        rewrite (Hval c (is_data_inGrid _ _ Hcd)).
        rewrite bool_decide_eq_true_2 by reflexivity.
        rewrite bool_decide_eq_false_2; [simpl; lia|].
        intros Hs. destruct (Hflow c Hs) as [_ Hne]. congruence. }
      destruct (bool_decide (m ∈ ds_visited st)) eqn:HmV;
        destruct (bool_decide (m = c)) eqn:Hmc; simpl;
        try (specialize (HmP eq_refl); discriminate); lia.
    + intros p _ Hpc. unfold_inflow_term. rewrite Hmem.
      rewrite (bool_decide_eq_false_2 (p = c)) by exact Hpc.
      rewrite orb_false_r.
      destruct (bool_decide (flow_to p = Some m)); [|reflexivity]. simpl.
      destruct (bool_decide (p ∈ ds_visited st)) eqn:HpV; [|reflexivity].
      apply Hkeep. apply bool_decide_eq_true in HpV. exact HpV.
Qed.

(** The loop of [d8_flow_accum_with] runs to an empty worklist within its
    fuel and ends in a state that meets both invariants. *)
Lemma drain_run area0 :
  ∃ st, drain_loop_with NO_FLOW dx dy castU w (length (Array2D.cells fd)) fd
          (drain_init_with NO_FLOW dx dy castU w sched fd area0) = Some st ∧
        dep_inv st ∧ area_inv st ∧ ds_sources st = [].
Proof.
  apply (drain_loop_with_ind NO_FLOW dx dy castU w fd Hw area_inv).
  - intros st st'. apply area_inv_step.
  - apply dep_inv_init; assumption.
  - apply area_inv_init.
  - assert (ds_visited (drain_init_with NO_FLOW dx dy castU w sched fd area0) = []) as ->.
    { unfold drain_init_with.
      destruct (dependency_phase _ _ _ _ _ _ _). reflexivity. }
    simpl. lia.
Qed.

End area_facts.

(** The same without the area raster, for any conversion [castU]. *)
Lemma drain_run_dep NO_FLOW dx dy castU w sched fd area0 :
  flowdirs_ok NO_FLOW fd → worklist_ok w →
  lossless NO_FLOW dx dy sched fd = true →
  ∃ st, drain_loop_with NO_FLOW dx dy castU w (length (Array2D.cells fd)) fd
          (drain_init_with NO_FLOW dx dy castU w sched fd area0) = Some st ∧
        dep_inv NO_FLOW dx dy fd st ∧ ds_sources st = [].
Proof.
  intros Hfd Hw Hll.
  destruct (drain_loop_with_ind NO_FLOW dx dy castU w fd Hw (λ _, True))
    with (fuel := length (Array2D.cells fd))
         (st := drain_init_with NO_FLOW dx dy castU w sched fd area0)
    as (st & Hrun & Hdep & _ & Hsrc); auto.
  - apply dep_inv_init; assumption.
  - assert (ds_visited (drain_init_with NO_FLOW dx dy castU w sched fd area0) = []) as ->.
    { unfold drain_init_with.
      destruct (dependency_phase _ _ _ _ _ _ _). reflexivity. }
    simpl. lia.
  - exists st. auto.
Qed.

(** *** The drain loop after any interleaving of the first loop *)

Section push_facts.

Variable NO_FLOW : Z.
Variables dx dy : Z → Z.
Variable castU : Z → Z.
Variable w : worklist.
Variable fd : Array2D.t Z.
Hypothesis Hfd : flowdirs_ok NO_FLOW fd.
Hypothesis Hw : worklist_ok w.

Local Abbreviation flow_to := (flow_to NO_FLOW dx dy fd).
Local Abbreviation feeds := (feeds NO_FLOW dx dy fd).
Local Abbreviation indegree := (indegree NO_FLOW dx dy fd).
Local Abbreviation drain_step_with := (drain_step_with NO_FLOW dx dy castU w fd).
Local Abbreviation push_inv := (push_inv NO_FLOW dx dy fd).

Implicit Types (c n p q m : GridCell) (st : drain_state) (V : list GridCell).

(** The processed cells that flow into [n]. *)
Lemma processed_feeders_bound V n :
  0 <= Zsum (λ c, ind (feeds c n && bool_decide (c ∈ V))) (Array2D.cells fd)
    <= 8.
Proof. exact (indegree_bound NO_FLOW dx dy fd Hfd n (λ c, bool_decide (c ∈ V))). Qed.

Lemma indegree_8 n : 0 <= indegree n <= 8.
Proof.
  unfold_indegree. rewrite indegree_plain.
  apply (indegree_bound NO_FLOW dx dy fd Hfd n (λ _, true)).
Qed.

Lemma processed_feeders_mono V V' n :
  (∀ c, c ∈ V → c ∈ V') →
  Zsum (λ c, ind (feeds c n && bool_decide (c ∈ V))) (Array2D.cells fd) <=
  Zsum (λ c, ind (feeds c n && bool_decide (c ∈ V'))) (Array2D.cells fd).
Proof.
  intros Hsub. apply Zsum_le. intros c _.
  destruct (feeds c n); simpl; [|lia].
  destruct (decide (c ∈ V)) as [Hin|Hout].
  - rewrite (bool_decide_eq_true_2 _ Hin), (bool_decide_eq_true_2 _ (Hsub c Hin)).
    lia.
  - rewrite (bool_decide_eq_false_2 _ Hout). destruct (bool_decide (c ∈ V')); simpl; lia.
Qed.

Lemma processed_feeders_snoc V c m :
  is_data fd c = true → c ∉ V → is_data fd m = true →
  Zsum (λ x, ind (feeds x m && bool_decide (x ∈ V ++ [c]))) (Array2D.cells fd)
  = Zsum (λ x, ind (feeds x m && bool_decide (x ∈ V))) (Array2D.cells fd)
    + ind (bool_decide (flow_to c = Some m)).
Proof.
  intros Hcd Hc Hm.
  rewrite (Zsum_point
    (λ x, ind (feeds x m && bool_decide (x ∈ V)))
    (λ x, ind (feeds x m && bool_decide (x ∈ V ++ [c]))) _ c
    (NoDup_cells fd) (is_data_cells _ _ Hcd)).
  - rewrite bool_decide_snoc, (bool_decide_eq_false_2 _ Hc).
    rewrite (bool_decide_eq_true_2 (c = c)) by reflexivity.
    rewrite <- (feeds_flow_to_b _ _ _ _ c m Hm).
    destruct (feeds c m); simpl; lia.
  - intros x _ Hne. rewrite bool_decide_snoc.
    rewrite (bool_decide_eq_false_2 (x = c)) by exact Hne.
    rewrite orb_false_r. reflexivity.
Qed.

(** No dependency value leaves the range of [int8_t]. *)
Lemma push_range dep0 st n :
  push_inv dep0 st → is_data fd n = true →
  -8 <= Array2D.getc (ds_dependency st) n <= 8.
Proof.
  intros Hinv Hn. rewrite (pu_count _ _ _ _ _ _ Hinv n Hn).
  pose proof (pu_first _ _ _ _ _ _ Hinv n Hn).
  pose proof (indegree_8 n). pose proof (processed_feeders_bound (ds_visited st) n).
  lia.
Qed.

Lemma push_inv_step dep0 st st' :
  push_inv dep0 st → drain_step_with st = Some st' → push_inv dep0 st'.
Proof.
  intros Hinv Hstep.
  apply (drain_step_with_eq NO_FLOW dx dy castU w fd Hw) in Hstep
    as (c & rest & Hperm & Hst').
  2:{ intros x Hx. apply (pu_data _ _ _ _ _ _ Hinv). apply elem_of_app. right. exact Hx. }
  assert (HcQ : c ∈ (ds_sources st)) by (rewrite Hperm; left).
  assert (Hcd : is_data fd c = true).
  { apply (pu_data _ _ _ _ _ _ Hinv). apply elem_of_app. right. exact HcQ. }
  assert (Hmv : ((ds_visited st) ++ [c]) ++ rest ≡ₚ (ds_visited st) ++ (ds_sources st)).
  { rewrite Hperm, <- app_assoc. reflexivity. }
  pose proof (pu_nodup _ _ _ _ _ _ Hinv) as Hnd.
  assert (Hnd' : NoDup (((ds_visited st) ++ [c]) ++ rest)) by (rewrite Hmv; exact Hnd).
  assert (HcP : c ∉ (ds_visited st)).
  { intros Hin. apply NoDup_app in Hnd as (_ & Hdisj & _). exact (Hdisj c Hin HcQ). }
  pose proof (pu_ok _ _ _ _ _ _ Hinv) as Hok.
  pose proof (pu_shape _ _ _ _ _ _ Hinv) as Hsh.
  assert (Hhist : ∀ i x, ((ds_visited st) ++ [c]) !! i = Some x →
            Array2D.getc dep0 x <=
            Zsum (λ p, ind (feeds p x && bool_decide (p ∈ take i ((ds_visited st) ++ [c]))))
                 (Array2D.cells fd)).
  { intros i x Hi. destruct (decide (i < length (ds_visited st))%nat) as [Hlt|Hge].
    - rewrite lookup_app_l in Hi by exact Hlt. rewrite take_app_le by lia.
      exact (pu_hist _ _ _ _ _ _ Hinv i x Hi).
    - rewrite lookup_app_r in Hi by lia.
      apply list_lookup_singleton_Some in Hi as [Hi <-].
      rewrite take_app_length' by lia.
      assert (H0 : Array2D.getc (ds_dependency st) c <= 0).
      { apply (pu_zero _ _ _ _ _ _ Hinv c Hcd). apply elem_of_app. right. exact HcQ. }
      rewrite (pu_count _ _ _ _ _ _ Hinv c Hcd) in H0.
       lia. }
  destruct (flow_to c) as [n|] eqn:Hflow; simpl in Hst'; subst st'.
  - destruct (flow_to_data _ _ _ _ _ _ Hflow) as [_ Hnd0].
    pose proof (push_range dep0 st n Hinv Hnd0) as Hrng.
    assert (Hnin : Array2D.inGridc (ds_dependency st) n = true).
    { rewrite (inGridc_same_shape (ds_dependency st) fd n Hsh). apply is_data_inGrid, Hnd0. }
    assert (Hwrap : wrap_int8 (Array2D.getc (ds_dependency st) n - 1) = Array2D.getc (ds_dependency st) n - 1).
    { apply wrap_int8_id. lia. }
    rewrite Hwrap. rewrite (getc_setc_eq (ds_dependency st) n) by assumption.
    assert (Hget : ∀ m, Array2D.inGridc fd m = true →
              Array2D.getc (Array2D.setc (ds_dependency st) n (Array2D.getc (ds_dependency st) n - 1)) m
              = Array2D.getc (ds_dependency st) m - ind (bool_decide (flow_to c = Some m))).
    { intros m Hm. destruct (decide (n = m)) as [<-|Hne].
      - rewrite getc_setc_eq by assumption.
        rewrite bool_decide_eq_true_2 by exact Hflow. reflexivity.
      - rewrite getc_setc_ne; [|assumption| |exact Hne].
        + rewrite bool_decide_eq_false_2 by congruence. simpl. lia.
        + rewrite (inGridc_same_shape (ds_dependency st) fd m Hsh). exact Hm. }
    assert (Hsrc : ∀ x, x ∈ (if Array2D.getc (ds_dependency st) n - 1 =? 0
                             then wl_push w rest n else rest) ↔
                        x ∈ rest ∨ (x = n ∧ Array2D.getc (ds_dependency st) n - 1 = 0)).
    { intros x. destruct (Z.eqb_spec (Array2D.getc (ds_dependency st) n - 1) 0) as [Hz|Hz].
      - destruct Hw as (_ & _ & Hpush). rewrite Hpush, elem_of_cons. tauto.
      - tauto. }
    assert (Hold : ∀ x, is_data fd x = true →
              (x ∈ (ds_visited st) ++ [c] ∨ x ∈ rest ↔ Array2D.getc (ds_dependency st) x <= 0)).
    { intros x Hx. rewrite <- (pu_zero _ _ _ _ _ _ Hinv x Hx).
      rewrite <- Hmv. symmetry. apply elem_of_app. }
    constructor; simpl.
    + apply ok_setc. exact Hok.
    + exact Hsh.
    + destruct (Z.eqb_spec (Array2D.getc (ds_dependency st) n - 1) 0) as [Hz|Hz]; [|exact Hnd'].
      destruct Hw as (_ & _ & Hpush). rewrite Hpush.
      rewrite <- (Permutation_middle ((ds_visited st) ++ [c]) rest n). apply NoDup_cons.
      split; [|exact Hnd']. rewrite elem_of_app. rewrite (Hold n Hnd0). lia.
    + intros x Hx. apply elem_of_app in Hx as [Hx|Hx].
      * apply (pu_data _ _ _ _ _ _ Hinv). rewrite <- Hmv.
        apply elem_of_app. left. exact Hx.
      * apply Hsrc in Hx as [Hx|[-> _]]; [|exact Hnd0].
        apply (pu_data _ _ _ _ _ _ Hinv). rewrite <- Hmv.
        apply elem_of_app. right. exact Hx.
    + exact (pu_first _ _ _ _ _ _ Hinv).
    + intros m Hm. rewrite (Hget m (is_data_inGrid _ _ Hm)).
      rewrite processed_feeders_snoc by assumption.
      rewrite (pu_count _ _ _ _ _ _ Hinv m Hm).  lia.
    + intros x Hx. rewrite (Hget x (is_data_inGrid _ _ Hx)).
      rewrite elem_of_app, Hsrc. specialize (Hold x Hx).
      destruct (decide (n = x)) as [<-|Hne].
      * rewrite bool_decide_eq_true_2 by exact Hflow. change (ind true) with 1.
        split.
        -- intros [H|[H|[_ H]]].
           ++ assert (Array2D.getc (ds_dependency st) n <= 0) by tauto. lia.
           ++ assert (Array2D.getc (ds_dependency st) n <= 0) by tauto. lia.
           ++ lia.
        -- intros H. destruct (decide (Array2D.getc (ds_dependency st) n - 1 = 0)) as [Hz|Hz].
           ++ right. right. split; [reflexivity|exact Hz].
           ++ assert (Hle : Array2D.getc (ds_dependency st) n <= 0) by lia.
              apply Hold in Hle. tauto.
      * rewrite bool_decide_eq_false_2 by congruence. change (ind false) with 0.
        rewrite Z.sub_0_r, <- Hold. split; [|tauto].
        intros [H|[H|[H _]]]; [tauto|tauto|congruence].
    + exact Hhist.
  - constructor; simpl.
    + exact Hok.
    + exact Hsh.
    + exact Hnd'.
    + intros x Hx. apply (pu_data _ _ _ _ _ _ Hinv). rewrite <- Hmv. exact Hx.
    + exact (pu_first _ _ _ _ _ _ Hinv).
    + intros m Hm. rewrite processed_feeders_snoc by assumption.
      rewrite bool_decide_eq_false_2 by (rewrite Hflow; discriminate).
      rewrite (pu_count _ _ _ _ _ _ Hinv m Hm).  simpl. lia.
    + intros x Hx. rewrite Hmv. apply (pu_zero _ _ _ _ _ _ Hinv x Hx).
    + exact Hhist.
Qed.

(** The drain loop starts in a state that meets the invariant, whatever
    the schedule of the first loop. *)
Lemma push_inv_init sched area0 :
  push_inv (snd (dependency_phase NO_FLOW dx dy castU sched fd area0))
           (drain_init_with NO_FLOW dx dy castU w sched fd area0).
Proof.
  unfold drain_init_with.
  destruct (dependency_phase_any NO_FLOW dx dy castU fd Hfd sched area0)
    as (area & dep & Heq & Hoka & Hsa & Hnda & Hokd & Hsd & Hdep & Harea).
  rewrite Heq. simpl.
  pose proof (sources_phase_perm fd w dep Hw) as Hsrc.
  assert (Hnone : ∀ n, Zsum (λ c, ind (feeds c n && bool_decide (c ∈ @nil GridCell)))
                            (Array2D.cells fd) = 0).
  { intros n. apply Zsum_zero. intros c _.
    rewrite bool_decide_eq_false_2 by (intros H; inv H).
    rewrite andb_false_r. reflexivity. }
  constructor; simpl.
  - exact Hokd.
  - exact Hsd.
  - rewrite Hsrc. apply NoDup_filter, NoDup_cells.
  - intros c. rewrite Hsrc, list_elem_of_filter. tauto.
  - intros n Hn. apply (Hdep n (is_data_inGrid _ _ Hn)).
  - intros n Hn. rewrite Hnone. lia.
  - intros c Hc. rewrite Hsrc, list_elem_of_filter.
    pose proof (is_data_cells _ _ Hc).
    destruct (Hdep c (is_data_inGrid _ _ Hc)) as [Hb _]. split.
    + intros [[H0 _] _]. lia.
    + intros Hle. split; [split; [lia|exact Hc]|assumption].
  - intros i c Hi. rewrite lookup_nil in Hi. discriminate.
Qed.

Lemma push_visited_length dep0 st :
  push_inv dep0 st → (length (ds_visited st) <= length (Array2D.cells fd))%nat.
Proof.
  intros Hinv. apply submseteq_length, NoDup_submseteq.
  - pose proof (pu_nodup _ _ _ _ _ _ Hinv) as Hnd.
    apply NoDup_app in Hnd. tauto.
  - intros c Hc. apply is_data_cells, (pu_data _ _ _ _ _ _ Hinv).
    apply elem_of_app. left. exact Hc.
Qed.

(** The area raster keeps its frame. *)
Lemma frame_inv_step dep0 st st' :
  push_inv dep0 st → frame_inv castU fd st → drain_step_with st = Some st' →
  frame_inv castU fd st'.
Proof.
  intros Hinv (Hok & Hsh & Hnd & Hval) Hstep.
  apply (drain_step_with_eq NO_FLOW dx dy castU w fd Hw) in Hstep
    as (c & rest & Hperm & Hst').
  2:{ intros x Hx. apply (pu_data _ _ _ _ _ _ Hinv). apply elem_of_app. right. exact Hx. }
  assert (Hcd : is_data fd c = true).
  { apply (pu_data _ _ _ _ _ _ Hinv). apply elem_of_app. right.
    rewrite Hperm. left. }
  assert (Hcin : Array2D.inGridc (ds_area st) c = true).
  { rewrite (inGridc_same_shape _ fd c Hsh). apply is_data_inGrid, Hcd. }
  simpl in Hst'.
  destruct (flow_to c) as [n|] eqn:Hflow; subst st'; unfold frame_inv; simpl.
  - destruct (flow_to_data _ _ _ _ _ _ Hflow) as [_ Hnd0].
    split; [apply ok_setc, ok_setc, Hok|]. split; [exact Hsh|].
    split; [exact Hnd|]. intros m Hm Hmd.
    rewrite getc_setc_ne.
    + rewrite getc_setc_ne; [apply Hval; assumption|exact Hcin| |congruence].
      rewrite (inGridc_same_shape _ fd m Hsh). exact Hm.
    + rewrite inGridc_setc, (inGridc_same_shape _ fd n Hsh).
      apply is_data_inGrid, Hnd0.
    + rewrite inGridc_setc, (inGridc_same_shape _ fd m Hsh). exact Hm.
    + congruence.
  - split; [apply ok_setc, Hok|]. split; [exact Hsh|].
    split; [exact Hnd|]. intros m Hm Hmd.
    rewrite getc_setc_ne; [apply Hval; assumption|exact Hcin| |congruence].
    rewrite (inGridc_same_shape _ fd m Hsh). exact Hm.
Qed.

Lemma frame_inv_init sched area0 :
  frame_inv castU fd (drain_init_with NO_FLOW dx dy castU w sched fd area0).
Proof.
  unfold drain_init_with.
  destruct (dependency_phase_any NO_FLOW dx dy castU fd Hfd sched area0)
    as (area & dep & Heq & Hoka & Hsa & Hnda & Hokd & Hsd & Hdep & Harea).
  rewrite Heq. unfold frame_inv. simpl. split_and!; try assumption.
  intros c Hc Hd. rewrite (Harea c Hc), Hd. reflexivity.
Qed.

(** The loop ends with an empty worklist before the fuel runs out. *)
Lemma drain_loop_with_any dep0 (I : drain_state → Prop) :
  (∀ st st', push_inv dep0 st → I st → drain_step_with st = Some st' → I st') →
  ∀ fuel st,
    push_inv dep0 st → I st →
    (length (Array2D.cells fd) <= fuel + length (ds_visited st))%nat →
    ∃ st', drain_loop_with NO_FLOW dx dy castU w fuel fd st = Some st' ∧
           push_inv dep0 st' ∧ I st' ∧ ds_sources st' = [].
Proof.
  intros Hpres fuel. induction fuel as [|fuel IH]; intros st Hinv HI Hfuel.
  - simpl. destruct (drain_step_with st) as [st'|] eqn:Hstep.
    + exfalso. pose proof (push_inv_step dep0 st st' Hinv Hstep) as Hinv'.
      apply push_visited_length in Hinv'.
      apply (drain_step_with_visited NO_FLOW dx dy castU w fd Hw) in Hstep
        as (c & _ & Hv).
      rewrite Hv, length_app in Hinv'. simpl in Hinv'. lia.
    + exists st. split_and!; auto.
      exact (drain_step_with_None NO_FLOW dx dy castU w fd Hw st Hstep).
  - simpl. destruct (drain_step_with st) as [st'|] eqn:Hstep.
    + apply IH.
      * exact (push_inv_step dep0 st st' Hinv Hstep).
      * exact (Hpres st st' Hinv HI Hstep).
      * apply (drain_step_with_visited NO_FLOW dx dy castU w fd Hw) in Hstep
          as (c & _ & ->).
        rewrite length_app. simpl. lia.
    + exists st. split_and!; auto.
      exact (drain_step_with_None NO_FLOW dx dy castU w fd Hw st Hstep).
Qed.

(** The loop of [d8_flow_accum_with] returns, whatever the schedule of the
    first loop. *)
Lemma drain_run_any sched area0 :
  ∃ st, drain_loop_with NO_FLOW dx dy castU w (length (Array2D.cells fd)) fd
          (drain_init_with NO_FLOW dx dy castU w sched fd area0) = Some st ∧
        push_inv (snd (dependency_phase NO_FLOW dx dy castU sched fd area0)) st ∧
        frame_inv castU fd st ∧ ds_sources st = [].
Proof.
  apply (drain_loop_with_any _ (frame_inv castU fd)).
  - intros st st'. apply frame_inv_step.
  - apply push_inv_init.
  - apply frame_inv_init.
  - assert (ds_visited (drain_init_with NO_FLOW dx dy castU w sched fd area0) = []) as ->.
    { unfold drain_init_with.
      destruct (dependency_phase _ _ _ _ _ _ _). reflexivity. }
    simpl. lia.
Qed.

(** An iteration only lowers dependency values. *)
Lemma push_step_le dep0 st st' :
  push_inv dep0 st → drain_step_with st = Some st' →
  ∀ m, Array2D.inGridc fd m = true →
       Array2D.getc (ds_dependency st') m <= Array2D.getc (ds_dependency st) m.
Proof.
  intros Hinv Hstep m Hm.
  apply (drain_step_with_eq NO_FLOW dx dy castU w fd Hw) in Hstep
    as (c & rest & Hperm & Hst').
  2:{ intros x Hx. apply (pu_data _ _ _ _ _ _ Hinv). apply elem_of_app. right. exact Hx. }
  simpl in Hst'.
  destruct (flow_to c) as [n|] eqn:Hflow; subst st'; simpl; [|lia].
  destruct (flow_to_data _ _ _ _ _ _ Hflow) as [_ Hnd].
  pose proof (push_range dep0 st n Hinv Hnd) as Hrng.
  pose proof (pu_shape _ _ _ _ _ _ Hinv) as Hsh.
  rewrite wrap_int8_id by lia.
  destruct (decide (n = m)) as [<-|Hne].
  - rewrite getc_setc_eq; [lia|exact (pu_ok _ _ _ _ _ _ Hinv)|].
    rewrite (inGridc_same_shape _ fd n Hsh). exact Hm.
  - rewrite getc_setc_ne; [lia| | |exact Hne];
      rewrite (inGridc_same_shape _ fd _ Hsh);
      [apply is_data_inGrid, Hnd|exact Hm].
Qed.

End push_facts.

(** The set of processed cells does not depend on the order, whatever the
    first loop has left in the dependency raster. *)
Lemma push_visited_subset NO_FLOW dx dy fd dep0 st1 st2 :
  flowdirs_ok NO_FLOW fd →
  push_inv NO_FLOW dx dy fd dep0 st1 → push_inv NO_FLOW dx dy fd dep0 st2 →
  ds_sources st2 = [] →
  ∀ c, c ∈ ds_visited st1 → c ∈ ds_visited st2.
Proof.
  intros Hfd H1 H2 Hsrc.
  assert (Hidx : ∀ i c, ds_visited st1 !! i = Some c → c ∈ ds_visited st2).
  { induction i as [i IH] using lt_wf_ind. intros c Hi.
    assert (Hc : is_data fd c = true).
    { apply (pu_data _ _ _ _ _ _ H1). apply elem_of_app. left.
      apply list_elem_of_lookup. eauto. }
    rewrite <- (app_nil_r (ds_visited st2)), <- Hsrc.
    apply (pu_zero _ _ _ _ _ _ H2 c Hc).
    rewrite (pu_count _ _ _ _ _ _ H2 c Hc).
    pose proof (pu_hist _ _ _ _ _ _ H1 i c Hi) as Hh.
    pose proof (processed_feeders_mono NO_FLOW dx dy fd
                  (take i (ds_visited st1)) (ds_visited st2) c) as Hm.
    assert (Zsum (λ p, ind (feeds NO_FLOW dx dy fd p c
                            && bool_decide (p ∈ take i (ds_visited st1))))
                 (Array2D.cells fd)
            <= Zsum (λ p, ind (feeds NO_FLOW dx dy fd p c
                               && bool_decide (p ∈ ds_visited st2)))
                    (Array2D.cells fd)); [|lia].
    apply Hm. intros p Hp. apply elem_of_take in Hp as (j & Hj & Hlt).
    exact (IH j Hlt p Hj). }
  intros c Hc. apply list_elem_of_lookup in Hc as [i Hi]. exact (Hidx i c Hi).
Qed.

(** *** Worklists *)

Lemma fifo_ok : worklist_ok fifo.
Proof.
  split_and!.
  - intros [|c l] d rest; simpl; [discriminate|]. intros [= -> ->]. reflexivity.
  - intros [|c l]; simpl; [reflexivity|discriminate].
  - intros l c. simpl. symmetry. apply Permutation_cons_append.
Qed.

Lemma lifo_ok : worklist_ok lifo.
Proof.
  split_and!.
  - intros [|c l] d rest; simpl; [discriminate|]. intros [= -> ->]. reflexivity.
  - intros [|c l]; simpl; [reflexivity|discriminate].
  - intros l c. reflexivity.
Qed.

Lemma insert_by_perm key c l : insert_by key c l ≡ₚ c :: l.
Proof.
  induction l as [|d l IH]; simpl; [reflexivity|].
  destruct (key c <=? key d); [reflexivity|].
  rewrite IH. apply Permutation_swap.
Qed.

Lemma priority_ok key : worklist_ok (priority key).
Proof.
  split_and!.
  - intros [|c l] d rest; simpl; [discriminate|]. intros [= -> ->]. reflexivity.
  - intros [|c l]; simpl; [reflexivity|discriminate].
  - intros l c. apply insert_by_perm.
Qed.

(** The function of the source is the instance with [std::queue]. *)
Lemma d8_flow_accum_fifo NO_FLOW dx dy castU sched fd area0 :
  d8_flow_accum NO_FLOW dx dy castU sched fd area0 =
  d8_flow_accum_with NO_FLOW dx dy castU fifo sched fd area0.
Proof.
  unfold d8_flow_accum, d8_flow_accum_with.
  assert (Hinit : drain_init NO_FLOW dx dy castU sched fd area0
                  = drain_init_with NO_FLOW dx dy castU fifo sched fd area0) by reflexivity.
  rewrite Hinit. generalize (drain_init_with NO_FLOW dx dy castU fifo sched fd area0).
  generalize (length (Array2D.cells fd)).
  assert (Hstep : ∀ st, drain_step NO_FLOW dx dy castU fd st
                        = drain_step_with NO_FLOW dx dy castU fifo fd st).
  { intros st. unfold drain_step, drain_step_with. simpl.
    destruct (ds_sources st) as [|c rest]; simpl; [reflexivity|].
    destruct (drain_body _ _ _ _ _ _ _ _) as [[a d] [n|]]; simpl; [reflexivity|].
    rewrite app_nil_r. reflexivity. }
  assert (Hloop : ∀ fuel st, drain_loop NO_FLOW dx dy castU fuel fd st
                  = drain_loop_with NO_FLOW dx dy castU fifo fuel fd st).
  { induction fuel as [|fuel IH]; intros st; simpl; rewrite Hstep;
      destruct (drain_step_with _ _ _ _ _ _ _); auto. }
  intros fuel st. rewrite Hloop. reflexivity.
Qed.

(** *** The state when the worklist is empty *)

Lemma Zsum_nonzero {A : Type} (f : A → Z) (l : list A) :
  Zsum f l ≠ 0 → ∃ x, x ∈ l ∧ f x ≠ 0.
Proof.
  induction l as [|x l IH]; simpl; [congruence|]. intros Hne.
  destruct (decide (f x = 0)) as [H0|H0].
  - destruct IH as (y & Hy & Hfy); [lia|]. exists y. split; [right|]; assumption.
  - exists x. split; [left|exact H0].
Qed.

Section final_state.

Variable NO_FLOW : Z.
Variables dx dy : Z → Z.
Variable fd : Array2D.t Z.

Local Abbreviation flow_to := (flow_to NO_FLOW dx dy fd).
Local Abbreviation feeds := (feeds NO_FLOW dx dy fd).
Local Abbreviation walk := (walk NO_FLOW dx dy fd).
Local Abbreviation acyclic := (acyclic NO_FLOW dx dy fd).
Local Abbreviation on_flow_path := (on_flow_path NO_FLOW dx dy fd).
Local Abbreviation upslope_count := (upslope_count NO_FLOW dx dy fd).
Local Abbreviation dep_inv := (dep_inv NO_FLOW dx dy fd).
Local Abbreviation area_inv := (area_inv NO_FLOW dx dy fd).

Implicit Types (c n p q m : GridCell) (st : drain_state).

(** A data cell left unprocessed has an unprocessed cell flowing into it. *)
Lemma unvisited_feeder st c :
  dep_inv st → ds_sources st = [] →
  is_data fd c = true → c ∉ ds_visited st →
  ∃ q, flow_to q = Some c ∧ q ∉ ds_visited st.
Proof.
  intros Hdep Hsrc Hc HcP.
  assert (Hnz : Array2D.getc (ds_dependency st) c ≠ 0).
  { intros H0. apply (di_zero _ _ _ _ _ Hdep c Hc) in H0.
    rewrite Hsrc, app_nil_r in H0. contradiction. }
  rewrite (di_count _ _ _ _ _ Hdep c Hc) in Hnz.
  apply Zsum_nonzero in Hnz as (q & _ & Hq).
  destruct (feeds q c) eqn:Hf; [|simpl in Hq; congruence].
  destruct (bool_decide (q ∈ ds_visited st)) eqn:Hv; [simpl in Hq; congruence|].
  exists q. split.
  - apply (feeds_flow_to NO_FLOW dx dy fd q c Hc). exact Hf.
  - apply bool_decide_eq_false in Hv. exact Hv.
Qed.

Lemma unvisited_chain st c k :
  dep_inv st → ds_sources st = [] →
  is_data fd c = true → c ∉ ds_visited st →
  ∃ q, is_data fd q = true ∧ (q ∉ ds_visited st) ∧ walk k q = Some c.
Proof.
  intros Hdep Hsrc Hc HcP. induction k as [|k IH].
  - exists c. auto.
  - destruct IH as (q & Hq & HqP & Hw).
    destruct (unvisited_feeder st q Hdep Hsrc Hq HqP) as (r & Hr & HrP).
    exists r. split; [|split; [exact HrP|]].
    + apply flow_to_data in Hr. tauto.
    + simpl. rewrite Hr. exact Hw.
Qed.

(** On an acyclic raster the loop processes every data cell. *)
Lemma all_visited st c :
  dep_inv st → ds_sources st = [] → acyclic →
  is_data fd c = true → c ∈ ds_visited st.
Proof.
  intros Hdep Hsrc Hac Hc.
  destruct (decide (c ∈ ds_visited st)) as [Hin|Hout]; [exact Hin|exfalso].
  destruct (unvisited_chain st c (length (Array2D.cells fd)) Hdep Hsrc Hc Hout)
    as (q & Hq & _ & Hw).
  pose proof (walk_bound NO_FLOW dx dy fd _ q c Hac Hq Hw). lia.
Qed.

(** *** Upslope counts *)

Lemma upslope_count_sum c :
  upslope_count c =
  Zsum (λ c', ind (is_data fd c' && on_flow_path c' c)) (Array2D.cells fd).
Proof.
  unfold_upslope_count. rewrite <- Zsum_filter.
  apply Zsum_ext. intros c' _. f_equal. apply eq_true_iff_eq.
  rewrite bool_decide_eq_true, andb_true_iff. reflexivity.
Qed.

Lemma upslope_count_step c :
  acyclic → is_data fd c = true →
  upslope_count c =
  1 + Zsum (λ p, if bool_decide (flow_to p = Some c) then upslope_count p else 0)
           (Array2D.cells fd).
Proof.
  intros Hac Hc. rewrite upslope_count_sum.
  rewrite (Zsum_ext _
    (λ c', ind (bool_decide (c' = c))
           + Zsum (λ p, ind (is_data fd c' &&
                             (bool_decide (flow_to p = Some c) && on_flow_path c' p)))
                  (Array2D.cells fd))).
  - rewrite Zsum_plus. f_equal.
    + apply (Zsum_ind_one (λ c', bool_decide (c' = c)) _ c).
      * apply NoDup_cells.
      * apply is_data_cells, Hc.
      * apply bool_decide_eq_true_2. reflexivity.
      * intros x _ Hx. apply bool_decide_eq_false_2. exact Hx.
    + rewrite Zsum_swap. apply Zsum_ext. intros p _.
      rewrite upslope_count_sum, Zsum_if. apply Zsum_ext. intros c' _.
      destruct (bool_decide (flow_to p = Some c)); [reflexivity|].
      rewrite andb_false_r. reflexivity.
  - intros c' _. destruct (is_data fd c') eqn:Hc'; simpl.
    + apply on_flow_path_step; assumption.
    + rewrite bool_decide_eq_false_2 by congruence.
      rewrite Zsum_zero; reflexivity.
Qed.

(** On an acyclic raster the final area of a data cell is the number of
    data cells whose flow path passes through it. *)
Lemma final_area_upslope st :
  dep_inv st → area_inv st → ds_sources st = [] → acyclic →
  ∀ c, is_data fd c = true →
       Array2D.getc (ds_area st) c = upslope_count c.
Proof.
  intros Hdep Hinv Hsrc Hac.
  assert (Hidx : ∀ i c, ds_visited st !! i = Some c →
                        Array2D.getc (ds_area st) c = upslope_count c).
  { induction i as [i IH] using lt_wf_ind. intros c Hi.
    assert (HcP : c ∈ ds_visited st) by (apply list_elem_of_lookup; eauto).
    assert (Hc : is_data fd c = true).
    { apply (di_data _ _ _ _ _ Hdep). apply elem_of_app. left. exact HcP. }
    rewrite (ai_rec _ _ _ _ _ Hinv c Hc), (upslope_count_step c Hac Hc).
    rewrite (bool_decide_eq_true_2 _ HcP). f_equal.
    apply Zsum_ext. intros p _. unfold inflow_term.
    destruct (bool_decide (flow_to p = Some c)) eqn:Hp; [|reflexivity].
    apply bool_decide_eq_true in Hp.
    destruct (di_order _ _ _ _ _ Hdep i c p Hi Hp) as (j & Hj & Hjp).
    rewrite bool_decide_eq_true_2 by (apply list_elem_of_lookup; eauto).
    simpl. exact (IH j Hj p Hjp). }
  intros c Hc.
  pose proof (all_visited st c Hdep Hsrc Hac Hc) as HcP.
  apply list_elem_of_lookup in HcP as [i Hi]. exact (Hidx i c Hi).
Qed.

Lemma is_sink_flow_to c :
  is_sink NO_FLOW dx dy fd c = true ↔
  is_data fd c = true ∧ flow_to c = None.
Proof.
  unfold is_sink. unfold_flow_to.
  destruct (is_data fd c) eqn:Hc; simpl; [|split; [discriminate|tauto]].
  destruct (Array2D.getc fd c =? NO_FLOW); simpl; [tauto|].
  unfold is_data.
  destruct (Array2D.inGridc fd (target dx dy fd c)); simpl; [|tauto].
  destruct (Array2D.isNoData fd _ _); simpl; [tauto|].
  split; [discriminate|]. intros [_ ?]. discriminate.
Qed.

(** On an acyclic raster the areas of the sinks add up to the number of
    data cells. *)
Lemma final_area_sinks st :
  dep_inv st → area_inv st → ds_sources st = [] → acyclic →
  Zsum (λ c, if is_sink NO_FLOW dx dy fd c
             then Array2D.getc (ds_area st) c else 0)
       (Array2D.cells fd)
  = num_data_cells fd.
Proof.
  intros Hdep Hinv Hsrc Hac. rewrite <- (ai_mass _ _ _ _ _ Hinv).
  apply Zsum_ext. intros c _. unfold mass_term.
  destruct (is_sink NO_FLOW dx dy fd c) eqn:Hs.
  - apply is_sink_flow_to in Hs as [Hc Hf]. rewrite Hc, Hf.
    rewrite bool_decide_eq_true_2; [reflexivity|].
    apply all_visited; assumption.
  - destruct (is_data fd c) eqn:Hc; [|reflexivity].
    rewrite bool_decide_eq_true_2 by (apply all_visited; assumption).
    destruct (flow_to c) eqn:Hf; [reflexivity|].
    assert (is_sink NO_FLOW dx dy fd c = true); [|congruence].
    apply is_sink_flow_to. auto.
Qed.

End final_state.

(** *** Two runs with different worklists *)

Section two_runs.

Variable NO_FLOW : Z.
Variables dx dy : Z → Z.
Variable fd : Array2D.t Z.

Local Abbreviation flow_to := (flow_to NO_FLOW dx dy fd).
Local Abbreviation feeds := (feeds NO_FLOW dx dy fd).
Local Abbreviation dep_inv := (dep_inv NO_FLOW dx dy fd).
Local Abbreviation area_inv := (area_inv NO_FLOW dx dy fd).

Implicit Types (c n p q m : GridCell) (st : drain_state).

(** The set of processed cells does not depend on the order. *)
Lemma final_visited_subset st1 st2 :
  dep_inv st1 → dep_inv st2 → ds_sources st2 = [] →
  ∀ c, c ∈ ds_visited st1 → c ∈ ds_visited st2.
Proof.
  intros H1 H2 Hsrc.
  assert (Hidx : ∀ i c, ds_visited st1 !! i = Some c → c ∈ ds_visited st2).
  { induction i as [i IH] using lt_wf_ind. intros c Hi.
    assert (Hc : is_data fd c = true).
    { apply (di_data _ _ _ _ _ H1). apply elem_of_app. left.
      apply list_elem_of_lookup. eauto. }
    rewrite <- (app_nil_r (ds_visited st2)), <- Hsrc.
    apply (di_zero _ _ _ _ _ H2 c Hc).
    rewrite (di_count _ _ _ _ _ H2 c Hc). apply Zsum_zero.
    intros q _. destruct (feeds q c) eqn:Hf; [|reflexivity].
    apply (feeds_flow_to NO_FLOW dx dy fd q c Hc) in Hf.
    destruct (di_order _ _ _ _ _ H1 i c q Hi Hf) as (j & Hj & Hjq).
    rewrite (bool_decide_eq_true_2 _ (IH j Hj q Hjq)). reflexivity. }
  intros c Hc. apply list_elem_of_lookup in Hc as [i Hi]. exact (Hidx i c Hi).
Qed.

Lemma final_area_visited_eq st1 st2 :
  dep_inv st1 → dep_inv st2 → area_inv st1 → area_inv st2 →
  ds_sources st1 = [] → ds_sources st2 = [] →
  ∀ c, c ∈ ds_visited st1 →
       Array2D.getc (ds_area st1) c = Array2D.getc (ds_area st2) c.
Proof.
  intros H1 H2 A1 A2 Hs1 Hs2.
  assert (Hidx : ∀ i c, ds_visited st1 !! i = Some c →
            Array2D.getc (ds_area st1) c = Array2D.getc (ds_area st2) c).
  { induction i as [i IH] using lt_wf_ind. intros c Hi.
    assert (HcP : c ∈ ds_visited st1) by (apply list_elem_of_lookup; eauto).
    assert (Hc : is_data fd c = true).
    { apply (di_data _ _ _ _ _ H1). apply elem_of_app. left. exact HcP. }
    rewrite (ai_rec _ _ _ _ _ A1 c Hc), (ai_rec _ _ _ _ _ A2 c Hc).
    rewrite (bool_decide_eq_true_2 _ HcP).
    rewrite (bool_decide_eq_true_2 _ (final_visited_subset st1 st2 H1 H2 Hs2 c HcP)).
    f_equal. apply Zsum_ext. intros p _. unfold inflow_term.
    destruct (bool_decide (flow_to p = Some c)) eqn:Hp; [|reflexivity].
    apply bool_decide_eq_true in Hp.
    destruct (di_order _ _ _ _ _ H1 i c p Hi Hp) as (j & Hj & Hjp).
    assert (HpP : p ∈ ds_visited st1) by (apply list_elem_of_lookup; eauto).
    rewrite (bool_decide_eq_true_2 _ HpP).
    rewrite (bool_decide_eq_true_2 _ (final_visited_subset st1 st2 H1 H2 Hs2 p HpP)).
    simpl. exact (IH j Hj p Hjp). }
  intros c Hc. apply list_elem_of_lookup in Hc as [i Hi]. exact (Hidx i c Hi).
Qed.

(** The final area raster does not depend on the order. *)
Lemma final_area_eq st1 st2 :
  dep_inv st1 → dep_inv st2 → area_inv st1 → area_inv st2 →
  ds_sources st1 = [] → ds_sources st2 = [] →
  ds_area st1 = ds_area st2.
Proof.
  intros H1 H2 A1 A2 Hs1 Hs2.
  destruct (ai_shape _ _ _ _ _ A1) as [Hw1 Hh1].
  destruct (ai_shape _ _ _ _ _ A2) as [Hw2 Hh2].
  apply array2d_ext.
  - exact (ai_ok _ _ _ _ _ A1).
  - exact (ai_ok _ _ _ _ _ A2).
  - congruence.
  - congruence.
  - rewrite (ai_sentinel _ _ _ _ _ A1), (ai_sentinel _ _ _ _ _ A2). reflexivity.
  - intros c Hc.
    rewrite (inGridc_same_shape _ fd c (ai_shape _ _ _ _ _ A1)) in Hc.
    destruct (is_data fd c) eqn:Hd.
    + destruct (decide (c ∈ ds_visited st1)) as [Hin|Hout].
      * apply final_area_visited_eq; assumption.
      * assert (Hout2 : c ∉ ds_visited st2).
        { intros Hin. apply Hout.
          exact (final_visited_subset st2 st1 H2 H1 Hs1 c Hin). }
        rewrite (ai_rec _ _ _ _ _ A1 c Hd), (ai_rec _ _ _ _ _ A2 c Hd).
        rewrite (bool_decide_eq_false_2 _ Hout), (bool_decide_eq_false_2 _ Hout2).
        f_equal. apply Zsum_ext. intros p _. unfold inflow_term.
        destruct (bool_decide (flow_to p = Some c)); [|reflexivity]. simpl.
        destruct (decide (p ∈ ds_visited st1)) as [Hp|Hp].
        -- rewrite (bool_decide_eq_true_2 _ Hp).
           rewrite (bool_decide_eq_true_2 _
                      (final_visited_subset st1 st2 H1 H2 Hs2 p Hp)).
           apply final_area_visited_eq; assumption.
        -- rewrite (bool_decide_eq_false_2 _ Hp).
           rewrite bool_decide_eq_false_2; [reflexivity|].
           intros Hin. apply Hp.
           exact (final_visited_subset st2 st1 H2 H1 Hs1 p Hin).
    + rewrite (ai_nodata _ _ _ _ _ A1 c Hc Hd), (ai_nodata _ _ _ _ _ A2 c Hc Hd).
      reflexivity.
Qed.

End two_runs.

(** *** The dependency raster only goes down *)

Lemma dep_step_le NO_FLOW dx dy castU w fd st st' :
  worklist_ok w → dep_inv NO_FLOW dx dy fd st →
  drain_step_with NO_FLOW dx dy castU w fd st = Some st' →
  ∀ m, Array2D.inGridc fd m = true →
       Array2D.getc (ds_dependency st') m <= Array2D.getc (ds_dependency st) m.
Proof.
  intros Hw Hinv Hstep m Hm.
  apply (drain_step_with_eq NO_FLOW dx dy castU w fd Hw) in Hstep
    as (c & rest & Hperm & Hst').
  2:{ intros x Hx. apply (di_data _ _ _ _ _ Hinv). apply elem_of_app. right. exact Hx. }
  assert (HcQ : c ∈ ds_sources st) by (rewrite Hperm; left).
  assert (HcP : c ∉ ds_visited st).
  { intros Hin. pose proof (di_nodup _ _ _ _ _ Hinv) as Hnd.
    apply NoDup_app in Hnd as (_ & Hdisj & _). exact (Hdisj c Hin HcQ). }
  simpl in Hst'.
  destruct (flow_to NO_FLOW dx dy fd c) as [n|] eqn:Hflow; subst st'; simpl; [|lia].
  pose proof (dependency_pos NO_FLOW dx dy fd st Hinv c n HcP Hflow) as Hpos.
  destruct (flow_to_data _ _ _ _ _ _ Hflow) as [_ Hnd].
  pose proof (di_range _ _ _ _ _ Hinv n (is_data_inGrid _ _ Hnd)) as Hrng.
  pose proof (di_shape _ _ _ _ _ Hinv) as Hsh.
  rewrite wrap_int8_id by lia.
  destruct (decide (n = m)) as [<-|Hne].
  - rewrite getc_setc_eq; [lia|exact (di_ok _ _ _ _ _ Hinv)|].
    rewrite (inGridc_same_shape _ fd n Hsh). exact Hm.
  - rewrite getc_setc_ne; [lia| | |exact Hne];
      rewrite (inGridc_same_shape _ fd _ Hsh);
      [apply is_data_inGrid, Hnd|exact Hm].
Qed.

Lemma drain_step_fifo NO_FLOW dx dy castU fd st :
  drain_step NO_FLOW dx dy castU fd st =
  drain_step_with NO_FLOW dx dy castU fifo fd st.
Proof.
  unfold drain_step, drain_step_with. simpl.
  destruct (ds_sources st) as [|c rest]; simpl; [reflexivity|].
  destruct (drain_body _ _ _ _ _ _ _ _) as [[a d] [n|]]; simpl; [reflexivity|].
  rewrite app_nil_r. reflexivity.
Qed.

(** With the queue of the source, [visited ++ sources] is the sequence of
    all cells pushed so far: a step appends the cell it pushes, if any. *)
Lemma drain_step_push_log NO_FLOW dx dy castU fd st st' :
  drain_step NO_FLOW dx dy castU fd st = Some st' →
  ∃ c pushed,
    ds_visited st' = ds_visited st ++ [c] ∧
    ds_visited st' ++ ds_sources st' =
    (ds_visited st ++ ds_sources st) ++ option_list pushed.
Proof.
  unfold drain_step. destruct (ds_sources st) as [|c rest]; [discriminate|].
  destruct (drain_body _ _ _ _ _ _ _ _) as [[a d] pushed].
  intros [= <-]. exists c, pushed. simpl. split; [reflexivity|].
  rewrite <- !app_assoc. reflexivity.
Qed.

Lemma drain_steps_inv NO_FLOW dx dy castU fd k : ∀ st st',
  dep_inv NO_FLOW dx dy fd st →
  drain_steps NO_FLOW dx dy castU k fd st = Some st' →
  dep_inv NO_FLOW dx dy fd st' ∧
  (length (ds_visited st') = length (ds_visited st) + k)%nat.
Proof.
  induction k as [|k IH]; intros st st' Hinv; simpl.
  - intros [= <-]. split; [exact Hinv|lia].
  - destruct (drain_step NO_FLOW dx dy castU fd st) as [st1|] eqn:Hstep; [|discriminate].
    intros Hrun. pose proof Hstep as Hstep'.
    rewrite drain_step_fifo in Hstep'.
    apply (dep_inv_step NO_FLOW dx dy castU fifo fd fifo_ok st Hinv) in Hstep'.
    destruct (IH st1 st' Hstep' Hrun) as [Hinv' Hlen].
    split; [exact Hinv'|].
    apply drain_step_push_log in Hstep as (c & pushed & Hv & _).
    rewrite Hlen, Hv, length_app. simpl. lia.
Qed.

(** ** The flow accumulation as a whole *)

(** [d8_flow_accum] returns, and its final state meets the invariants. *)
Lemma d8_flow_accum_with_final NO_FLOW dx dy castU w sched fd area0 :
  flowdirs_ok NO_FLOW fd → worklist_ok w → U_exact castU fd →
  lossless NO_FLOW dx dy sched fd = true →
  ∃ st, d8_flow_accum_with NO_FLOW dx dy castU w sched fd area0 =
          Some (mkFlowAccum (ds_area st) (ds_dependency st) (ds_visited st)
                            (count_loops (ds_dependency st))) ∧
        dep_inv NO_FLOW dx dy fd st ∧ area_inv NO_FLOW dx dy fd st ∧
        ds_sources st = [].
Proof.
  intros Hfd Hw HU Hll.
  destruct (drain_run NO_FLOW dx dy castU w fd Hfd Hw HU sched Hll area0)
    as (st & Hrun & Hdep & Hinv & Hsrc).
  exists st. unfold d8_flow_accum_with. rewrite Hrun. auto.
Qed.


Lemma drain_steps_push NO_FLOW dx dy castU fd dep0 k :
  flowdirs_ok NO_FLOW fd → ∀ st st',
  push_inv NO_FLOW dx dy fd dep0 st →
  drain_steps NO_FLOW dx dy castU k fd st = Some st' →
  push_inv NO_FLOW dx dy fd dep0 st' ∧
  (length (ds_visited st') = length (ds_visited st) + k)%nat.
Proof.
  intros Hfd. induction k as [|k IH]; intros st st' Hinv; simpl.
  - intros [= <-]. split; [exact Hinv|lia].
  - destruct (drain_step NO_FLOW dx dy castU fd st) as [st1|] eqn:Hstep; [|discriminate].
    intros Hrun. pose proof Hstep as Hstep'.
    rewrite drain_step_fifo in Hstep'.
    apply (push_inv_step NO_FLOW dx dy castU fifo fd Hfd fifo_ok dep0 st st1 Hinv)
      in Hstep'.
    destruct (IH st1 st' Hstep' Hrun) as [Hinv' Hlen].
    split; [exact Hinv'|].
    apply drain_step_push_log in Hstep as (c & pushed & Hv & _).
    rewrite Hlen, Hv, length_app. simpl. lia.
Qed.

(** C10: in the drain phase every cell is pushed onto the sources queue at
    most once, whatever the first loop has left in the dependency raster:
    under every schedule of the first loop and at every point of the drain
    loop the cells pushed so far, which are the cells already dequeued
    followed by the queue, are pairwise distinct; an iteration only lowers
    dependency values and appends to that sequence the cell it pushes; so
    [area(c)++] runs at most once per cell, and the loop ends within as
    many iterations as the raster has cells. *)
Theorem d8_flow_accum_pushes_once NO_FLOW dx dy castU sched fd area0 :
  flowdirs_ok NO_FLOW fd →
  (∀ k st,
     drain_steps NO_FLOW dx dy castU k fd
       (drain_init NO_FLOW dx dy castU sched fd area0) = Some st →
     NoDup (ds_visited st ++ ds_sources st) ∧
     length (ds_visited st) = k ∧
     (k <= length (Array2D.cells fd))%nat ∧
     ∀ st', drain_step NO_FLOW dx dy castU fd st = Some st' →
       (∀ m, Array2D.inGridc fd m = true →
             Array2D.getc (ds_dependency st') m
             <= Array2D.getc (ds_dependency st) m) ∧
       ∃ c pushed,
         ds_visited st' = ds_visited st ++ [c] ∧
         ds_visited st' ++ ds_sources st' =
         (ds_visited st ++ ds_sources st) ++ option_list pushed) ∧
  ∃ r, d8_flow_accum NO_FLOW dx dy castU sched fd area0 = Some r ∧
       NoDup (fa_visited r) ∧
       (length (fa_visited r) <= length (Array2D.cells fd))%nat.
Proof.
  intros Hfd. split.
  - intros k st Hrun.
    pose proof (push_inv_init NO_FLOW dx dy castU fifo fd Hfd fifo_ok sched area0)
      as Hinit.
    change (drain_init_with NO_FLOW dx dy castU fifo sched fd area0)
      with (drain_init NO_FLOW dx dy castU sched fd area0) in Hinit.
    destruct (drain_steps_push NO_FLOW dx dy castU fd _ k Hfd _ st Hinit Hrun)
      as [Hinv Hlen].
    assert (Hv0 : ds_visited (drain_init NO_FLOW dx dy castU sched fd area0) = []).
    { unfold drain_init. destruct (dependency_phase _ _ _ _ _ _ _). reflexivity. }
    rewrite Hv0 in Hlen. simpl in Hlen.
    split; [exact (pu_nodup _ _ _ _ _ _ Hinv)|]. split; [exact Hlen|].
    split; [rewrite <- Hlen;
            exact (push_visited_length NO_FLOW dx dy castU fd _ st Hinv)|].
    intros st' Hstep. split.
    + rewrite drain_step_fifo in Hstep.
      exact (push_step_le NO_FLOW dx dy castU fifo fd Hfd fifo_ok _ st st' Hinv Hstep).
    + exact (drain_step_push_log NO_FLOW dx dy castU fd st st' Hstep).
  - rewrite d8_flow_accum_fifo.
    destruct (drain_run_any NO_FLOW dx dy castU fifo fd Hfd fifo_ok sched area0)
      as (st & Hrun & Hinv & _ & Hsrc).
    unfold d8_flow_accum_with. rewrite Hrun. simpl.
    eexists. split; [reflexivity|]. simpl. split.
    + pose proof (pu_nodup _ _ _ _ _ _ Hinv) as Hnd.
      apply NoDup_app in Hnd. tauto.
    + exact (push_visited_length NO_FLOW dx dy castU fd _ st Hinv).
Qed.


(** *** The single chain *)

Section chain_facts.

Variable NO_FLOW : Z.
Variables dx dy : Z → Z.
Variable nd : Z.
Hypothesis Hdx : dx 3 = 1.
Hypothesis Hdy : dy 3 = 0.
Hypothesis Hnf : NO_FLOW ≠ 3.
Hypothesis Hnd3 : nd ≠ 3.
Hypothesis Hndnf : nd ≠ NO_FLOW.

Local Abbreviation fd := (chain_raster NO_FLOW nd).
Local Abbreviation flow_to := (flow_to NO_FLOW dx dy fd).
Local Abbreviation walk := (walk NO_FLOW dx dy fd).
Local Abbreviation upslope_count := (upslope_count NO_FLOW dx dy fd).
Local Abbreviation cell := mkGridCell.

Lemma chain_cells :
  Array2D.cells fd = [cell 0 0; cell 1 0; cell 2 0; cell 3 0; cell 4 0].
Proof. reflexivity. Qed.

Lemma chain_ok : flowdirs_ok NO_FLOW fd.
Proof.
  split.
  - unfold Array2D.ok. simpl. split_and!; [lia|lia|reflexivity].
  - unfold direction_ok. simpl. repeat constructor; lia.
Qed.

Lemma chain_data x : 0 <= x < 5 → is_data fd (cell x 0) = true.
Proof.
  intros Hx. unfold is_data, Array2D.isNoData.
  assert (x = 0 ∨ x = 1 ∨ x = 2 ∨ x = 3 ∨ x = 4) as [->|[->|[->|[->| ->]]]] by lia;
    apply andb_true_intro; (split; [reflexivity|]);
    apply negb_true_iff, bool_decide_eq_false_2; cbv; congruence.
Qed.

Lemma chain_flow x :
  0 <= x < 4 → flow_to (cell x 0) = Some (cell (x + 1) 0).
Proof.
  intros Hx. apply flow_to_Some.
  split; [apply chain_data; lia|].
  assert (Hv : Array2D.getc fd (cell x 0) = 3).
  { assert (x = 0 ∨ x = 1 ∨ x = 2 ∨ x = 3) as [->|[->|[->| ->]]] by lia;
      reflexivity. }
  split; [congruence|]. split; [|apply chain_data; lia].
  unfold target. rewrite Hv, Hdx, Hdy. simpl. f_equal; lia.
Qed.

Lemma chain_flow_end : flow_to (cell 4 0) = None.
Proof.
  unfold_flow_to. rewrite chain_data by lia. simpl negb.
  change (Array2D.getc fd (cell 4 0)) with NO_FLOW.
  rewrite Z.eqb_refl. reflexivity.
Qed.

Lemma chain_flow_0 : flow_to (cell 0 0) = Some (cell 1 0).
Proof. apply (chain_flow 0). lia. Qed.

Lemma chain_flow_1 : flow_to (cell 1 0) = Some (cell 2 0).
Proof. apply (chain_flow 1). lia. Qed.

Lemma chain_flow_2 : flow_to (cell 2 0) = Some (cell 3 0).
Proof. apply (chain_flow 2). lia. Qed.

Lemma chain_flow_3 : flow_to (cell 3 0) = Some (cell 4 0).
Proof. apply (chain_flow 3). lia. Qed.

Ltac chain_flows :=
  rewrite ?chain_flow_0, ?chain_flow_1, ?chain_flow_2, ?chain_flow_3,
          ?chain_flow_end.

Lemma chain_walk_ends k : ∀ x,
  0 <= x <= 4 → (Z.to_nat (5 - x) <= k)%nat → walk k (cell x 0) = None.
Proof.
  induction k as [|k IH]; intros x Hx Hk; [lia|]. simpl.
  destruct (decide (x = 4)) as [->|Hne].
  - rewrite chain_flow_end. reflexivity.
  - rewrite chain_flow by lia. simpl. apply IH; lia.
Qed.

Lemma chain_acyclic : acyclic NO_FLOW dx dy fd.
Proof.
  apply acyclicb_sound. unfold acyclicb. apply forallb_forall.
  intros c Hc. apply list_elem_of_In, elem_of_cells_of in Hc.
  apply bool_decide_eq_true_2. destruct c as [x y]. simpl in Hc.
  assert (y = 0) as -> by lia. apply chain_walk_ends; simpl; lia.
Qed.

Ltac chain_decide :=
  repeat match goal with
  | |- context [bool_decide (?a = ?b)] =>
      first [ rewrite (bool_decide_eq_true_2 (a = b)) by reflexivity
            | rewrite (bool_decide_eq_false_2 (a = b)) by discriminate ]
  end.

Ltac chain_count :=
  rewrite upslope_count_step by first [exact chain_acyclic | apply chain_data; lia];
  rewrite chain_cells; cbn [Zsum foldr]; chain_flows; chain_decide.

Lemma chain_count_0 : upslope_count (cell 0 0) = 1.
Proof. chain_count. reflexivity. Qed.

Lemma chain_count_1 : upslope_count (cell 1 0) = 2.
Proof. chain_count. rewrite chain_count_0. reflexivity. Qed.

Lemma chain_count_2 : upslope_count (cell 2 0) = 3.
Proof. chain_count. rewrite chain_count_1. reflexivity. Qed.

Lemma chain_count_3 : upslope_count (cell 3 0) = 4.
Proof. chain_count. rewrite chain_count_2. reflexivity. Qed.

Lemma chain_count_4 : upslope_count (cell 4 0) = 5.
Proof. chain_count. rewrite chain_count_3. reflexivity. Qed.

(** Every cell of the chain has at most one feeder. *)
Lemma chain_single_feeder n :
  Array2D.inGridc fd n = true → indegree NO_FLOW dx dy fd n <= 1.
Proof.
  intros Hn. apply inGridc_spec in Hn. destruct n as [x y]. simpl in Hn.
  assert (y = 0) as -> by lia.
  assert (Hd : is_data fd (cell x 0) = true) by (apply chain_data; lia).
  unfold_indegree. rewrite chain_cells. cbn [Zsum foldr].
  rewrite !(feeds_flow_to_b NO_FLOW dx dy fd _ _ Hd). chain_flows.
  assert (x = 0 ∨ x = 1 ∨ x = 2 ∨ x = 3 ∨ x = 4) as [->|[->|[->|[->| ->]]]] by lia;
    chain_decide; simpl; lia.
Qed.

End chain_facts.



(** *** The example rasters *)

Lemma example_chain_ok : flowdirs_ok Example.NO_FLOW Example.chain.
Proof. apply chain_ok; discriminate. Qed.

Lemma example_chain_exact : U_exact wrap_int32 Example.chain.
Proof.
  intros z Hz. unfold Array2D.size in Hz. simpl in Hz.
  apply wrap_int32_id. lia.
Qed.

Lemma example_chain_acyclic :
  acyclic Example.NO_FLOW Example.dx Example.dy Example.chain.
Proof. apply acyclicb_sound. vm_compute. reflexivity. Qed.

Lemma example_confluence_ok : flowdirs_ok Example.NO_FLOW Example.confluence.
Proof.
  split.
  - unfold Array2D.ok. simpl. split; [lia|]. split; [lia|reflexivity].
  - simpl. repeat (constructor; [first [right; left; reflexivity
                                       |right; right; lia]|]).
    constructor.
Qed.

Lemma example_confluence_exact : U_exact wrap_int32 Example.confluence.
Proof.
  intros z Hz. unfold Array2D.size in Hz. simpl in Hz.
  apply wrap_int32_id. lia.
Qed.

Lemma example_confluence_acyclic :
  acyclic Example.NO_FLOW Example.dx Example.dy Example.confluence.
Proof. apply acyclicb_sound. vm_compute. reflexivity. Qed.




Lemma d8_flow_accum_pushes_once_witness :
  ∃ r, d8_flow_accum Example.NO_FLOW Example.dx Example.dy wrap_int32
         Example.overtaken Example.confluence Example.empty_area = Some r ∧
       NoDup (fa_visited r) ∧
       (length (fa_visited r) <= length (Array2D.cells Example.confluence))%nat.
Proof.
  apply (d8_flow_accum_pushes_once
           Example.NO_FLOW Example.dx Example.dy wrap_int32).
  exact example_confluence_ok.
Defined.

(** *** A lost increment *)

(** C1: the increments of the first loop are not atomic, and what the
    claim says of acyclic rasters fails when one is lost.  On the acyclic
    3x2 raster [confluence], with one thread per row and the two
    increments of [dependency(2,1)] interleaved as in [overtaken], the cell
    (2,1) is taken to be ready after one of its two feeders, and the data
    cell (2,0), on which the flow paths of five data cells lie, ends with
    the area 3. *)
Theorem d8_flow_accum_lost_increment_area :
  flowdirs_ok Example.NO_FLOW Example.confluence ∧
  acyclic Example.NO_FLOW Example.dx Example.dy Example.confluence ∧
  is_data Example.confluence (mkGridCell 2 0) = true ∧
  upslope_count Example.NO_FLOW Example.dx Example.dy Example.confluence
    (mkGridCell 2 0) = 5 ∧
  ∃ r, d8_flow_accum Example.NO_FLOW Example.dx Example.dy wrap_int32
         Example.overtaken Example.confluence Example.empty_area = Some r ∧
       fa_area r = Array2D.mk 3 2 [1; 1; 3;
                                   1; 2; 4] (-1) ∧
       Array2D.getc (fa_area r) (mkGridCell 2 0) = 3.
Proof.
  split; [exact example_confluence_ok|].
  split; [exact example_confluence_acyclic|].
  split; [reflexivity|]. split; [vm_compute; reflexivity|].
  eexists. split; [vm_compute; reflexivity|]. split; reflexivity.
Qed.

(** C3: with the same lost increment the areas of the sinks of
    [confluence], the cells (0,0) and (2,0), add up to 4, while the raster
    has 6 data cells and no loop. *)
Theorem d8_flow_accum_lost_increment_mass :
  acyclic Example.NO_FLOW Example.dx Example.dy Example.confluence ∧
  num_data_cells Example.confluence = 6 ∧
  ∃ r, d8_flow_accum Example.NO_FLOW Example.dx Example.dy wrap_int32
         Example.overtaken Example.confluence Example.empty_area = Some r ∧
       Zsum (λ c, if is_sink Example.NO_FLOW Example.dx Example.dy
                       Example.confluence c
                  then Array2D.getc (fa_area r) c else 0)
            (Array2D.cells Example.confluence)
       = 4.
Proof.
  split; [exact example_confluence_acyclic|].
  split; [vm_compute; reflexivity|].
  eexists. split; [vm_compute; reflexivity|]. vm_compute. reflexivity.
Qed.

(** C4: with the same lost increment the order of the drain phase shows in
    the result: the queue of the source gives (2,0) the area 3, a stack in
    its place gives it 4. *)
Theorem d8_flow_accum_lost_increment_order :
  fa_area <$> d8_flow_accum Example.NO_FLOW Example.dx Example.dy wrap_int32
                Example.overtaken Example.confluence Example.empty_area
  = Some (Array2D.mk 3 2 [1; 1; 3;
                          1; 2; 4] (-1)) ∧
  fa_area <$> d8_flow_accum_with Example.NO_FLOW Example.dx Example.dy wrap_int32
                lifo Example.overtaken Example.confluence Example.empty_area
  = Some (Array2D.mk 3 2 [1; 1; 4;
                          1; 2; 4] (-1)).
Proof. split; vm_compute; reflexivity. Qed.

(** *** The loop count *)

(** C2: on the raster of two cells that flow into each other, under every
    schedule of the first loop, the drain phase leaves both data cells with
    a positive dependency value, and the number that [d8_flow_accum]
    reports as its loop count is 0. *)
Theorem d8_flow_accum_loops_cycle2 (sched : list nat) :
  ∃ r, d8_flow_accum Example.NO_FLOW Example.dx Example.dy wrap_int32 sched
         Example.cycle2 Example.empty_area = Some r ∧
       positive_dependency_cells Example.cycle2 (fa_dependency r) = 2 ∧
       fa_loops r = 0.
Proof.
  assert (Hfd : flowdirs_ok Example.NO_FLOW Example.cycle2).
  { split.
    - unfold Array2D.ok. simpl. split; [lia|]. split; [lia|reflexivity].
    - simpl. do 2 (constructor; [right; right; lia|]). constructor. }
  rewrite d8_flow_accum_fifo, lossless_run; [|exact Hfd|].
  - eexists. split; [vm_compute; reflexivity|]. split; reflexivity.
  - apply single_feeder_lossless; [exact Hfd|].
    intros n Hn. apply elem_of_cells, list_elem_of_In in Hn.
    destruct Hn as [<-|[<-|[]]]; vm_compute; discriminate.
Qed.

Lemma data_elem_cell {T : Type} (a : Array2D.t T) (v : T) :
  Array2D.ok a → v ∈ Array2D.data a →
  ∃ c, Array2D.inGridc a c = true ∧ Array2D.getc a c = v.
Proof.
  intros (Hw & Hh & Hlen) Hv. apply list_elem_of_lookup in Hv as [i Hi].
  pose proof (lookup_lt_Some _ _ _ Hi) as Hlt. rewrite Hlen in Hlt.
  destruct (decide (Array2D.width a = 0)) as [H0|H0].
  { rewrite H0, Z.mul_0_l in Hlt. simpl in Hlt. lia. }
  exists (mkGridCell (Z.of_nat i mod Array2D.width a) (Z.of_nat i / Array2D.width a)).
  assert (0 <= Z.of_nat i mod Array2D.width a < Array2D.width a)
    by (apply Z.mod_pos_bound; lia).
  assert (Z.of_nat i < Array2D.width a * Array2D.height a) by lia.
  split.
  - apply inGridc_spec. simpl. split; [lia|].
    split; [apply Z.div_pos; lia|apply Z.div_lt_upper_bound; lia].
  - unfold Array2D.getc, Array2D.get, Array2D.xyToI. simpl.
    rewrite (Z.mul_comm _ (Array2D.width a)), <- Z.div_mod by assumption.
    rewrite Nat2Z.id, Hi. reflexivity.
Qed.

Lemma count_loops_zero (dependency : Array2D.t Z) :
  (∀ v, v ∈ Array2D.data dependency → 0 <= v) → count_loops dependency = 0.
Proof.
  intros Hpos.
  assert (Hc : Array2D.countval dependency (-1) = 0).
  { unfold Array2D.countval.
    assert (filter (λ e, e = -1) (Array2D.data dependency) = []) as ->; [|reflexivity].
    induction (Array2D.data dependency) as [|v l IH]; [reflexivity|].
    rewrite filter_cons. destruct (decide (v = -1)) as [->|_].
    - specialize (Hpos (-1)). assert (0 <= -1); [apply Hpos; left|lia].
    - apply IH. intros u Hu. apply Hpos. right. exact Hu. }
  unfold count_loops. rewrite Hc. reflexivity.
Qed.

(** When the first loop has lost no increment, on every direction raster,
    cyclic or not, the dependency values stay between 0 and 8, so the
    reported loop count is 0. *)
Lemma d8_flow_accum_loops_zero NO_FLOW dx dy castU sched fd area0 :
  flowdirs_ok NO_FLOW fd → lossless NO_FLOW dx dy sched fd = true →
  ∃ r, d8_flow_accum NO_FLOW dx dy castU sched fd area0 = Some r ∧ fa_loops r = 0.
Proof.
  intros Hfd Hll. rewrite d8_flow_accum_fifo.
  destruct (drain_run_dep NO_FLOW dx dy castU fifo sched fd area0 Hfd fifo_ok Hll)
    as (st & Hrun & Hinv & _).
  unfold d8_flow_accum_with. rewrite Hrun. simpl.
  eexists. split; [reflexivity|]. simpl.
  apply count_loops_zero. intros v Hv.
  destruct (data_elem_cell _ v (di_ok _ _ _ _ _ Hinv) Hv) as (c & Hc & <-).
  rewrite (inGridc_same_shape _ fd c (di_shape _ _ _ _ _ Hinv)) in Hc.
  pose proof (di_range _ _ _ _ _ Hinv c Hc). lia.
Qed.

(** ** SPI and CTI *)

Section spi_cti_facts.

Context {T U V : Type}.
Variable eqT : T → T → bool.
Variable eqU : U → U → bool.
Variable spi_value : T → U → V.
Variable cti_value : T → U → V.
Variable V_of_Z : Z → V.

Lemma index_fold_shape (value : T → U → V) (fa : Array2D.t T) (rs : Array2D.t U)
    (l : list GridCell) : ∀ result : Array2D.t V,
  Array2D.width (foldl (index_body eqT eqU value fa rs) result l) = Array2D.width result ∧
  Array2D.height (foldl (index_body eqT eqU value fa rs) result l) = Array2D.height result ∧
  Array2D.noData (foldl (index_body eqT eqU value fa rs) result l) = Array2D.noData result.
Proof.
  induction l as [|c l IH]; intros result; [auto|].
  simpl foldl. destruct (IH (index_body eqT eqU value fa rs result c)) as (Hw & Hh & Hn).
  rewrite Hw, Hh, Hn. unfold index_body.
  destruct (eqT _ _ || eqU _ _); auto.
Qed.

Lemma index_contract_holds (value : T → U → V) (msg : string)
    (fa : Array2D.t T) (rs : Array2D.t U) (result : Array2D.t V) :
  msg ≠ EmptyString →
  index_contract V_of_Z fa rs result
    (if negb (bool_decide (Array2D.width fa = Array2D.width rs))
        || negb (bool_decide (Array2D.height fa = Array2D.height rs))
     then Threw result msg
     else
       Returned
         (foldl (index_body eqT eqU value fa rs)
                (Array2D.setNoData (Array2D.resize result fa (V_of_Z 0)) (V_of_Z (-1)))
                (cells_by_column (Array2D.width fa) (Array2D.height fa)))).
Proof.
  intros Hmsg. unfold index_contract.
  destruct (decide (Array2D.width fa = Array2D.width rs)) as [Hw|Hw];
    destruct (decide (Array2D.height fa = Array2D.height rs)) as [Hh|Hh].
  - rewrite !bool_decide_eq_true_2 by assumption. simpl.
    destruct (index_fold_shape value fa rs
                (cells_by_column (Array2D.width fa) (Array2D.height fa))
                (Array2D.setNoData (Array2D.resize result fa (V_of_Z 0)) (V_of_Z (-1))))
      as (Hw' & Hh' & Hn').
    split_and!; auto. split; assumption.
  - rewrite (bool_decide_eq_false_2 _ Hh), orb_true_r. simpl. auto.
  - rewrite (bool_decide_eq_false_2 _ Hw). simpl. auto.
  - rewrite (bool_decide_eq_false_2 _ Hw). simpl. auto.
Qed.

(** C5: [TA_SPI] and [TA_CTI] throw, with a message, exactly when the flow
    accumulation and the slope differ in width or in height, and then leave
    [result] as it was; otherwise [result] gets the shape of the flow
    accumulation raster and the sentinel -1. *)
Theorem TA_SPI_CTI_shape_check
    (fa : Array2D.t T) (rs : Array2D.t U) (result : Array2D.t V) :
  index_contract V_of_Z fa rs result (TA_SPI eqT eqU spi_value V_of_Z fa rs result) ∧
  index_contract V_of_Z fa rs result (TA_CTI eqT eqU cti_value V_of_Z fa rs result).
Proof.
  split.
  - apply (index_contract_holds spi_value). discriminate.
  - apply (index_contract_holds cti_value). discriminate.
Qed.

End spi_cti_facts.

(** ** D8 upslope cells *)

Section upslope_facts.

Variable NO_FLOW : Z.
Variables dx dy d8_inverse : Z → Z.
Variable FLOWDIR_NO_DATA : Z.
Variable fd : Array2D.t Z.

Local Abbreviation expand_body := (expand_body NO_FLOW dx dy d8_inverse fd).
Local Abbreviation expand_step := (expand_step NO_FLOW dx dy d8_inverse fd).
Local Abbreviation expand_loop := (expand_loop NO_FLOW dx dy d8_inverse).
Local Abbreviation shape_ok := (upslope_shape FLOWDIR_NO_DATA fd).

Implicit Types (up : Array2D.t Z) (q : list GridCell) (c : GridCell).

(** The inclusion rule of the traversal: the neighbour reached from [c]
    by offset [n] is marked 1 and enqueued exactly when it is in the grid,
    its direction is neither [NO_FLOW] nor the sentinel, its output still is
    the sentinel, and [n] is the inverse of its direction. *)
Lemma expand_body_rule c up q (n : Z) :
  expand_body c (up, q) n =
  let nx := cell_x c + dx n in
  let ny := cell_y c + dy n in
  if Array2D.inGrid fd nx ny
     && negb (Array2D.get fd nx ny =? NO_FLOW)
     && negb (Array2D.get fd nx ny =? Array2D.noData fd)
     && (Array2D.get up nx ny =? Array2D.noData up)
     && (n =? d8_inverse (Array2D.get fd nx ny))
  then (Array2D.set up nx ny 1, q ++ [mkGridCell nx ny])
  else (up, q).
Proof.
  unfold_expand_body. simpl.
  destruct (Array2D.inGrid fd _ _); simpl; [|reflexivity].
  destruct (Array2D.get fd _ _ =? NO_FLOW); simpl; [reflexivity|].
  destruct (Array2D.get fd _ _ =? Array2D.noData fd); simpl; [reflexivity|].
  destruct (Array2D.get up _ _ =? Array2D.noData up); simpl; [|reflexivity].
  reflexivity.
Qed.

Lemma nodata_count_nonneg up : 0 <= nodata_count up.
Proof.
  apply Zsum_nonneg. intros c _.
  destruct (Array2D.getc up c =? Array2D.noData up); simpl; lia.
Qed.

Lemma nodata_count_le up :
  nodata_count up <= Z.of_nat (length (Array2D.cells up)).
Proof.
  unfold nodata_count. induction (Array2D.cells up) as [|c l IH]; simpl; [lia|].
  destruct (Array2D.getc up c =? Array2D.noData up); simpl; lia.
Qed.

Lemma nodata_count_mark up c :
  Array2D.ok up → Array2D.inGridc up c = true →
  Array2D.getc up c = Array2D.noData up → Array2D.noData up ≠ 1 →
  nodata_count (Array2D.setc up c 1) = nodata_count up - 1.
Proof.
  intros Hok Hc Hnd Hne. unfold nodata_count.
  rewrite cells_setc, noData_setc.
  rewrite (Zsum_point (λ x, ind (Array2D.getc up x =? Array2D.noData up))
             (λ x, ind (Array2D.getc (Array2D.setc up c 1) x =? Array2D.noData up))
             _ c (NoDup_cells up)).
  - rewrite getc_setc_eq by assumption. rewrite Hnd, Z.eqb_refl.
    destruct (Z.eqb_spec 1 (Array2D.noData up)); [congruence|]. simpl. lia.
  - apply elem_of_cells. exact Hc.
  - intros x Hx Hxc. apply elem_of_cells in Hx.
    rewrite getc_setc_ne by first [assumption | congruence]. reflexivity.
Qed.

Lemma expand_body_measure c up q (n : Z) :
  shape_ok up → FLOWDIR_NO_DATA ≠ 1 →
  shape_ok (fst (expand_body c (up, q) n)) ∧
  Z.of_nat (length (snd (expand_body c (up, q) n)))
  + nodata_count (fst (expand_body c (up, q) n))
  = Z.of_nat (length q) + nodata_count up.
Proof.
  intros Hs Hne. pose proof Hs as (Hok & Hsh & Hnd).
  rewrite expand_body_rule. simpl.
  destruct (Array2D.inGrid fd _ _) eqn:Hin; simpl; [|split; [exact Hs|reflexivity]].
  destruct (_ && _ && _ && _) eqn:Hc; simpl.
  - apply andb_true_iff in Hc as [Hc _]. apply andb_true_iff in Hc as [_ Hc].
    apply Z.eqb_eq in Hc.
    split.
    + split; [apply (ok_setc up (mkGridCell _ _) 1 Hok)|]. split; assumption.
    + rewrite length_app. simpl.
      match goal with
      | |- context [Array2D.set up ?x ?y 1] =>
          change (Array2D.set up x y 1) with (Array2D.setc up (mkGridCell x y) 1)
      end.
      rewrite nodata_count_mark; [lia|exact Hok| |exact Hc|congruence].
      rewrite (inGridc_same_shape up fd _ Hsh). exact Hin.
  - split; [exact Hs|reflexivity].
Qed.

Lemma expand_fold_measure c (l : list Z) : ∀ up q,
  shape_ok up → FLOWDIR_NO_DATA ≠ 1 →
  shape_ok (fst (foldl (expand_body c) (up, q) l)) ∧
  Z.of_nat (length (snd (foldl (expand_body c) (up, q) l)))
  + nodata_count (fst (foldl (expand_body c) (up, q) l))
  = Z.of_nat (length q) + nodata_count up.
Proof.
  induction l as [|n l IH]; intros up q Hs Hne; [auto|].
  change (foldl (expand_body c) (up, q) (n :: l))
    with (foldl (expand_body c) (expand_body c (up, q) n) l).
  destruct (expand_body_measure c up q n Hs Hne) as [Hs' Hm'].
  destruct (expand_body c (up, q) n) as [up' q']. simpl in Hs', Hm'.
  destruct (IH up' q' Hs' Hne) as [Hs'' Hm'']. split; [exact Hs''|lia].
Qed.

Lemma expand_loop_cons (fuel : nat) up c q :
  expand_loop (S fuel) fd (up, c :: q) =
  expand_loop fuel fd (foldl (expand_body c) (up, q) (seqZ 1 8)).
Proof. reflexivity. Qed.

(** The traversal ends: every iteration takes one cell out of the queue,
    and puts one in for every sentinel it overwrites. *)
Lemma expand_loop_terminates (fuel : nat) : ∀ up q,
  shape_ok up → FLOWDIR_NO_DATA ≠ 1 →
  Z.of_nat (length q) + nodata_count up <= Z.of_nat fuel →
  ∃ st, expand_loop fuel fd (up, q) = Some st ∧ shape_ok (fst st).
Proof.
  induction fuel as [|fuel IH]; intros up q Hs Hne Hm.
  - destruct q as [|c rest].
    + exists (up, []). split; [reflexivity|exact Hs].
    + pose proof (nodata_count_nonneg up). simpl in Hm. lia.
  - destruct q as [|c rest].
    + exists (up, []). split; [reflexivity|exact Hs].
    + rewrite expand_loop_cons.
      destruct (expand_fold_measure c (seqZ 1 8) up rest Hs Hne) as [Hs' Hm'].
      destruct (foldl (expand_body c) (up, rest) (seqZ 1 8)) as [up' q'].
      simpl in Hs', Hm'. apply IH; [exact Hs'|exact Hne|].
      simpl length in Hm. lia.
Qed.

Lemma write_cell_shape up x y v up' :
  shape_ok up → write_cell up x y v = Some up' → shape_ok up'.
Proof.
  intros (Hok & Hsh & Hnd). unfold write_cell.
  destruct (Array2D.inGrid up x y); [|discriminate]. intros [= <-].
  split; [apply (ok_setc up (mkGridCell x y) v Hok)|]. split; assumption.
Qed.

Lemma line_body_shape deltay deltaerr (s s' : line_state) x :
  shape_ok (ln_cells s) → line_body deltay deltaerr s x = Some s' →
  shape_ok (ln_cells s').
Proof.
  intros Hs. unfold line_body.
  destruct (write_cell (ln_cells s) x (ln_y s) 2) as [up1|] eqn:H1; [|discriminate].
  simpl. pose proof (write_cell_shape _ _ _ _ _ Hs H1) as Hs1.
  destruct (SFleb _ _).
  - destruct (write_cell up1 (x + 1) (ln_y s) 2) as [up2|] eqn:H2; [|discriminate].
    simpl. intros [= <-]. simpl. exact (write_cell_shape _ _ _ _ _ Hs1 H2).
  - intros [= <-]. exact Hs1.
Qed.

Lemma line_fold_shape deltay deltaerr (l : list Z) : ∀ (s0 : option line_state) s',
  (∀ s, s0 = Some s → shape_ok (ln_cells s)) →
  foldl (λ st x, st ≫= λ s, line_body deltay deltaerr s x) s0 l = Some s' →
  shape_ok (ln_cells s').
Proof.
  induction l as [|x l IH]; intros s0 s' Hs0; simpl.
  - intros ->. apply Hs0. reflexivity.
  - apply IH. intros s Hs. destruct s0 as [s1|]; [|discriminate].
    simpl in Hs. exact (line_body_shape _ _ _ _ _ (Hs0 s1 eq_refl) Hs).
Qed.

Lemma line_phase_shape x0 y0 x1 y1 up ln :
  shape_ok up → line_phase x0 y0 x1 y1 up = Some ln → shape_ok (ln_cells ln).
Proof.
  intros Hs. unfold line_phase.
  destruct (x1 <? x0); apply line_fold_shape; intros s [= <-]; exact Hs.
Qed.

Lemma upslope_init_shape up :
  Array2D.ok fd → shape_ok (upslope_init FLOWDIR_NO_DATA fd up).
Proof.
  intros (Hw & Hh & Hlen). unfold upslope_init, upslope_shape. simpl.
  split; [|split; [split|]; reflexivity].
  unfold Array2D.ok. simpl. rewrite !length_replicate. auto.
Qed.

(** Lines 182-184 leave the sentinel in every cell. *)
Lemma upslope_init_eq up :
  upslope_init FLOWDIR_NO_DATA fd up =
  Array2D.mk (Array2D.width fd) (Array2D.height fd)
    (replicate (Z.to_nat (Array2D.width fd * Array2D.height fd)) FLOWDIR_NO_DATA)
    FLOWDIR_NO_DATA.
Proof.
  unfold upslope_init, Array2D.setNoData, Array2D.setAll, Array2D.resize. simpl.
  rewrite length_replicate. reflexivity.
Qed.

Lemma upslope_init_marks up :
  Array2D.ok fd → marks_ok FLOWDIR_NO_DATA (upslope_init FLOWDIR_NO_DATA fd up).
Proof.
  intros (Hw & Hh & Hlen) c Hc. left. rewrite upslope_init_eq in Hc |- *.
  apply get_replicate; assumption.
Qed.

(** A write of a mark keeps the cells within the sentinel and the marks. *)
Lemma setc_marks up c v :
  shape_ok up → Array2D.inGridc up c = true → v = 1 ∨ v = 2 →
  marks_ok FLOWDIR_NO_DATA up → marks_ok FLOWDIR_NO_DATA (Array2D.setc up c v).
Proof.
  intros (Hok & _ & _) Hc Hv Hm c' Hc'. rewrite inGridc_setc in Hc'.
  destruct (decide (c = c')) as [<-|Hne].
  - rewrite getc_setc_eq by assumption. tauto.
  - rewrite getc_setc_ne by assumption. exact (Hm c' Hc').
Qed.

Lemma write_cell_marks up x y up' :
  shape_ok up → marks_ok FLOWDIR_NO_DATA up →
  write_cell up x y 2 = Some up' → marks_ok FLOWDIR_NO_DATA up'.
Proof.
  intros Hs Hm. unfold write_cell.
  destruct (Array2D.inGrid up x y) eqn:Hin; [|discriminate]. intros [= <-].
  apply (setc_marks up (mkGridCell x y) 2 Hs Hin); [right; reflexivity|exact Hm].
Qed.

Lemma line_body_marks deltay deltaerr (s s' : line_state) x :
  shape_ok (ln_cells s) → marks_ok FLOWDIR_NO_DATA (ln_cells s) →
  line_body deltay deltaerr s x = Some s' →
  marks_ok FLOWDIR_NO_DATA (ln_cells s').
Proof.
  intros Hs Hm. unfold line_body.
  destruct (write_cell (ln_cells s) x (ln_y s) 2) as [up1|] eqn:H1; [|discriminate].
  simpl. pose proof (write_cell_shape _ _ _ _ _ Hs H1) as Hs1.
  pose proof (write_cell_marks _ _ _ _ Hs Hm H1) as Hm1.
  destruct (SFleb _ _).
  - destruct (write_cell up1 (x + 1) (ln_y s) 2) as [up2|] eqn:H2; [|discriminate].
    simpl. intros [= <-]. simpl. exact (write_cell_marks _ _ _ _ Hs1 Hm1 H2).
  - intros [= <-]. exact Hm1.
Qed.

Lemma line_fold_marks deltay deltaerr (l : list Z) : ∀ (s0 : option line_state) s',
  (∀ s, s0 = Some s →
        shape_ok (ln_cells s) ∧ marks_ok FLOWDIR_NO_DATA (ln_cells s)) →
  foldl (λ st x, st ≫= λ s, line_body deltay deltaerr s x) s0 l = Some s' →
  marks_ok FLOWDIR_NO_DATA (ln_cells s').
Proof.
  induction l as [|x l IH]; intros s0 s' Hs0; simpl.
  - intros ->. apply Hs0. reflexivity.
  - apply IH. intros s Hs. destruct s0 as [s1|]; [|discriminate].
    simpl in Hs. destruct (Hs0 s1 eq_refl) as [Hsh Hm]. split.
    + exact (line_body_shape _ _ _ _ _ Hsh Hs).
    + exact (line_body_marks _ _ _ _ _ Hsh Hm Hs).
Qed.

Lemma line_phase_marks x0 y0 x1 y1 up ln :
  shape_ok up → marks_ok FLOWDIR_NO_DATA up →
  line_phase x0 y0 x1 y1 up = Some ln → marks_ok FLOWDIR_NO_DATA (ln_cells ln).
Proof.
  intros Hs Hm. unfold line_phase.
  destruct (x1 <? x0); apply line_fold_marks; intros s [= <-]; split; assumption.
Qed.

Lemma expand_fold_marks c (l : list Z) : ∀ up q,
  shape_ok up → FLOWDIR_NO_DATA ≠ 1 → marks_ok FLOWDIR_NO_DATA up →
  marks_ok FLOWDIR_NO_DATA (fst (foldl (expand_body c) (up, q) l)).
Proof.
  induction l as [|n l IH]; intros up q Hs Hne Hm; [exact Hm|].
  change (foldl (expand_body c) (up, q) (n :: l))
    with (foldl (expand_body c) (expand_body c (up, q) n) l).
  destruct (expand_body_measure c up q n Hs Hne) as [Hs' _].
  assert (Hm' : marks_ok FLOWDIR_NO_DATA (fst (expand_body c (up, q) n))).
  { rewrite expand_body_rule. cbv zeta.
    destruct (_ && _ && _ && _ && _) eqn:Hc; cbn [fst]; [|exact Hm].
    do 4 (apply andb_true_iff in Hc as [Hc _]).
    apply (setc_marks up (mkGridCell _ _) 1 Hs); [|left; reflexivity|exact Hm].
    destruct Hs as (_ & Hsh & _).
    rewrite (inGridc_same_shape up fd _ Hsh). exact Hc. }
  destruct (expand_body c (up, q) n) as [up' q']. simpl in Hs', Hm'.
  exact (IH up' q' Hs' Hne Hm').
Qed.

Lemma expand_loop_marks (fuel : nat) : ∀ up q st,
  shape_ok up → FLOWDIR_NO_DATA ≠ 1 → marks_ok FLOWDIR_NO_DATA up →
  expand_loop fuel fd (up, q) = Some st → marks_ok FLOWDIR_NO_DATA (fst st).
Proof.
  induction fuel as [|fuel IH]; intros up q st Hs Hne Hm.
  - destruct q as [|c rest]; [|discriminate]. intros [= <-]. exact Hm.
  - destruct q as [|c rest]; [intros [= <-]; exact Hm|].
    rewrite expand_loop_cons.
    destruct (expand_fold_measure c (seqZ 1 8) up rest Hs Hne) as [Hs' _].
    pose proof (expand_fold_marks c (seqZ 1 8) up rest Hs Hne Hm) as Hm'.
    destruct (foldl (expand_body c) (up, rest) (seqZ 1 8)) as [up' q'].
    simpl in Hs', Hm'. exact (IH up' q' st Hs' Hne Hm').
Qed.

End upslope_facts.

(** C7 as the source has it: [d8_upslope_cells] does not check its
    endpoints and has no failure path.  Every call first resets
    [upslope_cells] to the shape of the directions, with the sentinel
    [FLOWDIR_NO_DATA] in every cell; then either every write of the line
    march falls in the grid and the call returns, with [upslope_cells] in
    the shape of the directions, the sentinel [FLOWDIR_NO_DATA], and in
    every cell the sentinel or one of the marks 1 and 2; or the march
    writes outside the grid, unchecked.  It never throws. *)
Theorem d8_upslope_cells_never_fails
    NO_FLOW dx dy d8_inverse FLOWDIR_NO_DATA x0 y0 x1 y1 fd up :
  Array2D.ok fd → FLOWDIR_NO_DATA ≠ 1 →
  upslope_init FLOWDIR_NO_DATA fd up =
    Array2D.mk (Array2D.width fd) (Array2D.height fd)
      (replicate (Z.to_nat (Array2D.width fd * Array2D.height fd))
                 FLOWDIR_NO_DATA)
      FLOWDIR_NO_DATA ∧
  ∃ o, d8_upslope_cells NO_FLOW dx dy d8_inverse FLOWDIR_NO_DATA
         x0 y0 x1 y1 fd up = Some o ∧
       match o with
       | Returned out =>
           is_Some (line_phase x0 y0 x1 y1 (upslope_init FLOWDIR_NO_DATA fd up)) ∧
           upslope_shape FLOWDIR_NO_DATA fd out ∧
           marks_ok FLOWDIR_NO_DATA out
       | Threw _ _ => False
       | Undefined =>
           line_phase x0 y0 x1 y1 (upslope_init FLOWDIR_NO_DATA fd up) = None
       end.
Proof.
  intros Hok Hne. split; [apply upslope_init_eq|]. unfold d8_upslope_cells.
  pose proof (upslope_init_shape FLOWDIR_NO_DATA fd up Hok) as Hs0.
  pose proof (upslope_init_marks FLOWDIR_NO_DATA fd up Hok) as Hm0.
  destruct (line_phase x0 y0 x1 y1 (upslope_init FLOWDIR_NO_DATA fd up))
    as [ln|] eqn:Hline.
  - pose proof (line_phase_shape FLOWDIR_NO_DATA fd _ _ _ _ _ _ Hs0 Hline) as Hs.
    pose proof (line_phase_marks NO_FLOW dx dy d8_inverse FLOWDIR_NO_DATA fd
                  _ _ _ _ _ _ Hs0 Hm0 Hline) as Hm.
    destruct (expand_loop_terminates NO_FLOW dx dy d8_inverse FLOWDIR_NO_DATA fd
                (length (ln_expansion ln) + length (Array2D.cells fd))
                (ln_cells ln) (ln_expansion ln) Hs Hne)
      as (st & Hrun & Hst).
    + pose proof (nodata_count_le (ln_cells ln)) as Hle.
      destruct Hs as (_ & [Hw Hh] & _).
      unfold Array2D.cells in Hle |- *. rewrite Hw, Hh in Hle. lia.
    + rewrite Hrun. simpl. eexists. split; [reflexivity|].
      split; [eexists; reflexivity|]. split; [exact Hst|].
      exact (expand_loop_marks NO_FLOW dx dy d8_inverse FLOWDIR_NO_DATA fd
               _ _ _ st Hs Hne Hm Hrun).
  - eexists. split; reflexivity.
Qed.

Lemma d8_upslope_cells_never_fails_witness :
  upslope_init Example.FLOWDIR_NO_DATA Example.east10 Example.empty_area =
    Array2D.mk 10 10 (replicate 100 Example.FLOWDIR_NO_DATA)
               Example.FLOWDIR_NO_DATA ∧
  ∃ o, d8_upslope_cells Example.NO_FLOW Example.dx Example.dy Example.d8_inverse
         Example.FLOWDIR_NO_DATA 0 0 1 50 Example.east10 Example.empty_area
       = Some o ∧
       match o with
       | Returned out =>
           is_Some (line_phase 0 0 1 50
                      (upslope_init Example.FLOWDIR_NO_DATA Example.east10
                                    Example.empty_area)) ∧
           upslope_shape Example.FLOWDIR_NO_DATA Example.east10 out ∧
           marks_ok Example.FLOWDIR_NO_DATA out
       | Threw _ _ => False
       | Undefined =>
           line_phase 0 0 1 50
             (upslope_init Example.FLOWDIR_NO_DATA Example.east10
                           Example.empty_area) = None
       end.
Proof.
  apply (d8_upslope_cells_never_fails
           Example.NO_FLOW Example.dx Example.dy Example.d8_inverse
           Example.FLOWDIR_NO_DATA 0 0 1 50 Example.east10 Example.empty_area).
  - unfold Array2D.ok. simpl. split; [lia|]. split; [lia|reflexivity].
  - discriminate.
Defined.

(** C7 as stated fails: the endpoint (1,50) lies outside the 10x10 grid,
    and the call returns normally with cells of [upslope_cells] marked. *)
Lemma d8_upslope_cells_endpoint_outside :
  Array2D.inGrid Example.east10 1 50 = false ∧
  ∃ out,
    d8_upslope_cells Example.NO_FLOW Example.dx Example.dy Example.d8_inverse
      Example.FLOWDIR_NO_DATA 0 0 1 50 Example.east10 Example.empty_area
    = Some (Returned out) ∧
    Array2D.getc out (mkGridCell 0 0) = 2 ∧
    Array2D.getc out (mkGridCell 1 1) = 2 ∧
    Array2D.getc out (mkGridCell 0 1) = 1.
Proof.
  split; [reflexivity|]. eexists. split; [vm_compute; reflexivity|].
  split; [reflexivity|]. split; reflexivity.
Qed.

(** C6: on the 10x10 raster in which every cell flows east, the trace of
    the segment x=5, y=0..9 marks only (5,0) and (6,0) with 2 and the cells
    west of them in row 0 with 1; it is not the raster of section 8 of the
    specification, in which column 5 holds 2 and columns 0..4 hold 1. *)
Theorem d8_upslope_cells_vertical_segment :
  d8_upslope_cells Example.NO_FLOW Example.dx Example.dy Example.d8_inverse
    Example.FLOWDIR_NO_DATA 5 0 5 9 Example.east10 Example.empty_area
  = Some (Returned Example.east10_traced) ∧
  Example.east10_traced ≠ Example.east10_expected ∧
  Array2D.getc Example.east10_traced (mkGridCell 5 1) = Example.FLOWDIR_NO_DATA ∧
  Array2D.getc Example.east10_traced (mkGridCell 6 0) = 2 ∧
  Array2D.getc Example.east10_traced (mkGridCell 4 1) = Example.FLOWDIR_NO_DATA.
Proof.
  split; [vm_compute; reflexivity|]. split; [discriminate|].
  split; [reflexivity|]. split; reflexivity.
Qed.

(** ** Terrain aspect *)

Lemma f64_sub_diag (s : spec_float) :
  SFis_finite s = true → f64_sub s s = S754_zero false.
Proof.
  destruct s as [b|b| |b m e]; try discriminate; intros _.
  - destruct b; reflexivity.
  - unfold f64_sub, SFsub. rewrite Z.sub_diag. reflexivity.
Qed.

Lemma f64_zero_over (L : spec_float) :
  SFis_positive L = true →
  f64_div (f64_div (S754_zero false) (f64_of_int 8)) L = S754_zero false.
Proof. destruct L as [b|b| |[|] m e]; try discriminate. reflexivity. Qed.

(** On a flat neighbourhood both gradients are the zero of positive sign. *)
Lemma horn_flat (Lx Ly v : spec_float) :
  SFis_positive Lx = true → SFis_positive Ly = true →
  SFis_finite (f64_add (f64_add v (f64_mul (f64_of_int 2) v)) v) = true →
  horn_dzdx Lx (mkSetup v v v v v v v v v) = S754_zero false ∧
  horn_dzdy Ly (mkSetup v v v v v v v v v) = S754_zero false.
Proof.
  intros Hx Hy Hfin. unfold horn_dzdx, horn_dzdy. cbn [tsv_a tsv_b tsv_c tsv_d tsv_f tsv_g tsv_h tsv_i].
  rewrite (f64_sub_diag _ Hfin). split; apply f64_zero_over; assumption.
Qed.


(** Were [atan2(+0, -0)] a zero, of either sign, the arithmetic of the
    function would give 90 - 0 = 90 on a flat neighbourhood: no value of
    the angle in the range of [atan2] leads to the aspect 0. *)
Lemma Terrain_Aspect_flat_zero_angle
    (atan2 : spec_float → spec_float → spec_float)
    (cellLengthX cellLengthY : spec_float)
    (elevations : Array2D.t spec_float) (x y : Z) (zscale : float32) (s : bool) :
  atan2 (S754_zero false) (S754_zero true) = S754_zero s →
  SFis_positive cellLengthX = true → SFis_positive cellLengthY = true →
  flat_neighbourhood elevations x y zscale →
  Terrain_Aspect atan2 cellLengthX cellLengthY elevations x y zscale
  = f64_of_int 90.
Proof.
  intros Hatan Hx Hy (v & Hts & Hfin). unfold Terrain_Aspect. cbv zeta.
  rewrite Hts.
  destruct (horn_flat cellLengthX cellLengthY v Hx Hy Hfin) as [Hdx Hdy].
  rewrite Hdx, Hdy.
  change (SFopp (S754_zero false)) with (S754_zero true).
  rewrite Hatan. destruct s; vm_compute; reflexivity.
Qed.



(** ** Rasters with loops *)

Section upstream_facts.

Variable NO_FLOW : Z.
Variables dx dy : Z → Z.
Variable fd : Array2D.t Z.

Local Abbreviation flow_to := (flow_to NO_FLOW dx dy fd).
Local Abbreviation walk := (walk NO_FLOW dx dy fd).
Local Abbreviation on_flow_path := (on_flow_path NO_FLOW dx dy fd).
Local Abbreviation upslope_count := (upslope_count NO_FLOW dx dy fd).
Local Abbreviation upstream_acyclic := (upstream_acyclic NO_FLOW dx dy fd).

Implicit Types (c n p q m : GridCell).

Lemma acyclic_upstream c : acyclic NO_FLOW dx dy fd → upstream_acyclic c.
Proof.
  intros Hac m j k _ Hk Hcyc. apply (Hac m k); [|exact Hk|exact Hcyc].
  apply is_data_inGrid. exact (walk_data_start NO_FLOW dx dy fd k m m Hk Hcyc).
Qed.

Lemma upstream_acyclic_pred p c :
  upstream_acyclic c → flow_to p = Some c → upstream_acyclic p.
Proof.
  intros Hup Hp m j k Hj. apply (Hup m (S j)).
  rewrite walk_S_r, Hj. exact Hp.
Qed.

Lemma walk_suffix i k c' m c :
  (i <= k)%nat → walk i c' = Some m → walk k c' = Some c →
  walk (k - i) m = Some c.
Proof.
  intros Hik Hi Hk. replace k with (i + (k - i))%nat in Hk by lia.
  rewrite walk_add, Hi in Hk. exact Hk.
Qed.

Lemma walk_no_repeat_up i j k c' m c :
  upstream_acyclic c → (i < j)%nat → (j <= k)%nat →
  walk i c' = Some m → walk j c' = Some m → walk k c' = Some c → False.
Proof.
  intros Hup Hij Hjk Hi Hj Hk.
  apply (Hup m (k - i)%nat (j - i)%nat).
  - apply (walk_suffix i k c'); [lia|assumption..].
  - lia.
  - apply (walk_suffix i j c'); [lia|assumption..].
Qed.

Lemma walk_bound_up k c' c :
  upstream_acyclic c → is_data fd c' = true →
  walk k c' = Some c → (k < length (Array2D.cells fd))%nat.
Proof.
  intros Hup Hc' Hk.
  pose (f := λ j : nat, default c' (walk j c')).
  assert (Hf : ∀ j, (j <= k)%nat → walk j c' = Some (f j)).
  { intros j Hj. destruct (walk_Some_prefix NO_FLOW dx dy fd j k c' c Hj Hk) as [m Hm].
    unfold f. rewrite Hm. reflexivity. }
  assert (Hnd : NoDup (f <$> seq 0 (S k))).
  { apply NoDup_fmap_2_strong; [|apply NoDup_seq].
    intros i j Hi Hj Heq.
    apply elem_of_seq in Hi, Hj.
    destruct (Nat.lt_trichotomy i j) as [Hlt|[Heq'|Hlt]]; [|exact Heq'|]; exfalso.
    - apply (walk_no_repeat_up i j k c' (f i) c Hup Hlt); [lia|apply Hf; lia| |exact Hk].
      rewrite Heq. apply Hf. lia.
    - apply (walk_no_repeat_up j i k c' (f j) c Hup Hlt); [lia|apply Hf; lia| |exact Hk].
      rewrite <- Heq. apply Hf. lia. }
  assert (Hsub : ∀ x, x ∈ f <$> seq 0 (S k) → x ∈ Array2D.cells fd).
  { intros x Hx. apply list_elem_of_fmap in Hx as (j & -> & Hj).
    apply elem_of_seq in Hj. apply is_data_cells.
    apply (walk_data_end NO_FLOW dx dy fd j c' _ Hc'). apply Hf. lia. }
  pose proof (submseteq_length _ _ (NoDup_submseteq _ _ Hnd Hsub)) as Hlen.
  rewrite length_fmap, length_seq in Hlen. lia.
Qed.

Lemma on_flow_path_iff_up c' c :
  upstream_acyclic c → is_data fd c' = true →
  on_flow_path c' c = true ↔ ∃ k, walk k c' = Some c.
Proof.
  intros Hup Hc'. unfold_on_flow_path. rewrite path_hits_spec. split.
  - intros (k & _ & Hk). eauto.
  - intros (k & Hk). exists k. split; [|exact Hk].
    pose proof (walk_bound_up k c' c Hup Hc' Hk). lia.
Qed.

(** Above a loop-free cell [c], a cell reaches [c] either because it is
    [c] or through exactly one of the cells that flow into [c]. *)
Lemma on_flow_path_step_up c' c :
  upstream_acyclic c → is_data fd c' = true → is_data fd c = true →
  ind (on_flow_path c' c) =
  ind (bool_decide (c' = c))
  + Zsum (λ p, ind (bool_decide (flow_to p = Some c) && on_flow_path c' p))
         (Array2D.cells fd).
Proof.
  intros Hup Hc' Hc.
  assert (Hvia : ∀ p j, flow_to p = Some c → walk j c' = Some p →
                        walk (S j) c' = Some c).
  { intros p j Hp Hj. rewrite walk_S_r, Hj. exact Hp. }
  assert (Hpath : ∀ p, flow_to p = Some c → on_flow_path c' p = true →
                       ∃ j, walk j c' = Some p).
  { intros p Hp Hr.
    apply (on_flow_path_iff_up c' p (upstream_acyclic_pred p c Hup Hp) Hc'). exact Hr. }
  destruct (decide (c' = c)) as [->|Hne].
  - rewrite bool_decide_eq_true_2 by reflexivity.
    assert (on_flow_path c c = true) as ->.
    { apply on_flow_path_iff_up; [assumption..|]. exists 0%nat. reflexivity. }
    rewrite Zsum_zero; [reflexivity|].
    intros p _. destruct (bool_decide (flow_to p = Some c)) eqn:Hp; [|reflexivity].
    destruct (on_flow_path c p) eqn:Hr; [|reflexivity].
    exfalso. apply bool_decide_eq_true in Hp.
    destruct (Hpath p Hp Hr) as (j & Hj).
    apply (Hup c 0%nat (S j)); [reflexivity|lia|].
    exact (Hvia p j Hp Hj).
  - rewrite (bool_decide_eq_false_2 _ Hne).
    destruct (on_flow_path c' c) eqn:Hr.
    + apply on_flow_path_iff_up in Hr as (k & Hk); [|assumption..].
      destruct k as [|k]; [simpl in Hk; congruence|].
      pose proof Hk as Hk'. rewrite walk_S_r in Hk'.
      destruct (walk k c') as [p0|] eqn:Hp0; [|discriminate]. simpl in Hk'.
      symmetry. change (ind true) with (0 + 1). f_equal.
      apply (Zsum_ind_one _ _ p0); [apply NoDup_cells| | |].
      * apply is_data_cells. apply flow_to_data in Hk'. tauto.
      * rewrite bool_decide_eq_true_2 by exact Hk'. simpl.
        apply on_flow_path_iff_up; [|assumption|eauto].
        exact (upstream_acyclic_pred p0 c Hup Hk').
      * intros p _ Hpne.
        destruct (bool_decide (flow_to p = Some c)) eqn:Hp; [|reflexivity].
        destruct (on_flow_path c' p) eqn:Hrp; [|reflexivity].
        exfalso. apply bool_decide_eq_true in Hp.
        destruct (Hpath p Hp Hrp) as (j & Hj).
        pose proof (Hvia p j Hp Hj) as Hj'.
        destruct (Nat.lt_trichotomy j k) as [Hlt|[->|Hlt]].
        -- apply (walk_no_repeat_up (S j) (S k) (S k) c' c c Hup); [lia|lia|assumption..].
        -- congruence.
        -- apply (walk_no_repeat_up (S k) (S j) (S j) c' c c Hup); [lia|lia|assumption..].
    + rewrite Zsum_zero; [reflexivity|].
      intros p _. destruct (bool_decide (flow_to p = Some c)) eqn:Hp; [|reflexivity].
      destruct (on_flow_path c' p) eqn:Hrp; [|reflexivity].
      exfalso. apply bool_decide_eq_true in Hp.
      destruct (Hpath p Hp Hrp) as (j & Hj).
      assert (on_flow_path c' c = true); [|congruence].
      apply on_flow_path_iff_up; [assumption..|]. exists (S j). exact (Hvia p j Hp Hj).
Qed.

Lemma upslope_count_step_up c :
  upstream_acyclic c → is_data fd c = true →
  upslope_count c =
  1 + Zsum (λ p, if bool_decide (flow_to p = Some c) then upslope_count p else 0)
           (Array2D.cells fd).
Proof.
  intros Hup Hc. rewrite upslope_count_sum.
  rewrite (Zsum_ext _
    (λ c', ind (bool_decide (c' = c))
           + Zsum (λ p, ind (is_data fd c' &&
                             (bool_decide (flow_to p = Some c) && on_flow_path c' p)))
                  (Array2D.cells fd))).
  - rewrite Zsum_plus. f_equal.
    + apply (Zsum_ind_one (λ c', bool_decide (c' = c)) _ c).
      * apply NoDup_cells.
      * apply is_data_cells, Hc.
      * apply bool_decide_eq_true_2. reflexivity.
      * intros x _ Hx. apply bool_decide_eq_false_2. exact Hx.
    + rewrite Zsum_swap. apply Zsum_ext. intros p _.
      rewrite upslope_count_sum, Zsum_if. apply Zsum_ext. intros c' _.
      destruct (bool_decide (flow_to p = Some c)); [reflexivity|].
      rewrite andb_false_r. reflexivity.
  - intros c' _. destruct (is_data fd c') eqn:Hc'; simpl.
    + apply on_flow_path_step_up; assumption.
    + rewrite bool_decide_eq_false_2 by congruence.
      rewrite Zsum_zero; reflexivity.
Qed.

Lemma upslope_count_le c : upslope_count c <= num_data_cells fd.
Proof.
  unfold_upslope_count. unfold_num_data_cells.
  apply inj_le. induction (Array2D.cells fd) as [|x l IH]; [reflexivity|].
  rewrite !filter_cons.
  destruct (decide (is_data fd x = true ∧ on_flow_path x c = true)) as [[Hx _]|Hn].
  - rewrite decide_True by exact Hx. simpl. lia.
  - destruct (decide (is_data fd x = true)); simpl; lia.
Qed.

End upstream_facts.
Section processed_facts.

Variable NO_FLOW : Z.
Variables dx dy : Z → Z.
Variable fd : Array2D.t Z.

Local Abbreviation flow_to := (flow_to NO_FLOW dx dy fd).
Local Abbreviation walk := (walk NO_FLOW dx dy fd).
Local Abbreviation upslope_count := (upslope_count NO_FLOW dx dy fd).
Local Abbreviation upstream_acyclic := (upstream_acyclic NO_FLOW dx dy fd).
Local Abbreviation dep_inv := (dep_inv NO_FLOW dx dy fd).
Local Abbreviation area_inv := (area_inv NO_FLOW dx dy fd).

Implicit Types (c n p q m : GridCell) (st : drain_state).

(** Every cell that reaches a processed cell was processed before it. *)
Lemma visited_upstream st j : ∀ i c m,
  dep_inv st → ds_visited st !! i = Some c → walk (S j) m = Some c →
  ∃ i', (i' < i)%nat ∧ ds_visited st !! i' = Some m.
Proof.
  induction j as [|j IH]; intros i c m Hdep Hi Hw.
  - simpl in Hw. destruct (flow_to m) as [n|] eqn:Hm; [|discriminate].
    simpl in Hw. injection Hw as ->.
    exact (di_order _ _ _ _ _ Hdep i c m Hi Hm).
  - change (walk (S (S j)) m) with (flow_to m ≫= walk (S j)) in Hw.
    destruct (flow_to m) as [n|] eqn:Hm; [|discriminate]. simpl in Hw.
    destruct (IH i c n Hdep Hi Hw) as (i1 & Hi1 & Hn).
    destruct (di_order _ _ _ _ _ Hdep i1 n m Hn Hm) as (i2 & Hi2 & Hm2).
    exists i2. split; [lia|exact Hm2].
Qed.

Lemma visited_upstream_acyclic st c :
  dep_inv st → c ∈ ds_visited st → upstream_acyclic c.
Proof.
  intros Hdep Hc m j k Hj Hk Hcyc.
  apply list_elem_of_lookup in Hc as [i Hi].
  assert (Hm : ∃ im, ds_visited st !! im = Some m).
  { destruct j as [|j].
    - simpl in Hj. injection Hj as ->. eauto.
    - destruct (visited_upstream st j i c m Hdep Hi Hj) as (i' & _ & Hi'). eauto. }
  destruct Hm as [im Him].
  destruct k as [|k]; [lia|].
  destruct (visited_upstream st k im m m Hdep Him Hcyc) as (i' & Hlt & Hi').
  pose proof (di_nodup _ _ _ _ _ Hdep) as Hnd.
  apply NoDup_app in Hnd as (Hnd & _ & _).
  pose proof (NoDup_lookup _ _ _ _ Hnd Him Hi'). lia.
Qed.

(** When the queue is empty, the processed cells are the data cells with
    no loop upstream. *)
Lemma processed_iff st c :
  dep_inv st → ds_sources st = [] →
  c ∈ ds_visited st ↔ is_data fd c = true ∧ upstream_acyclic c.
Proof.
  intros Hdep Hsrc. split.
  - intros Hc. split.
    + apply (di_data _ _ _ _ _ Hdep). apply elem_of_app. left. exact Hc.
    + exact (visited_upstream_acyclic st c Hdep Hc).
  - intros [Hc Hup].
    destruct (decide (c ∈ ds_visited st)) as [Hin|Hout]; [exact Hin|exfalso].
    destruct (unvisited_chain NO_FLOW dx dy fd st c (length (Array2D.cells fd))
                Hdep Hsrc Hc Hout) as (q & Hq & _ & Hw).
    pose proof (walk_bound_up NO_FLOW dx dy fd _ q c Hup Hq Hw). lia.
Qed.

(** A processed cell holds its upslope count. *)
Lemma area_of_processed st :
  dep_inv st → area_inv st →
  ∀ c, c ∈ ds_visited st → Array2D.getc (ds_area st) c = upslope_count c.
Proof.
  intros Hdep Hinv.
  assert (Hidx : ∀ i c, ds_visited st !! i = Some c →
                        Array2D.getc (ds_area st) c = upslope_count c).
  { induction i as [i IH] using lt_wf_ind. intros c Hi.
    assert (HcP : c ∈ ds_visited st) by (apply list_elem_of_lookup; eauto).
    assert (Hc : is_data fd c = true).
    { apply (di_data _ _ _ _ _ Hdep). apply elem_of_app. left. exact HcP. }
    rewrite (ai_rec _ _ _ _ _ Hinv c Hc).
    rewrite (upslope_count_step_up NO_FLOW dx dy fd c
               (visited_upstream_acyclic st c Hdep HcP) Hc).
    rewrite (bool_decide_eq_true_2 _ HcP). f_equal.
    apply Zsum_ext. intros p _. unfold_inflow_term.
    destruct (bool_decide (flow_to p = Some c)) eqn:Hp; [|reflexivity].
    apply bool_decide_eq_true in Hp.
    destruct (di_order _ _ _ _ _ Hdep i c p Hi Hp) as (j & Hj & Hjp).
    rewrite bool_decide_eq_true_2 by (apply list_elem_of_lookup; eauto).
    simpl. exact (IH j Hj p Hjp). }
  intros c Hc. apply list_elem_of_lookup in Hc as [i Hi]. exact (Hidx i c Hi).
Qed.

(** A data cell that is not processed holds what the processed cells
    flowing into it have passed on. *)
Lemma area_of_unprocessed st c :
  dep_inv st → area_inv st → is_data fd c = true → c ∉ ds_visited st →
  Array2D.getc (ds_area st) c =
  processed_inflow NO_FLOW dx dy fd (ds_visited st) c.
Proof.
  intros Hdep Hinv Hc Hout.
  rewrite (ai_rec _ _ _ _ _ Hinv c Hc), (bool_decide_eq_false_2 _ Hout).
  unfold processed_inflow. simpl. apply Zsum_ext. intros p _. unfold_inflow_term.
  destruct (bool_decide (flow_to p = Some c)); [|reflexivity]. simpl.
  destruct (decide (p ∈ ds_visited st)) as [Hp|Hp].
  - rewrite (bool_decide_eq_true_2 _ Hp). exact (area_of_processed st Hdep Hinv p Hp).
  - rewrite (bool_decide_eq_false_2 _ Hp). reflexivity.
Qed.

(** The processed cells are the data cells whose dependency value is 0. *)
Lemma processed_dependency st c :
  dep_inv st → ds_sources st = [] → is_data fd c = true →
  Array2D.getc (ds_dependency st) c = 0 ↔ c ∈ ds_visited st.
Proof.
  intros Hdep Hsrc Hc.
  rewrite <- (di_zero _ _ _ _ _ Hdep c Hc), Hsrc, app_nil_r. reflexivity.
Qed.

(** No data cell holds more than the number of data cells. *)
Lemma area_bounds st c :
  dep_inv st → area_inv st → is_data fd c = true →
  0 <= Array2D.getc (ds_area st) c <= num_data_cells fd.
Proof.
  intros Hdep Hinv Hc. split; [exact (ai_nonneg _ _ _ _ _ Hinv c Hc)|].
  destruct (decide (c ∈ ds_visited st)) as [Hin|Hout].
  - rewrite (area_of_processed st Hdep Hinv c Hin). apply upslope_count_le.
  - rewrite <- (ai_mass _ _ _ _ _ Hinv).
    pose proof (Zsum_term_le (mass_term NO_FLOW dx dy fd st) (Array2D.cells fd) c) as Hle.
    assert (Hm : mass_term NO_FLOW dx dy fd st c = Array2D.getc (ds_area st) c + 1).
    { unfold_mass_term. rewrite Hc, (bool_decide_eq_false_2 _ Hout). reflexivity. }
    rewrite Hm in Hle. 
    assert (Array2D.getc (ds_area st) c + 1
            <= Zsum (mass_term NO_FLOW dx dy fd st) (Array2D.cells fd)); [|lia].
    apply Hle.
    + intros x _. apply (mass_term_nonneg NO_FLOW dx dy fd). exact Hinv.
    + apply is_data_cells. exact Hc.
Qed.

End processed_facts.
Lemma visited_nodup NO_FLOW dx dy fd st :
  dep_inv NO_FLOW dx dy fd st → NoDup (ds_visited st).
Proof.
  intros Hdep. pose proof (di_nodup _ _ _ _ _ Hdep) as Hnd.
  apply NoDup_app in Hnd. tauto.
Qed.

Lemma visited_data NO_FLOW dx dy fd st c :
  dep_inv NO_FLOW dx dy fd st → c ∈ ds_visited st → is_data fd c = true.
Proof.
  intros Hdep Hc. apply (di_data _ _ _ _ _ Hdep). apply elem_of_app. left. exact Hc.
Qed.

(** The processed cells, counted over the raster. *)
Lemma visited_count NO_FLOW dx dy fd st :
  dep_inv NO_FLOW dx dy fd st →
  Z.of_nat (length (ds_visited st)) =
  Zsum (λ c, ind (bool_decide (c ∈ ds_visited st))) (Array2D.cells fd).
Proof.
  intros Hdep. rewrite Zsum_filter. f_equal. apply Permutation_length.
  apply NoDup_Permutation.
  - exact (visited_nodup _ _ _ _ _ Hdep).
  - apply NoDup_filter, NoDup_cells.
  - intros c. rewrite list_elem_of_filter. split; [|tauto].
    intros Hc. split; [exact Hc|].
    apply is_data_cells. exact (visited_data _ _ _ _ _ c Hdep Hc).
Qed.

(** The data cells left with a positive dependency value are the ones that
    were not processed. *)
Lemma positive_dependency_count NO_FLOW dx dy fd st :
  dep_inv NO_FLOW dx dy fd st → ds_sources st = [] →
  positive_dependency_cells fd (ds_dependency st) =
  num_data_cells fd - Z.of_nat (length (ds_visited st)).
Proof.
  intros Hdep Hsrc. unfold positive_dependency_cells. unfold_num_data_cells.
  rewrite (visited_count _ _ _ _ _ Hdep), <- !Zsum_filter.
  assert (∀ a b c : Z, a = b + c → b = a - c) as Hsub by (intros; lia).
  apply Hsub. rewrite <- Zsum_plus. apply Zsum_ext. intros c Hc.
  destruct (is_data fd c) eqn:Hd.
  - rewrite (bool_decide_eq_true_2 (true = true)) by reflexivity.
    pose proof (processed_dependency NO_FLOW dx dy fd st c Hdep Hsrc Hd) as Hz.
    pose proof (di_range _ _ _ _ _ Hdep c (is_data_inGrid _ _ Hd)) as Hr.
    destruct (decide (c ∈ ds_visited st)) as [Hin|Hout].
    + rewrite (bool_decide_eq_true_2 _ Hin).
      rewrite bool_decide_eq_false_2; [reflexivity|].
      intros [_ Hpos]. apply Hz in Hin. lia.
    + rewrite (bool_decide_eq_false_2 _ Hout).
      rewrite bool_decide_eq_true_2; [reflexivity|].
      split; [reflexivity|].
      destruct (decide (Array2D.getc (ds_dependency st) c = 0)) as [H0|H0]; [|lia].
      apply Hz in H0. contradiction.
  - rewrite (bool_decide_eq_false_2 (false = true)) by discriminate.
    rewrite bool_decide_eq_false_2 by (intros [? _]; discriminate).
    rewrite bool_decide_eq_false_2; [reflexivity|].
    intros Hin. pose proof (visited_data _ _ _ _ _ c Hdep Hin). congruence.
Qed.

(** The final state of [d8_flow_accum], whatever the raster. *)
Lemma d8_flow_accum_final_dep NO_FLOW dx dy castU sched fd area0 :
  flowdirs_ok NO_FLOW fd → lossless NO_FLOW dx dy sched fd = true →
  ∃ st, d8_flow_accum NO_FLOW dx dy castU sched fd area0 =
          Some (mkFlowAccum (ds_area st) (ds_dependency st) (ds_visited st)
                            (count_loops (ds_dependency st))) ∧
        dep_inv NO_FLOW dx dy fd st ∧ ds_sources st = [].
Proof.
  intros Hfd Hll. rewrite d8_flow_accum_fifo.
  destruct (drain_run_dep NO_FLOW dx dy castU fifo sched fd area0 Hfd fifo_ok Hll)
    as (st & Hrun & Hinv & Hsrc).
  exists st. unfold d8_flow_accum_with. rewrite Hrun. auto.
Qed.

Lemma d8_flow_accum_final NO_FLOW dx dy castU sched fd area0 :
  flowdirs_ok NO_FLOW fd → U_exact castU fd →
  lossless NO_FLOW dx dy sched fd = true →
  ∃ st, d8_flow_accum NO_FLOW dx dy castU sched fd area0 =
          Some (mkFlowAccum (ds_area st) (ds_dependency st) (ds_visited st)
                            (count_loops (ds_dependency st))) ∧
        dep_inv NO_FLOW dx dy fd st ∧ area_inv NO_FLOW dx dy fd st ∧
        ds_sources st = [].
Proof.
  intros Hfd HU Hll. rewrite d8_flow_accum_fifo.
  exact (d8_flow_accum_with_final NO_FLOW dx dy castU fifo sched fd area0
           Hfd fifo_ok HU Hll).
Qed.





(** X5: [area] is an out-parameter: what it held before the call plays no
    role.  On any direction raster and under every schedule of the first
    loop the call returns, [area] has the shape of the directions and the
    sentinel -1, and every cell in the grid that is not a data cell holds
    -1. *)
Theorem d8_flow_accum_overwrites_area NO_FLOW dx dy castU sched fd area0 area1 :
  flowdirs_ok NO_FLOW fd → U_exact castU fd →
  ∃ r, d8_flow_accum NO_FLOW dx dy castU sched fd area0 = Some r ∧
       d8_flow_accum NO_FLOW dx dy castU sched fd area1 = Some r ∧
       Array2D.ok (fa_area r) ∧ Array2D.same_shape (fa_area r) fd ∧
       Array2D.noData (fa_area r) = -1 ∧
       ∀ c, Array2D.inGridc fd c = true → is_data fd c = false →
            Array2D.getc (fa_area r) c = -1.
Proof.
  intros Hfd HU.
  assert (Hm1 : castU (-1) = -1).
  { apply HU. pose proof (size_nonneg NO_FLOW fd Hfd). lia. }
  destruct (drain_run_any NO_FLOW dx dy castU fifo fd Hfd fifo_ok sched area0)
    as (st & Hrun & _ & (Hok & Hsh & Hnd & Hval) & _).
  assert (Hr : d8_flow_accum NO_FLOW dx dy castU sched fd area0 =
               Some (mkFlowAccum (ds_area st) (ds_dependency st) (ds_visited st)
                                 (count_loops (ds_dependency st)))).
  { rewrite d8_flow_accum_fifo. unfold d8_flow_accum_with. rewrite Hrun.
    reflexivity. }
  eexists. split; [exact Hr|]. split; [exact Hr|]. simpl. split_and!.
  - exact Hok.
  - exact Hsh.
  - congruence.
  - intros c Hc Hd. rewrite (Hval c Hc Hd). exact Hm1.
Qed.



(** X8: which cells get processed does not depend on the container either:
    under every schedule of the first loop, with any worklist discipline in
    place of the queue the same cells are processed, each once. *)
Theorem d8_flow_accum_processed_order_independent
    NO_FLOW dx dy castU sched fd area0 w1 w2 :
  flowdirs_ok NO_FLOW fd → worklist_ok w1 → worklist_ok w2 →
  ∃ r1 r2,
    d8_flow_accum_with NO_FLOW dx dy castU w1 sched fd area0 = Some r1 ∧
    d8_flow_accum_with NO_FLOW dx dy castU w2 sched fd area0 = Some r2 ∧
    fa_visited r1 ≡ₚ fa_visited r2.
Proof.
  intros Hfd Hw1 Hw2.
  destruct (drain_run_any NO_FLOW dx dy castU w1 fd Hfd Hw1 sched area0)
    as (st1 & Hrun1 & Hd1 & _ & Hs1).
  destruct (drain_run_any NO_FLOW dx dy castU w2 fd Hfd Hw2 sched area0)
    as (st2 & Hrun2 & Hd2 & _ & Hs2).
  unfold d8_flow_accum_with. rewrite Hrun1, Hrun2. simpl.
  eexists _, _. split; [reflexivity|]. split; [reflexivity|]. simpl.
  pose proof (pu_nodup _ _ _ _ _ _ Hd1) as Hn1. apply NoDup_app in Hn1.
  pose proof (pu_nodup _ _ _ _ _ _ Hd2) as Hn2. apply NoDup_app in Hn2.
  apply NoDup_Permutation; [tauto|tauto|].
  intros c. split.
  - exact (push_visited_subset NO_FLOW dx dy fd _ st1 st2 Hfd Hd1 Hd2 Hs2 c).
  - exact (push_visited_subset NO_FLOW dx dy fd _ st2 st1 Hfd Hd2 Hd1 Hs1 c).
Qed.

(** *** The row with a loop *)

Lemma example_loop4_ok : flowdirs_ok Example.NO_FLOW Example.loop4.
Proof.
  split.
  - unfold Array2D.ok. simpl. split; [lia|]. split; [lia|reflexivity].
  - simpl. do 4 (constructor; [right; right; lia|]). constructor.
Qed.

Lemma example_loop4_exact : U_exact wrap_int32 Example.loop4.
Proof.
  intros z Hz. unfold Array2D.size in Hz. simpl in Hz.
  apply wrap_int32_id. lia.
Qed.





Lemma d8_flow_accum_overwrites_area_witness :
  ∃ r, d8_flow_accum Example.NO_FLOW Example.dx Example.dy wrap_int32 Example.overtaken
         Example.confluence Example.empty_area = Some r ∧
       d8_flow_accum Example.NO_FLOW Example.dx Example.dy wrap_int32 Example.overtaken
         Example.confluence (Array2D.mk 2 1 [7; 9] 0) = Some r ∧
       Array2D.ok (fa_area r) ∧ Array2D.same_shape (fa_area r) Example.confluence ∧
       Array2D.noData (fa_area r) = -1 ∧
       ∀ c, Array2D.inGridc Example.confluence c = true →
            is_data Example.confluence c = false →
            Array2D.getc (fa_area r) c = -1.
Proof.
  apply (d8_flow_accum_overwrites_area
           Example.NO_FLOW Example.dx Example.dy wrap_int32).
  - exact example_confluence_ok.
  - exact example_confluence_exact.
Defined.



Lemma d8_flow_accum_processed_order_independent_witness :
  ∃ r1 r2,
    d8_flow_accum_with Example.NO_FLOW Example.dx Example.dy wrap_int32 fifo Example.overtaken
      Example.confluence Example.empty_area = Some r1 ∧
    d8_flow_accum_with Example.NO_FLOW Example.dx Example.dy wrap_int32 lifo Example.overtaken
      Example.confluence Example.empty_area = Some r2 ∧
    fa_visited r1 ≡ₚ fa_visited r2.
Proof.
  apply (d8_flow_accum_processed_order_independent
           Example.NO_FLOW Example.dx Example.dy wrap_int32).
  - exact example_confluence_ok.
  - exact fifo_ok.
  - exact lifo_ok.
Defined.

(** ** Loops that write every cell once *)

Section cell_loops.

Context {V : Type}.
Variable body : Array2D.t V → GridCell → Array2D.t V.

(** What the loop body writes into cell [c] of a raster with sentinel
    [nd]. *)
Variable g : V → GridCell → V.
Hypothesis body_eq :
  ∀ a c, body a c = Array2D.setc a c (g (Array2D.noData a) c).

Lemma cell_loop_shape (l : list GridCell) : ∀ a,
  Array2D.ok a →
  Array2D.ok (foldl body a l) ∧
  Array2D.width (foldl body a l) = Array2D.width a ∧
  Array2D.height (foldl body a l) = Array2D.height a ∧
  Array2D.noData (foldl body a l) = Array2D.noData a.
Proof.
  induction l as [|x l IH]; intros a Hok; [auto|].
  change (foldl body a (x :: l)) with (foldl body (body a x) l).
  rewrite body_eq.
  destruct (IH (Array2D.setc a x (g (Array2D.noData a) x)) (ok_setc _ _ _ Hok))
    as (H1 & H2 & H3 & H4).
  split_and!; assumption.
Qed.

Lemma cell_loop_get (l : list GridCell) : ∀ a c,
  Array2D.ok a → (∀ x, x ∈ l → Array2D.inGridc a x = true) →
  Array2D.inGridc a c = true →
  Array2D.getc (foldl body a l) c =
  if bool_decide (c ∈ l) then g (Array2D.noData a) c else Array2D.getc a c.
Proof.
  induction l as [|x l IH]; intros a c Hok Hl Hc; [reflexivity|].
  change (foldl body a (x :: l)) with (foldl body (body a x) l).
  rewrite body_eq.
  assert (Hx : Array2D.inGridc a x = true) by (apply Hl; left).
  rewrite IH; [|apply ok_setc, Hok| |exact Hc].
  2:{ intros y Hy. apply Hl. right. exact Hy. }
  change (Array2D.noData (Array2D.setc a x (g (Array2D.noData a) x)))
    with (Array2D.noData a).
  destruct (decide (c = x)) as [->|Hne].
  - rewrite (bool_decide_eq_true_2 (x ∈ x :: l)) by left.
    rewrite getc_setc_eq by assumption.
    destruct (bool_decide (x ∈ l)); reflexivity.
  - rewrite getc_setc_ne by first [assumption | congruence].
    destruct (decide (c ∈ l)) as [Hin|Hout].
    + rewrite !bool_decide_eq_true_2; [reflexivity|right; exact Hin|exact Hin].
    + rewrite !bool_decide_eq_false_2; [reflexivity| |exact Hout].
      intros Hin. apply elem_of_cons in Hin as [?|?]; contradiction.
Qed.

End cell_loops.

Lemma ok_resize {T U : Type} (a : Array2D.t T) (other : Array2D.t U) (fill : T) :
  Array2D.ok other → Array2D.ok (Array2D.resize a other fill).
Proof.
  intros (Hw & Hh & _). unfold Array2D.ok, Array2D.resize. simpl.
  rewrite length_replicate. auto.
Qed.

Lemma elem_of_cells_by_column w h c :
  c ∈ cells_by_column w h ↔ 0 <= cell_x c < w ∧ 0 <= cell_y c < h.
Proof.
  unfold cells_by_column. rewrite list_elem_of_bind. split.
  - intros (x & Hy & Hx). apply list_elem_of_bind in Hy as (y & Hc & Hy).
    apply list_elem_of_singleton in Hc as ->.
    apply elem_of_seqZ in Hx, Hy. simpl. lia.
  - intros [Hx Hy]. exists (cell_x c). split; [|apply elem_of_seqZ; lia].
    apply list_elem_of_bind. exists (cell_y c).
    split; [|apply elem_of_seqZ; lia].
    destruct c. simpl. apply list_elem_of_singleton. reflexivity.
Qed.

(** ** The cells of SPI and CTI *)

Section index_cells.

Context {T U V : Type}.
Variable eqT : T → T → bool.
Variable eqU : U → U → bool.
Variable V_of_Z : Z → V.

Lemma index_body_eq (value : T → U → V) fa rs (a : Array2D.t V) c :
  index_body eqT eqU value fa rs a c =
  Array2D.setc a c (index_cell eqT eqU value fa rs (Array2D.noData a) c).
Proof.
  unfold index_body, index_cell, Array2D.setc, Array2D.getc.
  destruct (eqT _ _ || eqU _ _); reflexivity.
Qed.

Lemma index_loop_cells (value : T → U → V) (fa : Array2D.t T) (rs : Array2D.t U)
    (result : Array2D.t V) :
  Array2D.ok fa →
  Array2D.ok (foldl (index_body eqT eqU value fa rs)
                (Array2D.setNoData (Array2D.resize result fa (V_of_Z 0)) (V_of_Z (-1)))
                (cells_by_column (Array2D.width fa) (Array2D.height fa))) ∧
  ∀ c, Array2D.inGridc fa c = true →
       Array2D.getc (foldl (index_body eqT eqU value fa rs)
                (Array2D.setNoData (Array2D.resize result fa (V_of_Z 0)) (V_of_Z (-1)))
                (cells_by_column (Array2D.width fa) (Array2D.height fa))) c
       = index_cell eqT eqU value fa rs (V_of_Z (-1)) c.
Proof.
  intros Hok.
  assert (Hok0 : Array2D.ok (Array2D.setNoData (Array2D.resize result fa (V_of_Z 0))
                                               (V_of_Z (-1)))).
  { exact (ok_resize result fa (V_of_Z 0) Hok). }
  split.
  - apply (cell_loop_shape _ _ (index_body_eq value fa rs)). exact Hok0.
  - intros c Hc.
    rewrite (cell_loop_get _ _ (index_body_eq value fa rs)); [| exact Hok0 | | exact Hc].
    + rewrite bool_decide_eq_true_2; [reflexivity|].
      apply elem_of_cells_by_column. apply inGridc_spec in Hc. exact Hc.
    + intros x Hx. apply elem_of_cells_by_column in Hx.
      apply inGridc_spec. exact Hx.
Qed.

End index_cells.

(** ** Terrain attributes *)

Lemma flat_value_finite (v : spec_float) :
  SFis_finite (f64_add (f64_add v (f64_mul (f64_of_int 2) v)) v) = true →
  SFis_finite v = true.
Proof.
  destruct v as [s|s| |s m e]; try reflexivity.
  - destruct s; vm_compute; discriminate.
  - vm_compute. discriminate.
Qed.

Lemma f64_add_opp_diag (v : spec_float) :
  SFis_finite v = true → f64_add (SFopp v) v = S754_zero false.
Proof.
  destruct v as [s|s| |s m e]; try discriminate; intros _.
  - destruct s; reflexivity.
  - unfold f64_add, SFadd, SFopp. rewrite Z.min_id.
    unfold shl_align. rewrite Z.sub_diag. simpl fst.
    destruct s; simpl cond_Zopp.
    + rewrite Z.add_opp_diag_r. reflexivity.
    + rewrite Z.add_opp_diag_l. reflexivity.
Qed.

Lemma f64_zero_over_two (L : spec_float) :
  SFis_positive L = true →
  f64_div (f64_div (S754_zero false) (f64_of_int 2)) L = S754_zero false.
Proof. destruct L as [b|b| |[|] m e]; try discriminate. reflexivity. Qed.

(** On a flat neighbourhood the first derivatives [G] and [H] of the
    curvature setup are the zero of positive sign. *)
Lemma curvature_setup_flat (L v : spec_float) elevations x y zscale :
  SFis_positive L = true → SFis_finite v = true →
  TerrainSetup elevations x y zscale = mkSetup v v v v v v v v v →
  tscv_G (TerrainCurvatureSetup L elevations x y zscale) = S754_zero false ∧
  tscv_H (TerrainCurvatureSetup L elevations x y zscale) = S754_zero false.
Proof.
  intros HL Hv Hts. unfold TerrainCurvatureSetup. cbv zeta. rewrite Hts.
  cbn [tscv_G tscv_H tsv_b tsv_d tsv_f tsv_h].
  rewrite (f64_add_opp_diag v Hv), (f64_sub_diag v Hv).
  split; apply f64_zero_over_two; exact HL.
Qed.

Lemma slope_flat (Lx Ly : spec_float) elevations x y zscale :
  SFis_positive Lx = true → SFis_positive Ly = true →
  flat_neighbourhood elevations x y zscale →
  Terrain_Slope_RiseRun Lx Ly elevations x y zscale = S754_zero false.
Proof.
  intros Hx Hy (v & Hts & Hfin). unfold Terrain_Slope_RiseRun. cbv zeta.
  rewrite Hts. destruct (horn_flat Lx Ly v Hx Hy Hfin) as [-> ->].
  reflexivity.
Qed.

Lemma planform_flat (L : spec_float) elevations x y zscale :
  SFis_positive L = true → flat_neighbourhood elevations x y zscale →
  Terrain_Planform_Curvature L elevations x y zscale = S754_zero false.
Proof.
  intros HL (v & Hts & Hfin). unfold Terrain_Planform_Curvature. cbv zeta.
  destruct (curvature_setup_flat L v elevations x y zscale HL
              (flat_value_finite v Hfin) Hts) as [-> ->].
  reflexivity.
Qed.

Lemma profile_flat (L : spec_float) elevations x y zscale :
  SFis_positive L = true → flat_neighbourhood elevations x y zscale →
  Terrain_Profile_Curvature L elevations x y zscale = S754_zero false.
Proof.
  intros HL (v & Hts & Hfin). unfold Terrain_Profile_Curvature. cbv zeta.
  destruct (curvature_setup_flat L v elevations x y zscale HL
              (flat_value_finite v Hfin) Hts) as [-> ->].
  reflexivity.
Qed.

Lemma aspect_flat atan2 (Lx Ly : spec_float) elevations x y zscale :
  atan2 (S754_zero false) (S754_zero true) = M_PI →
  SFis_positive Lx = true → SFis_positive Ly = true →
  flat_neighbourhood elevations x y zscale →
  Terrain_Aspect atan2 Lx Ly elevations x y zscale = f64_of_int 270.
Proof.
  intros Hatan Hx Hy (v & Hts & Hfin). unfold Terrain_Aspect. cbv zeta.
  rewrite Hts. destruct (horn_flat Lx Ly v Hx Hy Hfin) as [-> ->].
  change (SFopp (S754_zero false)) with (S754_zero true).
  rewrite Hatan. vm_compute. reflexivity.
Qed.

(** *** [TerrainProcessor] *)

(** What [TerrainProcessor] writes into a cell. *)
Lemma processor_body_eq func elevations zscale (a : Array2D.t float32) c :
  processor_body func elevations zscale a c =
  Array2D.setc a c
    (processor_cell func elevations zscale (Array2D.noData a) c).
Proof.
  unfold processor_body, processor_cell, Array2D.setc.
  destruct (SF_isNoData _ _ _); reflexivity.
Qed.

Lemma TerrainProcessor_spec func elevations zscale output :
  Array2D.ok elevations →
  Array2D.ok (TerrainProcessor func elevations zscale output) ∧
  Array2D.same_shape (TerrainProcessor func elevations zscale output) elevations ∧
  Array2D.noData (TerrainProcessor func elevations zscale output)
  = Array2D.noData output ∧
  ∀ c, Array2D.inGridc elevations c = true →
       Array2D.getc (TerrainProcessor func elevations zscale output) c
       = processor_cell func elevations zscale (Array2D.noData output) c.
Proof.
  intros Hok. unfold TerrainProcessor.
  pose proof (ok_resize output elevations (f32_of_int 0) Hok) as Hok0.
  destruct (cell_loop_shape _ _ (processor_body_eq func elevations zscale)
              (Array2D.cells elevations) _ Hok0) as (H1 & H2 & H3 & H4).
  split; [exact H1|]. split; [split; assumption|]. split; [exact H4|].
  intros c Hc.
  rewrite (cell_loop_get _ _ (processor_body_eq func elevations zscale));
    [|exact Hok0| |exact Hc].
  - rewrite bool_decide_eq_true_2; [reflexivity|]. apply elem_of_cells. exact Hc.
  - intros x Hx. apply elem_of_cells in Hx. exact Hx.
Qed.

Lemma processor_flat func elevations zscale output (r : spec_float) c :
  Array2D.ok elevations → flat_raster elevations zscale →
  (∀ x y, flat_neighbourhood elevations x y zscale →
          func elevations x y zscale = r) →
  Array2D.inGridc elevations c = true →
  Array2D.getc (TerrainProcessor func elevations zscale output) c = f32_of_f64 r.
Proof.
  intros Hok Hflat Hr Hc.
  destruct (TerrainProcessor_spec func elevations zscale output Hok)
    as (_ & _ & _ & Hget).
  rewrite (Hget c Hc). unfold processor_cell.
  destruct (Hflat c Hc) as [-> Hn]. rewrite (Hr _ _ Hn). reflexivity.
Qed.

(** *** Signs *)

Lemma binary_round_aux_sign prec emax sx mx ex lx :
  match binary_round_aux prec emax sx mx ex lx with
  | S754_nan => True
  | S754_zero s | S754_infinity s | S754_finite s _ _ => s = sx
  end.
Proof.
  unfold binary_round_aux.
  destruct (shr_fexp prec emax mx ex lx) as [mrs' e'].
  destruct (shr_fexp prec emax _ e' loc_Exact) as [mrs'' e''].
  destruct (shr_m mrs''); [reflexivity| |exact I].
  destruct (_ <=? _); reflexivity.
Qed.

Lemma round_not_negative prec emax mx ex lx :
  SFnot_negative (binary_round_aux prec emax false mx ex lx) = true.
Proof.
  pose proof (binary_round_aux_sign prec emax false mx ex lx) as H.
  destruct (binary_round_aux prec emax false mx ex lx); simpl;
    [rewrite H|rewrite H| |rewrite H]; reflexivity.
Qed.

Lemma SFmul_self_not_negative prec emax x :
  SFnot_negative (SFmul prec emax x x) = true.
Proof.
  destruct x as [s|s| |s m e];
    [destruct s; reflexivity|destruct s; reflexivity|reflexivity|].
  destruct s; apply round_not_negative.
Qed.

Lemma SFadd_not_negative prec emax x y :
  SFnot_negative x = true → SFnot_negative y = true →
  SFnot_negative (SFadd prec emax x y) = true.
Proof.
  destruct x as [sx|sx| |sx mx ex], y as [sy|sy| |sy my ey]; simpl;
    intros Hx Hy; try reflexivity; try assumption;
    apply negb_true_iff in Hx; apply negb_true_iff in Hy; subst; try reflexivity.
  unfold binary_normalize, binary_round. simpl cond_Zopp.
  change (Z.pos ?a + Z.pos ?b) with (Z.pos (a + b)). cbv iota beta.
  destruct (shl_align _ _ _) as [mz ez]. apply round_not_negative.
Qed.

Lemma SFsqrt_not_negative prec emax x :
  SFnot_negative x = true → SFnot_negative (SFsqrt prec emax x) = true.
Proof.
  destruct x as [s|s| |s m e]; simpl; intros Hx; try reflexivity;
    apply negb_true_iff in Hx; subst; try reflexivity.
  destruct (SFsqrt_core_binary prec emax (Z.pos m) e) as [[mz ez] lz].
  apply round_not_negative.
Qed.
Lemma SFmul_pos_not_negative prec emax x m e :
  SFnot_negative x = true →
  SFnot_negative (SFmul prec emax x (S754_finite false m e)) = true.
Proof.
  destruct x as [s|s| |s mx ex]; simpl; intros Hx; try reflexivity;
    apply negb_true_iff in Hx; subst; try reflexivity.
  apply round_not_negative.
Qed.

Lemma f32_of_f64_not_negative x :
  SFnot_negative x = true → SFnot_negative (f32_of_f64 x) = true.
Proof.
  destruct x as [s|s| |s m e]; simpl; intros Hx; try assumption.
  apply negb_true_iff in Hx. subst. simpl. unfold binary_round.
  destruct (shl_align _ _ _) as [mz ez]. apply round_not_negative.
Qed.

Lemma slope_not_negative Lx Ly elevations x y zscale :
  SFnot_negative (Terrain_Slope_RiseRun Lx Ly elevations x y zscale) = true.
Proof.
  unfold Terrain_Slope_RiseRun. cbv zeta.
  apply SFsqrt_not_negative, SFadd_not_negative; apply SFmul_self_not_negative.
Qed.

Lemma slope_percent_not_negative Lx Ly elevations x y zscale :
  SFnot_negative (Terrain_Slope_Percent Lx Ly elevations x y zscale) = true.
Proof.
  unfold Terrain_Slope_Percent.
  change (f64_of_int 100) with (S754_finite false 7036874417766400 (-46)).
  apply SFmul_pos_not_negative, slope_not_negative.
Qed.

(** X10: [TerrainProcessor] gives [output] the shape of the elevations and
    leaves its sentinel as it was; a cell of [output] holds that sentinel
    where the elevation is the elevations' sentinel and the attribute of
    the cell, narrowed to [float], everywhere else: the attribute function
    is never asked for a nodata cell. *)
Theorem TerrainProcessor_cells
    (func : Array2D.t spec_float → Z → Z → float32 → spec_float)
    (elevations : Array2D.t spec_float) (zscale : float32)
    (output : Array2D.t float32) :
  Array2D.ok elevations →
  Array2D.ok (TerrainProcessor func elevations zscale output) ∧
  Array2D.same_shape (TerrainProcessor func elevations zscale output) elevations ∧
  Array2D.noData (TerrainProcessor func elevations zscale output)
  = Array2D.noData output ∧
  ∀ c, Array2D.inGridc elevations c = true →
       Array2D.getc (TerrainProcessor func elevations zscale output) c
       = if SF_isNoData elevations (cell_x c) (cell_y c)
         then Array2D.noData output
         else f32_of_f64 (func elevations (cell_x c) (cell_y c) zscale).
Proof. exact (TerrainProcessor_spec func elevations zscale output). Qed.

Lemma TerrainProcessor_cells_witness :
  Array2D.ok (TerrainProcessor (Terrain_Slope_RiseRun (f64_of_int 1) (f64_of_int 1))
                Example.plateau (f32_of_int 1) (Array2D.mk 0 0 [] (f32_of_int (-1)))) ∧
  Array2D.same_shape
    (TerrainProcessor (Terrain_Slope_RiseRun (f64_of_int 1) (f64_of_int 1))
       Example.plateau (f32_of_int 1) (Array2D.mk 0 0 [] (f32_of_int (-1))))
    Example.plateau ∧
  Array2D.noData
    (TerrainProcessor (Terrain_Slope_RiseRun (f64_of_int 1) (f64_of_int 1))
       Example.plateau (f32_of_int 1) (Array2D.mk 0 0 [] (f32_of_int (-1))))
  = f32_of_int (-1) ∧
  ∀ c, Array2D.inGridc Example.plateau c = true →
       Array2D.getc
         (TerrainProcessor (Terrain_Slope_RiseRun (f64_of_int 1) (f64_of_int 1))
            Example.plateau (f32_of_int 1) (Array2D.mk 0 0 [] (f32_of_int (-1)))) c
       = if SF_isNoData Example.plateau (cell_x c) (cell_y c)
         then f32_of_int (-1)
         else f32_of_f64
                (Terrain_Slope_RiseRun (f64_of_int 1) (f64_of_int 1)
                   Example.plateau (cell_x c) (cell_y c) (f32_of_int 1)).
Proof.
  apply (TerrainProcessor_cells
           (Terrain_Slope_RiseRun (f64_of_int 1) (f64_of_int 1))
           Example.plateau (f32_of_int 1) (Array2D.mk 0 0 [] (f32_of_int (-1)))).
  unfold Array2D.ok. simpl. split; [lia|]. split; [lia|reflexivity].
Defined.


Lemma example_plateau_flat x y :
  0 <= x < 3 → 0 <= y < 3 →
  flat_neighbourhood Example.plateau x y (f32_of_int 1).
Proof.
  intros Hx Hy. exists (f64_of_int 5).
  assert (x = 0 ∨ x = 1 ∨ x = 2) as [->|[->| ->]] by lia;
    assert (y = 0 ∨ y = 1 ∨ y = 2) as [->|[->| ->]] by lia;
    split; vm_compute; reflexivity.
Qed.



Lemma example_plateau_flat_raster : flat_raster Example.plateau (f32_of_int 1).
Proof.
  intros [x y] Hc. apply inGridc_spec in Hc. simpl in Hc. destruct Hc as [Hx Hy].
  split; [|apply example_plateau_flat; assumption]. simpl.
  assert (x = 0 ∨ x = 1 ∨ x = 2) as [->|[->| ->]] by lia;
    assert (y = 0 ∨ y = 1 ∨ y = 2) as [->|[->| ->]] by lia;
    vm_compute; reflexivity.
Qed.


(** X13: a slope is never negative: whatever the elevations, the rise/run
    and the percent slope are NaN or carry a clear sign bit, and so does
    every data cell of the rasters that [TA_slope_riserun] and
    [TA_slope_percentage] produce. *)
Theorem Terrain_Slope_not_negative
    (cellLengthX cellLengthY : spec_float)
    (elevations : Array2D.t spec_float) (zscale : float32)
    (output : Array2D.t float32) :
  (∀ x y,
     SFnot_negative
       (Terrain_Slope_RiseRun cellLengthX cellLengthY elevations x y zscale) = true ∧
     SFnot_negative
       (Terrain_Slope_Percent cellLengthX cellLengthY elevations x y zscale) = true) ∧
  (Array2D.ok elevations →
   ∀ c, Array2D.inGridc elevations c = true →
        SF_isNoData elevations (cell_x c) (cell_y c) = false →
        SFnot_negative
          (Array2D.getc
             (TA_slope_riserun cellLengthX cellLengthY elevations output zscale) c)
        = true ∧
        SFnot_negative
          (Array2D.getc
             (TA_slope_percentage cellLengthX cellLengthY elevations output zscale) c)
        = true).
Proof.
  split.
  - intros x y. split; [apply slope_not_negative|apply slope_percent_not_negative].
  - intros Hok c Hc Hd. unfold TA_slope_riserun, TA_slope_percentage.
    destruct (TerrainProcessor_spec
                (Terrain_Slope_RiseRun cellLengthX cellLengthY)
                elevations zscale output Hok) as (_ & _ & _ & H1).
    destruct (TerrainProcessor_spec
                (Terrain_Slope_Percent cellLengthX cellLengthY)
                elevations zscale output Hok) as (_ & _ & _ & H2).
    rewrite (H1 c Hc), (H2 c Hc). unfold processor_cell. rewrite Hd. split.
    + apply f32_of_f64_not_negative, slope_not_negative.
    + apply f32_of_f64_not_negative, slope_percent_not_negative.
Qed.
(** ** The upslope traversal finds the cells that drain into the line *)

Section upslope_search.

Variable NO_FLOW : Z.
Variables dx dy d8_inverse : Z → Z.
Variable ND : Z.
Variable fd : Array2D.t Z.
Hypothesis Hfd : flowdirs_ok NO_FLOW fd.
Hypothesis Hinv : d8_inverse_ok dx dy d8_inverse.
Hypothesis HND1 : ND ≠ 1.
Hypothesis HND2 : ND ≠ 2.

(** The cells of the line. *)
Variable L : list GridCell.
Hypothesis HL : ∀ c, c ∈ L → Array2D.inGridc fd c = true.

Local Abbreviation feeds := (feeds NO_FLOW dx dy fd).
Local Abbreviation downstream := (downstream NO_FLOW dx dy fd).
Local Abbreviation trace := (trace NO_FLOW dx dy fd).
Local Abbreviation drains := (drains_into NO_FLOW dx dy fd L).
Local Abbreviation expand_body := (expand_body NO_FLOW dx dy d8_inverse fd).
Local Abbreviation expand_loop := (expand_loop NO_FLOW dx dy d8_inverse).
Local Abbreviation shape_ok := (upslope_shape ND fd).
Local Abbreviation search_inv := (search_inv NO_FLOW dx dy ND fd L).
Local Abbreviation step := (λ c k, mkGridCell (cell_x c + dx k) (cell_y c + dy k)).

Implicit Types (up : Array2D.t Z) (q : list GridCell) (c n m : GridCell).

Lemma feeds_downstream n c : feeds n c = true ↔ downstream n = Some c.
Proof.
  unfold_feeds. unfold_downstream.
  destruct (is_data fd n && negb (Array2D.getc fd n =? NO_FLOW)); simpl.
  - rewrite bool_decide_eq_true. split; [intros ->; reflexivity|congruence].
  - split; discriminate.
Qed.

Lemma feeds_data n c : feeds n c = true → is_data fd n = true.
Proof.
  unfold_feeds. rewrite !andb_true_iff. tauto.
Qed.

Lemma drains_step n c : feeds n c = true → c ∈ L ∨ drains c → drains n.
Proof.
  intros Hf. apply feeds_downstream in Hf. intros [Hc|(k & m & Hk & Hm)].
  - exists 0%nat, c. split; [|exact Hc]. simpl. rewrite Hf. reflexivity.
  - exists (S k), m. split; [|exact Hm].
    change (trace (S (S k)) n) with (downstream n ≫= trace (S k)).
    rewrite Hf. exact Hk.
Qed.

(** The neighbour test of the traversal picks the cells that flow into
    [c]. *)
Lemma neighbour_feeds c k :
  Array2D.inGridc fd (step c k) = true →
  Array2D.getc fd (step c k) ≠ NO_FLOW →
  Array2D.getc fd (step c k) ≠ Array2D.noData fd →
  k = d8_inverse (Array2D.getc fd (step c k)) →
  feeds (step c k) c = true.
Proof.
  intros Hin Hnf Hnd Hk. unfold_feeds. unfold is_data, Array2D.isNoData.
  rewrite Hin. simpl.
  rewrite !andb_true_iff, !negb_true_iff, bool_decide_eq_false, Z.eqb_neq,
    bool_decide_eq_true.
  split; [split; assumption|].
  destruct (direction_of_cell NO_FLOW fd Hfd _ Hin) as [H|[H|H]];
    [contradiction|contradiction|].
  destruct (Hinv _ H) as (_ & Hx & Hy).
  rewrite <- Hk in Hx, Hy. unfold target.
  destruct c as [cx cy]. unfold Array2D.getc in *. simpl in *. f_equal; lia.
Qed.

Lemma feeds_neighbour n c :
  feeds n c = true →
  1 <= d8_inverse (Array2D.getc fd n) <= 8 ∧
  n = step c (d8_inverse (Array2D.getc fd n)).
Proof.
  intros Hf. pose proof (feeds_direction NO_FLOW dx dy fd Hfd n c Hf) as Hd.
  destruct (Hinv _ Hd) as (Hr & Hx & Hy). split; [exact Hr|].
  revert Hf. unfold_feeds. rewrite !andb_true_iff, bool_decide_eq_true.
  intros [_ Ht]. unfold target in Ht. subst c. simpl.
  destruct n as [nx ny]. simpl in *. f_equal; lia.
Qed.

Lemma expand_body_cases c up q k :
  expand_body c (up, q) k =
  if Array2D.inGridc fd (step c k)
     && negb (Array2D.getc fd (step c k) =? NO_FLOW)
     && negb (Array2D.getc fd (step c k) =? Array2D.noData fd)
     && (Array2D.getc up (step c k) =? Array2D.noData up)
     && (k =? d8_inverse (Array2D.getc fd (step c k)))
  then (Array2D.setc up (step c k) 1, q ++ [step c k])
  else (up, q).
Proof. exact (expand_body_rule NO_FLOW dx dy d8_inverse fd c up q k). Qed.

Lemma shape_inGridc up c :
  shape_ok up → Array2D.inGridc up c = Array2D.inGridc fd c.
Proof. intros (_ & Hsh & _). exact (inGridc_same_shape up fd c Hsh). Qed.

(** Marking a sentinel cell with 1. *)
Lemma mark_get up n c :
  shape_ok up → Array2D.inGridc fd n = true → Array2D.inGridc fd c = true →
  Array2D.getc (Array2D.setc up n 1) c = if decide (c = n) then 1 else Array2D.getc up c.
Proof.
  intros Hs Hn Hc. pose proof Hs as (Hok & _ & _).
  destruct (decide (c = n)) as [->|Hne].
  - apply getc_setc_eq; [exact Hok|]. rewrite (shape_inGridc up n Hs). exact Hn.
  - apply getc_setc_ne; [| |congruence]; rewrite (shape_inGridc up _ Hs); assumption.
Qed.

Lemma mark_shape up n : shape_ok up → shape_ok (Array2D.setc up n 1).
Proof.
  intros (Hok & Hsh & Hnd). split; [apply ok_setc, Hok|]. split; assumption.
Qed.

(** One neighbour test, while the cell [c0] is being expanded: [done] are
    the neighbour indices already tried. *)
Lemma search_body c0 up q (done : list Z) k :
  search_inv up (λ x, x = c0 ∨ x ∈ q) →
  (∀ n, feeds n c0 = true → d8_inverse (Array2D.getc fd n) ∈ done →
        Array2D.getc up n ≠ ND) →
  search_inv (fst (expand_body c0 (up, q) k))
             (λ x, x = c0 ∨ x ∈ snd (expand_body c0 (up, q) k)) ∧
  (∀ n, feeds n c0 = true → d8_inverse (Array2D.getc fd n) ∈ done ++ [k] →
        Array2D.getc (fst (expand_body c0 (up, q) k)) n ≠ ND).
Proof.
  intros Hsi Hdone. pose proof (si_shape Hsi) as Hs.
  pose proof Hs as (Hok & Hsh & Hnd).
  rewrite expand_body_cases. rewrite Hnd.
  destruct (Array2D.inGridc fd (step c0 k)) eqn:Hin; simpl.
  2:{ split; [exact Hsi|]. intros n Hf Hk.
      apply elem_of_app in Hk as [Hk|Hk]; [exact (Hdone n Hf Hk)|].
      apply list_elem_of_singleton in Hk.
      destruct (feeds_neighbour n c0 Hf) as [_ Hn]. rewrite Hk in Hn.
      pose proof (is_data_inGrid fd n (feeds_data n c0 Hf)) as Hng.
      rewrite Hn in Hng. congruence. }
  destruct (Z.eqb_spec (Array2D.getc fd (step c0 k)) NO_FLOW) as [Hnf|Hnf]; simpl.
  { split; [exact Hsi|]. intros n Hf Hk.
    apply elem_of_app in Hk as [Hk|Hk]; [exact (Hdone n Hf Hk)|].
    apply list_elem_of_singleton in Hk.
    destruct (feeds_neighbour n c0 Hf) as [_ Hn]. rewrite Hk in Hn.
    exfalso. revert Hf. unfold_feeds. rewrite !andb_true_iff, negb_true_iff, Z.eqb_neq.
    intros [[_ Hne] _]. apply Hne. rewrite Hn. exact Hnf. }
  destruct (Z.eqb_spec (Array2D.getc fd (step c0 k)) (Array2D.noData fd))
    as [Hnd'|Hnd']; simpl.
  { split; [exact Hsi|]. intros n Hf Hk.
    apply elem_of_app in Hk as [Hk|Hk]; [exact (Hdone n Hf Hk)|].
    apply list_elem_of_singleton in Hk.
    destruct (feeds_neighbour n c0 Hf) as [_ Hn]. rewrite Hk in Hn.
    exfalso. pose proof (feeds_data n c0 Hf) as Hd. revert Hd.
    unfold is_data, Array2D.isNoData.
    rewrite andb_true_iff, negb_true_iff, bool_decide_eq_false.
    intros [_ Hne]. apply Hne. rewrite Hn. exact Hnd'. }
  destruct (Z.eqb_spec (Array2D.getc up (step c0 k)) ND) as [Hup|Hup]; simpl.
  2:{ split; [exact Hsi|]. intros n Hf Hk.
      apply elem_of_app in Hk as [Hk|Hk]; [exact (Hdone n Hf Hk)|].
      apply list_elem_of_singleton in Hk.
      destruct (feeds_neighbour n c0 Hf) as [_ Hn]. rewrite Hk in Hn.
      rewrite Hn. exact Hup. }
  destruct (Z.eqb_spec k (d8_inverse (Array2D.getc fd (step c0 k)))) as [Hk|Hk]; simpl.
  2:{ split; [exact Hsi|]. intros n Hf Hk'.
      apply elem_of_app in Hk' as [Hk'|Hk']; [exact (Hdone n Hf Hk')|].
      apply list_elem_of_singleton in Hk'.
      destruct (feeds_neighbour n c0 Hf) as [_ Hn]. rewrite Hk' in Hn.
      exfalso. apply Hk. rewrite <- Hn. symmetry. exact Hk'. }
  (* the neighbour is marked and enqueued *)
  set (n' := step c0 k) in *.
  pose proof (neighbour_feeds c0 k Hin Hnf Hnd' Hk) as Hfeeds.
  assert (Hmono : ∀ c, Array2D.inGridc fd c = true → Array2D.getc up c ≠ ND →
                       Array2D.getc (Array2D.setc up n' 1) c ≠ ND).
  { intros c Hc Hm. rewrite (mark_get up n' c Hs Hin Hc).
    destruct (decide (c = n')); [congruence|exact Hm]. }
  assert (HnL : n' ∉ L).
  { intros HnL. pose proof (si_line Hsi n' HnL). congruence. }
  assert (Hc0 : Array2D.inGridc fd c0 = true ∧ Array2D.getc up c0 ≠ ND).
  { apply (si_pending Hsi). left. reflexivity. }
  split; [split|].
  - apply mark_shape, Hs.
  - intros c Hc. rewrite (mark_get up n' c Hs Hin (HL c Hc)).
    destruct (decide (c = n')) as [->|_]; [contradiction|].
    exact (si_line Hsi c Hc).
  - intros c Hc HcL. rewrite (mark_get up n' c Hs Hin Hc).
    destruct (decide (c = n')); [left; reflexivity|].
    exact (si_values Hsi c Hc HcL).
  - intros c Hc. rewrite (mark_get up n' c Hs Hin Hc).
    destruct (decide (c = n')) as [->|_].
    + intros _. apply (drains_step n' c0 Hfeeds).
      destruct Hc0 as [Hc0 Hm0].
      destruct (decide (c0 ∈ L)) as [HcL|HcL]; [left; exact HcL|right].
      apply (si_sound Hsi c0 Hc0).
      destruct (si_values Hsi c0 Hc0 HcL) as [H1|H1]; [exact H1|contradiction].
    + exact (si_sound Hsi c Hc).
  - intros c [Hc|Hc].
    + subst c. destruct Hc0 as [Hc0 Hm0]. split; [exact Hc0|].
      exact (Hmono c0 Hc0 Hm0).
    + apply elem_of_app in Hc as [Hc|Hc].
      * destruct (si_pending Hsi c (or_intror Hc)) as [Hcg Hcm].
        split; [exact Hcg|exact (Hmono c Hcg Hcm)].
      * apply list_elem_of_singleton in Hc. subst c. split; [exact Hin|].
        rewrite (mark_get up n' n' Hs Hin Hin). rewrite decide_True by reflexivity.
        congruence.
  - intros c Hc. rewrite (mark_get up n' c Hs Hin Hc).
    destruct (decide (c = n')) as [->|Hne].
    + intros _. left. right. apply elem_of_app. right. left.
    + intros Hm. destruct (si_closed Hsi c Hc Hm) as [[Hp|Hp]|Hcl].
      * left. left. exact Hp.
      * left. right. apply elem_of_app. left. exact Hp.
      * right. intros n Hf.
        exact (Hmono n (is_data_inGrid fd n (feeds_data n c Hf)) (Hcl n Hf)).
  - intros n Hf Hk'.
    pose proof (is_data_inGrid fd n (feeds_data n c0 Hf)) as Hng.
    apply elem_of_app in Hk' as [Hk'|Hk'].
    + exact (Hmono n Hng (Hdone n Hf Hk')).
    + apply list_elem_of_singleton in Hk'.
      destruct (feeds_neighbour n c0 Hf) as [_ Hn]. rewrite Hk' in Hn.
      assert (n = n') as -> by exact Hn.
      rewrite (mark_get up n' n' Hs Hin Hin).
      rewrite decide_True by reflexivity. congruence.
Qed.

Lemma search_fold c0 (l : list Z) : ∀ up q (done : list Z),
  search_inv up (λ x, x = c0 ∨ x ∈ q) →
  (∀ n, feeds n c0 = true → d8_inverse (Array2D.getc fd n) ∈ done →
        Array2D.getc up n ≠ ND) →
  search_inv (fst (foldl (expand_body c0) (up, q) l))
             (λ x, x = c0 ∨ x ∈ snd (foldl (expand_body c0) (up, q) l)) ∧
  (∀ n, feeds n c0 = true → d8_inverse (Array2D.getc fd n) ∈ done ++ l →
        Array2D.getc (fst (foldl (expand_body c0) (up, q) l)) n ≠ ND).
Proof.
  induction l as [|k l IH]; intros up q done Hsi Hdone.
  - rewrite app_nil_r. split; assumption.
  - change (foldl (expand_body c0) (up, q) (k :: l))
      with (foldl (expand_body c0) (expand_body c0 (up, q) k) l).
    destruct (search_body c0 up q done k Hsi Hdone) as [Hsi' Hdone'].
    destruct (expand_body c0 (up, q) k) as [up' q']. simpl in Hsi', Hdone'.
    replace (done ++ k :: l) with ((done ++ [k]) ++ l)
      by (rewrite <- app_assoc; reflexivity).
    exact (IH up' q' (done ++ [k]) Hsi' Hdone').
Qed.

(** One iteration of the traversal. *)
Lemma search_step c0 up q :
  search_inv up (λ x, x ∈ c0 :: q) →
  search_inv (fst (foldl (expand_body c0) (up, q) (seqZ 1 8)))
             (λ x, x ∈ snd (foldl (expand_body c0) (up, q) (seqZ 1 8))).
Proof.
  intros Hsi.
  assert (Hsi0 : search_inv up (λ x, x = c0 ∨ x ∈ q)).
  { destruct Hsi as [H1 H2 H3 H4 H5 H6]. split; try assumption.
    - intros c Hc. apply H5. apply elem_of_cons. exact Hc.
    - intros c Hc Hm. destruct (H6 c Hc Hm) as [Hp|Hcl]; [left|right; exact Hcl].
      apply elem_of_cons in Hp. exact Hp. }
  destruct (search_fold c0 (seqZ 1 8) up q [] Hsi0) as [Hsi' Hdone'].
  { intros n _ Hk. inv Hk. }
  destruct (foldl (expand_body c0) (up, q) (seqZ 1 8)) as [up' q'].
  simpl in Hsi', Hdone'. simpl.
  destruct Hsi' as [H1 H2 H3 H4 H5 H6]. split; try assumption.
  - intros c Hc. apply H5. right. exact Hc.
  - intros c Hc Hm. destruct (H6 c Hc Hm) as [[->|Hp]|Hcl].
    + right. intros n Hf. apply (Hdone' n Hf).
      destruct (feeds_neighbour n c0 Hf) as [Hr _].
      apply elem_of_seqZ. lia.
    + left. exact Hp.
    + right. exact Hcl.
Qed.

Lemma search_loop (fuel : nat) : ∀ up q st,
  search_inv up (λ x, x ∈ q) → expand_loop fuel fd (up, q) = Some st →
  search_inv (fst st) (λ _, False).
Proof.
  induction fuel as [|fuel IH]; intros up q st Hsi.
  - destruct q as [|c rest]; [|discriminate].
    simpl. intros [= <-]. simpl.
    destruct Hsi as [H1 H2 H3 H4 H5 H6]. split; try assumption; [tauto|].
    intros c Hc Hm. destruct (H6 c Hc Hm) as [Hp|Hcl]; [inv Hp|right; exact Hcl].
  - destruct q as [|c rest].
    + simpl. intros [= <-]. simpl.
      destruct Hsi as [H1 H2 H3 H4 H5 H6]. split; try assumption; [tauto|].
      intros c Hc Hm. destruct (H6 c Hc Hm) as [Hp|Hcl]; [inv Hp|right; exact Hcl].
    + rewrite expand_loop_cons. pose proof (search_step c up rest Hsi) as Hsi'.
      destruct (foldl (expand_body c) (up, rest) (seqZ 1 8)) as [up' q'].
      simpl in Hsi'. exact (IH up' q' st Hsi').
Qed.

(** When the queue is empty, every cell that drains into a marked cell is
    marked. *)
Lemma search_complete up (k : nat) : ∀ c m,
  search_inv up (λ _, False) → trace k c = Some m →
  Array2D.inGridc fd m = true → Array2D.getc up m ≠ ND →
  Array2D.inGridc fd c = true ∧ Array2D.getc up c ≠ ND.
Proof.
  induction k as [|k IH]; intros c m Hsi Hk Hm Hmm.
  - simpl in Hk. injection Hk as ->. auto.
  - change (trace (S k) c) with (downstream c ≫= trace k) in Hk.
    destruct (downstream c) as [c1|] eqn:Hd; [|discriminate]. simpl in Hk.
    apply feeds_downstream in Hd.
    destruct (IH c1 m Hsi Hk Hm Hmm) as [Hc1 Hm1].
    split; [exact (is_data_inGrid fd c (feeds_data c c1 Hd))|].
    destruct (si_closed Hsi c1 Hc1 Hm1) as [[]|Hcl]. exact (Hcl c Hd).
Qed.

(** What the finished traversal leaves in the raster. *)
Lemma search_result up c :
  search_inv up (λ _, False) → Array2D.inGridc fd c = true →
  (c ∈ L → Array2D.getc up c = 2) ∧
  (c ∉ L → (Array2D.getc up c = 1 ↔ drains c)) ∧
  (c ∉ L → Array2D.getc up c = 1 ∨ Array2D.getc up c = ND).
Proof.
  intros Hsi Hc. split; [exact (si_line Hsi c)|]. split; [|exact (si_values Hsi c Hc)].
  intros HcL. split; [exact (si_sound Hsi c Hc)|].
  intros (k & m & Hk & Hm).
  assert (Hmm : Array2D.getc up m ≠ ND).
  { rewrite (si_line Hsi m Hm). congruence. }
  destruct (search_complete up (S k) c m Hsi Hk (HL m Hm) Hmm) as [_ Hcm].
  destruct (si_values Hsi c Hc HcL) as [H1|H1]; [exact H1|contradiction].
Qed.

(** The state in which the traversal starts. *)
Lemma search_init up :
  shape_ok up →
  (∀ c, Array2D.inGridc fd c = true →
        Array2D.getc up c = if bool_decide (c ∈ L) then 2 else ND) →
  search_inv up (λ x, x ∈ L).
Proof.
  intros Hs Hget. split.
  - exact Hs.
  - intros c Hc. rewrite (Hget c (HL c Hc)), bool_decide_eq_true_2 by exact Hc.
    reflexivity.
  - intros c Hc HcL. right. rewrite (Hget c Hc), bool_decide_eq_false_2 by exact HcL.
    reflexivity.
  - intros c Hc H1. rewrite (Hget c Hc) in H1.
    destruct (bool_decide (c ∈ L)); [discriminate|congruence].
  - intros c Hc. split; [exact (HL c Hc)|].
    rewrite (Hget c (HL c Hc)), bool_decide_eq_true_2 by exact Hc. congruence.
  - intros c Hc Hm. left. rewrite (Hget c Hc) in Hm.
    destruct (decide (c ∈ L)) as [HcL|HcL]; [exact HcL|].
    rewrite bool_decide_eq_false_2 in Hm by exact HcL. contradiction.
Qed.

End upslope_search.
(** ** The line march marks what it enqueues *)

Section line_marks.

Variable ND : Z.
Variable fd : Array2D.t Z.
Hypothesis HND2 : ND ≠ 2.

Local Abbreviation shape_ok := (upslope_shape ND fd).
Local Abbreviation line_inv := (line_inv ND fd).

Implicit Types (up : Array2D.t Z) (c : GridCell) (s : line_state).

Lemma write_cell_Some up x y v up' :
  write_cell up x y v = Some up' →
  Array2D.inGridc up (mkGridCell x y) = true ∧
  up' = Array2D.setc up (mkGridCell x y) v.
Proof.
  unfold write_cell, Array2D.inGridc. simpl.
  destruct (Array2D.inGrid up x y); [|discriminate].
  intros [= <-]. auto.
Qed.

Lemma line_inv_push up exp x y up' :
  line_inv up exp → write_cell up x y 2 = Some up' →
  line_inv up' (exp ++ [mkGridCell x y]).
Proof.
  intros (Hs & Hin & Hget) Hw. pose proof Hs as (Hok & Hsh & _).
  pose proof (write_cell_shape ND fd up x y 2 up' Hs Hw) as Hs'.
  apply write_cell_Some in Hw as [Hc ->].
  rewrite (inGridc_same_shape up fd _ Hsh) in Hc.
  split; [exact Hs'|]. split.
  - intros c Hc'. apply elem_of_app in Hc' as [Hc'|Hc']; [exact (Hin c Hc')|].
    apply list_elem_of_singleton in Hc'. subst c. exact Hc.
  - intros c Hcg. destruct (decide (c = mkGridCell x y)) as [->|Hne].
    + rewrite getc_setc_eq; [|exact Hok|rewrite (inGridc_same_shape up fd _ Hsh); exact Hc].
      rewrite bool_decide_eq_true_2; [reflexivity|].
      apply elem_of_app. right. left.
    + rewrite getc_setc_ne;
        [| rewrite (inGridc_same_shape up fd _ Hsh); exact Hc
         | rewrite (inGridc_same_shape up fd _ Hsh); exact Hcg
         | congruence].
      rewrite (Hget c Hcg).
      destruct (decide (c ∈ exp)) as [He|He].
      * rewrite !bool_decide_eq_true_2; [reflexivity| |exact He].
        apply elem_of_app. left. exact He.
      * rewrite !bool_decide_eq_false_2; [reflexivity| |exact He].
        intros H. apply elem_of_app in H as [H|H]; [contradiction|].
        apply list_elem_of_singleton in H. contradiction.
Qed.

Lemma line_body_inv deltay deltaerr s s' x :
  line_inv (ln_cells s) (ln_expansion s) →
  line_body deltay deltaerr s x = Some s' →
  line_inv (ln_cells s') (ln_expansion s').
Proof.
  intros Hinv. unfold line_body.
  destruct (write_cell (ln_cells s) x (ln_y s) 2) as [up1|] eqn:H1; [|discriminate].
  simpl. pose proof (line_inv_push _ _ _ _ _ Hinv H1) as Hinv1.
  destruct (SFleb _ _).
  - destruct (write_cell up1 (x + 1) (ln_y s) 2) as [up2|] eqn:H2; [|discriminate].
    simpl. intros [= <-]. simpl. exact (line_inv_push _ _ _ _ _ Hinv1 H2).
  - intros [= <-]. exact Hinv1.
Qed.

Lemma line_fold_inv deltay deltaerr (l : list Z) : ∀ (s0 : option line_state) s',
  (∀ s, s0 = Some s → line_inv (ln_cells s) (ln_expansion s)) →
  foldl (λ st x, st ≫= λ s, line_body deltay deltaerr s x) s0 l = Some s' →
  line_inv (ln_cells s') (ln_expansion s').
Proof.
  induction l as [|x l IH]; intros s0 s' Hs0; simpl.
  - intros ->. apply Hs0. reflexivity.
  - apply IH. intros s Hs. destruct s0 as [s1|]; [|discriminate].
    simpl in Hs. exact (line_body_inv _ _ _ _ _ (Hs0 s1 eq_refl) Hs).
Qed.

Lemma line_phase_inv x0 y0 x1 y1 up ln :
  line_inv up [] → line_phase x0 y0 x1 y1 up = Some ln →
  line_inv (ln_cells ln) (ln_expansion ln).
Proof.
  intros Hinv. unfold line_phase.
  destruct (x1 <? x0); apply line_fold_inv; intros s [= <-]; exact Hinv.
Qed.

Lemma upslope_init_inv up :
  Array2D.ok fd → line_inv (upslope_init ND fd up) [].
Proof.
  intros Hok. split; [exact (upslope_init_shape ND fd up Hok)|].
  split; [intros c Hc; inv Hc|].
  intros c Hc. simpl. destruct Hok as (Hw & Hh & _).
  unfold upslope_init, Array2D.setNoData, Array2D.setAll, Array2D.resize. simpl.
  rewrite length_replicate.
  exact (get_replicate (Array2D.width fd) (Array2D.height fd) ND ND c Hw Hh Hc).
Qed.

End line_marks.

(** The call as a whole, once the line march has stayed in the grid. *)
Lemma d8_upslope_cells_search NO_FLOW dx dy d8_inverse ND x0 y0 x1 y1 fd up ln :
  flowdirs_ok NO_FLOW fd → d8_inverse_ok dx dy d8_inverse → ND ≠ 1 → ND ≠ 2 →
  line_phase x0 y0 x1 y1 (upslope_init ND fd up) = Some ln →
  ∃ out,
    d8_upslope_cells NO_FLOW dx dy d8_inverse ND x0 y0 x1 y1 fd up
    = Some (Returned out) ∧
    upslope_shape ND fd out ∧
    ∀ c, Array2D.inGridc fd c = true →
         (c ∈ ln_expansion ln → Array2D.getc out c = 2) ∧
         (c ∉ ln_expansion ln →
          (Array2D.getc out c = 1 ↔
           drains_into NO_FLOW dx dy fd (ln_expansion ln) c)) ∧
         (c ∉ ln_expansion ln →
          Array2D.getc out c = 1 ∨ Array2D.getc out c = ND).
Proof.
  intros Hfd Hinv H1 H2 Hline. pose proof (proj1 Hfd) as Hok.
  destruct (line_phase_inv ND fd x0 y0 x1 y1 _ ln (upslope_init_inv ND fd up Hok) Hline)
    as (Hs & HL & Hget).
  unfold d8_upslope_cells. rewrite Hline.
  destruct (expand_loop_terminates NO_FLOW dx dy d8_inverse ND fd
              (length (ln_expansion ln) + length (Array2D.cells fd))
              (ln_cells ln) (ln_expansion ln) Hs H1)
    as (st & Hrun & Hst).
  { pose proof (nodata_count_le (ln_cells ln)) as Hle.
    destruct Hs as (_ & [Hw Hh] & _).
    unfold Array2D.cells in Hle |- *. rewrite Hw, Hh in Hle. lia. }
  rewrite Hrun. simpl. eexists. split; [reflexivity|]. split; [exact Hst|].
  pose proof (search_init NO_FLOW dx dy ND fd H1 H2 (ln_expansion ln) HL
                (ln_cells ln) Hs Hget) as Hsi.
  pose proof (search_loop NO_FLOW dx dy d8_inverse ND fd Hfd Hinv H1 H2
                (ln_expansion ln) HL _ _ _ st Hsi Hrun) as Hfin.
  intros c Hc.
  eapply search_result; eassumption.
Qed.

Lemma example_inverse_ok :
  d8_inverse_ok Example.dx Example.dy Example.d8_inverse.
Proof.
  intros d Hd.
  assert (d = 1 ∨ d = 2 ∨ d = 3 ∨ d = 4 ∨ d = 5 ∨ d = 6 ∨ d = 7 ∨ d = 8)
    as [->|[->|[->|[->|[->|[->|[->| ->]]]]]]] by lia;
    vm_compute; split_and!; congruence.
Qed.

(** X14: when the line march stays in the grid, [d8_upslope_cells]
    returns; in the result the cells of the line hold 2 and every other
    cell holds 1 or the sentinel: 1 exactly when it drains into the line,
    in one step or more. *)
Theorem d8_upslope_cells_marks
    NO_FLOW dx dy d8_inverse FLOWDIR_NO_DATA x0 y0 x1 y1 fd up ln :
  flowdirs_ok NO_FLOW fd → d8_inverse_ok dx dy d8_inverse →
  FLOWDIR_NO_DATA ≠ 1 → FLOWDIR_NO_DATA ≠ 2 →
  line_phase x0 y0 x1 y1 (upslope_init FLOWDIR_NO_DATA fd up) = Some ln →
  ∃ out,
    d8_upslope_cells NO_FLOW dx dy d8_inverse FLOWDIR_NO_DATA x0 y0 x1 y1 fd up
    = Some (Returned out) ∧
    upslope_shape FLOWDIR_NO_DATA fd out ∧
    ∀ c, Array2D.inGridc fd c = true →
         (c ∈ ln_expansion ln → Array2D.getc out c = 2) ∧
         (c ∉ ln_expansion ln →
          (Array2D.getc out c = 1 ↔
           drains_into NO_FLOW dx dy fd (ln_expansion ln) c)) ∧
         (c ∉ ln_expansion ln →
          Array2D.getc out c = 1 ∨ Array2D.getc out c = FLOWDIR_NO_DATA).
Proof.
  exact (d8_upslope_cells_search NO_FLOW dx dy d8_inverse FLOWDIR_NO_DATA
           x0 y0 x1 y1 fd up ln).
Qed.

Lemma d8_upslope_cells_marks_witness :
  ∃ ln out,
    line_phase 3 0 3 0
      (upslope_init Example.FLOWDIR_NO_DATA Example.chain Example.empty_area)
    = Some ln ∧
    d8_upslope_cells Example.NO_FLOW Example.dx Example.dy Example.d8_inverse
      Example.FLOWDIR_NO_DATA 3 0 3 0 Example.chain Example.empty_area
    = Some (Returned out) ∧
    upslope_shape Example.FLOWDIR_NO_DATA Example.chain out ∧
    ∀ c, Array2D.inGridc Example.chain c = true →
         (c ∈ ln_expansion ln → Array2D.getc out c = 2) ∧
         (c ∉ ln_expansion ln →
          (Array2D.getc out c = 1 ↔
           drains_into Example.NO_FLOW Example.dx Example.dy Example.chain
            (ln_expansion ln) c)) ∧
         (c ∉ ln_expansion ln →
          Array2D.getc out c = 1 ∨ Array2D.getc out c = Example.FLOWDIR_NO_DATA).
Proof.
  eexists.
  assert (Hline : line_phase 3 0 3 0
            (upslope_init Example.FLOWDIR_NO_DATA Example.chain Example.empty_area)
            = Some _) by (vm_compute; reflexivity).
  destruct (d8_upslope_cells_marks Example.NO_FLOW Example.dx Example.dy
              Example.d8_inverse Example.FLOWDIR_NO_DATA 3 0 3 0
              Example.chain Example.empty_area _
              example_chain_ok example_inverse_ok
              ltac:(discriminate) ltac:(discriminate) Hline) as (out & Hout).
  exists out. split; [exact Hline|exact Hout].
Defined.
(** ** Segments along a row *)

Lemma calm_zero_div (y : float32) : calm (f32_div (f32_of_int 0) y) = true.
Proof. destruct y as [s|s| |s m e]; try destruct s; reflexivity. Qed.

Lemma calm_abs (d : float32) :
  calm d = true →
  calm (if SFltb d (f32_of_int 0) then SFopp d else d) = true.
Proof. destruct d as [s|s| |s m e]; try discriminate; try destruct s; reflexivity. Qed.

Lemma calm_add (e d : float32) :
  calm e = true → calm d = true → calm (f32_add e d) = true.
Proof.
  destruct e as [s|s| |s m x]; try discriminate;
    destruct d as [t|t| |t n y]; try discriminate;
    try destruct s; try destruct t; reflexivity.
Qed.

Lemma calm_below (e : float32) :
  calm e = true → SFleb f64_half (f64_of_f32 e) = false.
Proof. destruct e as [s|s| |s m x]; try discriminate; try destruct s; reflexivity. Qed.

Lemma elem_of_row_segment x0 x1 y c :
  c ∈ row_segment x0 x1 y ↔
  cell_y c = y ∧ Z.min x0 x1 <= cell_x c <= Z.max x0 x1.
Proof.
  unfold row_segment. rewrite list_elem_of_fmap. split.
  - intros (x & -> & Hx). apply elem_of_seqZ in Hx. simpl. lia.
  - intros [Hy Hx]. exists (cell_x c). split.
    + destruct c. simpl in *. congruence.
    + apply elem_of_seqZ. lia.
Qed.

Section row_march.

Variable ND : Z.
Variable fd : Array2D.t Z.

Local Abbreviation shape_ok := (upslope_shape ND fd).

(** With a calm error term the march never steps in [y]. *)
Lemma line_body_calm deltay d (s : line_state) x :
  calm d = true → calm (ln_error s) = true →
  line_body deltay d s x =
  up ← write_cell (ln_cells s) x (ln_y s) 2;
  Some (mkLine up (ln_expansion s ++ [mkGridCell x (ln_y s)]) (ln_y s)
               (f32_add (ln_error s) d)).
Proof.
  intros Hd He. unfold line_body.
  destruct (write_cell (ln_cells s) x (ln_y s) 2) as [up|]; [|reflexivity].
  simpl. rewrite (calm_below _ (calm_add _ _ He Hd)). reflexivity.
Qed.

Lemma line_fold_None deltay d (l : list Z) :
  foldl (λ st x, st ≫= λ s, line_body deltay d s x) None l = None.
Proof. induction l as [|x l IH]; [reflexivity|exact IH]. Qed.

Lemma line_fold_row deltay d (l : list Z) : ∀ s,
  calm d = true → calm (ln_error s) = true → shape_ok (ln_cells s) →
  (∀ x, x ∈ l → Array2D.inGridc fd (mkGridCell x (ln_y s)) = true) →
  ∃ s', foldl (λ st x, st ≫= λ s, line_body deltay d s x) (Some s) l = Some s' ∧
        ln_expansion s' = ln_expansion s ++ ((λ x, mkGridCell x (ln_y s)) <$> l).
Proof.
  induction l as [|x l IH]; intros s Hd He Hs Hin.
  - exists s. split; [reflexivity|]. simpl. rewrite app_nil_r. reflexivity.
  - change (foldl ?f (Some s) (x :: l))
      with (foldl f (line_body deltay d s x) l).
    rewrite (line_body_calm deltay d s x Hd He).
    assert (Hx : Array2D.inGrid (ln_cells s) x (ln_y s) = true).
    { pose proof Hs as (_ & Hsh & _).
      change (Array2D.inGridc (ln_cells s) (mkGridCell x (ln_y s)) = true).
      rewrite (inGridc_same_shape _ fd _ Hsh). apply Hin. left. }
    pose proof (write_cell_shape ND fd (ln_cells s) x (ln_y s) 2) as Hws.
    unfold write_cell in Hws |- *. rewrite Hx in Hws |- *. simpl.
    destruct (IH (mkLine (Array2D.set (ln_cells s) x (ln_y s) 2)
                    (ln_expansion s ++ [mkGridCell x (ln_y s)]) (ln_y s)
                    (f32_add (ln_error s) d)))
      as (s' & Hrun & Hexp).
    + exact Hd.
    + exact (calm_add _ _ He Hd).
    + exact (Hws _ Hs eq_refl).
    + intros z Hz. apply Hin. right. exact Hz.
    + exists s'. split; [exact Hrun|]. rewrite Hexp. simpl.
      rewrite <- app_assoc. reflexivity.
Qed.

Lemma line_fold_row_outside deltay d (l : list Z) : ∀ s,
  calm d = true → calm (ln_error s) = true → shape_ok (ln_cells s) →
  (∃ x, x ∈ l ∧ Array2D.inGridc fd (mkGridCell x (ln_y s)) = false) →
  foldl (λ st x, st ≫= λ s, line_body deltay d s x) (Some s) l = None.
Proof.
  induction l as [|x l IH]; intros s Hd He Hs (x0 & Hx0 & Hout); [inv Hx0|].
  change (foldl ?f (Some s) (x :: l))
    with (foldl f (line_body deltay d s x) l).
  rewrite (line_body_calm deltay d s x Hd He).
  pose proof (write_cell_shape ND fd (ln_cells s) x (ln_y s) 2) as Hws.
  unfold write_cell in Hws |- *.
  destruct (Array2D.inGrid (ln_cells s) x (ln_y s)) eqn:Hx; simpl.
  - apply IH.
    + exact Hd.
    + exact (calm_add _ _ He Hd).
    + exact (Hws _ Hs eq_refl).
    + simpl. apply elem_of_cons in Hx0 as [->|Hx0]; [|eauto].
      exfalso. pose proof Hs as (_ & Hsh & _).
      change (Array2D.inGridc (ln_cells s) (mkGridCell x (ln_y s)) = true) in Hx.
      rewrite (inGridc_same_shape _ fd _ Hsh) in Hx. congruence.
  - apply line_fold_None.
Qed.

Lemma line_phase_row_eq x0 x1 y up :
  ∃ deltay d,
    calm d = true ∧
    line_phase x0 y x1 y up =
    foldl (λ st x, st ≫= λ s, line_body deltay d s x)
          (Some (mkLine up [] y (f32_of_int 0)))
          (seqZ (Z.min x0 x1) (Z.max x0 x1 - Z.min x0 x1 + 1)).
Proof.
  unfold line_phase. destruct (Z.ltb_spec x1 x0) as [Hlt|Hge].
  - rewrite Z.sub_diag. change (wrap_int32 0) with 0.
    eexists _, _. split; [apply calm_abs, calm_zero_div|].
    rewrite Z.min_r, Z.max_l by lia. reflexivity.
  - rewrite Z.sub_diag. change (wrap_int32 0) with 0.
    eexists _, _. split; [apply calm_abs, calm_zero_div|].
    rewrite Z.min_l, Z.max_r by lia. reflexivity.
Qed.

(** A segment along a row that lies in the grid is marched cell by cell. *)
Lemma line_phase_row x0 x1 y up :
  shape_ok up →
  (∀ c, c ∈ row_segment x0 x1 y → Array2D.inGridc fd c = true) →
  ∃ ln, line_phase x0 y x1 y up = Some ln ∧
        ln_expansion ln = row_segment x0 x1 y.
Proof.
  intros Hs Hin. destruct (line_phase_row_eq x0 x1 y up) as (deltay & d & Hd & ->).
  destruct (line_fold_row deltay d
              (seqZ (Z.min x0 x1) (Z.max x0 x1 - Z.min x0 x1 + 1))
              (mkLine up [] y (f32_of_int 0)) Hd eq_refl Hs)
    as (ln & Hrun & Hexp).
  - intros x Hx. simpl. apply Hin. unfold row_segment.
    apply list_elem_of_fmap. exists x. split; [reflexivity|exact Hx].
  - exists ln. split; [exact Hrun|]. rewrite Hexp. reflexivity.
Qed.

Lemma line_phase_row_outside x0 x1 y up :
  shape_ok up →
  (∃ c, c ∈ row_segment x0 x1 y ∧ Array2D.inGridc fd c = false) →
  line_phase x0 y x1 y up = None.
Proof.
  intros Hs (c & Hc & Hout).
  destruct (line_phase_row_eq x0 x1 y up) as (deltay & d & Hd & ->).
  apply (line_fold_row_outside deltay d _ (mkLine up [] y (f32_of_int 0)) Hd eq_refl Hs).
  unfold row_segment in Hc. apply list_elem_of_fmap in Hc as (x & -> & Hx).
  exists x. split; [exact Hx|exact Hout].
Qed.

End row_march.

(** X15: a segment along a row, a single cell included, that lies in the
    grid: [d8_upslope_cells] returns, the cells of the segment hold 2, and
    every other cell holds 1 or the sentinel: 1 exactly when it drains
    into the segment. *)
Theorem d8_upslope_cells_row_segment
    NO_FLOW dx dy d8_inverse FLOWDIR_NO_DATA x0 x1 y fd up :
  flowdirs_ok NO_FLOW fd → d8_inverse_ok dx dy d8_inverse →
  FLOWDIR_NO_DATA ≠ 1 → FLOWDIR_NO_DATA ≠ 2 →
  0 <= Z.min x0 x1 → Z.max x0 x1 < Array2D.width fd →
  0 <= y < Array2D.height fd →
  ∃ out,
    d8_upslope_cells NO_FLOW dx dy d8_inverse FLOWDIR_NO_DATA x0 y x1 y fd up
    = Some (Returned out) ∧
    upslope_shape FLOWDIR_NO_DATA fd out ∧
    ∀ c, Array2D.inGridc fd c = true →
         (cell_y c = y ∧ Z.min x0 x1 <= cell_x c <= Z.max x0 x1 →
          Array2D.getc out c = 2) ∧
         (¬ (cell_y c = y ∧ Z.min x0 x1 <= cell_x c <= Z.max x0 x1) →
          (Array2D.getc out c = 1 ↔
           drains_into NO_FLOW dx dy fd (row_segment x0 x1 y) c)) ∧
         (¬ (cell_y c = y ∧ Z.min x0 x1 <= cell_x c <= Z.max x0 x1) →
          Array2D.getc out c = 1 ∨ Array2D.getc out c = FLOWDIR_NO_DATA).
Proof.
  intros Hfd Hinv H1 H2 Hmin Hmax Hy.
  destruct (line_phase_row FLOWDIR_NO_DATA fd x0 x1 y
              (upslope_init FLOWDIR_NO_DATA fd up)
              (upslope_init_shape FLOWDIR_NO_DATA fd up (proj1 Hfd)))
    as (ln & Hline & Hexp).
  { intros c Hc. apply elem_of_row_segment in Hc. apply inGridc_spec. lia. }
  destruct (d8_upslope_cells_search NO_FLOW dx dy d8_inverse FLOWDIR_NO_DATA
              x0 y x1 y fd up ln Hfd Hinv H1 H2 Hline) as (out & Hout & Hs & Hget).
  exists out. split; [exact Hout|]. split; [exact Hs|].
  intros c Hc. specialize (Hget c Hc). rewrite Hexp in Hget.
  rewrite <- elem_of_row_segment. exact Hget.
Qed.

Lemma d8_upslope_cells_row_segment_witness :
  ∃ out,
    d8_upslope_cells Example.NO_FLOW Example.dx Example.dy Example.d8_inverse
      Example.FLOWDIR_NO_DATA 3 0 2 0 Example.chain Example.empty_area
    = Some (Returned out) ∧
    upslope_shape Example.FLOWDIR_NO_DATA Example.chain out ∧
    ∀ c, Array2D.inGridc Example.chain c = true →
         (cell_y c = 0 ∧ Z.min 3 2 <= cell_x c <= Z.max 3 2 →
          Array2D.getc out c = 2) ∧
         (¬ (cell_y c = 0 ∧ Z.min 3 2 <= cell_x c <= Z.max 3 2) →
          (Array2D.getc out c = 1 ↔
           drains_into Example.NO_FLOW Example.dx Example.dy Example.chain
            (row_segment 3 2 0) c)) ∧
         (¬ (cell_y c = 0 ∧ Z.min 3 2 <= cell_x c <= Z.max 3 2) →
          Array2D.getc out c = 1 ∨ Array2D.getc out c = Example.FLOWDIR_NO_DATA).
Proof.
  apply (d8_upslope_cells_row_segment Example.NO_FLOW Example.dx Example.dy
           Example.d8_inverse Example.FLOWDIR_NO_DATA 3 2 0
           Example.chain Example.empty_area).
  - exact example_chain_ok.
  - exact example_inverse_ok.
  - discriminate.
  - discriminate.
  - simpl. lia.
  - simpl. lia.
  - simpl. lia.
Defined.

(** X16: a segment along a row with a cell outside the grid: the line
    march writes that cell without a check, and what the call does is not
    defined; no error is raised. *)
Theorem d8_upslope_cells_row_segment_outside
    NO_FLOW dx dy d8_inverse FLOWDIR_NO_DATA x0 x1 y fd up :
  Array2D.ok fd →
  ¬ (0 <= Z.min x0 x1 ∧ Z.max x0 x1 < Array2D.width fd ∧
     0 <= y < Array2D.height fd) →
  d8_upslope_cells NO_FLOW dx dy d8_inverse FLOWDIR_NO_DATA x0 y x1 y fd up
  = Some Undefined.
Proof.
  intros Hok Hout. unfold d8_upslope_cells.
  rewrite (line_phase_row_outside FLOWDIR_NO_DATA fd x0 x1 y
             (upslope_init FLOWDIR_NO_DATA fd up)
             (upslope_init_shape FLOWDIR_NO_DATA fd up Hok)); [reflexivity|].
  destruct (decide (0 <= y < Array2D.height fd)) as [Hy|Hy].
  - destruct (decide (0 <= Z.min x0 x1)) as [Hmin|Hmin].
    + exists (mkGridCell (Z.max x0 x1) y). split.
      * apply elem_of_row_segment. simpl. lia.
      * apply not_true_is_false. rewrite inGridc_spec. simpl. lia.
    + exists (mkGridCell (Z.min x0 x1) y). split.
      * apply elem_of_row_segment. simpl. lia.
      * apply not_true_is_false. rewrite inGridc_spec. simpl. lia.
  - exists (mkGridCell (Z.min x0 x1) y). split.
    + apply elem_of_row_segment. simpl. lia.
    + apply not_true_is_false. rewrite inGridc_spec. simpl. lia.
Qed.

Lemma d8_upslope_cells_row_segment_outside_witness :
  d8_upslope_cells Example.NO_FLOW Example.dx Example.dy Example.d8_inverse
    Example.FLOWDIR_NO_DATA 3 0 7 0 Example.chain Example.empty_area
  = Some Undefined.
Proof.
  apply (d8_upslope_cells_row_segment_outside Example.NO_FLOW Example.dx Example.dy
           Example.d8_inverse Example.FLOWDIR_NO_DATA 3 7 0
           Example.chain Example.empty_area).
  - unfold Array2D.ok. simpl. split; [lia|]. split; [lia|reflexivity].
  - simpl. lia.
Defined.
(** ** Flow accumulation and upslope cells agree *)

Section drainage_facts.

Variable NO_FLOW : Z.
Variables dx dy : Z → Z.
Variable fd : Array2D.t Z.

Local Abbreviation flow_to := (flow_to NO_FLOW dx dy fd).
Local Abbreviation walk := (walk NO_FLOW dx dy fd).
Local Abbreviation downstream := (downstream NO_FLOW dx dy fd).
Local Abbreviation trace := (trace NO_FLOW dx dy fd).

Lemma flow_to_downstream c n :
  flow_to c = Some n ↔ downstream c = Some n ∧ is_data fd n = true.
Proof.
  rewrite flow_to_Some. unfold_downstream.
  destruct (is_data fd c); simpl; [|split; [intros [? _]|intros [? _]]; discriminate].
  destruct (Z.eqb_spec (Array2D.getc fd c) NO_FLOW) as [Hn|Hn]; simpl.
  - split; [intros (_ & H & _); contradiction|intros [? _]; discriminate].
  - split.
    + intros (_ & _ & <- & Hd). auto.
    + intros [[= <-] Hd]. auto.
Qed.

(** Towards a data cell, draining and flowing are the same. *)
Lemma trace_walk c (k : nat) : ∀ c',
  is_data fd c = true → (trace k c' = Some c ↔ walk k c' = Some c).
Proof.
  induction k as [|k IH]; intros c' Hc; [reflexivity|].
  change (trace (S k) c') with (downstream c' ≫= trace k).
  change (walk (S k) c') with (flow_to c' ≫= walk k).
  split.
  - destruct (downstream c') as [c1|] eqn:Hd; [|discriminate]. simpl.
    intros Ht. pose proof (proj1 (IH c1 Hc) Ht) as Hw.
    assert (Hc1 : is_data fd c1 = true).
    { destruct k as [|k]; [simpl in Hw; congruence|].
      apply (walk_data_start NO_FLOW dx dy fd (S k) c1 c); [lia|exact Hw]. }
    rewrite (proj2 (flow_to_downstream c' c1) (conj Hd Hc1)). exact Hw.
  - destruct (flow_to c') as [c1|] eqn:Hf; [|discriminate]. simpl.
    intros Hw. apply flow_to_downstream in Hf as [-> _]. simpl.
    exact (proj2 (IH c1 Hc) Hw).
Qed.

Lemma drains_into_cell c c' :
  is_data fd c = true →
  drains_into NO_FLOW dx dy fd [c] c' ↔ ∃ k, walk (S k) c' = Some c.
Proof.
  intros Hc. split.
  - intros (k & m & Hk & Hm). apply list_elem_of_singleton in Hm. subst m.
    exists k. apply trace_walk; assumption.
  - intros (k & Hk). exists k, c. split; [|left].
    apply trace_walk; assumption.
Qed.

End drainage_facts.

Lemma row_segment_cell x y : row_segment x x y = [mkGridCell x y].
Proof.
  unfold row_segment. rewrite Z.min_id, Z.max_id, Z.sub_diag. reflexivity.
Qed.

(** The cells that [d8_upslope_cells] marks from the single cell [c] are
    as many as the data cells whose flow path leads through [c]. *)
Lemma upslope_marks_count NO_FLOW dx dy ND fd out c :
  upstream_acyclic NO_FLOW dx dy fd c → is_data fd c = true →
  ND ≠ 1 → ND ≠ 2 →
  (∀ c', Array2D.inGridc fd c' = true →
         (c' ∈ [c] → Array2D.getc out c' = 2) ∧
         (c' ∉ [c] → (Array2D.getc out c' = 1 ↔
                      drains_into NO_FLOW dx dy fd [c] c')) ∧
         (c' ∉ [c] → Array2D.getc out c' = 1 ∨ Array2D.getc out c' = ND)) →
  Z.of_nat (length (filter (λ c', Array2D.getc out c' ≠ ND) (Array2D.cells fd)))
  = upslope_count NO_FLOW dx dy fd c.
Proof.
  intros Hup Hc H1 H2 Hget.
  rewrite upslope_count_sum, <- Zsum_filter. apply Zsum_ext. intros c' Hc'.
  apply elem_of_cells in Hc'. destruct (Hget c' Hc') as (Hline & Hdr & Hval).
  f_equal. apply eq_true_iff_eq.
  rewrite bool_decide_eq_true, andb_true_iff.
  destruct (decide (c' = c)) as [->|Hne].
  - split.
    + intros _. split; [exact Hc|].
      apply on_flow_path_iff_up; [assumption..|]. exists 0%nat. reflexivity.
    + intros _. rewrite Hline by left. congruence.
  - assert (HnL : c' ∉ [c]) by (intros H; apply list_elem_of_singleton in H; contradiction).
    split.
    + intros Hm.
      assert (Hd : drains_into NO_FLOW dx dy fd [c] c').
      { apply (Hdr HnL). destruct (Hval HnL) as [Hv|Hv]; [exact Hv|contradiction]. }
      apply (drains_into_cell NO_FLOW dx dy fd c c' Hc) in Hd as (k & Hk).
      assert (Hd' : is_data fd c' = true).
      { apply (walk_data_start NO_FLOW dx dy fd (S k) c' c); [lia|exact Hk]. }
      split; [exact Hd'|]. apply on_flow_path_iff_up; [assumption..|]. eauto.
    + intros [Hd' Hp].
      apply on_flow_path_iff_up in Hp as (k & Hk); [|assumption..].
      destruct k as [|k]; [simpl in Hk; congruence|].
      rewrite (proj2 (Hdr HnL)); [congruence|].
      apply (drains_into_cell NO_FLOW dx dy fd c c' Hc). eauto.
Qed.

(** ** The state before the drain loop *)

Lemma sources_fold_order fd dep (l : list GridCell) : ∀ acc,
  (∀ c, c ∈ l → Array2D.inGridc fd c = true) →
  foldl (sources_body fd dep) acc l =
  acc ++ filter (λ c, Array2D.getc dep c = 0 ∧ is_data fd c = true) l.
Proof.
  induction l as [|c l IH]; intros acc Hl; [rewrite app_nil_r; reflexivity|].
  assert (Hc : Array2D.inGridc fd c = true) by (apply Hl; left).
  change (foldl (sources_body fd dep) acc (c :: l))
    with (foldl (sources_body fd dep) (sources_body fd dep acc c) l).
  rewrite IH by (intros c' Hc'; apply Hl; right; exact Hc').
  assert (Hd : is_data fd c = negb (Array2D.isNoData fd (cell_x c) (cell_y c))).
  { unfold is_data. rewrite Hc. reflexivity. }
  unfold sources_body.
  change (Array2D.get dep (cell_x c) (cell_y c)) with (Array2D.getc dep c).
  rewrite filter_cons.
  destruct (Z.eqb_spec (Array2D.getc dep c) 0) as [H0|H0];
    destruct (Array2D.isNoData fd (cell_x c) (cell_y c)); simpl in *.
  - rewrite decide_False by (intros [_ ?]; congruence). reflexivity.
  - rewrite decide_True by (split; [exact H0|exact Hd]).
    rewrite <- app_assoc. reflexivity.
  - rewrite decide_False by (intros [? _]; contradiction). reflexivity.
  - rewrite decide_False by (intros [? _]; contradiction). reflexivity.
Qed.

(** X18: the state in which the drain loop of [d8_flow_accum] starts,
    under every schedule of the first loop: every cell of the dependency
    raster holds at most the number of data cells whose direction points
    at it, which is at most 8, so that an [int8_t] holds it; at least 1 if
    there is such a cell; and exactly that number if no increment was
    lost, which is the case when one thread runs the loop.  The area is 0
    on the data cells and the sentinel elsewhere, and the queue holds, in
    row-major order, the data cells whose dependency value is 0. *)
Theorem d8_flow_accum_initial_state NO_FLOW dx dy castU sched fd area0 :
  flowdirs_ok NO_FLOW fd →
  lossless NO_FLOW dx dy [] fd = true ∧
  ∃ st, drain_init NO_FLOW dx dy castU sched fd area0 = st ∧
    ds_visited st = [] ∧
    (∀ n, Array2D.inGridc fd n = true →
          0 <= Array2D.getc (ds_dependency st) n <= indegree NO_FLOW dx dy fd n ∧
          indegree NO_FLOW dx dy fd n <= 8 ∧
          (1 <= indegree NO_FLOW dx dy fd n →
           1 <= Array2D.getc (ds_dependency st) n) ∧
          (lossless NO_FLOW dx dy sched fd = true →
           Array2D.getc (ds_dependency st) n = indegree NO_FLOW dx dy fd n)) ∧
    (∀ c, Array2D.inGridc fd c = true →
          Array2D.getc (ds_area st) c = if is_data fd c then castU 0 else castU (-1)) ∧
    ds_sources st =
    filter (λ c, Array2D.getc (ds_dependency st) c = 0 ∧ is_data fd c = true)
           (Array2D.cells fd).
Proof.
  intros Hfd. split; [exact (serial_lossless NO_FLOW dx dy fd Hfd)|].
  eexists. split; [reflexivity|]. unfold drain_init.
  destruct (dependency_phase_any NO_FLOW dx dy castU fd Hfd sched area0)
    as (area & dep & Heq & _ & _ & _ & _ & _ & Hdep & Harea).
  pose proof (dependency_phase_spec NO_FLOW dx dy castU fd Hfd sched area0) as Hex.
  rewrite Heq in Hex |- *. simpl.
  split; [reflexivity|]. split; [|split; [exact Harea|]].
  - intros n Hn. destruct (Hdep n Hn) as [Hb Hpos].
    split; [exact Hb|]. split; [|split; [exact Hpos|]].
    + apply (indegree_le NO_FLOW dx dy fd Hfd n).
    + intros Hll.
      destruct (Hex Hll) as (area' & dep' & [= <- <-] & _ & _ & _ & _ & _ & Hd' & _).
      exact (Hd' n Hn).
  - unfold sources_phase. rewrite sources_fold_order; [reflexivity|].
    intros c. apply elem_of_cells.
Qed.

Lemma d8_flow_accum_initial_state_witness :
  lossless Example.NO_FLOW Example.dx Example.dy [] Example.confluence = true ∧
  ∃ st, drain_init Example.NO_FLOW Example.dx Example.dy wrap_int32
          Example.overtaken Example.confluence Example.empty_area = st ∧
    ds_visited st = [] ∧
    (∀ n, Array2D.inGridc Example.confluence n = true →
          0 <= Array2D.getc (ds_dependency st) n
            <= indegree Example.NO_FLOW Example.dx Example.dy Example.confluence n ∧
          indegree Example.NO_FLOW Example.dx Example.dy Example.confluence n <= 8 ∧
          (1 <= indegree Example.NO_FLOW Example.dx Example.dy Example.confluence n →
           1 <= Array2D.getc (ds_dependency st) n) ∧
          (lossless Example.NO_FLOW Example.dx Example.dy Example.overtaken
             Example.confluence = true →
           Array2D.getc (ds_dependency st) n =
           indegree Example.NO_FLOW Example.dx Example.dy Example.confluence n)) ∧
    (∀ c, Array2D.inGridc Example.confluence c = true →
          Array2D.getc (ds_area st) c =
          if is_data Example.confluence c then wrap_int32 0 else wrap_int32 (-1)) ∧
    ds_sources st =
    filter (λ c, Array2D.getc (ds_dependency st) c = 0
                 ∧ is_data Example.confluence c = true)
           (Array2D.cells Example.confluence).
Proof.
  apply (d8_flow_accum_initial_state Example.NO_FLOW Example.dx Example.dy wrap_int32).
  exact example_confluence_ok.
Defined.

(** ** The sign *)

(** X19: [sgn] gives -1 for a negative number, +1 for a positive one and 0
    for 0, as its documentation says. *)
Theorem sgn_sign (val : Z) :
  sgn val = Z.sgn val ∧
  (sgn val = -1 ↔ val < 0) ∧ (sgn val = 0 ↔ val = 0) ∧ (sgn val = 1 ↔ 0 < val).
Proof.
  unfold sgn.
  destruct (Z.ltb_spec 0 val); destruct (Z.ltb_spec val 0); simpl; lia.
Qed.

(** ** Cells at the edge *)

Lemma neighbour_or_missing elevations x y centre :
  SF_missing elevations x y = true → neighbour_or elevations x y centre = centre.
Proof.
  unfold SF_missing, SF_isNoData, neighbour_or.
  destruct (Array2D.inGrid elevations x y); simpl; [|reflexivity].
  intros ->. reflexivity.
Qed.

Lemma TerrainSetup_isolated elevations x y zscale :
  isolated_cell elevations x y = true →
  TerrainSetup elevations x y zscale =
  let v := f64_mul (Array2D.get elevations x y) (f64_of_f32 zscale) in
  mkSetup v v v v v v v v v.
Proof.
  unfold isolated_cell. cbn [forallb fst snd]. rewrite !andb_true_iff.
  rewrite !Z.add_0_r.
  change (x + -1) with (x - 1). change (y + -1) with (y - 1).
  intros (Ha & Hb & Hc & Hd & Hf & Hg & Hh & Hi & _).
  unfold TerrainSetup. cbv zeta.
  rewrite !neighbour_or_missing by assumption. reflexivity.
Qed.


